(* ===== verification/_CoqProject ===== *)
-Q . S2P
Prelude.v
Strings.v
Json.v
Model.v
Runtime.v
Registry.v
Lifecycle.v
Router.v
Server.v
Invariants.v
Bounds.v
Safety.v
Delivery.v
Progress.v
Order.v
Eviction.v
Spec.v
Refinement.v
Routes.v
Cors.v
Service.v
Locking.v
Schedules.v
Races.v
Scenarios.v
