(* ===== verification/Prelude.v ===== *)
(** * chat-rs: a verification development for the presence and messaging relay

    The program ([src/src/main.rs]) is a single-process chat relay.  Named
    participants register over HTTP, open a websocket, and send
    point-to-point text messages that the server forwards to the websocket
    of the recipient.  All state is one [HashMap<String, Client>] behind a
    [tokio::sync::Mutex]; a client that loses its websocket is evicted by a
    timer task ten seconds later unless it reconnects.  The program runs on
    the single-threaded ([current_thread]) runtime, so the code between two
    [await]s runs without interruption; the handlers interleave at their
    [await]s only.

    ** The parts of the program and the files that model them

    - [Prelude] (this file): Rust's [Result] with a notation for [?];
      iteration over a [HashMap] ([map_find] for [iter().find], [map_any]
      for [iter().any], [retain]) with the lemmas that make a search
      independent of the iteration order; lemmas on maps, on sums over a
      map ([map_sum]) and on string append; the hint databases [chat] and
      [chat_rw] and the tactics shared by all files.
    - [Strings]: [str::to_lowercase] as the class [Lowercase] (one law:
      idempotence) with its ASCII instance, and the equivalence [eq_ci],
      "same name up to case".
    - [Json]: the text [serde_json] writes for strings, structs and
      sequences, the trait [serde::Serialize] as the class [Serialize],
      and a reader of string literals with the round trip
      [parse_serialize_str].
    - [Model]: the structs of lines 10-51 as records ([Client], [Message],
      [RegistrationRequest], [RegistrationResponse], [MessageRequest]),
      their derived serialisations as instances of [Serialize], and the
      values a handler returns ([Reply], [Rejection]); [json] is
      [warp::reply::json], for every serialisable value.
    - [Runtime]: what the handlers use of tokio: eviction tasks ([Timer],
      [spawn], [abort], [due]) and connections (the channel and the socket
      of one run of [client_connected]: [Connection], [send], [recv],
      [ws_send]).
    - [Registry]: [handle_registration] (lines 53-91) as its two critical
      sections [registration_check] and [registration_insert],
      [handle_status] (188-204), [handle_list_clients] (206-211), the
      search [find_by_token], and the invariant [registry_ok].
    - [Lifecycle]: [ws_handler] (144-159) and the steps of
      [client_connected] (93-142): [attach], [outbound_pump], [detach] and
      the body of the eviction task, [evict].
    - [Router]: [handle_send_message] (161-186), with [resolve] for its
      three lookups, and the outcomes the specification names
      ([route_outcome]).
    - [Server]: the whole state ([Server]) and the transition function
      [exec], one [Input] per atomic piece of work; [step], [run],
      [reachable] and [steps]; the tactics [exec_inv] and [exec_cases] for
      the case analysis of a step.
    - [Invariants]: [server_ok], the invariant of the reachable states,
      with a decision procedure.
    - [Bounds]: what bounds the tasks, the connections, the deadlines and
      the registry in a reachable state.
    - [Safety]: uniqueness of names, who removes a client, the grace
      period.
    - [Delivery]: from an accepted message to a frame on the socket.
    - [Progress]: the tasks the runtime resumes on its own ([internal]),
      the measure [work] that each of them lowers, the ready tasks
      ([pending]) and a schedule that runs them until none is left
      ([settle]).
    - [Order]: one call of [client_connected] as the sequence of its
      sections ([client_connected], [next_phase]) and the projection of a
      run onto a connection ([segments]).
    - [Eviction]: the invariant of the stored handles ([handles_ok]) and
      the conditions under which a client is, and is not, removed.
    - [Spec]: the client record and the connection state machine of the
      specification ([SpecClient], [spec_step]) with the edges of its
      diagram ([transition]); written from the specification.
    - [Refinement]: the abstraction [abs] from the state of the program to
      the state of the specification, and the invariant [session_ok] of
      the runs that keep a discipline.
    - [Routes]: the filters of [main] (lines 216-254) in their order, with
      the filters of [warp] they are built from and the way [warp] answers
      a request that every route has rejected.
    - [Cors]: the CORS wrapper of lines 255-260: its configuration
      ([cors_policy]), the classification of a request ([check_request]),
      the wrapped filter ([wrap]) and the filter that [main] serves
      ([service]).
    - [Service]: [main] itself: one HTTP exchange ([respond], [handle]) and
      the service applied to a sequence of requests from the empty registry
      ([main]); what a reply of each endpoint looks like ([conforms]).
    - [Locking]: the lock of the registry and the awaits: each handler and
      each spawned task as the sequence of its operations on the lock
      ([handle_registration_ops], [client_connected_ops], ...), and a
      single-threaded runtime with one lock ([Sys], [sys_exec]) that runs
      them and lets a task abort another.
    - [Schedules]: the orders of critical sections that the lock allows,
      with an executable scheduler ([schedule]) that builds a run for an
      order.
    - [Races]: three interleavings in which the program departs from the
      specification, each stated for every state that allows it.
    - [Scenarios]: runs of [exec] from the initial state, evaluated.

    ** How state and operations correspond to the code

    - [HashMap<String, Client>] is [gmap string Client].  Rust iterates a
      [HashMap] in an unspecified order; the model iterates in the order of
      [map_to_list].  Every theorem about a search by token assumes, or
      derives from the invariant, that tokens are unique, and
      [map_find_perm] shows that the result is then the same for every
      order.
    - A handler is a function of its arguments and the parts of the state
      it touches, returning the new parts and [Result Reply Rejection] as in
      the source; an early return through [?] is the [Err] branch of the
      notation [let? x := e in k].  In the transition system the lock is
      not an object: a critical section is the body of one definition and
      one step of [exec].  [Locking] has the lock, and shows that no task
      takes a step while another holds the guard.
    - [Uuid::new_v4] is an argument of the registration: the step relation
      assumes ([env_ok]) that a generated token was never generated before,
      recorded in the history variable [issued].  No theorem about a single
      handler needs the assumption; the invariant does.
    - A [JoinHandle] and an [UnboundedSender] are natural numbers that name
      a task and a connection.  They are drawn from the counter [next_id],
      which only grows, so a new name names nothing.
    - Time is a natural number of seconds, advanced by the input [InTick];
      a task is due when the clock has reached its deadline.  An eviction
      may run at any instant from its deadline on.
    - [warp::reject()] is [warp::reject::not_found()]: there is one
      rejection, [NotFound].

    ** The theorems

    - Each handler and each step of [client_connected] has its functional
      specification on every branch ([handle_registration_taken],
      [handle_registration_fresh], [handle_status_spec],
      [ws_handler_spec], [attach_registered],
      [detach_registered], [evict_spec], [outbound_pump_spec],
      [handle_send_message_delivers], [handle_send_message_rejected]) and
      preserves [registry_ok].
    - [register_steps_atomic] relates the two-step registration of [exec]
      to [handle_registration]; [handle_send_message_outcome] relates the
      handler to the routing of the specification.
    - [reachable_server_ok] is the invariant of the transition system, by
      induction on [reachable] from one preservation lemma per input.
    - [grace_period], [step_client_lost], [names_unique_ci] and
      [token_lookup_deterministic] are what a client can rely on.
    - [send_message_queued], [steps_conn] and [outbox_history] follow a
      message from the handler to the socket: while a socket is open its
      frames are the accepted messages, each once and in order;
      [send_delivered] puts them together for one send that is answered
      200, and [Message_of_to_json] shows that a frame determines its
      message.
    - [internal_steps_bounded] is termination: every step of a task lowers
      [work], so no schedule runs tasks for ever.  [settle_quiescent] gives
      a schedule that reaches a state where no task can run, and
      [quiescent_delivers] shows that in such a state every open socket has
      received the frames of all the messages accepted for it, which read
      back as those messages.
    - [reachable_bounded], [steps_next_id] and [Message_to_json_length]
      bound the sizes of the state and of a frame.
    - [program_order] shows that in every run the sections of a connection
      occur in the order of the source, each once; [phase_monotone] that a
      connection is never removed and its phase never goes back;
      [conn_origin] that every connection comes from an admitted upgrade and
      that the clean-up runs on a closed socket.
    - [reachable_handles_ok] is the invariant of the eviction handles.
      [eviction_completes] shows that an eviction that is due is carried
      out once the ready tasks have run, and [expired_unresolvable] that
      the token is then rejected by [handle_status] and [ws_handler];
      [never_connected_persists] shows the other side: a client that never
      opens a websocket is never removed.
    - [refinement_step] and [refinement_run] show that the program
      implements the state machine of the specification in every run that
      keeps the discipline [disciplined]: registrations do not overlap, a
      token has one live connection at a time, and no eviction runs between
      the upgrade of a connection and the start of [client_connected].
      [program_follows_diagram] shows that in such a run every client
      moves along the edges of the diagram of the specification
      ([spec_step_diagram] shows it of the specification itself), and
      [diagram_needs_discipline] a step without the discipline that does
      not.  [status_correspondence] and [live_connection_attached] read the
      states Registered, Connected and Grace off the runtime,
      [route_refinement] compares the two routings, and
      [refinement_needs_discipline] shows a step outside the discipline
      that the specification does not have.
    - [routes_reach_handlers], [calls_single_handler] and
      [rejected_send_message_status] are about the route table: every
      endpoint reaches its handler, no request reaches two handlers, and a
      rejected send is answered 405 because the route of the static files
      is tried after it.
    - [preflight_spec] and [cors_transparent] are the CORS wrapper: a
      preflight request is answered by the wrapper alone, and every other
      request is answered as the bare routes answer it, with the origin
      echoed on replies and not on rejections.
    - [handle_refines] shows that an HTTP exchange is a run of at most two
      steps of [exec], [main_reachable] that the states [main] goes through
      are reachable, and [reply_conforms] that a reply has the status and
      the JSON shape of its endpoint and shows of a client its name only.
      [interface_table] gives the status of the response at each endpoint
      from the request and the registry: 200 or 406 for a registration,
      200 or 405 for a send, 200 or 101 for a known token and the answer
      of the static files for an unknown one.
    - [program_bracketed] shows that every handler and task takes, uses
      and drops the lock with no await in between, whatever the turns of
      its loops.  It follows that a run of any number of them is a
      sequence of uninterrupted critical sections ([program_atomic]), that
      a task which reaches [lock().await] gets the guard at once
      ([lock_never_contended]), that no run is stuck before every task
      has ended ([program_completes]), and that an eviction task which
      the start of a connection aborts takes no step afterwards
      ([abort_cancels]): this is why [abort] of file [Runtime] removes the
      task at once.  [call_inputs_script] and
      [registry_changes_in_sections] tie the sections to the inputs of
      [exec].
    - [section_orders] characterises the orders in which critical sections
      run: an order occurs in some run exactly when it keeps, for every
      task, the order of its script ([schedule_sound], [schedule_complete],
      [run_in_program_order]).  The lock serialises sections, not
      handlers, and [races_scheduled] shows that the three runs below are
      runs under the lock.
    - [registration_overlap], [stale_cleanup_evicts_connected] and
      [upgrade_then_evicted] state, for every state that allows them, the
      runs in which the program departs from the specification: two
      registrations of one name both accepted, a client evicted while
      connected, a connection left open for a token nobody carries.
    - The scenarios evaluate the behaviours the specification lists, one
      instance of each of these runs, a message accepted and then dropped
      ([lost_in_grace]) and two eviction tasks pending for one client
      ([two_timers_pending]).

    ** Bounds and fuel

    Nothing is bounded: names, bodies, the registry, the channels and the
    runs are of any size.  A run of [Locking] fixes, for each task, the
    number of turns of its loops (the frames a peer sends, the messages a
    pump forwards); the theorems hold for every choice.  Two functions take
    fuel.  The reader of string
    literals, [unescape], consumes a character at every step, so the
    length of the input is enough, and [parse_serialize_str] proves that
    the reader returns a result on everything the writer produces.  The
    schedule [settle] runs one task per unit of fuel; every task lowers
    [work], so [work s] is enough from the state [s], and
    [settle_quiescent] proves that with this fuel it ends in a state where
    no task can run.

    ** What is not modelled, and why

    - The listening socket, its address and [println] (lines 262-263):
      I/O.  [main] serves a sequence of requests instead; exchanges that
      overlap are runs of [exec].
    - The text of the CORS headers: the model keeps the lists they are
      built from.
    - The order in which tokio resumes the tasks that are ready, and its
      cooperative budget (whether a task is in fact suspended at an await
      that could complete at once): the theorems on tasks hold for every
      order, and [settle] is one of them; [Locking] lets a task be
      suspended at every await.
    - The spawning of tasks in the runs of [Locking] and [Schedules]: the
      tasks of a run are there from its start.  That a task does not run
      before it is spawned (an eviction after the clean-up that spawns it,
      a pump after the start of its connection) is kept by the transition
      system of [Server], whose inputs are enabled by its state.
    - The files under [static/]: a parameter of the routes.
    - Deserialisation of request bodies and the websocket handshake: a
      request carries their results.
    - The content of inbound websocket frames: the program discards them
      (line 121).
    - Unicode case folding beyond ASCII: the theorems hold for every
      instance of [Lowercase]; the scenarios run with the ASCII one. *)

From stdpp Require Export gmap strings list fin_maps relations.

(** ** Results and the [?] operator *)

Inductive Result (T E : Type) : Type :=
| Ok (t : T)
| Err (e : E).

Arguments Ok {T E} t.
Arguments Err {T E} e.

Definition ok_or_else {T E : Type} (o : option T) (e : E) : Result T E :=
  match o with
  | Some t => Ok t
  | None => Err e
  end.

Definition is_ok {T E : Type} (r : Result T E) : bool :=
  match r with
  | Ok _ => true
  | Err _ => false
  end.

Declare Scope chat_scope.
Delimit Scope chat_scope with chat.

Notation "'let?' x := e 'in' k" :=
  (match e with
   | Ok x => k
   | Err r => Err r
   end)
  (at level 10, x name, e at level 100, k at level 200,
   format "'let?'  x  :=  e  'in'  '/' k") : chat_scope.

Notation "'let?' ' p := e 'in' k" :=
  (match e with
   | Ok p => k
   | Err r => Err r
   end)
  (at level 10, p pattern, e at level 100, k at level 200,
   format "'let?'  ' p  :=  e  'in'  '/' k") : chat_scope.

Open Scope chat_scope.

(** ** Iteration over a [HashMap]

    [map_find P m] is [m.iter().find(|(k, v)| P k v)], [map_any] is
    [m.iter().any(..)] and [retain] is [m.retain(..)]. *)

Section map_iter.
Context {K : Type} `{Countable K} {A : Type}.
Implicit Types (m : gmap K A) (P : K → A → bool).

Definition map_find P m : option (K * A) :=
  find (λ kv, P kv.1 kv.2) (map_to_list m).

Definition map_any P m : bool :=
  bool_decide (is_Some (map_find P m)).

Definition retain P m : gmap K A :=
  filter (λ kv, P kv.1 kv.2 = true) m.

(** At most one entry of [m] satisfies [P]. *)
Definition at_most_one P m : Prop :=
  ∀ k1 a1 k2 a2,
    m !! k1 = Some a1 → m !! k2 = Some a2 →
    P k1 a1 = true → P k2 a2 = true → k1 = k2.

Lemma find_perm_unique (f : K * A → bool) (l1 l2 : list (K * A)) :
  l1 ≡ₚ l2 →
  (∀ x y, x ∈ l1 → y ∈ l1 → f x = true → f y = true → x = y) →
  find f l1 = find f l2.
Proof.
  intros Hp Hu.
  destruct (find f l1) as [x|] eqn:E1, (find f l2) as [y|] eqn:E2; try done.
  - apply find_some in E1 as [I1 F1], E2 as [I2 F2].
    rewrite <- !list_elem_of_In in *. rewrite <- Hp in I2.
    f_equal. by apply Hu.
  - apply find_some in E1 as [I1 F1]. rewrite <- list_elem_of_In in I1.
    rewrite Hp in I1. rewrite list_elem_of_In in I1.
    by rewrite (find_none _ _ E2 _ I1) in F1.
  - apply find_some in E2 as [I2 F2]. rewrite <- list_elem_of_In in I2.
    rewrite <- Hp in I2. rewrite list_elem_of_In in I2.
    by rewrite (find_none _ _ E1 _ I2) in F2.
Qed.

Lemma map_find_Some P m k a :
  map_find P m = Some (k, a) → m !! k = Some a ∧ P k a = true.
Proof.
  unfold map_find. intros [Hin HP]%find_some.
  by rewrite <- list_elem_of_In, elem_of_map_to_list in Hin.
Qed.

Lemma map_find_None P m :
  map_find P m = None ↔ ∀ k a, m !! k = Some a → P k a = false.
Proof.
  unfold map_find. split.
  - intros Hn k a Hk. apply (find_none _ _ Hn (k, a)).
    by rewrite <- list_elem_of_In, elem_of_map_to_list.
  - intros Hall. destruct (find _ _) as [[k a]|] eqn:E; [|done].
    apply find_some in E as [Hin HP].
    rewrite <- list_elem_of_In, elem_of_map_to_list in Hin.
    simpl in HP. by rewrite (Hall _ _ Hin) in HP.
Qed.

Lemma map_find_is_Some P m :
  is_Some (map_find P m) ↔ ∃ k a, m !! k = Some a ∧ P k a = true.
Proof.
  split.
  - intros [[k a] Hf]. exists k, a. by apply map_find_Some.
  - intros (k & a & Hk & HP). destruct (map_find P m) eqn:E; [eauto|].
    rewrite map_find_None in E. by rewrite (E _ _ Hk) in HP.
Qed.

Lemma map_find_unique P m k a :
  at_most_one P m → m !! k = Some a → P k a = true →
  map_find P m = Some (k, a).
Proof.
  intros Hu Hk HP.
  destruct (map_find P m) as [[k' a']|] eqn:E.
  - apply map_find_Some in E as [Hk' HP'].
    assert (k' = k) as -> by eauto. congruence.
  - rewrite map_find_None in E. by rewrite (E _ _ Hk) in HP.
Qed.

(** Whatever order the entries are visited in, a search that at most one
    entry satisfies gives the same result. *)
Lemma map_find_perm P m (l : list (K * A)) :
  at_most_one P m → l ≡ₚ map_to_list m →
  find (λ kv, P kv.1 kv.2) l = map_find P m.
Proof.
  intros Hu Hp. unfold map_find. apply find_perm_unique; [done|].
  intros [k1 a1] [k2 a2]. rewrite !Hp, !elem_of_map_to_list. simpl.
  intros H1 H2 P1 P2. assert (k1 = k2) as -> by eauto. congruence.
Qed.

Lemma map_any_true P m :
  map_any P m = true ↔ ∃ k a, m !! k = Some a ∧ P k a = true.
Proof. unfold map_any. by rewrite bool_decide_eq_true, map_find_is_Some. Qed.

Lemma map_any_false P m :
  map_any P m = false ↔ ∀ k a, m !! k = Some a → P k a = false.
Proof.
  unfold map_any.
  by rewrite bool_decide_eq_false, <- eq_None_not_Some, map_find_None.
Qed.

Lemma lookup_retain_Some P m k a :
  retain P m !! k = Some a ↔ m !! k = Some a ∧ P k a = true.
Proof. unfold retain. by rewrite map_lookup_filter_Some. Qed.

Lemma lookup_retain_None P m k :
  retain P m !! k = None ↔ ∀ a, m !! k = Some a → P k a = false.
Proof.
  unfold retain. rewrite map_lookup_filter_None. simpl. split.
  - intros [Hn|Hall] a Hk; [congruence|].
    specialize (Hall _ Hk). by destruct (P k a).
  - intros Hall. right. intros a Hk. by rewrite (Hall _ Hk).
Qed.

Lemma retain_retain P m : retain P (retain P m) = retain P m.
Proof.
  apply map_eq. intros k. apply option_eq. intros a.
  rewrite !lookup_retain_Some. tauto.
Qed.

Lemma retain_subseteq P m : retain P m ⊆ m.
Proof. apply map_filter_subseteq. Qed.

End map_iter.

(** ** Maps *)

Lemma insert_fmap_agree `{Countable K} {A B} (f g : A → B) (m : gmap K A) k x :
  (∀ k' a, k' ≠ k → m !! k' = Some a → f a = g a) →
  <[k := x]> (f <$> m) = <[k := x]> (g <$> m).
Proof.
  intros Hfg. apply map_eq. intros k'.
  destruct (decide (k = k')) as [<-|Hne]; [by rewrite !lookup_insert_eq|].
  rewrite !lookup_insert_ne, !lookup_fmap by done.
  destruct (m !! k') eqn:E; simpl; [|done]. f_equal. eauto.
Qed.

Lemma delete_fmap_agree `{Countable K} {A B} (f g : A → B) (m : gmap K A) k :
  (∀ k' a, k' ≠ k → m !! k' = Some a → f a = g a) →
  delete k (f <$> m) = delete k (g <$> m).
Proof.
  intros Hfg. apply map_eq. intros k'.
  destruct (decide (k = k')) as [<-|Hne]; [by rewrite !lookup_delete_eq|].
  rewrite !lookup_delete_ne, !lookup_fmap by done.
  destruct (m !! k') eqn:E; simpl; [|done]. f_equal. eauto.
Qed.

Lemma omap_nil {A B} (f : A → option B) (l : list A) :
  omap f l = [] ↔ ∀ x, x ∈ l → f x = None.
Proof.
  induction l as [|x l IH]; simpl.
  { split; [by intros _ ? ?%elem_of_nil|done]. }
  setoid_rewrite elem_of_cons. destruct (f x) eqn:E.
  - split; [done|]. intros Hall. specialize (Hall x (or_introl eq_refl)).
    congruence.
  - rewrite IH. naive_solver.
Qed.

Lemma size_delete_Some `{Countable K} {A} (m : gmap K A) i x :
  m !! i = Some x → size m = S (size (delete i m)).
Proof.
  intros Hi. rewrite <- (insert_delete_id m i x) at 1 by done.
  apply map_size_insert_None, lookup_delete_eq.
Qed.

Lemma size_insert_le `{Countable K} {A} (m : gmap K A) i x :
  size (<[i := x]> m) ≤ S (size m).
Proof.
  destruct (m !! i) eqn:E.
  - rewrite map_size_insert_Some; [lia|done].
  - by rewrite map_size_insert_None.
Qed.

(** ** Sums over a map

    [map_sum f m] adds [f] over the values of [m]; it measures the work
    that is left in a map of tasks or queues. *)

Section map_sum.
Context {K : Type} `{Countable K} {A : Type}.
Implicit Types (f : A → nat) (m : gmap K A).

Definition map_sum f m : nat :=
  sum_list_with (λ kv, f kv.2) (map_to_list m).

Lemma map_sum_empty f : map_sum f ∅ = 0.
Proof. unfold map_sum. by rewrite map_to_list_empty. Qed.

Lemma map_sum_insert_None f m i x :
  m !! i = None → map_sum f (<[i := x]> m) = f x + map_sum f m.
Proof. intros Hi. unfold map_sum. by rewrite map_to_list_insert. Qed.

Lemma map_sum_delete f m i x :
  m !! i = Some x → map_sum f m = f x + map_sum f (delete i m).
Proof.
  intros Hi. rewrite <- (insert_delete_id m i x) at 1 by done.
  apply map_sum_insert_None, lookup_delete_eq.
Qed.

(** Replacing the value at a key exchanges its share of the sum. *)
Lemma map_sum_insert_Some f m i x y :
  m !! i = Some x → map_sum f (<[i := y]> m) + f x = map_sum f m + f y.
Proof.
  intros Hi. rewrite (map_sum_delete f m i x Hi), <- insert_delete_eq.
  rewrite map_sum_insert_None by apply lookup_delete_eq. lia.
Qed.

Lemma map_sum_alter f (g : A → A) m i x :
  m !! i = Some x → map_sum f (alter g i m) + f x = map_sum f m + f (g x).
Proof.
  intros Hi. rewrite <- (map_sum_insert_Some f m i x (g x) Hi).
  f_equal. f_equal. apply map_eq. intros j.
  destruct (decide (i = j)) as [<-|Hne].
  - by rewrite lookup_alter_eq, lookup_insert_eq, Hi.
  - by rewrite lookup_alter_ne, lookup_insert_ne.
Qed.

Lemma map_sum_lookup_le f m i x : m !! i = Some x → f x ≤ map_sum f m.
Proof. intros Hi. rewrite (map_sum_delete f m i x Hi). lia. Qed.

Lemma map_sum_zero f m :
  map_sum f m = 0 ↔ ∀ i x, m !! i = Some x → f x = 0.
Proof.
  split.
  - intros Hz i x Hi. pose proof (map_sum_lookup_le f m i x Hi). lia.
  - induction m as [|i x m Hi IH] using map_ind; intros Hall.
    { apply map_sum_empty. }
    rewrite map_sum_insert_None, (Hall i x), IH; [done| |apply lookup_insert_eq|done].
    intros j y Hj. apply (Hall j y). rewrite lookup_insert_ne; [done|].
    intros ->. congruence.
Qed.

End map_sum.

(** ** Strings

    [String.append] never unfolds under [simpl]; these are its equations. *)

Lemma string_app_nil (s : string) : EmptyString +:+ s = s.
Proof. reflexivity. Qed.

Lemma string_app_cons a (s1 s2 : string) :
  String a s1 +:+ s2 = String a (s1 +:+ s2).
Proof. reflexivity. Qed.

Lemma string_app_assoc (s1 s2 s3 : string) :
  (s1 +:+ s2) +:+ s3 = s1 +:+ (s2 +:+ s3).
Proof.
  induction s1 as [|a s1 IH]; [done|]. by rewrite !string_app_cons, IH.
Qed.

Lemma string_app_length (s1 s2 : string) :
  String.length (s1 +:+ s2) = String.length s1 + String.length s2.
Proof.
  induction s1 as [|a s1 IH]; [done|]. rewrite string_app_cons. simpl.
  by rewrite IH.
Qed.

(** ** Automation *)

Create HintDb chat discriminated.
Create Rewrite HintDb chat_rw.

#[export] Hint Resolve retain_subseteq : chat.
#[export] Hint Rewrite @retain_retain : chat_rw.

(** Case analysis on the first [match], [if] or [bool_decide] of the goal. *)
Ltac case_step :=
  first [ case_bool_decide | case_decide | case_match ]; simplify_eq/=.

Ltac case_steps := repeat case_step.
