(* ===== verification/Strings.v ===== *)
(** * Strings: case folding of names

    The registry keys a client by [name.to_lowercase()] (main.rs, lines 60,
    82 and 168).  [str::to_lowercase] is a function of Rust's standard
    library; the development is parametric in it through the class
    [Lowercase], whose only law is idempotence, and runs with the instance
    [ascii_lowercase], which is Rust's function on ASCII strings and leaves
    the bytes of other characters unchanged.  [eq_ci] is the equivalence
    "same name up to case" that the registry observes. *)

From Stdlib Require Import Ascii.
From S2P Require Import Prelude.

(** ** The interface *)

Class Lowercase := {
  to_lowercase : string → string;
  to_lowercase_idemp s : to_lowercase (to_lowercase s) = to_lowercase s;
}.

(** ** The ASCII instance *)

Definition is_ascii_uppercase (c : ascii) : bool :=
  let n := N_of_ascii c in
  ((65 <=? n) && (n <=? 90))%N.

Definition char_to_ascii_lowercase (c : ascii) : ascii :=
  if is_ascii_uppercase c
  then ascii_of_N (N_of_ascii c + 32)
  else c.

Fixpoint str_to_ascii_lowercase (s : string) : string :=
  match s with
  | EmptyString => EmptyString
  | String c s' => String (char_to_ascii_lowercase c) (str_to_ascii_lowercase s')
  end.

Definition is_lowercase `{!Lowercase} (s : string) : Prop := to_lowercase s = s.

(** Two names are the same for the registry when they fold to the same key. *)
Definition eq_ci `{!Lowercase} (s1 s2 : string) : Prop :=
  to_lowercase s1 = to_lowercase s2.

Infix "≡ci" := eq_ci (at level 70, no associativity) : chat_scope.

(** ** Lemmas *)

Lemma N_of_ascii_bound (c : ascii) : (N_of_ascii c < 256)%N.
Proof. apply N_ascii_bounded. Qed.

Lemma N_of_ascii_of_N_small (n : N) :
  (n < 256)%N → N_of_ascii (ascii_of_N n) = n.
Proof. apply N_ascii_embedding. Qed.

Lemma is_ascii_uppercase_spec (c : ascii) :
  is_ascii_uppercase c = true ↔ (65 ≤ N_of_ascii c ≤ 90)%N.
Proof.
  unfold is_ascii_uppercase. rewrite andb_true_iff, !N.leb_le. tauto.
Qed.

Lemma char_to_ascii_lowercase_not_upper (c : ascii) :
  is_ascii_uppercase (char_to_ascii_lowercase c) = false.
Proof.
  unfold char_to_ascii_lowercase.
  destruct (is_ascii_uppercase c) eqn:E; [|done].
  apply is_ascii_uppercase_spec in E.
  apply not_true_is_false. rewrite is_ascii_uppercase_spec.
  rewrite N_of_ascii_of_N_small; lia.
Qed.

Lemma char_to_ascii_lowercase_idemp (c : ascii) :
  char_to_ascii_lowercase (char_to_ascii_lowercase c) =
  char_to_ascii_lowercase c.
Proof.
  unfold char_to_ascii_lowercase at 1.
  by rewrite char_to_ascii_lowercase_not_upper.
Qed.

Lemma str_to_ascii_lowercase_idemp (s : string) :
  str_to_ascii_lowercase (str_to_ascii_lowercase s) = str_to_ascii_lowercase s.
Proof.
  induction s as [|c s IH]; simpl; [done|].
  by rewrite char_to_ascii_lowercase_idemp, IH.
Qed.

Lemma str_to_ascii_lowercase_length (s : string) :
  String.length (str_to_ascii_lowercase s) = String.length s.
Proof. induction s as [|c s IH]; simpl; congruence. Qed.

Lemma str_to_ascii_lowercase_app (s1 s2 : string) :
  str_to_ascii_lowercase (s1 +:+ s2) =
  str_to_ascii_lowercase s1 +:+ str_to_ascii_lowercase s2.
Proof. induction s1 as [|c s1 IH]; simpl; [done|]. by rewrite IH. Qed.

#[export] Instance ascii_lowercase : Lowercase :=
  {| to_lowercase := str_to_ascii_lowercase;
     to_lowercase_idemp := str_to_ascii_lowercase_idemp |}.

Section case_insensitive.
Context `{!Lowercase}.

#[export] Instance eq_ci_equivalence : Equivalence eq_ci.
Proof.
  unfold eq_ci. split.
  - by intros s.
  - by intros s1 s2.
  - intros s1 s2 s3. congruence.
Qed.

#[export] Instance eq_ci_dec : RelDecision eq_ci.
Proof. intros s1 s2. unfold eq_ci. apply _. Defined.

#[export] Instance to_lowercase_proper : Proper (eq_ci ==> eq) to_lowercase.
Proof. by intros s1 s2. Qed.

Lemma to_lowercase_eq_ci (s : string) : to_lowercase s ≡ci s.
Proof. apply to_lowercase_idemp. Qed.

Lemma is_lowercase_to_lowercase (s : string) : is_lowercase (to_lowercase s).
Proof. apply to_lowercase_idemp. Qed.

Lemma eq_ci_lowercase_eq (s1 s2 : string) :
  is_lowercase s1 → is_lowercase s2 → s1 ≡ci s2 → s1 = s2.
Proof. unfold is_lowercase, eq_ci. congruence. Qed.

End case_insensitive.

#[export] Hint Resolve to_lowercase_eq_ci is_lowercase_to_lowercase : chat.
#[export] Hint Rewrite @to_lowercase_idemp : chat_rw.
