(* ===== verification/Json.v ===== *)
(** * Json: the text that [serde_json] writes

    The handlers answer with [warp::reply::json] and the outbound pump writes
    [serde_json::to_string(&message)] to the websocket (main.rs, line 114).
    [serde_json] is a library the sources only call; this file models the
    compact writer for the three shapes the program serialises: strings
    ([serialize_str], with the escapes of [format_escaped_str]), structs
    ([serialize_struct], fields in declaration order) and sequences
    ([serialize_seq]).  The trait [serde::Serialize] is the class
    [Serialize], with [to_string] for [serde_json::to_string].  [parse_str]
    reads a string literal back, and [parse_serialize_str] is the round trip
    that makes a frame unambiguous. *)

From Stdlib Require Import Ascii.
From S2P Require Import Prelude.

(** ** Characters *)

Definition dquote : ascii := ascii_of_N 34.
Definition backslash : ascii := ascii_of_N 92.

Definition hex_digit (n : N) : ascii :=
  ascii_of_N (if (n <? 10)%N then 48 + n else 87 + n).

Definition hex_value (c : ascii) : option N :=
  let n := N_of_ascii c in
  if ((48 <=? n) && (n <=? 57))%N then Some (n - 48)%N
  else if ((97 <=? n) && (n <=? 102))%N then Some (n - 87)%N
  else if ((65 <=? n) && (n <=? 70))%N then Some (n - 55)%N
  else None.

(** ** Writing *)

(** One character of a string literal: the quote and the backslash are
    escaped, the control characters below 0x20 are written as their short
    escape or as [\u00XX], every other byte is copied. *)
Definition escape_char (c : ascii) : string :=
  let n := N_of_ascii c in
  if (n =? 34)%N then String backslash (String dquote EmptyString)
  else if (n =? 92)%N then String backslash (String backslash EmptyString)
  else if (n =? 8)%N then String backslash "b"
  else if (n =? 9)%N then String backslash "t"
  else if (n =? 10)%N then String backslash "n"
  else if (n =? 12)%N then String backslash "f"
  else if (n =? 13)%N then String backslash "r"
  else if (n <? 32)%N then
    String backslash
      (String "u" (String "0" (String "0"
        (String (hex_digit (n / 16)) (String (hex_digit (n mod 16)) EmptyString)))))
  else String c EmptyString.

Fixpoint escape (s : string) : string :=
  match s with
  | EmptyString => EmptyString
  | String c s' => escape_char c +:+ escape s'
  end.

Definition serialize_str (s : string) : string :=
  String dquote (escape s +:+ String dquote EmptyString).

Fixpoint join (sep : string) (items : list string) : string :=
  match items with
  | [] => EmptyString
  | [x] => x
  | x :: rest => x +:+ sep +:+ join sep rest
  end.

Definition serialize_field (kv : string * string) : string :=
  serialize_str kv.1 +:+ ":" +:+ kv.2.

Definition serialize_struct (fields : list (string * string)) : string :=
  "{" +:+ join "," (serialize_field <$> fields) +:+ "}".

Definition serialize_seq (items : list string) : string :=
  "[" +:+ join "," items +:+ "]".

(** ** The trait

    [serde::Serialize]: the types that [serde_json::to_string] and
    [warp::reply::json] accept.  The structs of the program derive it (file
    [Model]); a [Vec] of serialisable values is written as a sequence. *)
Class Serialize (A : Type) := to_string : A → string.
#[global] Hint Mode Serialize ! : typeclass_instances.

#[export] Instance Vec_Serialize `{Serialize A} : Serialize (list A) :=
  λ items, serialize_seq (to_string <$> items).

(** ** Reading a string literal back *)

(** [unescape fuel s] reads the body of a string literal up to its closing
    quote and returns the characters read and the rest of the input.  Each
    step consumes at least one character, so [String.length s] is enough
    fuel. *)
Fixpoint unescape (fuel : nat) (s : string) : option (string * string) :=
  match fuel with
  | O => None
  | S fuel' =>
    match s with
    | EmptyString => None
    | String c rest =>
      if decide (c = dquote) then Some (EmptyString, rest)
      else if decide (c = backslash) then
        match rest with
        | String e rest' =>
          let continue (d : ascii) (r : string) :=
            '(v, r') ← unescape fuel' r; Some (String d v, r') in
          if decide (e = dquote) then continue dquote rest'
          else if decide (e = backslash) then continue backslash rest'
          else if decide (e = "b"%char) then continue (ascii_of_N 8) rest'
          else if decide (e = "t"%char) then continue (ascii_of_N 9) rest'
          else if decide (e = "n"%char) then continue (ascii_of_N 10) rest'
          else if decide (e = "f"%char) then continue (ascii_of_N 12) rest'
          else if decide (e = "r"%char) then continue (ascii_of_N 13) rest'
          else if decide (e = "u"%char) then
            match rest' with
            | String "0" (String "0" (String h (String l r))) =>
              hi ← hex_value h; lo ← hex_value l;
              continue (ascii_of_N (16 * hi + lo)) r
            | _ => None
            end
          else None
        | EmptyString => None
        end
      else '(v, r') ← unescape fuel' rest; Some (String c v, r')
    end
  end.

Definition parse_str (s : string) : option (string * string) :=
  match s with
  | String c rest =>
    if decide (c = dquote) then unescape (String.length rest) rest else None
  | EmptyString => None
  end.

(** [strip_prefix p s] is [s] without its prefix [p]. *)
Fixpoint strip_prefix (p s : string) : option string :=
  match p, s with
  | EmptyString, _ => Some s
  | String a p', String b s' => if decide (a = b) then strip_prefix p' s' else None
  | String _ _, EmptyString => None
  end.

(** ** Lemmas *)

Lemma escape_char_length c : 1 ≤ String.length (escape_char c).
Proof. unfold escape_char. repeat case_match; simpl; lia. Qed.

Lemma escape_char_length_le c : String.length (escape_char c) ≤ 6.
Proof. unfold escape_char. repeat case_match; simpl; lia. Qed.

(** Escaping never shortens a string and makes it at most six times as
    long: the longest escape is [\u00XX]. *)
Lemma escape_length s :
  String.length s ≤ String.length (escape s) ≤ 6 * String.length s.
Proof.
  induction s as [|c s IH]; simpl; [lia|]. rewrite string_app_length.
  pose proof (escape_char_length c). pose proof (escape_char_length_le c). lia.
Qed.

Lemma serialize_str_length s :
  String.length s + 2 ≤ String.length (serialize_str s) ≤
  6 * String.length s + 2.
Proof.
  unfold serialize_str. simpl. rewrite string_app_length. simpl.
  pose proof (escape_length s). lia.
Qed.

(** One step of the reader undoes one step of the writer, for each of the
    256 bytes. *)
Lemma unescape_escape_char c fuel tail :
  unescape (S fuel) (escape_char c +:+ tail) =
  '(v, r) ← unescape fuel tail; Some (String c v, r).
Proof. destruct c as [[] [] [] [] [] [] [] []]; reflexivity. Qed.

Lemma unescape_escape s fuel rest :
  String.length (escape s) < fuel →
  unescape fuel (escape s +:+ String dquote rest) = Some (s, rest).
Proof.
  revert fuel. induction s as [|c s IH]; intros [|fuel] Hf; simpl in Hf;
    try lia; [done|].
  change (escape (String c s)) with (escape_char c +:+ escape s).
  rewrite string_app_assoc, unescape_escape_char.
  rewrite string_app_length in Hf. pose proof (escape_char_length c).
  by rewrite IH by lia.
Qed.

Lemma strip_prefix_app p s : strip_prefix p (p +:+ s) = Some s.
Proof.
  induction p as [|a p IH]; [done|]. rewrite string_app_cons. simpl.
  by rewrite decide_True.
Qed.

(** The length of the input is enough fuel: reading back what was written
    gives the string and the text that followed it. *)
Lemma parse_serialize_str s rest :
  parse_str (serialize_str s +:+ rest) = Some (s, rest).
Proof.
  unfold serialize_str, parse_str.
  rewrite string_app_cons, string_app_assoc, string_app_cons, string_app_nil.
  rewrite decide_True by done.
  apply unescape_escape. rewrite string_app_length. simpl. lia.
Qed.

#[export] Instance serialize_str_inj : Inj (=) (=) serialize_str.
Proof.
  intros s1 s2 E.
  pose proof (parse_serialize_str s1 EmptyString) as H1.
  rewrite E, parse_serialize_str in H1. congruence.
Qed.
