(* ===== verification/Model.v ===== *)
(** * Model: the data of the program

    The structs of main.rs (lines 10-51) as records, with the JSON text
    [serde] derives for the serialisable ones (instances of the class
    [Serialize] of file [Json]), and the values a handler
    answers with: a [Reply] (status and body) or the [Rejection] of
    [warp::reject].

    Fields keep the names of the source.  The three request and response
    structs share field names with [Client] and [Message], so their
    projections carry a prefix: [reg_name] is [RegistrationRequest::name],
    [resp_token] and [resp_error] are the fields of [RegistrationResponse],
    [req_token], [req_body] and [req_to] those of [MessageRequest].

    A [JoinHandle] is the identifier of the spawned task and an
    [UnboundedSender] the identifier of its channel: both are natural
    numbers drawn from the counter of the runtime (file [Runtime]). *)

From S2P Require Import Prelude Json.

Abbreviation JoinHandle := nat (only parsing).
Abbreviation UnboundedSender := nat (only parsing).

(** ** Structs *)

Record Message := mkMessage {
  from : string;
  body : string;
}.

Record Client := mkClient {
  name : string;
  token : string;
  disconnect_timer : option JoinHandle;
  tx : option UnboundedSender;
}.

(** [type Clients] (line 24): the registry.  The [Arc] and the [Mutex]
    around the map are not objects of the model: a critical section is the
    body of one definition. *)
Definition Clients : Type := gmap string Client.

(** [Client::default()]: the rest of a struct literal ending in
    [..Default::default()]. *)
Definition Client_default : Client :=
  {| name := ""; token := ""; disconnect_timer := None; tx := None |}.

Record RegistrationRequest := mkRegistrationRequest {
  reg_name : string;
}.

Record RegistrationResponse := mkRegistrationResponse {
  resp_token : option string;
  resp_error : option string;
}.

Definition RegistrationResponse_default : RegistrationResponse :=
  {| resp_token := None; resp_error := None |}.

Record MessageRequest := mkMessageRequest {
  req_token : string;
  req_body : string;
  req_to : string;
}.

#[export] Instance Message_eq_dec : EqDecision Message.
Proof. solve_decision. Defined.

#[export] Instance Client_eq_dec : EqDecision Client.
Proof. solve_decision. Defined.

#[export] Instance RegistrationRequest_eq_dec : EqDecision RegistrationRequest.
Proof. solve_decision. Defined.

#[export] Instance MessageRequest_eq_dec : EqDecision MessageRequest.
Proof. solve_decision. Defined.

(** Field updates of a client, as the assignments of the source write them. *)
Definition set_tx (v : option UnboundedSender) (c : Client) : Client :=
  {| name := name c; token := token c;
     disconnect_timer := disconnect_timer c; tx := v |}.

Definition set_disconnect_timer (v : option JoinHandle) (c : Client) : Client :=
  {| name := name c; token := token c; disconnect_timer := v; tx := tx c |}.

(** ** Serialisation, as derived

    [Message] serialises both fields.  [Client] skips [token],
    [disconnect_timer] and [tx].  [RegistrationResponse] skips a field that
    is [None]. *)

Definition Message_to_json (m : Message) : string :=
  serialize_struct
    [("from", serialize_str (from m)); ("body", serialize_str (body m))].

Definition Client_to_json (c : Client) : string :=
  serialize_struct [("name", serialize_str (name c))].

Definition skip_if_none (key : string) (v : option string) : list (string * string) :=
  match v with
  | Some s => [(key, serialize_str s)]
  | None => []
  end.

Definition RegistrationResponse_to_json (r : RegistrationResponse) : string :=
  serialize_struct
    (skip_if_none "token" (resp_token r) ++ skip_if_none "error" (resp_error r)).

(** The three structs derive [serde::Serialize] (lines 10, 26 and 37). *)
#[export] Instance Message_Serialize : Serialize Message := Message_to_json.

#[export] Instance Client_Serialize : Serialize Client := Client_to_json.

#[export] Instance RegistrationResponse_Serialize
    : Serialize RegistrationResponse := RegistrationResponse_to_json.

(** What the peer of a websocket reads back from a frame: the object with
    the two string fields that [Message] serialises to. *)
Definition Message_of_json (s : string) : option Message :=
  s1 ← strip_prefix ("{" +:+ serialize_str "from" +:+ ":") s;
  '(f, s2) ← parse_str s1;
  s3 ← strip_prefix ("," +:+ serialize_str "body" +:+ ":") s2;
  '(b, s4) ← parse_str s3;
  guard (s4 = "}");;
  Some {| from := f; body := b |}.

(** ** Replies and rejections *)

Inductive StatusCode :=
| OK
| NOT_ACCEPTABLE
| SWITCHING_PROTOCOLS.

Definition status_number (s : StatusCode) : nat :=
  match s with
  | OK => 200
  | NOT_ACCEPTABLE => 406
  | SWITCHING_PROTOCOLS => 101
  end.

Record Reply := mkReply {
  status : StatusCode;
  content : string;
}.

(** [warp::reply()], [warp::reply::json(&v)] for a serialisable [v],
    [warp::reply::with_status] and the reply of [Ws::on_upgrade]. *)
Definition reply : Reply := {| status := OK; content := "" |}.

Definition json `{Serialize A} (v : A) : Reply :=
  {| status := OK; content := to_string v |}.

Definition with_status (r : Reply) (s : StatusCode) : Reply :=
  {| status := s; content := content r |}.

Definition on_upgrade : Reply := {| status := SWITCHING_PROTOCOLS; content := "" |}.

(** [warp::reject::not_found()] and [warp::reject::reject()] build the same
    rejection: [reject] is defined as a call of [not_found]. *)
Inductive Rejection :=
| NotFound.

Definition not_found : Rejection := NotFound.
Definition reject : Rejection := not_found.

#[export] Instance StatusCode_eq_dec : EqDecision StatusCode.
Proof. solve_decision. Defined.

#[export] Instance Reply_eq_dec : EqDecision Reply.
Proof. solve_decision. Defined.

#[export] Instance Rejection_eq_dec : EqDecision Rejection.
Proof. solve_decision. Defined.

(** ** Lemmas on the field updates *)

Lemma name_set_tx v c : name (set_tx v c) = name c.
Proof. done. Qed.

Lemma token_set_tx v c : token (set_tx v c) = token c.
Proof. done. Qed.

Lemma name_set_disconnect_timer v c : name (set_disconnect_timer v c) = name c.
Proof. done. Qed.

Lemma token_set_disconnect_timer v c : token (set_disconnect_timer v c) = token c.
Proof. done. Qed.

Lemma Client_to_json_name c1 c2 :
  name c1 = name c2 → Client_to_json c1 = Client_to_json c2.
Proof. unfold Client_to_json. by intros ->. Qed.

(** ** Frames *)

Lemma Message_to_json_eq m :
  Message_to_json m =
  ("{" +:+ serialize_str "from" +:+ ":") +:+ serialize_str (from m) +:+
  ("," +:+ serialize_str "body" +:+ ":") +:+ serialize_str (body m) +:+ "}".
Proof.
  unfold Message_to_json, serialize_struct, serialize_field. simpl.
  by rewrite !string_app_assoc.
Qed.

Lemma Message_of_json_to_json m : Message_of_json (Message_to_json m) = Some m.
Proof.
  rewrite Message_to_json_eq. unfold Message_of_json.
  do 2 (rewrite strip_prefix_app; cbn -[parse_str serialize_str strip_prefix];
        rewrite parse_serialize_str; cbn -[parse_str serialize_str strip_prefix]).
  by destruct m.
Qed.

#[export] Instance Message_to_json_inj : Inj (=) (=) Message_to_json.
Proof.
  intros m1 m2 E. pose proof (Message_of_json_to_json m1) as H1.
  rewrite E, Message_of_json_to_json in H1. congruence.
Qed.

(** C37: a frame is read back as the message it was written from, whatever
    characters the name and the body contain: quotes, backslashes and
    control characters are escaped by the writer and restored by the
    reader, so no name or body can forge a field, and two messages with
    the same frame are the same message. *)
Theorem Message_of_to_json m m' :
  Message_of_json (Message_to_json m) = Some m ∧
  (Message_to_json m = Message_to_json m' → m = m').
Proof. split; [apply Message_of_json_to_json|apply (inj _)]. Qed.

(** A frame is as long as the name and the body it carries plus 21
    characters of punctuation and field names, and at most six times as
    long as they are plus 21: escaping a character writes at most six. *)
Theorem Message_to_json_length m :
  String.length (from m) + String.length (body m) + 21 ≤
    String.length (Message_to_json m) ≤
  6 * (String.length (from m) + String.length (body m)) + 21.
Proof.
  rewrite Message_to_json_eq, !string_app_length.
  pose proof (serialize_str_length (from m)).
  pose proof (serialize_str_length (body m)).
  change (String.length (serialize_str "from")) with 6.
  change (String.length (serialize_str "body")) with 6.
  change (String.length "{") with 1. change (String.length "}") with 1.
  change (String.length ":") with 1. change (String.length ",") with 1. lia.
Qed.

#[export] Hint Rewrite name_set_tx token_set_tx
  name_set_disconnect_timer token_set_disconnect_timer : chat_rw.
