(* ===== verification/Runtime.v ===== *)
(** * Runtime: the tasks, channels and sockets the handlers use

    main.rs runs on the single-threaded [tokio] runtime.  Three of its
    objects carry state that the handlers depend on:

    - a spawned task that sleeps and then evicts (lines 133-140).  A [Timer]
      records what the task captured (the token) and the instant its sleep
      ends; the pending tasks are a map from task identifiers, and a
      [JoinHandle] is such an identifier.  [abort] cancels a task; dropping a
      handle does not;
    - an unbounded channel (line 95): a FIFO queue of messages.  The receiver
      is owned by the outbound pump, which lives as long as some sender
      does, so a send through a stored sender always finds the queue;
    - the websocket of a connection: open until the peer closes it, and the
      list of text frames written to it while it was open.

    A [Connection] groups the channel and the socket of one run of
    [client_connected] with the token of that run and its [Phase].  Time is a
    natural number of seconds. *)

From S2P Require Import Prelude Model.

(** ** Timers *)

Record Timer := mkTimer {
  timer_token : string;
  deadline : nat;
}.

(** [Duration::from_secs(10)]. *)
Definition GRACE_PERIOD : nat := 10.

#[export] Instance Timer_eq_dec : EqDecision Timer.
Proof. solve_decision. Defined.

Definition spawn (id : nat) (t : Timer) (timers : gmap nat Timer) : gmap nat Timer :=
  <[id := t]> timers.

Definition abort (id : nat) (timers : gmap nat Timer) : gmap nat Timer :=
  delete id timers.

(** The sleep of a task has ended. *)
Definition due (now : nat) (t : Timer) : bool :=
  bool_decide (deadline t ≤ now).

(** ** Connections *)

Inductive Phase :=
| Upgrading   (* the upgrade was accepted, [client_connected] has not started *)
| Running     (* [client_connected] is in its read loop *)
| Finished.   (* [client_connected] has returned *)

Record Connection := mkConnection {
  conn_token : string;
  phase : Phase;
  ws_open : bool;
  channel : list Message;
  ws_sent : list string;
}.

#[export] Instance Phase_eq_dec : EqDecision Phase.
Proof. solve_decision. Defined.

#[export] Instance Connection_eq_dec : EqDecision Connection.
Proof. solve_decision. Defined.

Definition new_connection (t : string) : Connection :=
  {| conn_token := t; phase := Upgrading; ws_open := true;
     channel := []; ws_sent := [] |}.

Definition set_phase (p : Phase) (c : Connection) : Connection :=
  {| conn_token := conn_token c; phase := p; ws_open := ws_open c;
     channel := channel c; ws_sent := ws_sent c |}.

Definition close_ws (c : Connection) : Connection :=
  {| conn_token := conn_token c; phase := phase c; ws_open := false;
     channel := channel c; ws_sent := ws_sent c |}.

(** [UnboundedSender::send]: the message joins the end of the queue. *)
Definition enqueue (m : Message) (c : Connection) : Connection :=
  {| conn_token := conn_token c; phase := phase c; ws_open := ws_open c;
     channel := channel c ++ [m]; ws_sent := ws_sent c |}.

Definition send (ch : nat) (m : Message) (conns : gmap nat Connection)
    : gmap nat Connection :=
  alter (enqueue m) ch conns.

(** [UnboundedReceiver::recv] when a message is waiting. *)
Definition recv (c : Connection) : option (Message * Connection) :=
  match channel c with
  | m :: rest =>
    Some (m, {| conn_token := conn_token c; phase := phase c;
                ws_open := ws_open c; channel := rest; ws_sent := ws_sent c |})
  | [] => None
  end.

(** [ws_tx.send(text)]: the frame is written when the socket is open and
    lost otherwise; the source ignores the result either way. *)
Definition ws_send (text : string) (c : Connection) : Connection :=
  if ws_open c
  then {| conn_token := conn_token c; phase := phase c; ws_open := true;
          channel := channel c; ws_sent := ws_sent c ++ [text] |}
  else c.

(** ** Lemmas *)

Lemma lookup_spawn_eq id t timers : spawn id t timers !! id = Some t.
Proof. apply lookup_insert_eq. Qed.

Lemma lookup_spawn_ne id id' t timers :
  id ≠ id' → spawn id t timers !! id' = timers !! id'.
Proof. apply lookup_insert_ne. Qed.

Lemma lookup_abort_eq id timers : abort id timers !! id = None.
Proof. apply lookup_delete_eq. Qed.

Lemma lookup_abort_ne id id' timers :
  id ≠ id' → abort id timers !! id' = timers !! id'.
Proof. apply lookup_delete_ne. Qed.

Lemma lookup_abort_Some id id' t timers :
  abort id timers !! id' = Some t ↔ id ≠ id' ∧ timers !! id' = Some t.
Proof. apply lookup_delete_Some. Qed.

Lemma due_spec now t : due now t = true ↔ deadline t ≤ now.
Proof. apply bool_decide_eq_true. Qed.

Lemma lookup_send ch ch' m conns :
  send ch m conns !! ch' =
  if decide (ch = ch') then enqueue m <$> conns !! ch' else conns !! ch'.
Proof.
  unfold send. case_decide as E.
  - subst. apply lookup_alter_eq.
  - by apply lookup_alter_ne.
Qed.

Lemma conn_token_send ch ch' m conns c :
  send ch m conns !! ch' = Some c →
  ∃ c0, conns !! ch' = Some c0 ∧ conn_token c0 = conn_token c ∧
        phase c0 = phase c ∧ ws_open c0 = ws_open c ∧ ws_sent c0 = ws_sent c.
Proof.
  rewrite lookup_send. case_decide; [|eauto 10].
  intros (c0 & -> & ->)%fmap_Some. eauto 10.
Qed.

Lemma send_lookup_Some ch ch' m conns c :
  conns !! ch' = Some c →
  ∃ c', send ch m conns !! ch' = Some c' ∧ conn_token c' = conn_token c ∧
        phase c' = phase c ∧ ws_open c' = ws_open c ∧ ws_sent c' = ws_sent c.
Proof.
  intros Hc. rewrite lookup_send, Hc. case_decide; simpl; eauto 10.
Qed.

Lemma send_lookup_None ch ch' m conns :
  conns !! ch' = None → send ch m conns !! ch' = None.
Proof. intros Hc. rewrite lookup_send, Hc. by case_decide. Qed.

Lemma recv_Some c m c' :
  recv c = Some (m, c') →
  channel c = m :: channel c' ∧ conn_token c' = conn_token c ∧
  phase c' = phase c ∧ ws_open c' = ws_open c ∧ ws_sent c' = ws_sent c.
Proof. unfold recv. destruct (channel c) eqn:E; naive_solver. Qed.

Lemma ws_send_open text c :
  ws_open c = true → ws_sent (ws_send text c) = ws_sent c ++ [text].
Proof. unfold ws_send. by intros ->. Qed.

Lemma ws_send_closed text c : ws_open c = false → ws_send text c = c.
Proof. unfold ws_send. by intros ->. Qed.

Lemma ws_send_fields text c :
  conn_token (ws_send text c) = conn_token c ∧
  phase (ws_send text c) = phase c ∧
  ws_open (ws_send text c) = ws_open c ∧
  channel (ws_send text c) = channel c.
Proof. unfold ws_send. by destruct (ws_open c) eqn:E. Qed.

#[export] Hint Rewrite lookup_spawn_eq lookup_abort_eq : chat_rw.
