(* ===== verification/Registry.v ===== *)
(** * Registry: registration, lookup by token, status and listing

    The registry is the [HashMap<String, Client>] of main.rs, keyed by the
    lower-cased name.  This file models the handlers that only read or
    extend it:

    - [handle_registration] (lines 53-91), which takes the lock twice:
      [registration_check] is the first critical section (lines 57-69) and
      [registration_insert] the second (lines 71-90).  The token of
      [uuid::Uuid::new_v4] is an argument: the caller chooses it;
    - [find_by_token], the search [iter().find(|(_, c)| c.token == token)]
      that four handlers share (lines 97-101, 125-129, 171-173, 192-196);
    - [handle_status] (lines 188-204) and [handle_list_clients]
      (lines 206-211).

    The invariants of the map are [keys_normalized] (an entry is stored under
    the lower-cased name of its client) and [tokens_unique] (no two entries
    carry the same token); [registry_ok] is their conjunction. *)

From S2P Require Import Prelude Strings Json Model.

Section registry.
Context `{!Lowercase}.
Implicit Types (clients : gmap string Client) (request : RegistrationRequest).

(** ** Operations *)

(** The closure [|(_, client)| client.token == token]. *)
Definition token_is (t : string) (_ : string) (client : Client) : bool :=
  bool_decide (token client = t).

Definition find_by_token (t : string) clients : option (string * Client) :=
  map_find (token_is t) clients.

Definition registration_conflict : Reply :=
  with_status
    (json {| resp_token := resp_token RegistrationResponse_default;
             resp_error := Some "The name is already taken" |})
    NOT_ACCEPTABLE.

(** First critical section: [Some reply] is the early return. *)
Definition registration_check request clients : option Reply :=
  if bool_decide (is_Some (clients !! to_lowercase (reg_name request)))
  then Some registration_conflict
  else None.

(** Second critical section, with the token generated before it. *)
Definition registration_insert (new_token : string) request clients
    : gmap string Client * Reply :=
  let client :=
    {| token := new_token;
       name := reg_name request;
       disconnect_timer := disconnect_timer Client_default;
       tx := tx Client_default |} in
  (<[to_lowercase (reg_name request) := client]> clients,
   with_status
     (json {| resp_token := Some new_token;
              resp_error := resp_error RegistrationResponse_default |})
     OK).

Definition handle_registration (new_token : string) request clients
    : gmap string Client * Result Reply Rejection :=
  match registration_check request clients with
  | Some r => (clients, Ok r)
  | None =>
    let '(clients', r) := registration_insert new_token request clients in
    (clients', Ok r)
  end.

Definition handle_status (t : string) clients : Result Reply Rejection :=
  match find_by_token t clients with
  | Some (_, client) => Ok (with_status (json client) OK)
  | None => Err reject
  end.

Definition handle_list_clients clients : Result Reply Rejection :=
  let listed : list Client := (map_to_list clients).*2 in
  Ok (json listed).

(** ** Invariants *)

Definition keys_normalized clients : Prop :=
  map_Forall (λ k c, k = to_lowercase (name c)) clients.

Definition tokens_unique clients : Prop :=
  ∀ k1 c1 k2 c2,
    clients !! k1 = Some c1 → clients !! k2 = Some c2 →
    token c1 = token c2 → k1 = k2.

Definition token_fresh (t : string) clients : Prop :=
  map_Forall (λ _ c, token c ≠ t) clients.

Definition registry_ok clients : Prop :=
  keys_normalized clients ∧ tokens_unique clients.

#[export] Instance keys_normalized_dec clients : Decision (keys_normalized clients).
Proof. unfold keys_normalized. apply _. Defined.

#[export] Instance token_fresh_dec t clients : Decision (token_fresh t clients).
Proof. unfold token_fresh. apply _. Defined.

#[export] Instance tokens_unique_dec clients : Decision (tokens_unique clients).
Proof.
  refine (cast_if (decide (map_Forall (λ k1 c1,
    map_Forall (λ k2 c2, token c1 = token c2 → k1 = k2) clients) clients)));
    unfold tokens_unique, map_Forall in *; eauto.
Defined.

#[export] Instance registry_ok_dec clients : Decision (registry_ok clients).
Proof. unfold registry_ok. apply _. Defined.

(** ** Lookup by token *)

Lemma tokens_unique_at_most_one t clients :
  tokens_unique clients → at_most_one (token_is t) clients.
Proof.
  intros Hu k1 c1 k2 c2 H1 H2. unfold token_is.
  rewrite !bool_decide_eq_true. intros E1 E2. eapply Hu; eauto. congruence.
Qed.

Lemma find_by_token_Some t clients k c :
  find_by_token t clients = Some (k, c) →
  clients !! k = Some c ∧ token c = t.
Proof.
  intros [Hk Ht]%map_find_Some. split; [done|].
  by apply bool_decide_eq_true in Ht.
Qed.

Lemma find_by_token_None t clients :
  find_by_token t clients = None ↔ token_fresh t clients.
Proof.
  unfold find_by_token, token_fresh. rewrite map_find_None.
  unfold token_is. by setoid_rewrite bool_decide_eq_false.
Qed.

Lemma find_by_token_unique t clients k c :
  tokens_unique clients → clients !! k = Some c → token c = t →
  find_by_token t clients = Some (k, c).
Proof.
  intros Hu Hk Ht. apply map_find_unique; [|done|].
  - by apply tokens_unique_at_most_one.
  - by apply bool_decide_eq_true.
Qed.

Lemma find_by_token_is_Some t clients :
  is_Some (find_by_token t clients) ↔
  ∃ k c, clients !! k = Some c ∧ token c = t.
Proof.
  unfold find_by_token. rewrite map_find_is_Some. unfold token_is.
  by setoid_rewrite bool_decide_eq_true.
Qed.

(** ** Registration *)

Lemma registration_check_Some request clients r :
  registration_check request clients = Some r ↔
  is_Some (clients !! to_lowercase (reg_name request)) ∧
  r = registration_conflict.
Proof.
  unfold registration_check. case_bool_decide as E.
  - split; [by intros [= <-]|by intros [_ ->]].
  - split; [done|by intros [? _]].
Qed.

Lemma registration_check_None request clients :
  registration_check request clients = None ↔
  clients !! to_lowercase (reg_name request) = None.
Proof.
  unfold registration_check. case_bool_decide as E.
  - split; [done|]. intros E'. rewrite E' in E. by destruct E.
  - split; [intros _; by apply eq_None_not_Some|done].
Qed.

Lemma keys_normalized_insert clients c :
  keys_normalized clients →
  keys_normalized (<[to_lowercase (name c) := c]> clients).
Proof.
  intros Hk k c'. rewrite lookup_insert_Some. intros [[<- <-]|[_ ?]]; eauto.
Qed.

Lemma tokens_unique_insert clients k c :
  tokens_unique clients →
  (∀ k' c', clients !! k' = Some c' → k' ≠ k → token c' ≠ token c) →
  tokens_unique (<[k := c]> clients).
Proof.
  intros Hu Hf k1 c1 k2 c2. rewrite !lookup_insert_Some.
  intros [[<- <-]|[N1 H1]] [[<- <-]|[N2 H2]] Ht; eauto.
  - by destruct (Hf _ _ H2).
  - by destruct (Hf _ _ H1).
Qed.

Lemma token_fresh_insert t clients k c :
  token_fresh t clients → token c ≠ t → token_fresh t (<[k := c]> clients).
Proof.
  intros Hf Hc k' c'. rewrite lookup_insert_Some. intros [[_ <-]|[_ ?]]; eauto.
Qed.

Lemma registry_ok_empty : registry_ok ∅.
Proof. split; intros ?; intros; simplify_map_eq. Qed.

(** Both invariants survive an update in place that keeps name and token,
    and the removal of entries. *)
Lemma registry_ok_update clients k c c' :
  registry_ok clients → clients !! k = Some c →
  name c' = name c → token c' = token c →
  registry_ok (<[k := c']> clients).
Proof.
  intros [Hn Hu] Hk En Et. split.
  - intros k1 c1. rewrite lookup_insert_Some.
    intros [[<- <-]|[_ ?]]; [rewrite En|]; eauto.
  - apply tokens_unique_insert; [done|]. intros k' c'' Hk' Hne Ht.
    apply Hne. eapply Hu; eauto. congruence.
Qed.

Lemma registry_ok_subseteq clients clients' :
  clients' ⊆ clients → registry_ok clients → registry_ok clients'.
Proof.
  intros Hsub [Hn Hu]. split.
  - intros k c Hk. eapply Hn, lookup_weaken; eauto.
  - intros k1 c1 k2 c2 H1 H2. eapply Hu; eapply lookup_weaken; eauto.
Qed.

Lemma token_fresh_update t clients k c c' :
  token_fresh t clients → clients !! k = Some c → token c' = token c →
  token_fresh t (<[k := c']> clients).
Proof.
  intros Hf Hk Et. apply token_fresh_insert; [done|]. rewrite Et. eauto.
Qed.

Lemma token_fresh_subseteq t clients clients' :
  clients' ⊆ clients → token_fresh t clients → token_fresh t clients'.
Proof. intros Hsub Hf k c Hk. eapply Hf, lookup_weaken; eauto. Qed.

(** The two outcomes of a registration, as one case distinction. *)
Lemma handle_registration_cases new_token request clients :
  let key := to_lowercase (reg_name request) in
  (is_Some (clients !! key) ∧
   handle_registration new_token request clients =
     (clients, Ok registration_conflict)) ∨
  (clients !! key = None ∧
   handle_registration new_token request clients =
     (<[key := mkClient (reg_name request) new_token None None]> clients,
      Ok (json (mkRegistrationResponse (Some new_token) None)))).
Proof.
  simpl. unfold handle_registration.
  destruct (registration_check request clients) as [r|] eqn:E.
  - apply registration_check_Some in E as [? ->]. by left.
  - apply registration_check_None in E. by right.
Qed.

(** Registration leaves every other entry alone, and keeps every entry that
    is registered. *)
Lemma handle_registration_lookup_ne new_token request clients k :
  k ≠ to_lowercase (reg_name request) →
  (handle_registration new_token request clients).1 !! k = clients !! k.
Proof.
  intros Hne.
  destruct (handle_registration_cases new_token request clients)
    as [[_ ->]|[_ ->]]; [done|]. by apply lookup_insert_ne.
Qed.

Lemma handle_registration_lookup_Some new_token request clients k c :
  clients !! k = Some c →
  (handle_registration new_token request clients).1 !! k = Some c.
Proof.
  intros Hk.
  destruct (handle_registration_cases new_token request clients)
    as [[_ ->]|[Hn ->]]; [done|]. simpl.
  rewrite lookup_insert_ne; [done|]. congruence.
Qed.

Lemma registration_insert_registry_ok new_token request clients :
  registry_ok clients → token_fresh new_token clients →
  registry_ok (registration_insert new_token request clients).1.
Proof.
  intros [Hk Hu] Hf. split; simpl.
  - by apply (keys_normalized_insert _ (mkClient _ _ _ _)).
  - apply tokens_unique_insert; [done|]. intros k' c' Hk' _. by eapply Hf.
Qed.

(** The check of a registration only sees the name up to case. *)
#[export] Instance registration_check_proper :
  Proper ((λ r1 r2, reg_name r1 ≡ci reg_name r2) ==> eq ==> eq)
    registration_check.
Proof.
  intros r1 r2 Hci clients ? <-. unfold registration_check.
  by rewrite (to_lowercase_proper _ _ Hci).
Qed.

Lemma handle_status_is_ok t clients :
  is_ok (handle_status t clients) = true ↔
  ∃ k c, clients !! k = Some c ∧ token c = t.
Proof.
  rewrite <- find_by_token_is_Some. unfold handle_status.
  destruct (find_by_token t clients) as [[k c]|]; simpl.
  - split; eauto.
  - split; [done|]. by intros [? ?].
Qed.

Lemma handle_list_clients_empty :
  handle_list_clients ∅ = Ok {| status := OK; content := "[]" |}.
Proof. unfold handle_list_clients. rewrite map_to_list_empty. reflexivity. Qed.

(** ** Theorems *)

(** C5: a registration whose name is taken, in whatever case, is answered
    406 with the error text and leaves the registry as it was. *)
Theorem handle_registration_taken new_token request clients :
  is_Some (clients !! to_lowercase (reg_name request)) →
  handle_registration new_token request clients =
    (clients,
     Ok {| status := NOT_ACCEPTABLE;
           content := RegistrationResponse_to_json
             {| resp_token := None;
                resp_error := Some "The name is already taken" |} |}).
Proof.
  intros Ht. unfold handle_registration.
  by rewrite (proj2 (registration_check_Some _ _ _) (conj Ht eq_refl)).
Qed.

(** C3: a registration whose name is free stores a client under the
    lower-cased name, with the name as given, the new token, no timer and no
    channel, and is answered 200 with the token. *)
Theorem handle_registration_fresh new_token request clients :
  clients !! to_lowercase (reg_name request) = None →
  handle_registration new_token request clients =
    (<[to_lowercase (reg_name request) :=
         {| name := reg_name request; token := new_token;
            disconnect_timer := None; tx := None |}]> clients,
     Ok {| status := OK;
           content := RegistrationResponse_to_json
             {| resp_token := Some new_token; resp_error := None |} |}).
Proof.
  intros Hf. unfold handle_registration.
  by rewrite (proj2 (registration_check_None _ _) Hf).
Qed.

(** Registration preserves the invariant of the registry when the new
    token is not the token of a registered client. *)
Theorem handle_registration_registry_ok new_token request clients :
  registry_ok clients → token_fresh new_token clients →
  registry_ok (handle_registration new_token request clients).1.
Proof.
  intros Hok Hf.
  destruct (handle_registration_cases new_token request clients)
    as [[_ ->]|[_ ->]]; [done|].
  by apply (registration_insert_registry_ok new_token request).
Qed.

(** Names are compared without case: once a name is registered, a
    registration under any name that folds to the same key is refused and
    changes nothing. *)
Theorem handle_registration_case_insensitive t1 t2 r1 r2 clients :
  reg_name r1 ≡ci reg_name r2 →
  handle_registration t2 r2 (handle_registration t1 r1 clients).1 =
    ((handle_registration t1 r1 clients).1, Ok registration_conflict).
Proof.
  intros Hci. unfold handle_registration at 1.
  assert (registration_check r2 (handle_registration t1 r1 clients).1 =
    Some registration_conflict) as ->; [|done].
  rewrite <- (registration_check_proper r1 r2 Hci _ _ eq_refl).
  apply registration_check_Some. split; [|done].
  destruct (handle_registration_cases t1 r1 clients) as [[Ht ->]|[_ ->]];
    simpl; [done|]. rewrite lookup_insert_eq. eauto.
Qed.

(** The status of a token is a rejection when no registered client
    carries it; otherwise it is answered 200 with a body that is the JSON
    object of the name of the client that carries it, alone: token, timer
    and channel of the client do not appear in it. *)
Theorem handle_status_spec t clients :
  tokens_unique clients →
  (token_fresh t clients ∧ handle_status t clients = Err NotFound) ∨
  (∃ k c, clients !! k = Some c ∧ token c = t ∧
     handle_status t clients =
       Ok {| status := OK;
             content := serialize_struct [("name", serialize_str (name c))] |}).
Proof.
  intros Hu. unfold handle_status.
  destruct (find_by_token t clients) as [[k c]|] eqn:E.
  - right. apply find_by_token_Some in E as [Hk Ht]. by exists k, c.
  - left. by apply find_by_token_None in E.
Qed.

(** A client that has just registered can query its status with the
    token it was given, and reads back the name with the case it chose. *)
Theorem handle_registration_then_status new_token request clients :
  registry_ok clients → token_fresh new_token clients →
  clients !! to_lowercase (reg_name request) = None →
  handle_status new_token (handle_registration new_token request clients).1 =
    Ok {| status := OK;
          content := serialize_struct
                       [("name", serialize_str (reg_name request))] |}.
Proof.
  intros Hok Hf Hn.
  pose proof (registration_insert_registry_ok _ request _ Hok Hf) as [_ Hu].
  destruct (handle_registration_cases new_token request clients)
    as [[[? ?] _]|[_ ->]]; [congruence|]. unfold handle_status.
  simpl in *.
  by rewrite (find_by_token_unique new_token _ _ _ Hu
    (lookup_insert_eq _ _ _) eq_refl).
Qed.

(** The list of clients is answered 200 with a JSON array that has one
    object per registered client, each the name alone. *)
Theorem handle_list_clients_spec clients :
  ∃ listed : list Client,
    listed ≡ₚ (map_to_list clients).*2 ∧
    length listed = size clients ∧
    handle_list_clients clients =
      Ok {| status := OK;
            content := serialize_seq
              ((λ c, serialize_struct [("name", serialize_str (name c))])
                 <$> listed) |}.
Proof.
  exists (map_to_list clients).*2. split_and!; [done| |done].
  by rewrite length_fmap, length_map_to_list.
Qed.

End registry.

#[export] Hint Resolve registry_ok_empty registry_ok_update registry_ok_subseteq
  token_fresh_update token_fresh_subseteq : chat.

(** ** Witnesses, on the ASCII instance *)

Definition alice : Client :=
  {| name := "Alice"; token := "tA"; disconnect_timer := None; tx := None |}.

Definition bob : Client :=
  {| name := "Bob"; token := "tB"; disconnect_timer := Some 7; tx := Some 3 |}.

Definition two_clients : gmap string Client :=
  {["alice" := alice; "bob" := bob]}.

Lemma handle_registration_taken_witness :
  handle_registration "tX" {| reg_name := "ALICE" |} two_clients =
    (two_clients,
     Ok {| status := NOT_ACCEPTABLE;
           content := RegistrationResponse_to_json
             {| resp_token := None;
                resp_error := Some "The name is already taken" |} |}).
Proof. apply handle_registration_taken. compute_done. Defined.

Lemma handle_registration_fresh_witness :
  handle_registration "tC" {| reg_name := "Carol" |} two_clients =
    (<["carol" := mkClient "Carol" "tC" None None]> two_clients,
     Ok {| status := OK;
           content := RegistrationResponse_to_json
             {| resp_token := Some "tC"; resp_error := None |} |}).
Proof.
  exact (handle_registration_fresh "tC" {| reg_name := "Carol" |} two_clients
           eq_refl).
Defined.

Lemma handle_registration_registry_ok_witness :
  registry_ok (handle_registration "tC" {| reg_name := "Carol" |} two_clients).1.
Proof. apply handle_registration_registry_ok; compute_done. Defined.

Lemma handle_registration_case_insensitive_witness :
  handle_registration "tD" {| reg_name := "CAROL" |}
    (handle_registration "tC" {| reg_name := "Carol" |} two_clients).1 =
  ((handle_registration "tC" {| reg_name := "Carol" |} two_clients).1,
   Ok registration_conflict).
Proof. apply handle_registration_case_insensitive. reflexivity. Defined.

Lemma handle_status_spec_witness :
  (token_fresh "tB" two_clients ∧ handle_status "tB" two_clients = Err NotFound) ∨
  (∃ k c, two_clients !! k = Some c ∧ token c = "tB" ∧
     handle_status "tB" two_clients =
       Ok {| status := OK;
             content := serialize_struct [("name", serialize_str (name c))] |}).
Proof. apply handle_status_spec. compute_done. Defined.

Lemma handle_registration_then_status_witness :
  handle_status "tC"
    (handle_registration "tC" {| reg_name := "Carol" |} two_clients).1 =
  Ok {| status := OK;
        content := serialize_struct [("name", serialize_str "Carol")] |}.
Proof.
  apply (handle_registration_then_status "tC" {| reg_name := "Carol" |});
    [compute_done|compute_done|reflexivity].
Defined.
