(* ===== verification/Lifecycle.v ===== *)
(** * Lifecycle: connecting, disconnecting and eviction

    [ws_handler] (main.rs, lines 144-159) admits an upgrade when some client
    carries the token.  [client_connected] (lines 93-142) then runs in three
    critical sections and one spawned task, which are the operations here:

    - [attach] (lines 97-108): find the client by token, abort the timer it
      stores, store the sender of the new channel;
    - [outbound_pump] (lines 110-118): one iteration of the spawned loop,
      which moves the oldest message of the channel to the socket;
    - [detach] (lines 125-141): find the client by token and store the handle
      of a newly spawned eviction task;
    - [evict] (lines 134-139): what that task does when its sleep ends.

    The operations take the parts of the state they touch: the registry and
    the pending timers ([attach], [detach]), the registry ([evict]), one
    connection ([outbound_pump]).  File [Server] threads them through the
    whole state. *)

From S2P Require Import Prelude Strings Json Model Runtime Registry.

Section lifecycle.
Context `{!Lowercase}.
Implicit Types (clients : gmap string Client) (timers : gmap nat Timer).

(** ** Operations *)

Definition ws_handler (t : string) clients : Result Reply Rejection :=
  let client := map_any (token_is t) clients in
  match client with
  | true => Ok on_upgrade
  | false => Err reject
  end.

Definition attach (t : string) (client_tx : UnboundedSender) clients timers
    : gmap string Client * gmap nat Timer :=
  match find_by_token t clients with
  | Some (k, client) =>
    let timers' :=
      match disconnect_timer client with
      | Some handle => abort handle timers
      | None => timers
      end in
    let client := set_disconnect_timer None client in
    (<[k := set_tx (Some client_tx) client]> clients, timers')
  | None => (clients, timers)
  end.

Definition outbound_pump (c : Connection) : option Connection :=
  match recv c with
  | Some (message, c') => Some (ws_send (to_string message) c')
  | None => None
  end.

Definition detach (t : string) (id now : nat) clients timers
    : gmap string Client * gmap nat Timer :=
  match find_by_token t clients with
  | Some (k, client) =>
    let task := {| timer_token := t; deadline := now + GRACE_PERIOD |} in
    (<[k := set_disconnect_timer (Some id) client]> clients,
     spawn id task timers)
  | None => (clients, timers)
  end.

Definition evict (t : string) clients : gmap string Client :=
  retain (λ k client, negb (token_is t k client)) clients.

(** ** Admission *)

(** C8: an upgrade is admitted exactly when the token is that of a
    registered client; any other token is rejected. *)
Theorem ws_handler_spec t clients :
  (ws_handler t clients = Ok on_upgrade ∧
   ∃ k c, clients !! k = Some c ∧ token c = t) ∨
  (ws_handler t clients = Err reject ∧ token_fresh t clients).
Proof.
  unfold ws_handler. destruct (map_any (token_is t) clients) eqn:E.
  - left. split; [done|]. apply map_any_true in E as (k & c & Hk & Ht).
    exists k, c. split; [done|]. by apply bool_decide_eq_true in Ht.
  - right. split; [done|]. rewrite map_any_false in E. intros k c Hk.
    specialize (E _ _ Hk). by apply bool_decide_eq_false in E.
Qed.

Lemma ws_handler_Ok t clients r :
  ws_handler t clients = Ok r →
  r = on_upgrade ∧ ∃ k c, clients !! k = Some c ∧ token c = t.
Proof.
  unfold ws_handler. destruct (map_any (token_is t) clients) eqn:E; [|done].
  intros [= <-]. split; [done|].
  apply map_any_true in E as (k & c & Hk & Ht%bool_decide_eq_true). eauto.
Qed.

Lemma ws_handler_is_ok t clients :
  is_ok (ws_handler t clients) = is_ok (handle_status t clients).
Proof.
  unfold ws_handler, handle_status, map_any, find_by_token.
  by destruct (map_find (token_is t) clients) as [[k c]|].
Qed.

(** ** Attach *)

Lemma attach_unknown t ch clients timers :
  token_fresh t clients → attach t ch clients timers = (clients, timers).
Proof.
  intros Hf. unfold attach. by rewrite (proj2 (find_by_token_None _ _) Hf).
Qed.

(** C1: attaching to a registered token stores the sender, clears the
    stored timer and cancels the task it named; name and token are kept and
    no other task is cancelled. *)
Theorem attach_registered t ch clients timers k c :
  tokens_unique clients → clients !! k = Some c → token c = t →
  attach t ch clients timers =
    (<[k := {| name := name c; token := token c;
               disconnect_timer := None; tx := Some ch |}]> clients,
     from_option (λ h, abort h timers) timers (disconnect_timer c)).
Proof.
  intros Hu Hk Ht. unfold attach.
  rewrite (find_by_token_unique _ _ _ _ Hu Hk Ht).
  by destruct (disconnect_timer c).
Qed.

(** The two outcomes of an attach, as one case distinction. *)
Lemma attach_cases t ch clients timers :
  (token_fresh t clients ∧ attach t ch clients timers = (clients, timers)) ∨
  (∃ k c, clients !! k = Some c ∧ token c = t ∧
     attach t ch clients timers =
       (<[k := mkClient (name c) (token c) None (Some ch)]> clients,
        from_option (λ h, abort h timers) timers (disconnect_timer c))).
Proof.
  unfold attach. destruct (find_by_token t clients) as [[k c]|] eqn:E.
  - right. apply find_by_token_Some in E as [Hk Ht]. exists k, c.
    split_and!; [done..|]. by destruct (disconnect_timer c).
  - left. by rewrite <- find_by_token_None.
Qed.

(** After an attach no client with that token stores a timer, and the
    timer such a client stored before is no longer pending. *)
Theorem attach_no_timer t ch clients timers k c :
  tokens_unique clients → clients !! k = Some c → token c = t →
  ∃ c', (attach t ch clients timers).1 !! k = Some c' ∧
    tx c' = Some ch ∧ disconnect_timer c' = None ∧
    ∀ h, disconnect_timer c = Some h →
      (attach t ch clients timers).2 !! h = None.
Proof.
  intros Hu Hk Ht. unfold attach.
  rewrite (find_by_token_unique _ _ _ _ Hu Hk Ht). simpl.
  eexists. split; [apply lookup_insert_eq|]. split_and!; [done..|].
  intros h ->. apply lookup_abort_eq.
Qed.

Lemma attach_registry_ok t ch clients timers :
  registry_ok clients → registry_ok (attach t ch clients timers).1.
Proof.
  intros Hok. destruct (attach_cases t ch clients timers)
    as [[_ ->]|(k & c & Hk & _ & ->)]; [done|].
  by eapply registry_ok_update.
Qed.

Lemma attach_timers_subseteq t ch clients timers :
  (attach t ch clients timers).2 ⊆ timers.
Proof.
  destruct (attach_cases t ch clients timers)
    as [[_ ->]|(k & c & _ & _ & ->)]; [done|]. simpl.
  destruct (disconnect_timer c); [apply delete_subseteq|done].
Qed.

(** An attach keeps every client, with its name and its token. *)
Lemma attach_lookup t ch clients timers k c :
  clients !! k = Some c →
  ∃ c', (attach t ch clients timers).1 !! k = Some c' ∧
        name c' = name c ∧ token c' = token c.
Proof.
  intros Hk. destruct (attach_cases t ch clients timers)
    as [[_ ->]|(k0 & c0 & Hk0 & _ & ->)]; simpl; [eauto|].
  destruct (decide (k0 = k)) as [->|Hne].
  - rewrite lookup_insert_eq. simplify_eq. eauto.
  - rewrite lookup_insert_ne by done. eauto.
Qed.

(** ** Detach *)

Lemma detach_unknown t id now clients timers :
  token_fresh t clients → detach t id now clients timers = (clients, timers).
Proof.
  intros Hf. unfold detach. by rewrite (proj2 (find_by_token_None _ _) Hf).
Qed.

(** C2: detaching a registered token spawns a task that evicts the token
    ten seconds from now and stores its handle; name, token and the stored
    sender of the client are kept, and every task that was pending remains
    pending. *)
Theorem detach_registered t id now clients timers k c :
  tokens_unique clients → clients !! k = Some c → token c = t →
  detach t id now clients timers =
    (<[k := {| name := name c; token := token c;
               disconnect_timer := Some id; tx := tx c |}]> clients,
     <[id := {| timer_token := t; deadline := now + 10 |}]> timers).
Proof.
  intros Hu Hk Ht. unfold detach.
  by rewrite (find_by_token_unique _ _ _ _ Hu Hk Ht).
Qed.

Lemma detach_cases t id now clients timers :
  (token_fresh t clients ∧
   detach t id now clients timers = (clients, timers)) ∨
  (∃ k c, clients !! k = Some c ∧ token c = t ∧
     detach t id now clients timers =
       (<[k := mkClient (name c) (token c) (Some id) (tx c)]> clients,
        <[id := mkTimer t (now + GRACE_PERIOD)]> timers)).
Proof.
  unfold detach. destruct (find_by_token t clients) as [[k c]|] eqn:E.
  - right. apply find_by_token_Some in E as [Hk Ht]. by exists k, c.
  - left. by rewrite <- find_by_token_None.
Qed.

Lemma detach_registry_ok t id now clients timers :
  registry_ok clients → registry_ok (detach t id now clients timers).1.
Proof.
  intros Hok. destruct (detach_cases t id now clients timers)
    as [[_ ->]|(k & c & Hk & _ & ->)]; [done|].
  by eapply registry_ok_update.
Qed.

(** A detach keeps every client, with its name and its token. *)
Lemma detach_lookup t id now clients timers k c :
  clients !! k = Some c →
  ∃ c', (detach t id now clients timers).1 !! k = Some c' ∧
        name c' = name c ∧ token c' = token c.
Proof.
  intros Hk. destruct (detach_cases t id now clients timers)
    as [[_ ->]|(k0 & c0 & Hk0 & _ & ->)]; simpl; [eauto|].
  destruct (decide (k0 = k)) as [->|Hne].
  - rewrite lookup_insert_eq. simplify_eq. eauto.
  - rewrite lookup_insert_ne by done. eauto.
Qed.

(** The only task a detach adds is the one it spawns. *)
Lemma detach_timer_origin t id now clients timers h task :
  (detach t id now clients timers).2 !! h = Some task →
  timers !! h = Some task ∨
  (h = id ∧ task = mkTimer t (now + GRACE_PERIOD)).
Proof.
  destruct (detach_cases t id now clients timers)
    as [[_ ->]|(k0 & c0 & _ & _ & ->)]; simpl; [eauto|].
  rewrite lookup_insert_Some. intros [[<- <-]|[_ ?]]; eauto.
Qed.

(** C38: a detach never cancels a task: a timer that was pending, the one
    the client stored included, is still pending after it. *)
Theorem detach_keeps_timers t id now clients timers h task :
  timers !! h = Some task → h ≠ id →
  (detach t id now clients timers).2 !! h = Some task.
Proof.
  intros Hh Hne. destruct (detach_cases t id now clients timers)
    as [[_ ->]|(k & c & _ & _ & ->)]; [done|].
  simpl. by rewrite lookup_insert_ne.
Qed.

(** ** Eviction *)

Lemma evict_lookup t clients k c :
  evict t clients !! k = Some c ↔ clients !! k = Some c ∧ token c ≠ t.
Proof.
  unfold evict. rewrite lookup_retain_Some. unfold token_is.
  by rewrite negb_true_iff, bool_decide_eq_false.
Qed.

Lemma evict_token_fresh t clients : token_fresh t (evict t clients).
Proof. intros k c. rewrite evict_lookup. tauto. Qed.

Lemma evict_subseteq t clients : evict t clients ⊆ clients.
Proof. apply retain_subseteq. Qed.

Lemma evict_idemp t clients : evict t (evict t clients) = evict t clients.
Proof. apply retain_retain. Qed.

Lemma evict_unknown t clients :
  token_fresh t clients → evict t clients = clients.
Proof.
  intros Hf. apply map_eq. intros k. apply option_eq. intros c.
  rewrite evict_lookup. split; [tauto|]. intros Hk. split; [done|]. eauto.
Qed.

(** With unique tokens, eviction deletes one entry. *)
Lemma evict_delete t clients k c :
  tokens_unique clients → clients !! k = Some c → token c = t →
  evict t clients = delete k clients.
Proof.
  intros Hu Hk Ht. apply map_eq. intros k'. apply option_eq. intros c'.
  rewrite evict_lookup, lookup_delete_Some. split.
  - intros [Hk' Hne]. split; [|done]. intros <-. congruence.
  - intros [Hne Hk']. split; [done|]. intros Ht'. apply Hne.
    eapply Hu; eauto. congruence.
Qed.

Lemma evict_registry_ok t clients :
  registry_ok clients → registry_ok (evict t clients).
Proof. apply registry_ok_subseteq, evict_subseteq. Qed.

(** C6: eviction removes the clients that carry the token and no other,
    leaves the remaining ones as they were, and evicting again changes
    nothing. *)
Theorem evict_spec t clients :
  (∀ k c, evict t clients !! k = Some c ↔
          clients !! k = Some c ∧ token c ≠ t) ∧
  token_fresh t (evict t clients) ∧
  evict t (evict t clients) = evict t clients.
Proof.
  split_and!; [apply evict_lookup|apply evict_token_fresh|apply evict_idemp].
Qed.

(** ** The outbound pump *)

Lemma outbound_pump_cons c m rest :
  channel c = m :: rest →
  ∃ c', outbound_pump c = Some c' ∧ channel c' = rest ∧
    conn_token c' = conn_token c ∧ phase c' = phase c ∧
    ws_open c' = ws_open c ∧
    ws_sent c' =
      if ws_open c then ws_sent c ++ [Message_to_json m] else ws_sent c.
Proof.
  intros Hc. unfold outbound_pump, recv. rewrite Hc.
  eexists. split; [done|]. unfold ws_send. simpl.
  by destruct (ws_open c) eqn:E.
Qed.

(** C7: one iteration of the pump does nothing on an empty channel;
    otherwise it takes the oldest message and, when the socket is open,
    appends its JSON text to the frames sent; when the socket is closed the
    message is lost.  Token and phase of the connection are kept. *)
Theorem outbound_pump_spec c :
  outbound_pump c =
    match channel c with
    | [] => None
    | m :: rest =>
      Some {| conn_token := conn_token c; phase := phase c;
              ws_open := ws_open c; channel := rest;
              ws_sent := if ws_open c
                         then ws_sent c ++ [Message_to_json m]
                         else ws_sent c |}
    end.
Proof.
  unfold outbound_pump, recv, ws_send.
  destruct (channel c) as [|m rest]; [done|]. simpl.
  by destruct (ws_open c) eqn:E.
Qed.

Lemma outbound_pump_fields c c' :
  outbound_pump c = Some c' →
  conn_token c' = conn_token c ∧ phase c' = phase c ∧ ws_open c' = ws_open c.
Proof.
  unfold outbound_pump. destruct (recv c) as [[m c0]|] eqn:E; [|done].
  intros [= <-]. apply recv_Some in E as (_ & <- & <- & <- & _).
  pose proof (ws_send_fields (Message_to_json m) c0). tauto.
Qed.

Lemma outbound_pump_None c : outbound_pump c = None ↔ channel c = [].
Proof.
  unfold outbound_pump, recv. destruct (channel c); naive_solver.
Qed.

End lifecycle.

#[export] Hint Resolve attach_registry_ok detach_registry_ok evict_registry_ok
  evict_token_fresh evict_subseteq attach_timers_subseteq : chat.
#[export] Hint Rewrite evict_idemp : chat_rw.

(** ** Witnesses, on the clients of file [Registry] *)

Definition one_timer : gmap nat Timer := {[7 := mkTimer "tB" 42]}.

Lemma attach_registered_witness :
  attach "tB" 5 two_clients one_timer =
    (<["bob" := {| name := "Bob"; token := "tB";
                   disconnect_timer := None; tx := Some 5 |}]> two_clients,
     abort 7 one_timer).
Proof.
  apply (attach_registered "tB" 5 two_clients one_timer "bob" bob);
    [compute_done|reflexivity|reflexivity].
Defined.

Lemma attach_no_timer_witness :
  ∃ c', (attach "tB" 5 two_clients one_timer).1 !! "bob" = Some c' ∧
    tx c' = Some 5 ∧ disconnect_timer c' = None ∧
    ∀ h, disconnect_timer bob = Some h →
      (attach "tB" 5 two_clients one_timer).2 !! h = None.
Proof.
  apply (attach_no_timer "tB" 5 two_clients one_timer "bob" bob);
    [compute_done|reflexivity|reflexivity].
Defined.

Lemma detach_registered_witness :
  detach "tB" 8 100 two_clients one_timer =
    (<["bob" := {| name := "Bob"; token := "tB";
                   disconnect_timer := Some 8; tx := Some 3 |}]> two_clients,
     <[8 := {| timer_token := "tB"; deadline := 100 + 10 |}]> one_timer).
Proof.
  apply (detach_registered "tB" 8 100 two_clients one_timer "bob" bob);
    [compute_done|reflexivity|reflexivity].
Defined.

Lemma detach_keeps_timers_witness :
  (detach "tB" 8 100 two_clients one_timer).2 !! 7 = Some (mkTimer "tB" 42).
Proof. apply detach_keeps_timers; [reflexivity|lia]. Defined.
