(* ===== verification/Router.v ===== *)
(** * Router: sending a message

    [handle_send_message] (main.rs, lines 161-186) holds the lock for its
    whole body.  [resolve] is the part that reads the registry (lines
    167-183): the recipient by lower-cased name, then the sender by token,
    then the sender end of the recipient's channel, with the message it
    builds; each step returns early with a rejection.  The handler then
    sends on that channel and answers 200 with an empty body.

    [Outcome] and [route_outcome] are the four results the specification
    names for routing, in the order the specification checks them; they are
    modelled from the specification and compared with the handler in
    [handle_send_message_outcome]. *)

From S2P Require Import Prelude Strings Json Model Runtime Registry Lifecycle.

Section router.
Context `{!Lowercase}.
Implicit Types (clients : gmap string Client) (conns : gmap nat Connection)
  (request : MessageRequest).

(** ** Operations *)

Definition resolve request clients : Result (UnboundedSender * Message) Rejection :=
  let? client := ok_or_else (clients !! to_lowercase (req_to request)) not_found in
  let? '(_, sender_client) :=
    ok_or_else (find_by_token (req_token request) clients) reject in
  let? sender := ok_or_else (tx client) not_found in
  Ok (sender, {| from := name sender_client; body := req_body request |}).

Definition handle_send_message request clients conns
    : gmap nat Connection * Result Reply Rejection :=
  match resolve request clients with
  | Ok (sender, message) => (send sender message conns, Ok reply)
  | Err e => (conns, Err e)
  end.

(** ** The outcomes the specification names *)

Inductive Outcome :=
| Delivered
| Unauthorized
| RecipientNotFound
| RecipientOffline.

Definition route_outcome request clients : Outcome :=
  match find_by_token (req_token request) clients with
  | None => Unauthorized
  | Some _ =>
    match clients !! to_lowercase (req_to request) with
    | None => RecipientNotFound
    | Some client =>
      match tx client with
      | None => RecipientOffline
      | Some _ => Delivered
      end
    end
  end.

#[export] Instance Outcome_eq_dec : EqDecision Outcome.
Proof. solve_decision. Defined.

(** ** Resolution *)

(** A message is resolved exactly when the recipient is registered under
    the lower-cased name, stores a sender, and the token is that of a
    registered client. *)
Lemma resolve_Ok request clients ch m :
  tokens_unique clients →
  resolve request clients = Ok (ch, m) ↔
  ∃ client k sender_client,
    clients !! to_lowercase (req_to request) = Some client ∧
    clients !! k = Some sender_client ∧
    token sender_client = req_token request ∧
    tx client = Some ch ∧
    m = {| from := name sender_client; body := req_body request |}.
Proof.
  intros Hu. unfold resolve. split.
  - destruct (clients !! _) as [client|] eqn:Er; [|done]. simpl.
    destruct (find_by_token _ _) as [[k sc]|] eqn:Es; [|done]. simpl.
    apply find_by_token_Some in Es as [Hk Ht].
    destruct (tx client) as [ch'|] eqn:Ex; [|done]. simpl.
    intros [= <- <-]. by exists client, k, sc.
  - intros (client & k & sc & -> & Hk & Ht & Hx & ->). simpl.
    rewrite (find_by_token_unique _ _ _ _ Hu Hk Ht). simpl.
    by rewrite Hx.
Qed.

Lemma resolve_Err request clients e :
  resolve request clients = Err e →
  e = NotFound ∧
  (clients !! to_lowercase (req_to request) = None ∨
   token_fresh (req_token request) clients ∨
   ∃ client, clients !! to_lowercase (req_to request) = Some client ∧
             tx client = None).
Proof.
  unfold resolve. destruct e. intros Hr. split; [done|].
  destruct (clients !! _) as [client|] eqn:Er; [|by left]. simpl in Hr.
  destruct (find_by_token _ _) as [[k sc]|] eqn:Es; simpl in Hr.
  - destruct (tx client) eqn:Ex; [done|]. right. right. eauto.
  - right. left. by apply find_by_token_None.
Qed.

Lemma handle_send_message_fields request clients conns ch c :
  (handle_send_message request clients conns).1 !! ch = Some c →
  ∃ c0, conns !! ch = Some c0 ∧ conn_token c0 = conn_token c ∧
        phase c0 = phase c ∧ ws_open c0 = ws_open c ∧ ws_sent c0 = ws_sent c.
Proof.
  unfold handle_send_message.
  destruct (resolve request clients) as [[ch0 m]|e]; simpl.
  - apply conn_token_send.
  - eauto 10.
Qed.

Lemma handle_send_message_dom request clients conns :
  dom (handle_send_message request clients conns).1 = dom conns.
Proof.
  unfold handle_send_message.
  destruct (resolve request clients) as [[ch0 m]|e]; simpl; [|done].
  apply dom_alter_L.
Qed.

(** ** Theorems *)

(** C4: when the recipient is registered under the lower-cased name and
    stores a sender, and the token is that of a registered client, the send
    is answered 200 with an empty body and appends exactly one message to
    the recipient's channel, after the messages already waiting: [from] is
    the sender's name as registered, [body] the body of the request.
    Socket, frames and phase of the connection are untouched. *)
Theorem handle_send_message_delivers
    request clients conns recipient k sender_client ch c :
  tokens_unique clients →
  clients !! to_lowercase (req_to request) = Some recipient →
  clients !! k = Some sender_client →
  token sender_client = req_token request →
  tx recipient = Some ch → conns !! ch = Some c →
  handle_send_message request clients conns =
    (<[ch := {| conn_token := conn_token c; phase := phase c;
                ws_open := ws_open c;
                channel := channel c ++
                  [{| from := name sender_client; body := req_body request |}];
                ws_sent := ws_sent c |}]> conns,
     Ok {| status := OK; content := "" |}).
Proof.
  intros Hu Hr Hk Ht Hx Hc. unfold handle_send_message.
  rewrite (proj2 (resolve_Ok request clients ch _ Hu)) by eauto 10.
  f_equal. unfold send. apply map_eq. intros ch'.
  destruct (decide (ch = ch')) as [<-|Hne].
  - by rewrite lookup_alter_eq, lookup_insert_eq, Hc.
  - by rewrite lookup_alter_ne, lookup_insert_ne.
Qed.

(** C9: the handler succeeds exactly when the specification's routing
    delivers; the order in which the two perform their checks differs, which
    no caller can observe because all failures are one rejection. *)
Theorem handle_send_message_outcome request clients conns :
  (handle_send_message request clients conns).2 =
    if decide (route_outcome request clients = Delivered)
    then Ok reply else Err NotFound.
Proof.
  unfold handle_send_message, resolve, route_outcome.
  destruct (clients !! _) as [client|]; simpl;
    destruct (find_by_token _ _) as [[k sc]|]; simpl; try done.
  by destruct (tx client).
Qed.

(** C39: a send that fails changes no connection and is rejected with the
    one rejection there is, whichever check failed: the recipient is not
    registered, or the token is that of no client, or the recipient stores
    no sender. *)
Theorem handle_send_message_rejected request clients conns e :
  (handle_send_message request clients conns).2 = Err e →
  e = NotFound ∧
  (handle_send_message request clients conns).1 = conns ∧
  (clients !! to_lowercase (req_to request) = None ∨
   token_fresh (req_token request) clients ∨
   ∃ client, clients !! to_lowercase (req_to request) = Some client ∧
             tx client = None).
Proof.
  unfold handle_send_message.
  destruct (resolve request clients) as [[ch m]|e'] eqn:Er; [done|]. simpl.
  intros _. destruct e. apply resolve_Err in Er as [_ ?]. by split_and!.
Qed.

(** A send leaves every connection other than the one it resolves to
    as it was. *)
Theorem handle_send_message_frame request clients conns ch' :
  (∀ m, resolve request clients ≠ Ok (ch', m)) →
  (handle_send_message request clients conns).1 !! ch' = conns !! ch'.
Proof.
  intros Hne. unfold handle_send_message.
  destruct (resolve request clients) as [[ch m]|e] eqn:Er; [|done]. simpl.
  rewrite lookup_send. case_decide; [|done]. subst. by destruct (Hne m).
Qed.

(** C40: a client whose connection was detached still stores its sender,
    so a message to it is accepted with 200 during the grace period although
    nobody is connected. *)
Theorem handle_send_message_after_detach
    request clients timers id now k c ch conns :
  registry_ok clients → clients !! k = Some c → tx c = Some ch →
  k = to_lowercase (req_to request) →
  is_Some (find_by_token (req_token request) clients) →
  (handle_send_message request
     (detach (token c) id now clients timers).1 conns).2 = Ok reply.
Proof.
  intros [Hn Hu] Hk Hx -> [[ks cs] Hs].
  apply find_by_token_Some in Hs as [Hks Hts].
  unfold detach. rewrite (find_by_token_unique _ _ _ _ Hu Hk eq_refl). simpl.
  unfold handle_send_message.
  destruct (resolve request _) as [[ch0 m]|e] eqn:Er; [done|exfalso].
  apply resolve_Err in Er as [_ [Er|[Er|(c' & Er & Ex)]]].
  - by rewrite lookup_insert_eq in Er.
  - destruct (decide (ks = to_lowercase (req_to request))) as [->|Hne].
    + apply (Er _ _ (lookup_insert_eq _ _ _)). simpl. congruence.
    + refine (Er ks cs _ Hts). by rewrite lookup_insert_ne.
  - rewrite lookup_insert_eq in Er. by simplify_eq/=.
Qed.

End router.

(** ** Witnesses, on the clients of file [Registry] *)

Definition to_bob : MessageRequest :=
  {| req_token := "tA"; req_body := "hi"; req_to := "BOB" |}.

Definition to_alice : MessageRequest :=
  {| req_token := "tB"; req_body := "hello"; req_to := "alice" |}.

Definition bob_conn : Connection :=
  {| conn_token := "tB"; phase := Running; ws_open := true;
     channel := [mkMessage "Bob" "note to self"]; ws_sent := [] |}.

Definition one_conn : gmap nat Connection := {[3 := bob_conn]}.

Lemma handle_send_message_delivers_witness :
  handle_send_message to_bob two_clients one_conn =
    (<[3 := {| conn_token := "tB"; phase := Running; ws_open := true;
               channel := [mkMessage "Bob" "note to self";
                           mkMessage "Alice" "hi"];
               ws_sent := [] |}]> one_conn,
     Ok {| status := OK; content := "" |}).
Proof.
  apply (handle_send_message_delivers to_bob two_clients one_conn bob
           "alice" alice 3 bob_conn);
    [compute_done|reflexivity..].
Defined.

Lemma handle_send_message_rejected_witness :
  NotFound = NotFound ∧
  (handle_send_message to_alice two_clients one_conn).1 = one_conn ∧
  (two_clients !! to_lowercase (req_to to_alice) = None ∨
   token_fresh (req_token to_alice) two_clients ∨
   ∃ client, two_clients !! to_lowercase (req_to to_alice) = Some client ∧
             tx client = None).
Proof.
  exact (handle_send_message_rejected to_alice two_clients one_conn NotFound
           eq_refl).
Defined.

Lemma handle_send_message_frame_witness :
  (handle_send_message to_bob two_clients one_conn).1 !! 4 = one_conn !! 4.
Proof. apply handle_send_message_frame. intros m. by vm_compute. Defined.

Lemma handle_send_message_after_detach_witness :
  (handle_send_message to_bob
     (detach (token bob) 8 100 two_clients one_timer).1 one_conn).2 =
  Ok reply.
Proof.
  apply (handle_send_message_after_detach to_bob two_clients one_timer 8 100
           "bob" bob 3 one_conn); [compute_done|reflexivity..|compute_done].
Defined.
