(* ===== verification/Server.v ===== *)
(** * Server: the whole state and its transitions

    The state of the running program is the registry, the pending eviction
    tasks, the connections, the registrations that have passed their check
    and wait for the lock a second time, the counter that names tasks and
    connections, and the clock.  [issued] is a history variable: the tokens
    generated so far.  It is read by no transition; the step relation uses it
    to state the assumption that [Uuid::new_v4] does not repeat.

    An [Input] is one atomic piece of work of the single-threaded runtime:
    the code a task runs between two points where it can be suspended.  A
    handler that takes the lock once is one input; [handle_registration]
    takes it twice and is two ([InRegisterCheck], [InRegisterInsert]);
    [client_connected] is [InConnected] (lines 94-118), any number of
    [InInboundFrame] (line 121) and [InDisconnected] (lines 125-141), with
    [InPump] for the iterations of the spawned pump and [InTimerFire] for the
    body of an eviction task.  The environment contributes [InPeerClose] and
    [InTick].

    [exec] is the transition function, [step] the relation that adds the
    assumption on tokens, [run] executes a list of inputs and [reachable] is
    the set of states of the program. *)

From S2P Require Import Prelude Strings Json Model Runtime Registry Lifecycle Router.

(** ** State *)

Record Server := mkServer {
  clients : gmap string Client;
  timers : gmap nat Timer;
  conns : gmap nat Connection;
  registering : list RegistrationRequest;
  next_id : nat;
  now : nat;
  issued : gset string;
}.

(** [HashMap::new()] at start, nothing spawned, nobody connected. *)
Definition init : Server :=
  {| clients := ∅; timers := ∅; conns := ∅; registering := [];
     next_id := 0; now := 0; issued := ∅ |}.

Definition set_clients (v : gmap string Client) (s : Server) : Server :=
  mkServer v (timers s) (conns s) (registering s) (next_id s) (now s) (issued s).

Definition set_timers (v : gmap nat Timer) (s : Server) : Server :=
  mkServer (clients s) v (conns s) (registering s) (next_id s) (now s) (issued s).

Definition set_conns (v : gmap nat Connection) (s : Server) : Server :=
  mkServer (clients s) (timers s) v (registering s) (next_id s) (now s) (issued s).

Definition set_registering (v : list RegistrationRequest) (s : Server) : Server :=
  mkServer (clients s) (timers s) (conns s) v (next_id s) (now s) (issued s).

Definition bump_id (s : Server) : Server :=
  mkServer (clients s) (timers s) (conns s) (registering s) (S (next_id s))
    (now s) (issued s).

Definition advance (d : nat) (s : Server) : Server :=
  mkServer (clients s) (timers s) (conns s) (registering s) (next_id s)
    (now s + d) (issued s).

Definition record_token (t : string) (s : Server) : Server :=
  mkServer (clients s) (timers s) (conns s) (registering s) (next_id s)
    (now s) ({[t]} ∪ issued s).

Fixpoint remove_first (r : RegistrationRequest) (l : list RegistrationRequest)
    : list RegistrationRequest :=
  match l with
  | [] => []
  | r' :: l' => if decide (r = r') then l' else r' :: remove_first r l'
  end.

(** ** Inputs and outputs *)

Inductive Input :=
| InRegisterCheck (request : RegistrationRequest)
| InRegisterInsert (new_token : string) (request : RegistrationRequest)
| InStatus (t : string)
| InListClients
| InSendMessage (request : MessageRequest)
| InWsUpgrade (t : string)
| InConnected (ch : nat)
| InInboundFrame (ch : nat)
| InPeerClose (ch : nat)
| InDisconnected (ch : nat)
| InPump (ch : nat)
| InTimerFire (id : nat)
| InTick (d : nat).

Inductive Output :=
| Replied (r : Result Reply Rejection)
| Silent.

Section server.
Context `{!Lowercase}.

(** ** The transition function *)

Definition exec_register_check (request : RegistrationRequest) (s : Server)
    : Server * Output :=
  match registration_check request (clients s) with
  | Some r => (s, Replied (Ok r))
  | None => (set_registering (request :: registering s) s, Silent)
  end.

Definition exec_register_insert (new_token : string)
    (request : RegistrationRequest) (s : Server) : Server * Output :=
  let '(clients', r) := registration_insert new_token request (clients s) in
  (record_token new_token
     (set_registering (remove_first request (registering s))
        (set_clients clients' s)),
   Replied (Ok r)).

Definition exec_send_message (request : MessageRequest) (s : Server)
    : Server * Output :=
  let '(conns', r) := handle_send_message request (clients s) (conns s) in
  (set_conns conns' s, Replied r).

Definition exec_ws_upgrade (t : string) (s : Server) : Server * Output :=
  match ws_handler t (clients s) with
  | Ok r =>
    (bump_id (set_conns (<[next_id s := new_connection t]> (conns s)) s),
     Replied (Ok r))
  | Err e => (s, Replied (Err e))
  end.

Definition exec_connected (ch : nat) (c : Connection) (s : Server) : Server :=
  let '(clients', timers') :=
    attach (conn_token c) ch (clients s) (timers s) in
  set_conns (<[ch := set_phase Running c]> (conns s))
    (set_timers timers' (set_clients clients' s)).

Definition exec_disconnected (ch : nat) (c : Connection) (s : Server) : Server :=
  let '(clients', timers') :=
    detach (conn_token c) (next_id s) (now s) (clients s) (timers s) in
  bump_id
    (set_conns (<[ch := set_phase Finished c]> (conns s))
       (set_timers timers' (set_clients clients' s))).

Definition exec_timer_fire (id : nat) (task : Timer) (s : Server) : Server :=
  set_timers (delete id (timers s))
    (set_clients (evict (timer_token task) (clients s)) s).

Definition exec (i : Input) (s : Server) : option (Server * Output) :=
  match i with
  | InRegisterCheck request => Some (exec_register_check request s)
  | InRegisterInsert new_token request =>
    guard (request ∈ registering s);;
    Some (exec_register_insert new_token request s)
  | InStatus t => Some (s, Replied (handle_status t (clients s)))
  | InListClients => Some (s, Replied (handle_list_clients (clients s)))
  | InSendMessage request => Some (exec_send_message request s)
  | InWsUpgrade t => Some (exec_ws_upgrade t s)
  | InConnected ch =>
    c ← conns s !! ch;
    guard (phase c = Upgrading);;
    Some (exec_connected ch c s, Silent)
  | InInboundFrame ch =>
    c ← conns s !! ch;
    guard (phase c = Running ∧ ws_open c = true);;
    Some (s, Silent)
  | InPeerClose ch =>
    c ← conns s !! ch;
    guard (ws_open c = true);;
    Some (set_conns (<[ch := close_ws c]> (conns s)) s, Silent)
  | InDisconnected ch =>
    c ← conns s !! ch;
    guard (phase c = Running ∧ ws_open c = false);;
    Some (exec_disconnected ch c s, Silent)
  | InPump ch =>
    c ← conns s !! ch;
    guard (phase c ≠ Upgrading);;
    c' ← outbound_pump c;
    Some (set_conns (<[ch := c']> (conns s)) s, Silent)
  | InTimerFire id =>
    task ← timers s !! id;
    guard (due (now s) task = true);;
    Some (exec_timer_fire id task s, Silent)
  | InTick d => Some (advance d s, Silent)
  end.

(** ** Steps, runs and reachable states *)

(** What the transitions assume of the environment: a generated token was
    never generated before. *)
Definition env_ok (i : Input) (s : Server) : Prop :=
  match i with
  | InRegisterInsert new_token _ => new_token ∉ issued s
  | _ => True
  end.

#[export] Instance env_ok_dec i s : Decision (env_ok i s).
Proof. destruct i; simpl; apply _. Defined.

Definition step (s : Server) (i : Input) (o : Output) (s' : Server) : Prop :=
  env_ok i s ∧ exec i s = Some (s', o).

Fixpoint run (trace : list Input) (s : Server) : option (Server * list Output) :=
  match trace with
  | [] => Some (s, [])
  | i :: trace' =>
    guard (env_ok i s);;
    '(s', o) ← exec i s;
    '(s'', os) ← run trace' s';
    Some (s'', o :: os)
  end.

Inductive reachable : Server → Prop :=
| reachable_init : reachable init
| reachable_step s i o s' : reachable s → step s i o s' → reachable s'.

(** [steps s trace s']: the inputs of [trace], in order, lead from [s] to
    [s']. *)
Inductive steps : Server → list Input → Server → Prop :=
| steps_nil s : steps s [] s
| steps_cons s i o s' trace s'' :
    step s i o s' → steps s' trace s'' → steps s (i :: trace) s''.

Lemma run_steps trace s s' os :
  run trace s = Some (s', os) → steps s trace s'.
Proof.
  revert s s' os. induction trace as [|i trace IH]; intros s s' os; simpl.
  - intros [= <- <-]. constructor.
  - intros Hr. case_guard as He; [|done]. simpl in Hr.
    destruct (exec i s) as [[s1 o]|] eqn:Hx; [|done]. simpl in Hr.
    destruct (run trace s1) as [[s2 os']|] eqn:Hrun; [|done]. simpl in Hr.
    injection Hr as <- <-. eapply steps_cons; [by split|]. eauto.
Qed.

Lemma steps_run trace s s' :
  steps s trace s' → ∃ os, run trace s = Some (s', os).
Proof.
  induction 1 as [s|s i o s' trace s'' [He Hx] _ [os IH]]; simpl; [eauto|].
  rewrite option_guard_True by done. rewrite Hx. simpl. rewrite IH. eauto.
Qed.

Lemma steps_app s1 t1 s2 t2 s3 :
  steps s1 t1 s2 → steps s2 t2 s3 → steps s1 (t1 ++ t2) s3.
Proof. induction 1; simpl; [done|]. intros. econstructor; eauto. Qed.

Lemma reachable_steps s trace s' :
  reachable s → steps s trace s' → reachable s'.
Proof.
  intros Hr Hs. induction Hs as [|s i o s' trace s'' Hst _ IH]; [done|].
  apply IH. by eapply reachable_step.
Qed.

Lemma reachable_run trace s os :
  run trace init = Some (s, os) → reachable s.
Proof.
  intros Hr. eapply reachable_steps; [constructor|]. by eapply run_steps.
Qed.

(** Every reachable state is the end of a run from the initial state. *)
Lemma reachable_inv s : reachable s → ∃ trace, steps init trace s.
Proof.
  induction 1 as [|s i o s' _ [trace IH] Hst].
  - exists []. constructor.
  - exists (trace ++ [i]). eapply steps_app; [done|].
    econstructor; [done|constructor].
Qed.

(** The state a run ends in; the start state when the run is not enabled. *)
Definition state_after (trace : list Input) (s : Server) : Server :=
  from_option fst s (run trace s).

Lemma steps_state_after trace s :
  is_Some (run trace s) → steps s trace (state_after trace s).
Proof.
  intros [[s' os] Hr]. unfold state_after. rewrite Hr. simpl.
  by eapply run_steps.
Qed.

Lemma reachable_state_after trace : reachable (state_after trace init).
Proof.
  unfold state_after. destruct (run trace init) as [[s os]|] eqn:E; simpl.
  - by eapply reachable_run.
  - constructor.
Qed.

(** An invariant is a property of the initial state that every step
    preserves; it then holds of every reachable state. *)
Lemma reachable_ind_inv (P : Server → Prop) :
  P init →
  (∀ s i o s', reachable s → P s → step s i o s' → P s') →
  ∀ s, reachable s → P s.
Proof. intros Hi Hs s. induction 1; eauto. Qed.

(** ** The registration handler as two steps *)

(** The two critical sections of one registration, run back to back. *)
Definition exec_registration (new_token : string)
    (request : RegistrationRequest) (s : Server) : option (Server * Output) :=
  '(s1, o) ← exec (InRegisterCheck request) s;
  match o with
  | Silent => exec (InRegisterInsert new_token request) s1
  | Replied _ => Some (s1, o)
  end.


End server.

(** ** Case analysis on a step *)

(** [exec_inv H], for [H : exec i s = Some (s', o)], gives one goal per
    input with the guards of its transition as hypotheses; [exec_unfold]
    unfolds the transitions of the handlers, and [exec_cases H] goes on to
    the branches inside them. *)
Ltac exec_inv H :=
  match type of H with
  | exec ?i _ = Some _ => destruct i; simpl in H; simplify_option_eq
  end.

Ltac exec_unfold :=
  unfold exec_register_check, exec_register_insert, exec_send_message,
    exec_ws_upgrade, exec_connected, exec_disconnected in *.

Ltac exec_cases H :=
  exec_inv H; exec_unfold; repeat case_match; simplify_eq; simpl.

(** ** Runs used as examples

    Alice and Bob register, Bob connects and Alice sends him two messages
    ([s_connected]); then Bob's socket closes and the server cleans up
    ([s_detached]); ten seconds later ([s_due]) the eviction may run. *)

Definition register_as (n t : string) : list Input :=
  [InRegisterCheck {| reg_name := n |};
   InRegisterInsert t {| reg_name := n |}].

Definition hi_bob : MessageRequest :=
  {| req_token := "tA"; req_body := "hi"; req_to := "bob" |}.

Definition trace_connected : list Input :=
  register_as "Alice" "tA" ++ register_as "Bob" "tB" ++
  [InWsUpgrade "tB"; InConnected 0; InSendMessage hi_bob;
   InSendMessage hi_bob].

Definition s_connected : Server := state_after trace_connected init.

Definition s_detached : Server :=
  state_after [InPeerClose 0; InDisconnected 0] s_connected.

Definition s_due : Server := state_after [InTick 10] s_detached.

Lemma reachable_state_after_steps trace s :
  reachable s → reachable (state_after trace s).
Proof.
  intros Hr. unfold state_after.
  destruct (run trace s) as [[s' os]|] eqn:E; simpl; [|done].
  eapply reachable_steps; [done|]. by eapply run_steps.
Qed.

Lemma reachable_s_connected : reachable s_connected.
Proof. apply reachable_state_after. Qed.

Lemma reachable_s_detached : reachable s_detached.
Proof. apply reachable_state_after_steps, reachable_s_connected. Qed.

Lemma reachable_s_due : reachable s_due.
Proof. apply reachable_state_after_steps, reachable_s_detached. Qed.
