(* ===== verification/Invariants.v ===== *)
(** * Invariants: what holds of every reachable state

    [server_ok] collects the facts the other theorems rest on:

    - the registry is well formed ([registry_ok]: keys are lower-cased names,
      tokens are unique);
    - the token of every client was issued, so a new token is new to the
      registry;
    - tasks and connections have identifiers below the counter, so a new
      identifier names nothing;
    - a sender stored in a client names a connection that was opened with the
      token of that client and has started: a send through it finds its
      queue.

    Each input has its preservation lemma; [reachable_server_ok] puts them
    together.  The invariant is decidable ([server_ok_dec]), so it can be
    evaluated on a state. *)

From S2P Require Import Prelude Strings Json Model Runtime Registry Lifecycle Router Server.

Section invariants.
Context `{!Lowercase}.
Implicit Types (s : Server).

Definition tokens_issued s : Prop :=
  ∀ k c, clients s !! k = Some c → token c ∈ issued s.

Definition senders_valid (cls : gmap string Client) (cns : gmap nat Connection)
    : Prop :=
  ∀ k c ch, cls !! k = Some c → tx c = Some ch →
    ∃ conn, cns !! ch = Some conn ∧ conn_token conn = token c ∧
            phase conn ≠ Upgrading.

Record server_ok s : Prop := mk_server_ok {
  ok_registry : registry_ok (clients s);
  ok_issued : tokens_issued s;
  ok_timers : ∀ id task, timers s !! id = Some task → id < next_id s;
  ok_conns : ∀ ch c, conns s !! ch = Some c → ch < next_id s;
  ok_senders : senders_valid (clients s) (conns s);
}.

(** A change of the connections that keeps the token of each and lets none
    fall back to [Upgrading] keeps the stored senders valid. *)
Definition conns_evolve (cns cns' : gmap nat Connection) : Prop :=
  ∀ ch c, cns !! ch = Some c →
    ∃ c', cns' !! ch = Some c' ∧ conn_token c' = conn_token c ∧
          (phase c ≠ Upgrading → phase c' ≠ Upgrading).

(** ** Generic preservation lemmas *)

Lemma senders_valid_evolve cls cns cns' :
  senders_valid cls cns → conns_evolve cns cns' → senders_valid cls cns'.
Proof.
  intros Hs He k c ch Hk Hx.
  destruct (Hs _ _ _ Hk Hx) as (conn & Hc & Ht & Hp).
  destruct (He _ _ Hc) as (c' & Hc' & Ht' & Hp').
  exists c'. split_and!; [done|congruence|auto].
Qed.

Lemma senders_valid_subseteq cls cls' cns :
  cls' ⊆ cls → senders_valid cls cns → senders_valid cls' cns.
Proof. intros Hsub Hs k c ch Hk. eapply Hs, lookup_weaken; eauto. Qed.

Lemma senders_valid_insert cls cns k c :
  senders_valid cls cns →
  (∀ ch, tx c = Some ch →
     ∃ conn, cns !! ch = Some conn ∧ conn_token conn = token c ∧
             phase conn ≠ Upgrading) →
  senders_valid (<[k := c]> cls) cns.
Proof.
  intros Hs Hc k' c' ch. rewrite lookup_insert_Some.
  intros [[<- <-]|[_ Hk']]; eauto.
Qed.

Lemma conns_evolve_refl cns : conns_evolve cns cns.
Proof. intros ch c Hc. eauto. Qed.

Lemma conns_evolve_insert cns ch c c' :
  cns !! ch = Some c → conn_token c' = conn_token c →
  (phase c ≠ Upgrading → phase c' ≠ Upgrading) →
  conns_evolve cns (<[ch := c']> cns).
Proof.
  intros Hc Ht Hp ch0 c0 Hc0. destruct (decide (ch = ch0)) as [<-|Hne].
  - exists c'. rewrite lookup_insert_eq. by simplify_eq.
  - exists c0. by rewrite lookup_insert_ne.
Qed.

Lemma conns_evolve_fresh cns ch c' :
  cns !! ch = None → conns_evolve cns (<[ch := c']> cns).
Proof.
  intros Hn ch0 c0 Hc0. exists c0. rewrite lookup_insert_ne; [done|].
  congruence.
Qed.

Lemma conns_evolve_send cns ch m : conns_evolve cns (send ch m cns).
Proof.
  intros ch0 c0 Hc0.
  destruct (send_lookup_Some ch ch0 m _ _ Hc0) as (c' & ? & ? & Hp & _).
  exists c'. split_and!; [done..|]. congruence.
Qed.

#[local] Hint Resolve conns_evolve_refl conns_evolve_send
  senders_valid_evolve senders_valid_subseteq : chat.

(** ** Preservation, input by input *)

Lemma server_ok_init : server_ok init.
Proof.
  split; simpl; [apply registry_ok_empty|..]; intros ?; intros;
    simplify_map_eq.
Qed.

Lemma server_ok_set_conns s cns' :
  server_ok s → conns_evolve (conns s) cns' →
  (∀ ch c, cns' !! ch = Some c → ch < next_id s) →
  server_ok (set_conns cns' s).
Proof. intros [] He Hb. split; simpl; eauto with chat. Qed.

Lemma server_ok_register_check request s :
  server_ok s → server_ok (exec_register_check request s).1.
Proof. intros []. unfold exec_register_check. by case_match. Qed.

Lemma server_ok_register_insert t request s :
  server_ok s → t ∉ issued s →
  server_ok (exec_register_insert t request s).1.
Proof.
  intros [[Hn Hu] Hi Ht Hc Hs] Hf. split; simpl.
  - split; [apply (keys_normalized_insert _ (mkClient _ _ _ _) Hn)|].
    apply tokens_unique_insert; [done|]. intros k' c' Hk' _ E.
    apply Hf. simpl in E. rewrite <- E. eauto.
  - intros k c. simpl. rewrite lookup_insert_Some.
    intros [[_ <-]|[_ Hk]]; [set_solver|]. apply elem_of_union_r. eauto.
  - done.
  - done.
  - by apply senders_valid_insert.
Qed.

Lemma server_ok_send_message request s :
  server_ok s → server_ok (exec_send_message request s).1.
Proof.
  intros Hok. unfold exec_send_message, handle_send_message.
  destruct (resolve request (clients s)) as [[ch m]|e]; simpl.
  - apply server_ok_set_conns; [done|apply conns_evolve_send|].
    intros ch' c' (c0 & Hc0 & _)%conn_token_send. by eapply ok_conns.
  - by destruct s, Hok.
Qed.

Lemma server_ok_ws_upgrade t s :
  server_ok s → server_ok (exec_ws_upgrade t s).1.
Proof.
  intros Hok. unfold exec_ws_upgrade.
  destruct (ws_handler t (clients s)); [|done].
  assert (conns s !! next_id s = None) as Hfresh.
  { apply eq_None_not_Some. intros [c Hc].
    apply (ok_conns _ Hok) in Hc. lia. }
  destruct Hok as [Hr Hi Ht Hc Hs]. split; simpl; [done..| | |].
  - intros id task Hid. apply Ht in Hid. lia.
  - intros ch c. rewrite lookup_insert_Some. intros [[<- _]|[_ Hch]]; [lia|].
    apply Hc in Hch. lia.
  - eauto using senders_valid_evolve, conns_evolve_fresh.
Qed.

Lemma server_ok_connected ch c s :
  server_ok s → conns s !! ch = Some c → phase c = Upgrading →
  server_ok (exec_connected ch c s).
Proof.
  intros [Hr Hi Ht Hc Hs] Hch Hp. unfold exec_connected, tokens_issued in *.
  pose proof (attach_registry_ok (conn_token c) ch _ (timers s) Hr) as Hr'.
  pose proof (attach_timers_subseteq (conn_token c) ch (clients s) (timers s))
    as Hsub.
  assert (conns_evolve (conns s) (<[ch := set_phase Running c]> (conns s)))
    as He by by eapply conns_evolve_insert.
  destruct (attach_cases (conn_token c) ch (clients s) (timers s))
    as [[_ E]|(k & c0 & Hk & Htok & E)]; rewrite E in *; clear E;
    (split; simpl in *; [done| | | |]).
  - done.
  - done.
  - intros ch' c'. rewrite lookup_insert_Some. intros [[<- _]|[_ ?]]; eauto.
  - eauto with chat.
  - intros k' c'. simpl. rewrite lookup_insert_Some.
    intros [[_ <-]|[_ Hk']]; simpl; eauto.
  - intros id task Hid. eapply Ht, lookup_weaken; eauto.
  - intros ch' c'. rewrite lookup_insert_Some. intros [[<- _]|[_ ?]]; eauto.
  - apply senders_valid_insert; [eauto with chat|]. simpl.
    intros ? [= <-]. eexists. rewrite lookup_insert_eq. done.
Qed.

Lemma server_ok_disconnected ch c s :
  server_ok s → conns s !! ch = Some c →
  server_ok (exec_disconnected ch c s).
Proof.
  intros [Hr Hi Ht Hc Hs] Hch. unfold exec_disconnected, tokens_issued in *.
  pose proof (detach_registry_ok (conn_token c) (next_id s) (now s) _
    (timers s) Hr) as Hr'.
  assert (conns_evolve (conns s) (<[ch := set_phase Finished c]> (conns s)))
    as He by by eapply conns_evolve_insert.
  assert (∀ ch' c', <[ch := set_phase Finished c]> (conns s) !! ch' = Some c' →
    ch' < S (next_id s)) as Hc'.
  { intros ch' c'. rewrite lookup_insert_Some.
    intros [[<- _]|[_ H']]; [apply Hc in Hch|apply Hc in H']; lia. }
  destruct (detach_cases (conn_token c) (next_id s) (now s) (clients s)
    (timers s)) as [[_ E]|(k & c0 & Hk & Htok & E)]; rewrite E in *; clear E;
    (split; simpl in *; [done| | |done|]).
  - done.
  - intros id task Hid. apply Ht in Hid. lia.
  - eauto with chat.
  - intros k' c'. simpl. rewrite lookup_insert_Some.
    intros [[_ <-]|[_ Hk']]; simpl; eauto.
  - intros id task. rewrite lookup_insert_Some.
    intros [[<- _]|[_ Hid]]; [lia|]. apply Ht in Hid. lia.
  - apply senders_valid_insert; [eauto with chat|]. simpl.
    intros ch0 Hx. destruct (Hs _ _ _ Hk Hx) as (conn & Hconn & ? & ?).
    destruct (He _ _ Hconn) as (c' & ? & ? & ?). exists c'.
    split_and!; [done|congruence|auto].
Qed.

Lemma server_ok_timer_fire id task s :
  server_ok s → server_ok (exec_timer_fire id task s).
Proof.
  intros [Hr Hi Ht Hc Hs]. split; simpl; [eauto with chat| | |done|].
  - intros k c [Hk _]%evict_lookup. eauto.
  - intros id' task' [_ Hid]%lookup_delete_Some. eauto.
  - eauto with chat.
Qed.

Lemma server_ok_update_conn ch c c' s :
  server_ok s → conns s !! ch = Some c →
  conn_token c' = conn_token c → phase c' = phase c →
  server_ok (set_conns (<[ch := c']> (conns s)) s).
Proof.
  intros Hok Hch Ht Hp. apply server_ok_set_conns; [done| |].
  - eapply conns_evolve_insert; [done..|]. congruence.
  - intros ch' c0. rewrite lookup_insert_Some.
    intros [[<- _]|[_ H']]; by eapply ok_conns.
Qed.

Lemma server_ok_advance d s : server_ok s → server_ok (advance d s).
Proof. by intros []. Qed.

(** Every step keeps the invariant. *)
Lemma step_server_ok s i o s' : server_ok s → step s i o s' → server_ok s'.
Proof.
  intros Hok [He Hx]. destruct i; simpl in *; simplify_option_eq;
    try match goal with
        | Hx : _ = (?s1, ?o1) |- server_ok ?s1 =>
          change s1 with (s1, o1).1; rewrite <- Hx
        end.
  - by apply server_ok_register_check.
  - by apply server_ok_register_insert.
  - done.
  - done.
  - by apply server_ok_send_message.
  - by apply server_ok_ws_upgrade.
  - by apply server_ok_connected.
  - done.
  - by eapply server_ok_update_conn.
  - by apply server_ok_disconnected; intuition.
  - match goal with Hp : outbound_pump _ = Some _ |- _ =>
      apply outbound_pump_fields in Hp as (? & ? & ?)
    end. by eapply server_ok_update_conn.
  - by apply server_ok_timer_fire.
  - by apply server_ok_advance.
Qed.

Lemma reachable_ok s : reachable s → server_ok s.
Proof.
  apply reachable_ind_inv; [apply server_ok_init|].
  intros ? ? ? ? _. apply step_server_ok.
Qed.

Lemma steps_server_ok s trace s' : server_ok s → steps s trace s' → server_ok s'.
Proof. intros Hok. induction 1; eauto using step_server_ok. Qed.

(** ** The invariant can be checked

    Each field of [server_ok] quantifies over the entries of a finite map,
    so the invariant of a given state is decided by looking at them. *)

Definition sender_valid (cns : gmap nat Connection) (c : Client) : Prop :=
  match tx c with
  | Some ch =>
    match cns !! ch with
    | Some conn => conn_token conn = token c ∧ phase conn ≠ Upgrading
    | None => False
    end
  | None => True
  end.

#[export] Instance sender_valid_dec cns c : Decision (sender_valid cns c).
Proof. unfold sender_valid. repeat case_match; apply _. Defined.

Lemma senders_valid_Forall cls cns :
  senders_valid cls cns ↔ map_Forall (λ _ c, sender_valid cns c) cls.
Proof.
  unfold senders_valid, sender_valid. split.
  - intros Hs k c Hk. destruct (tx c) as [ch|] eqn:Hx; [|done].
    by destruct (Hs _ _ _ Hk Hx) as (conn & -> & ? & ?).
  - intros Hs k c ch Hk Hx. specialize (Hs k c Hk). simpl in Hs.
    rewrite Hx in Hs. destruct (cns !! ch) as [conn|]; [eauto|done].
Qed.

Lemma server_ok_Forall s :
  server_ok s ↔
  registry_ok (clients s) ∧
  map_Forall (λ _ c, token c ∈ issued s) (clients s) ∧
  map_Forall (λ id _, id < next_id s) (timers s) ∧
  map_Forall (λ ch _, ch < next_id s) (conns s) ∧
  map_Forall (λ _ c, sender_valid (conns s) c) (clients s).
Proof.
  rewrite <- senders_valid_Forall. split.
  - by intros [].
  - intros (? & ? & ? & ? & ?). by split.
Qed.

#[export] Instance server_ok_dec s : Decision (server_ok s).
Proof.
  refine (cast_if (decide (
    registry_ok (clients s) ∧
    map_Forall (λ _ c, token c ∈ issued s) (clients s) ∧
    map_Forall (λ id _, id < next_id s) (timers s) ∧
    map_Forall (λ ch _, ch < next_id s) (conns s) ∧
    map_Forall (λ _ c, sender_valid (conns s) c) (clients s))));
    by rewrite server_ok_Forall.
Defined.

(** C13: in every state the program can reach, the registry is keyed by
    lower-cased names, no two clients carry the same token, the token of
    every client was issued, tasks and connections are named below the
    counter, and a sender stored in a client names a connection that was
    opened with the token of that client and has started. *)
Theorem reachable_server_ok s :
  reachable s →
  keys_normalized (clients s) ∧ tokens_unique (clients s) ∧
  tokens_issued s ∧
  (∀ id task, timers s !! id = Some task → id < next_id s) ∧
  (∀ ch c, conns s !! ch = Some c → ch < next_id s) ∧
  senders_valid (clients s) (conns s).
Proof. intros [[??] ????]%reachable_ok. by split_and!. Qed.

End invariants.

#[export] Hint Resolve conns_evolve_refl conns_evolve_send
  senders_valid_evolve senders_valid_subseteq : chat.

(** ** Witness *)

(** The invariant, decided on the state after Bob's grace period. *)
Example server_ok_s_due : server_ok s_due.
Proof. compute_done. Qed.

Lemma reachable_server_ok_witness :
  keys_normalized (clients s_detached) ∧ tokens_unique (clients s_detached) ∧
  tokens_issued s_detached ∧
  (∀ id task, timers s_detached !! id = Some task → id < next_id s_detached) ∧
  (∀ ch c, conns s_detached !! ch = Some c → ch < next_id s_detached) ∧
  senders_valid (clients s_detached) (conns s_detached).
Proof. apply reachable_server_ok, reachable_s_detached. Defined.
