(* ===== verification/Bounds.v ===== *)
(** * Bounds: how large the state of the server can be

    The program never refuses work for lack of room: the registry, the
    channels and the set of tasks are unbounded.  What bounds them is the
    history of the run.  [bounded] collects three such bounds, which hold of
    every reachable state ([reachable_bounded]):

    - tasks and connections: each was given the value of the counter when
      it was created, so together they are at most [next_id];
    - eviction tasks: a task sleeps [GRACE_PERIOD] seconds from the clean-up
      that spawned it (main.rs, line 134), so no pending deadline is more
      than [GRACE_PERIOD] seconds away;
    - the registry: every client holds a token of its own, so there are at
      most as many clients as tokens were generated.

    [steps_next_id] bounds the counter by the length of the run, and
    [Message_to_json_length] bounds a frame by the size of the message: at
    most six characters of JSON for a character of name or body. *)

From S2P Require Import Prelude Strings Json Model Runtime Registry Lifecycle Router Server Invariants.

Section bounds.
Context `{!Lowercase}.
Implicit Types (s : Server).

Record bounded s : Prop := mk_bounded {
  bd_ids : size (timers s) + size (conns s) ≤ next_id s;
  bd_deadline : ∀ id task,
    timers s !! id = Some task → deadline task ≤ now s + GRACE_PERIOD;
  bd_clients : size (clients s) ≤ size (issued s);
}.

(** ** Sizes under the operations *)

Lemma size_insert_Some `{Countable K} {A} (m : gmap K A) i x y :
  m !! i = Some x → size (<[i := y]> m) = size m.
Proof. intros Hi. by apply map_size_insert_Some. Qed.

Lemma size_send ch m (cns : gmap nat Connection) : size (send ch m cns) = size cns.
Proof. unfold send. by rewrite <- !size_dom, dom_alter_L. Qed.

Lemma size_attach t ch clients timers :
  size (attach t ch clients timers).1 = size clients ∧
  size (attach t ch clients timers).2 ≤ size timers.
Proof.
  split; [|apply map_subseteq_size, attach_timers_subseteq].
  destruct (attach_cases t ch clients timers)
    as [[_ ->]|(k & c & Hk & _ & ->)]; [done|]. by eapply size_insert_Some.
Qed.

Lemma size_detach t id now clients timers :
  size (detach t id now clients timers).1 = size clients ∧
  size (detach t id now clients timers).2 ≤ S (size timers).
Proof.
  destruct (detach_cases t id now clients timers)
    as [[_ ->]|(k & c & Hk & _ & ->)]; simpl; [lia|].
  split; [by eapply size_insert_Some|apply size_insert_le].
Qed.

Lemma detach_deadline t id now clients timers id' task :
  (detach t id now clients timers).2 !! id' = Some task →
  timers !! id' = Some task ∨ deadline task = now + GRACE_PERIOD.
Proof.
  destruct (detach_cases t id now clients timers)
    as [[_ ->]|(k & c & _ & _ & ->)]; simpl; [by left|].
  intros [[_ <-]|[_ ?]]%lookup_insert_Some; [by right|by left].
Qed.

(** ** Preservation *)

Lemma bounded_init : bounded init.
Proof. by split. Qed.

Lemma bounded_register_insert t request s :
  t ∉ issued s → bounded s → bounded (exec_register_insert t request s).1.
Proof.
  intros Hnew [Hi Hd Hc]. unfold exec_register_insert. simpl.
  split; simpl; [done..|].
  rewrite size_union, size_singleton by set_solver.
  pose proof (size_insert_le (clients s) (to_lowercase (reg_name request))
                {| name := reg_name request; token := t;
                   disconnect_timer := None; tx := None |}). simpl in *. lia.
Qed.

Lemma bounded_connected ch c s :
  conns s !! ch = Some c → bounded s → bounded (exec_connected ch c s).
Proof.
  intros Hch [Hi Hd Hc]. unfold exec_connected.
  pose proof (size_attach (conn_token c) ch (clients s) (timers s)) as [Ea Et].
  pose proof (attach_timers_subseteq (conn_token c) ch (clients s) (timers s))
    as Hsub.
  destruct (attach _ _ _ _) as [cls tms]. simpl in *.
  split; simpl.
  - rewrite (size_insert_Some _ _ c) by done. lia.
  - intros id task Hid. eapply Hd, lookup_weaken; eauto.
  - lia.
Qed.

Lemma bounded_disconnected ch c s :
  conns s !! ch = Some c → bounded s → bounded (exec_disconnected ch c s).
Proof.
  intros Hch [Hi Hd Hc]. unfold exec_disconnected.
  pose proof (size_detach (conn_token c) (next_id s) (now s) (clients s)
                (timers s)) as [Ea Et].
  pose proof (detach_deadline (conn_token c) (next_id s) (now s) (clients s)
                (timers s)) as Hdl.
  destruct (detach _ _ _ _ _) as [cls tms]. simpl in *.
  split; simpl.
  - rewrite (size_insert_Some _ _ c) by done. lia.
  - intros id task [Hid| ->]%Hdl; [eauto|lia].
  - lia.
Qed.

Lemma bounded_timer_fire id task s :
  timers s !! id = Some task → bounded s → bounded (exec_timer_fire id task s).
Proof.
  intros Hid [Hi Hd Hc]. split; simpl.
  - pose proof (size_delete_Some (timers s) id task Hid). lia.
  - intros id' task' [_ ?]%lookup_delete_Some. eauto.
  - pose proof (map_subseteq_size _ _ (evict_subseteq (timer_token task)
                                         (clients s))). lia.
Qed.

Lemma bounded_update_conn ch c c' s :
  conns s !! ch = Some c → bounded s →
  bounded (set_conns (<[ch := c']> (conns s)) s).
Proof.
  intros Hch [Hi Hd Hc]. split; simpl; [|done..].
  by rewrite (size_insert_Some _ _ c).
Qed.

Lemma step_bounded s i o s' : bounded s → step s i o s' → bounded s'.
Proof.
  intros Hb [He Hx]. destruct i; simpl in *; simplify_option_eq;
    try match goal with
        | Hx : _ = (?s1, ?o1) |- bounded ?s1 =>
          change s1 with (s1, o1).1; rewrite <- Hx
        end; eauto using bounded_connected, bounded_disconnected,
               bounded_timer_fire, bounded_update_conn.
  - unfold exec_register_check. destruct Hb. by case_match.
  - by apply bounded_register_insert.
  - unfold exec_send_message, handle_send_message.
    destruct Hb as [Hi Hd Hc]. repeat case_match; simplify_eq; [|done].
    split; simpl; [|done..]. by rewrite size_send.
  - unfold exec_ws_upgrade. destruct Hb as [Hi Hd Hc]. case_match; [|done].
    split; simpl; [|done..].
    pose proof (size_insert_le (conns s) (next_id s) (new_connection t)). lia.
  - destruct Hb as [Hi Hd Hc]. split; simpl; [done| |done].
    intros id task Hid%Hd. lia.
Qed.

Lemma reachable_bounded_aux s : reachable s → bounded s.
Proof.
  apply reachable_ind_inv; [apply bounded_init|].
  intros ? ? ? ? _. apply step_bounded.
Qed.

Lemma step_next_id s i o s' : step s i o s' → next_id s' ≤ S (next_id s).
Proof.
  intros [_ Hx]. exec_inv Hx; exec_unfold; unfold handle_send_message in *;
    repeat case_match; simplify_eq; simpl; lia.
Qed.

(** ** Theorems *)

(** C25: in every state the program can reach, the pending tasks and the
    connections are together at most the counter of the runtime, no
    eviction is scheduled more than ten seconds ahead, and the registry
    holds at most as many clients as tokens were generated: the three
    fields of [bounded]. *)
Theorem reachable_bounded s : reachable s → bounded s.
Proof. apply reachable_bounded_aux. Qed.

(** A run allocates at most one identifier per step. *)
Theorem steps_next_id s trace s' :
  steps s trace s' → next_id s' ≤ next_id s + length trace.
Proof.
  induction 1 as [s|s i o s1 trace s' Hst%step_next_id _ IH]; simpl; lia.
Qed.

End bounds.

(** ** Witnesses, on the runs of file [Server] *)

Lemma reachable_bounded_witness : bounded s_detached.
Proof. apply reachable_bounded, reachable_s_detached. Defined.

Lemma steps_next_id_witness :
  next_id s_connected ≤ next_id init + length trace_connected.
Proof.
  apply (steps_next_id init trace_connected), steps_state_after.
  compute_done.
Defined.
