(* ===== verification/Safety.v ===== *)
(** * Safety: what a client can rely on

    Consequences of the transitions and the invariant, stated on steps and
    on runs:

    - names are unique up to case ([names_unique_ci]) and the search by
      token does not depend on the iteration order
      ([token_lookup_deterministic]);
    - a step keeps a client, replaces it by a registration that had passed
      its check, or removes it because an eviction task for its token has
      slept its ten seconds ([step_client_fate],
      [step_client_lost]);
    - the grace period ([grace_period]): a client for which no eviction is
      due before instant [T], and which no registration in flight
      challenges, is registered with the same name and token as long as the
      clock is before [T]. *)

From S2P Require Import Prelude Strings Json Model Runtime Registry Lifecycle Router Server Invariants.

Section safety.
Context `{!Lowercase}.
Implicit Types (s : Server).

(** ** Definitions *)

(** No task for token [t] wakes before instant [T]. *)
Definition safe_until (T : nat) (t : string) s : Prop :=
  map_Forall (λ _ task, timer_token task = t → T ≤ deadline task) (timers s).

(** No registration that has passed its check is about to insert at [k]. *)
Definition unchallenged (k : string) s : Prop :=
  Forall (λ r, to_lowercase (reg_name r) ≠ k) (registering s).

#[export] Instance safe_until_dec T t s : Decision (safe_until T t s).
Proof. unfold safe_until. apply _. Defined.

#[export] Instance unchallenged_dec k s : Decision (unchallenged k s).
Proof. unfold unchallenged. apply _. Defined.

(** [c'] is the client [c] with, possibly, another timer and sender. *)
Definition same_identity (c c' : Client) : Prop :=
  name c' = name c ∧ token c' = token c.

#[export] Instance same_identity_equiv : Equivalence same_identity.
Proof.
  unfold same_identity. split.
  - by intros c.
  - intros c1 c2 [??]. by split.
  - intros c1 c2 c3 [??] [??]. split; congruence.
Qed.

(** ** Names *)

(** In every reachable state two registered clients whose names are
    equal up to case are the same entry of the registry. *)
Theorem names_unique_ci s k1 c1 k2 c2 :
  reachable s → clients s !! k1 = Some c1 → clients s !! k2 = Some c2 →
  name c1 ≡ci name c2 → k1 = k2 ∧ c1 = c2.
Proof.
  intros [[Hn _] _ _ _ _]%reachable_ok H1 H2 Hci.
  assert (k1 = k2) as -> by (rewrite (Hn _ _ H1), (Hn _ _ H2); apply Hci).
  split; [done|]. congruence.
Qed.

(** In every reachable state a token identifies at most one client,
    so the searches by token of the handlers do not depend on the order in
    which the map is visited. *)
Theorem token_lookup_deterministic s t (l : list (string * Client)) :
  reachable s → l ≡ₚ map_to_list (clients s) →
  find (λ kc, token_is t kc.1 kc.2) l = find_by_token t (clients s).
Proof.
  intros [[_ Hu] _ _ _ _]%reachable_ok Hp.
  by apply map_find_perm; [apply tokens_unique_at_most_one|].
Qed.

(** ** What a step does to a client *)

Lemma elem_of_remove_first r r' l : r ∈ remove_first r' l → r ∈ l.
Proof.
  induction l as [|r0 l IH]; simpl; [done|]. case_decide.
  - apply list_elem_of_further.
  - rewrite !elem_of_cons. tauto.
Qed.

Lemma exec_connected_lookup ch c0 s k c :
  clients s !! k = Some c →
  ∃ c', clients (exec_connected ch c0 s) !! k = Some c' ∧ same_identity c c'.
Proof.
  intros Hk. unfold exec_connected.
  destruct (attach_lookup (conn_token c0) ch _ (timers s) _ _ Hk)
    as (c' & Hc' & ?). exists c'. by destruct (attach _ _ _ _).
Qed.

Lemma exec_disconnected_lookup ch c0 s k c :
  clients s !! k = Some c →
  ∃ c', clients (exec_disconnected ch c0 s) !! k = Some c' ∧
        same_identity c c'.
Proof.
  intros Hk. unfold exec_disconnected.
  destruct (detach_lookup (conn_token c0) (next_id s) (now s) _ (timers s)
    _ _ Hk) as (c' & Hc' & ?). exists c'. by destruct (detach _ _ _ _ _).
Qed.

Lemma exec_connected_timers ch c0 s :
  timers (exec_connected ch c0 s) ⊆ timers s.
Proof.
  unfold exec_connected.
  pose proof (attach_timers_subseteq (conn_token c0) ch (clients s)
    (timers s)). by destruct (attach _ _ _ _).
Qed.

Lemma exec_disconnected_timer_origin ch c0 s id task :
  timers (exec_disconnected ch c0 s) !! id = Some task →
  timers s !! id = Some task ∨
  (id = next_id s ∧ deadline task = now s + GRACE_PERIOD).
Proof.
  unfold exec_disconnected.
  pose proof (detach_timer_origin (conn_token c0) (next_id s) (now s)
    (clients s) (timers s) id task) as Ho.
  destruct (detach _ _ _ _ _). simpl in *. intros Hid.
  destruct (Ho Hid) as [?|[-> ->]]; eauto.
Qed.

(** A step leaves a registered client in place with its name and its
    token, unless the step is the insert of a registration that had passed
    its check (the entry is then replaced by the new client), or the wake-up
    of an eviction task for the token of the client whose sleep has ended
    (the entry is then removed). *)
Lemma step_client_fate s i o s' k c :
  step s i o s' → clients s !! k = Some c →
  (∃ c', clients s' !! k = Some c' ∧ same_identity c c') ∨
  (∃ t r, i = InRegisterInsert t r ∧ r ∈ registering s ∧
     to_lowercase (reg_name r) = k ∧
     clients s' !! k = Some (mkClient (reg_name r) t None None)) ∨
  (∃ id task, i = InTimerFire id ∧ timers s !! id = Some task ∧
     timer_token task = token c ∧ deadline task ≤ now s ∧
     clients s' !! k = None).
Proof.
  intros [_ Hx] Hk.
  exec_inv Hx;
    try (left; exists c; by split).
  - left. exists c. unfold exec_register_check in Hx.
    by case_match; simplify_eq.
  - unfold exec_register_insert in Hx. simpl in Hx. simplify_eq. simpl.
    destruct (decide (to_lowercase (reg_name request) = k)) as [<-|Hne].
    + right. left. eexists _, _. by rewrite lookup_insert_eq.
    + left. exists c. by rewrite lookup_insert_ne.
  - left. exists c. unfold exec_send_message in Hx.
    by case_match; simplify_eq.
  - left. exists c. unfold exec_ws_upgrade in Hx. by case_match; simplify_eq.
  - left. by apply exec_connected_lookup.
  - left. by apply exec_disconnected_lookup.
  - simpl. match goal with Hd : due _ ?task = true |- _ =>
      apply due_spec in Hd;
      destruct (decide (token c = timer_token task)) as [E|Hne] end.
    + right. right. eexists _, _. split_and!; [done..|].
      apply eq_None_not_Some. intros [c' [Hc' ?]%evict_lookup]. congruence.
    + left. exists c. split; [|done]. by apply evict_lookup.
Qed.

(** C33: a registered client keeps its key, its name and its token across
    every step but two: the wake-up of an eviction task that carries its
    token and has slept until its deadline, which removes it, and the insert
    of a registration of its name that had passed its check before, which
    replaces it. *)
Theorem step_client_lost s i o s' k c :
  step s i o s' → clients s !! k = Some c →
  (∀ c', clients s' !! k = Some c' → ¬ same_identity c c') →
  (∃ id task, i = InTimerFire id ∧ timers s !! id = Some task ∧
     timer_token task = token c ∧ deadline task ≤ now s ∧
     clients s' !! k = None) ∨
  (∃ t r, i = InRegisterInsert t r ∧ r ∈ registering s ∧
     to_lowercase (reg_name r) = k).
Proof.
  intros Hst Hk Hn.
  destruct (step_client_fate _ _ _ _ _ _ Hst Hk)
    as [(c' & Hk' & Hid)|[(t & r & ? & ? & ? & _)|(id & task & ?)]];
    [by destruct (Hn _ Hk')|right; eauto|left; eauto].
Qed.

(** ** Clock and timers *)

Lemma step_now_mono s i o s' : step s i o s' → now s ≤ now s'.
Proof.
  intros [_ Hx]. exec_cases Hx; lia.
Qed.

Lemma steps_now_mono s trace s' : steps s trace s' → now s ≤ now s'.
Proof.
  induction 1 as [|s i o s' trace s'' Hst _ IH]; [done|].
  apply step_now_mono in Hst. lia.
Qed.

(** A task that is pending after a step was pending before it, or was
    spawned by the step, which is then a disconnection, with its deadline
    ten seconds after the instant of the step. *)
Lemma step_timer_origin s i o s' id task :
  step s i o s' → timers s' !! id = Some task →
  timers s !! id = Some task ∨
  (∃ ch, i = InDisconnected ch ∧ id = next_id s ∧
     deadline task = now s + GRACE_PERIOD).
Proof.
  intros [_ Hx]. exec_inv Hx;
    unfold exec_register_check, exec_register_insert, exec_send_message,
      exec_ws_upgrade in *;
    repeat case_match; simplify_eq; simpl; eauto.
  - intros Hid. left. eapply lookup_weaken, exec_connected_timers. done.
  - intros [?|[-> ?]]%exec_disconnected_timer_origin; eauto.
  - intros [_ ?]%lookup_delete_Some. eauto.
Qed.

Lemma step_safe_until T t s i o s' :
  step s i o s' → safe_until T t s → T ≤ now s + GRACE_PERIOD →
  safe_until T t s'.
Proof.
  intros Hst Hs HT id task Hid Ht.
  destruct (step_timer_origin _ _ _ _ _ _ Hst Hid) as [?|(ch & _ & _ & ->)];
    [by eapply Hs|done].
Qed.

Lemma step_unchallenged k c s i o s' :
  step s i o s' → clients s !! k = Some c → unchallenged k s →
  unchallenged k s'.
Proof.
  unfold unchallenged. rewrite !Forall_forall.
  intros [_ Hx] Hk Hu. exec_cases Hx; try done.
  - intros r0 [->|Hr]%elem_of_cons; [|by apply Hu].
    match goal with E : registration_check _ _ = None |- _ =>
      apply registration_check_None in E end. congruence.
  - intros r0 Hr%elem_of_remove_first. by apply Hu.
Qed.

(** ** The grace period *)

(** C21: take a registered client, an instant [T] at most ten seconds from
    now before which no eviction of its token is due, and no registration in
    flight for its key.  Whatever the program does next, the client is
    registered under the same key with the same name and token in every
    state whose clock is before [T]. *)
Theorem grace_period s trace s' k c T :
  steps s trace s' → clients s !! k = Some c →
  safe_until T (token c) s → unchallenged k s →
  T ≤ now s + GRACE_PERIOD → now s' < T →
  ∃ c', clients s' !! k = Some c' ∧ same_identity c c'.
Proof.
  intros Hsteps. revert c.
  induction Hsteps as [s|s i o s1 trace s' Hst Hrest IH];
    intros c Hk Hs Hu HT Hnow; [by exists c|].
  pose proof (step_now_mono _ _ _ _ Hst) as Hm.
  pose proof (steps_now_mono _ _ _ Hrest) as Hm'.
  destruct (step_client_fate _ _ _ _ _ _ Hst Hk)
    as [(c1 & Hk1 & Hid)|[(t & r & _ & Hr & Hkey & _)|
        (id & task & _ & Hid & Htok & Hd & _)]].
  - destruct Hid as [Hn Ht].
    destruct (IH c1) as (c' & Hk' & Hid'); [done| | |lia|done|].
    + rewrite Ht. by eapply step_safe_until.
    + by eapply step_unchallenged.
    + exists c'. split; [done|]. by transitivity c1.
  - by destruct (proj1 (Forall_forall _ _) Hu _ Hr).
  - specialize (Hs _ _ Hid Htok). lia.
Qed.

End safety.

(** ** Witnesses, on the runs of file [Server] *)

Definition bob_detached : Client :=
  {| name := "Bob"; token := "tB"; disconnect_timer := Some 1; tx := Some 0 |}.

Lemma names_unique_ci_witness : "bob" = "bob" ∧ bob_detached = bob_detached.
Proof.
  apply (names_unique_ci s_detached "bob" bob_detached "bob" bob_detached);
    [apply reachable_s_detached|reflexivity..].
Defined.

Lemma token_lookup_deterministic_witness :
  find (λ kc, token_is "tB" kc.1 kc.2)
    (reverse (map_to_list (clients s_detached))) =
  find_by_token "tB" (clients s_detached).
Proof.
  apply token_lookup_deterministic;
    [apply reachable_s_detached|apply reverse_Permutation].
Defined.

Lemma step_client_lost_witness :
  (∃ id task, InTimerFire 1 = InTimerFire id ∧
     timers s_due !! id = Some task ∧
     timer_token task = token bob_detached ∧ deadline task ≤ now s_due ∧
     clients (state_after [InTimerFire 1] s_due) !! "bob" = None) ∨
  (∃ t r, InTimerFire 1 = InRegisterInsert t r ∧ r ∈ registering s_due ∧
     to_lowercase (reg_name r) = "bob").
Proof.
  apply (step_client_lost s_due (InTimerFire 1) Silent
           (state_after [InTimerFire 1] s_due) "bob" bob_detached);
    [split; [exact I|reflexivity]|reflexivity|].
  intros c' Hc'. vm_compute in Hc'. discriminate.
Defined.

Lemma grace_period_witness :
  ∃ c', clients (state_after [InTick 9; InStatus "tB"] s_detached) !! "bob" =
          Some c' ∧ same_identity bob_detached c'.
Proof.
  apply (grace_period s_detached [InTick 9; InStatus "tB"] _ "bob"
           bob_detached 10);
    [apply steps_state_after; compute_done|reflexivity|compute_done..].
Defined.
