(* ===== verification/Delivery.v ===== *)
(** * Delivery: from an accepted message to a frame on the socket

    A message accepted by [handle_send_message] joins the channel of the
    connection the recipient stores; the outbound pump of that connection
    writes the messages of the channel to the socket, oldest first.

    [outbox c] is what the peer of connection [c] has been or will be sent:
    the frames written, followed by the JSON text of the messages waiting.
    The theorems show that an accepted message is queued on a connection
    opened with the recipient's token ([send_message_queued]), that the
    outbox of an open socket only grows at its end ([step_conn],
    [steps_conn]) and by exactly the messages accepted for the connection
    ([outbox_history]), and that pumping an open socket writes the whole
    outbox ([pump_drains]). *)

From S2P Require Import Prelude Strings Json Model Runtime Registry Lifecycle Router Server Invariants.

Section delivery.
Context `{!Lowercase}.
Implicit Types (s : Server) (c : Connection).

Definition outbox c : list string :=
  ws_sent c ++ (Message_to_json <$> channel c).

(** [c'] is a later state of the connection [c]: same token, the frames
    written to [c] are the first frames written to [c'], and when the
    socket of [c'] is open that of [c] was and the outbox has only grown at
    its end. *)
Definition conn_extends c c' : Prop :=
  conn_token c' = conn_token c ∧
  ws_sent c `prefix_of` ws_sent c' ∧
  (ws_open c' = true → ws_open c = true ∧ outbox c `prefix_of` outbox c').

(** The messages that an input, and a run, hand to the channel of a
    connection. *)
Definition accepted_by (ch : nat) (i : Input) s : list Message :=
  match i with
  | InSendMessage request =>
    match resolve request (clients s) with
    | Ok (ch', m) => if decide (ch' = ch) then [m] else []
    | Err _ => []
    end
  | _ => []
  end.

Fixpoint accepted (ch : nat) (trace : list Input) s : list Message :=
  match trace with
  | [] => []
  | i :: trace' =>
    accepted_by ch i s ++ from_option (λ r, accepted ch trace' r.1) [] (exec i s)
  end.

#[export] Instance conn_extends_preorder : PreOrder conn_extends.
Proof.
  split.
  - by intros c.
  - intros c1 c2 c3 (Et & Hs & Ho) (Et' & Hs' & Ho').
    split_and!; [congruence|by etrans|].
    intros H3. destruct (Ho' H3) as [H2 Hp']. destruct (Ho H2) as [H1 Hp].
    split; [done|by etrans].
Qed.

(** ** Operations on one connection *)

Lemma conn_extends_enqueue m c : conn_extends c (enqueue m c).
Proof.
  split_and!; [done..|]. intros Ho. split; [done|].
  unfold outbox. simpl. rewrite fmap_app, app_assoc. by apply prefix_app_r.
Qed.

Lemma conn_extends_set_phase p c : conn_extends c (set_phase p c).
Proof. by split_and!. Qed.

Lemma conn_extends_close_ws c : conn_extends c (close_ws c).
Proof. by split_and!. Qed.

Lemma conn_extends_pump c c' : outbound_pump c = Some c' → conn_extends c c'.
Proof.
  unfold outbound_pump, recv, ws_send.
  destruct (channel c) as [|m rest] eqn:Ec; [done|]. simpl.
  destruct (ws_open c) eqn:Eo; intros [= <-]; split_and!; simpl;
    try done; try congruence.
  - by apply prefix_app_r.
  - intros _. split; [done|]. unfold outbox. simpl.
    by rewrite Ec, <- app_assoc.
Qed.

Lemma conn_extends_send ch ch' m (cns : gmap nat Connection) c :
  cns !! ch' = Some c →
  ∃ c', send ch m cns !! ch' = Some c' ∧ conn_extends c c'.
Proof.
  intros Hc. rewrite lookup_send, Hc. case_decide; simpl.
  - eexists. split; [done|]. apply conn_extends_enqueue.
  - by exists c.
Qed.

Lemma conn_extends_insert ch ch' (cns : gmap nat Connection) c0 c0' c :
  cns !! ch = Some c0 → conn_extends c0 c0' → cns !! ch' = Some c →
  ∃ c', <[ch := c0']> cns !! ch' = Some c' ∧ conn_extends c c'.
Proof.
  intros H0 He Hc. destruct (decide (ch = ch')) as [<-|Hne].
  - rewrite lookup_insert_eq. simplify_eq. eauto.
  - rewrite lookup_insert_ne by done. by exists c.
Qed.

(** ** Steps *)

Lemma step_conn s i o s' ch c :
  server_ok s → step s i o s' → conns s !! ch = Some c →
  ∃ c', conns s' !! ch = Some c' ∧ conn_extends c c'.
Proof.
  intros Hok [_ Hx] Hc.
  exec_inv Hx; exec_unfold; unfold handle_send_message in *;
    repeat case_match; simplify_eq; simpl;
    try (by exists c);
    try (by apply conn_extends_send);
    try (eapply conn_extends_insert; eauto using conn_extends_set_phase,
           conn_extends_close_ws, conn_extends_pump; fail).
  exists c. split; [|done]. rewrite lookup_insert_ne; [done|].
  apply (ok_conns _ Hok) in Hc. lia.
Qed.

Lemma steps_conn_aux s trace s' ch c :
  server_ok s → steps s trace s' → conns s !! ch = Some c →
  ∃ c', conns s' !! ch = Some c' ∧ conn_extends c c'.
Proof.
  intros Hok Hsteps. revert c.
  induction Hsteps as [s|s i o s1 trace s' Hst _ IH]; intros c Hc;
    [by exists c|].
  destruct (step_conn _ _ _ _ _ _ Hok Hst Hc) as (c1 & Hc1 & He1).
  destruct (IH (step_server_ok _ _ _ _ Hok Hst) _ Hc1) as (c' & Hc' & He').
  exists c'. split; [done|by etrans].
Qed.

(** No run of the program removes a connection, changes its token,
    takes back or reorders a frame written to its socket, or, as long as the
    socket is open, loses a message that was waiting for it. *)
Theorem steps_conn s trace s' ch c :
  server_ok s → steps s trace s' → conns s !! ch = Some c →
  ∃ c', conns s' !! ch = Some c' ∧ conn_extends c c'.
Proof. apply steps_conn_aux. Qed.

(** ** The history of a socket *)

Lemma outbox_enqueue m c : outbox (enqueue m c) = outbox c ++ [Message_to_json m].
Proof. unfold outbox. simpl. by rewrite fmap_app, app_assoc. Qed.

Lemma outbox_pump c c' :
  outbound_pump c = Some c' → ws_open c = true → outbox c' = outbox c.
Proof.
  intros Hp Ho. destruct (channel c) as [|m rest] eqn:Ec.
  - apply outbound_pump_None in Ec. congruence.
  - destruct (outbound_pump_cons c m rest Ec) as (c1 & Hp1 & Hr & _ & _ & _ & Hs).
    assert (c1 = c') as -> by congruence.
    unfold outbox. rewrite Hs, Hr, Ho, Ec. simpl. by rewrite <- app_assoc.
Qed.

Lemma step_outbox s i o s' ch c :
  server_ok s → step s i o s' → conns s !! ch = Some c →
  ∃ c', conns s' !! ch = Some c' ∧
    (ws_open c' = true →
     outbox c' = outbox c ++ (Message_to_json <$> accepted_by ch i s)).
Proof.
  intros Hok [_ Hx] Hc.
  assert (∀ c0, <[next_id s := c0]> (conns s) !! ch = Some c) as Hnew.
  { intros c0. rewrite lookup_insert_ne; [done|].
    apply (ok_conns _ Hok) in Hc. lia. }
  exec_inv Hx;
    unfold exec_register_check, exec_register_insert, exec_send_message,
      handle_send_message, exec_ws_upgrade, exec_connected,
      exec_disconnected, accepted_by in *;
    repeat case_match; simplify_eq; simpl;
    try (exists c; split; [done|by rewrite app_nil_r]);
    try (destruct (decide (ch0 = ch)) as [->|Hne];
         [rewrite lookup_insert_eq|rewrite lookup_insert_ne by done];
         simplify_eq; eexists; (split; [done|]); simpl;
         rewrite ?app_nil_r; try done).
  - rewrite lookup_send, decide_True, Hc by done. eexists. split; [done|].
    intros _. apply outbox_enqueue.
  - rewrite lookup_send, decide_False, Hc by done. eexists. split; [done|].
    by rewrite app_nil_r.
  - intros Ho. match goal with Hp : outbound_pump _ = Some _ |- _ =>
      pose proof (outbound_pump_fields _ _ Hp) as (_ & _ & Eo);
      apply outbox_pump; [done|congruence] end.
Qed.

(** As long as the socket of a connection is open, what its peer has
    been or will be sent is what it had been or would have been sent at the
    start of the run, followed by the messages the run accepted for the
    connection, each once and in the order of acceptance. *)
Theorem outbox_history s trace s' ch c :
  server_ok s → steps s trace s' → conns s !! ch = Some c →
  ∃ c', conns s' !! ch = Some c' ∧
    (ws_open c' = true →
     outbox c' = outbox c ++ (Message_to_json <$> accepted ch trace s)).
Proof.
  intros Hok Hsteps. revert c.
  induction Hsteps as [s|s i o s1 trace s' Hst Hrest IH]; intros c Hc; simpl.
  { exists c. by rewrite app_nil_r. }
  pose proof (step_server_ok _ _ _ _ Hok Hst) as Hok1.
  destruct (step_outbox _ _ _ _ _ _ Hok Hst Hc) as (c1 & Hc1 & H1).
  destruct (IH Hok1 _ Hc1) as (c' & Hc' & H').
  destruct (steps_conn_aux _ _ _ _ _ Hok1 Hrest Hc1)
    as (c2 & Hc2 & _ & _ & Hopen).
  exists c'. split; [done|]. intros Ho. simplify_eq.
  destruct (Hopen Ho) as [Ho1 _]. destruct Hst as [_ ->]. simpl.
  by rewrite (H' Ho), (H1 Ho1), fmap_app, app_assoc.
Qed.

(** ** Acceptance *)

Lemma send_message_accepted s request s' r :
  server_ok s →
  exec (InSendMessage request) s = Some (s', Replied (Ok r)) →
  ∃ recipient ch c k sender_client,
    clients s !! to_lowercase (req_to request) = Some recipient ∧
    tx recipient = Some ch ∧
    clients s !! k = Some sender_client ∧
    token sender_client = req_token request ∧
    conns s !! ch = Some c ∧ conn_token c = token recipient ∧
    accepted_by ch (InSendMessage request) s =
      [{| from := name sender_client; body := req_body request |}] ∧
    conns s' !! ch =
      Some (enqueue {| from := name sender_client;
                       body := req_body request |} c) ∧
    r = reply.
Proof.
  intros Hok Hx. simpl in Hx. unfold exec_send_message, handle_send_message in Hx.
  destruct (resolve request (clients s)) as [[ch m]|e] eqn:Er; simplify_eq.
  pose proof Er as (rc & k & sc & Hrc & Hk & Ht & Htx & ->)%resolve_Ok;
    [|apply Hok].
  destruct (ok_senders _ Hok _ _ _ Hrc Htx) as (c & Hc & Hct & _).
  exists rc, ch, c, k, sc. split_and!; try done; simpl.
  - by rewrite Er, decide_True.
  - by rewrite lookup_send, decide_True, Hc.
Qed.

(** When a send is answered 200, the message, with the registered name
    of the owner of the token as [from] and the body of the request, is
    the one message accepted for a connection that was opened with the
    token of the client registered under the lower-cased recipient name,
    and has joined the end of its channel. *)
Theorem send_message_queued s request s' r :
  server_ok s →
  exec (InSendMessage request) s = Some (s', Replied (Ok r)) →
  ∃ recipient ch c k sender_client,
    clients s !! to_lowercase (req_to request) = Some recipient ∧
    tx recipient = Some ch ∧
    clients s !! k = Some sender_client ∧
    token sender_client = req_token request ∧
    conns s !! ch = Some c ∧ conn_token c = token recipient ∧
    accepted_by ch (InSendMessage request) s =
      [{| from := name sender_client; body := req_body request |}] ∧
    conns s' !! ch =
      Some (enqueue {| from := name sender_client;
                       body := req_body request |} c) ∧
    r = reply.
Proof. apply send_message_accepted. Qed.

(** ** Draining *)

(** On an open socket, as many iterations of the pump as there are
    messages waiting write all of them, in order, after the frames already
    written, and leave the channel empty; nothing else changes. *)
Theorem pump_drains s ch c :
  conns s !! ch = Some c → phase c ≠ Upgrading → ws_open c = true →
  ∃ s' c',
    steps s (replicate (length (channel c)) (InPump ch)) s' ∧
    conns s' !! ch = Some c' ∧ channel c' = [] ∧ ws_sent c' = outbox c ∧
    clients s' = clients s ∧ timers s' = timers s.
Proof.
  remember (length (channel c)) as n eqn:En. revert s c En.
  induction n as [|n IH]; intros s c En Hc Hp Ho; simpl.
  - exists s, c. destruct (channel c) eqn:Ec; [|done].
    split_and!; [constructor|done..| |done|done].
    unfold outbox. by rewrite Ec, app_nil_r.
  - destruct (channel c) as [|m rest] eqn:Ec; [done|].
    destruct (outbound_pump_cons c m rest Ec)
      as (c1 & Hpump & Hrest & _ & Hp1 & Ho1 & Hs1).
    rewrite Ho in Hs1, Ho1.
    set (s1 := set_conns (<[ch := c1]> (conns s)) s).
    destruct (IH s1 c1) as (s' & c' & Hsteps & Hc' & Hch' & Hs' & Hcl & Htm).
    { rewrite Hrest. simpl in En. lia. }
    { apply lookup_insert_eq. } { congruence. } { done. }
    exists s', c'. split_and!; try done.
    + eapply steps_cons; [|done]. split; [done|]. simpl.
      rewrite Hc. simpl. rewrite option_guard_True by done. simpl.
      by rewrite Hpump.
    + rewrite Hs'. unfold outbox. rewrite Hs1, Hrest, Ec. simpl.
      by rewrite <- app_assoc.
Qed.

End delivery.

(** ** Witnesses, on the runs of file [Server] *)

Definition bob_conn_two : Connection :=
  {| conn_token := "tB"; phase := Running; ws_open := true;
     channel := [mkMessage "Alice" "hi"; mkMessage "Alice" "hi"];
     ws_sent := [] |}.

Lemma steps_conn_witness :
  ∃ c', conns (state_after [InPump 0; InPeerClose 0] s_connected) !! 0 =
          Some c' ∧ conn_extends bob_conn_two c'.
Proof.
  apply (steps_conn s_connected [InPump 0; InPeerClose 0]);
    [apply reachable_ok, reachable_s_connected
    |apply steps_state_after; compute_done|reflexivity].
Defined.

Lemma outbox_history_witness :
  ∃ c', conns (state_after [InPump 0; InSendMessage hi_bob; InPump 0]
                 s_connected) !! 0 = Some c' ∧
    (ws_open c' = true →
     outbox c' = outbox bob_conn_two ++
       (Message_to_json <$>
          accepted 0 [InPump 0; InSendMessage hi_bob; InPump 0] s_connected)).
Proof.
  apply (outbox_history s_connected [InPump 0; InSendMessage hi_bob; InPump 0]);
    [apply reachable_ok, reachable_s_connected
    |apply steps_state_after; compute_done|reflexivity].
Defined.

Lemma send_message_queued_witness :
  ∃ recipient ch c k sender_client,
    clients s_connected !! to_lowercase (req_to hi_bob) = Some recipient ∧
    tx recipient = Some ch ∧
    clients s_connected !! k = Some sender_client ∧
    token sender_client = req_token hi_bob ∧
    conns s_connected !! ch = Some c ∧ conn_token c = token recipient ∧
    accepted_by ch (InSendMessage hi_bob) s_connected =
      [{| from := name sender_client; body := req_body hi_bob |}] ∧
    conns (state_after [InSendMessage hi_bob] s_connected) !! ch =
      Some (enqueue {| from := name sender_client;
                       body := req_body hi_bob |} c) ∧
    reply = reply.
Proof.
  apply (send_message_queued s_connected hi_bob);
    [apply reachable_ok, reachable_s_connected|reflexivity].
Defined.

Lemma pump_drains_witness :
  ∃ s' c',
    steps s_connected (replicate (length (channel bob_conn_two)) (InPump 0)) s' ∧
    conns s' !! 0 = Some c' ∧ channel c' = [] ∧
    ws_sent c' = outbox bob_conn_two ∧
    clients s' = clients s_connected ∧ timers s' = timers s_connected.
Proof. apply pump_drains; [reflexivity|done|reflexivity]. Defined.
