(* ===== verification/Progress.v ===== *)
(** * Progress: the work of the server runs out

    Between two events of its environment (a request, a frame or a close of
    a peer, the passing of time) the runtime resumes the tasks that can
    run: the second critical section of a registration, the start and the
    clean-up of [client_connected], an iteration of a pump (main.rs, lines
    111-117), the body of an eviction task whose sleep has ended (lines
    136-139).  These are the [internal] inputs.

    [work] counts what is left to do: registrations that wait for the lock,
    pending tasks, and for every connection the messages in its channel and
    the sections of [client_connected] it has not run yet.  Every internal
    step lowers it ([step_internal_work]), so no schedule of the runtime
    runs tasks for ever ([internal_steps_bounded]).

    [pending] lists the tasks of connections and timers that can run,
    [settle] is one schedule that runs them until none can, and [work s] is
    fuel enough for it ([settle_quiescent]).  When no task can run
    ([quiescent]) every channel is empty; on a socket that is open, all
    that was queued or accepted has then been written, and reads back as
    the messages it was written from ([quiescent_delivers],
    [settle_delivers]).  [send_delivered] is the whole way of one message:
    a send that is answered 200 is, after the ready tasks have run, the
    last frame on the socket of the recipient. *)

From S2P Require Import Prelude Strings Json Model Runtime Registry Lifecycle Router Server Invariants Delivery.

Section progress.
Context `{!Lowercase}.
Implicit Types (s : Server) (c : Connection) (i : Input).

(** ** Internal inputs and the measure *)

Definition internal i : bool :=
  match i with
  | InRegisterInsert _ _ | InConnected _ | InDisconnected _ | InPump _
  | InTimerFire _ => true
  | _ => false
  end.

(** The sections of [client_connected] a connection has still to run: the
    start and the clean-up, which also spawns a task. *)
Definition phase_work (p : Phase) : nat :=
  match p with
  | Upgrading => 3
  | Running => 2
  | Finished => 0
  end.

Definition conn_work c : nat := phase_work (phase c) + length (channel c).

Definition work s : nat :=
  length (registering s) + size (timers s) + map_sum conn_work (conns s).

(** ** A schedule *)

(** What the tasks of a connection can do next: start, pump a waiting
    message, or clean up once the socket is closed. *)
Definition conn_task (ch : nat) c : option Input :=
  match phase c, channel c with
  | Upgrading, _ => Some (InConnected ch)
  | _, _ :: _ => Some (InPump ch)
  | Running, [] => if ws_open c then None else Some (InDisconnected ch)
  | Finished, [] => None
  end.

Definition timer_task (now : nat) (id : nat) (task : Timer) : option Input :=
  if due now task then Some (InTimerFire id) else None.

Definition pending s : list Input :=
  omap (λ kv, conn_task kv.1 kv.2) (map_to_list (conns s)) ++
  omap (λ kv, timer_task (now s) kv.1 kv.2) (map_to_list (timers s)).

(** Run the first task that can run, at most [fuel] times. *)
Fixpoint settle (fuel : nat) s : Server :=
  match fuel, pending s with
  | S fuel', i :: _ =>
    match exec i s with
    | Some (s', _) => settle fuel' s'
    | None => s
    end
  | _, _ => s
  end.

(** No task can run. *)
Definition quiescent s : Prop :=
  map_Forall (λ _ c, channel c = [] ∧ phase c ≠ Upgrading ∧
                     (phase c = Running → ws_open c = true)) (conns s) ∧
  map_Forall (λ _ task, now s < deadline task) (timers s).

#[export] Instance quiescent_dec s : Decision (quiescent s).
Proof. unfold quiescent. apply _. Defined.

(** ** The measure decreases *)

Lemma length_remove_first r (l : list RegistrationRequest) :
  r ∈ l → S (length (remove_first r l)) = length l.
Proof.
  induction l as [|r' l IH]; simpl; [by intros ?%elem_of_nil|].
  case_decide as E; [done|]. intros [?|Hin]%elem_of_cons; [done|].
  simpl. by rewrite IH.
Qed.

Lemma conn_work_update s ch c c' :
  conns s !! ch = Some c →
  map_sum conn_work (<[ch := c']> (conns s)) + conn_work c =
  map_sum conn_work (conns s) + conn_work c'.
Proof. apply map_sum_insert_Some. Qed.

Lemma work_connected ch c s :
  conns s !! ch = Some c → phase c = Upgrading →
  work (exec_connected ch c s) < work s.
Proof.
  intros Hc Hp. unfold exec_connected, work.
  pose proof (attach_timers_subseteq (conn_token c) ch (clients s) (timers s))
    as Ht%map_subseteq_size.
  destruct (attach _ _ _ _) as [cls tms]. simpl in *.
  pose proof (conn_work_update s ch c (set_phase Running c) Hc) as Hw.
  assert (conn_work c = 3 + length (channel c)) as E
    by (unfold conn_work; by rewrite Hp).
  assert (conn_work (set_phase Running c) = 2 + length (channel c)) by done.
  lia.
Qed.

Lemma work_disconnected ch c s :
  conns s !! ch = Some c → phase c = Running →
  work (exec_disconnected ch c s) < work s.
Proof.
  intros Hc Hp. unfold exec_disconnected, work.
  assert (size (detach (conn_token c) (next_id s) (now s) (clients s)
                  (timers s)).2 ≤ S (size (timers s))) as Ht.
  { destruct (detach_cases (conn_token c) (next_id s) (now s) (clients s)
                (timers s)) as [[_ ->]|(k & c0 & _ & _ & ->)]; simpl; [lia|].
    apply size_insert_le. }
  destruct (detach _ _ _ _ _) as [cls tms]. simpl in *.
  pose proof (conn_work_update s ch c (set_phase Finished c) Hc) as Hw.
  assert (conn_work c = 2 + length (channel c)) as E
    by (unfold conn_work; by rewrite Hp).
  assert (conn_work (set_phase Finished c) = length (channel c)) by done.
  lia.
Qed.

Lemma work_pump ch c c' s :
  conns s !! ch = Some c → outbound_pump c = Some c' →
  work (set_conns (<[ch := c']> (conns s)) s) < work s.
Proof.
  intros Hc Hpump. unfold work. simpl.
  pose proof (conn_work_update s ch c c' Hc) as Hw.
  destruct (channel c) as [|m rest] eqn:Ec.
  { apply outbound_pump_None in Ec. congruence. }
  destruct (outbound_pump_cons c m rest Ec) as (c1 & Hp1 & Hrest & _ & Hp & _).
  assert (c1 = c') as -> by congruence.
  assert (conn_work c = S (conn_work c')) as E.
  { unfold conn_work. rewrite Ec, Hrest, Hp. simpl. lia. }
  lia.
Qed.

Lemma work_timer_fire id task s :
  timers s !! id = Some task → work (exec_timer_fire id task s) < work s.
Proof.
  intros Ht. unfold work. simpl.
  pose proof (size_delete_Some (timers s) id task Ht). lia.
Qed.

Lemma step_internal_work s i o s' :
  step s i o s' → internal i = true → work s' < work s.
Proof.
  intros [_ Hx] Hi. destruct i; try done; simpl in Hx; simplify_option_eq.
  - unfold exec_register_insert in *.
    destruct (registration_insert _ _ _) as [cls r]. simplify_eq.
    unfold work. simpl.
    match goal with Hin : _ ∈ registering s |- _ =>
      apply length_remove_first in Hin end. lia.
  - by apply work_connected.
  - by apply work_disconnected; intuition.
  - by eapply work_pump.
  - by apply work_timer_fire.
Qed.

Lemma internal_steps_work s trace s' :
  steps s trace s' → Forall (λ i, internal i = true) trace →
  length trace + work s' ≤ work s.
Proof.
  induction 1 as [s|s i o s1 trace s' Hst _ IH]; simpl; [lia|].
  intros [Hi Hrest]%Forall_cons.
  pose proof (step_internal_work _ _ _ _ Hst Hi). specialize (IH Hrest). lia.
Qed.

(** ** The pending tasks are the tasks that can run *)

Lemma conn_task_None ch c :
  conn_task ch c = None ↔
  channel c = [] ∧ phase c ≠ Upgrading ∧ (phase c = Running → ws_open c = true).
Proof.
  unfold conn_task.
  destruct (phase c), (channel c), (ws_open c);
    split; try done; intros (? & ? & Ho); try done; by specialize (Ho eq_refl).
Qed.

Lemma timer_task_None now id task :
  timer_task now id task = None ↔ now < deadline task.
Proof.
  unfold timer_task, due. case_bool_decide; split; (done || lia).
Qed.

Lemma conn_task_step s ch c i :
  conns s !! ch = Some c → conn_task ch c = Some i →
  internal i = true ∧ ∃ o s', step s i o s'.
Proof.
  intros Hc Ht. unfold conn_task, step in *.
  destruct (phase c) eqn:Ep, (channel c) as [|m rest] eqn:Ec,
    (ws_open c) eqn:Eo; simplify_eq; (split; [done|]); simpl; rewrite Hc;
    simpl; rewrite ?option_guard_True by (rewrite ?Ep; done);
    rewrite ?(outbound_pump_spec c), ?Ec; simpl; eauto.
Qed.

Lemma timer_task_step s id task i :
  timers s !! id = Some task → timer_task (now s) id task = Some i →
  internal i = true ∧ ∃ o s', step s i o s'.
Proof.
  intros Hc Ht. unfold timer_task, step in *.
  destruct (due (now s) task) eqn:Ed; simplify_eq. split; [done|]. simpl.
  rewrite Hc. simpl. rewrite option_guard_True by done. eauto.
Qed.

Lemma pending_step s i :
  i ∈ pending s → internal i = true ∧ ∃ o s', step s i o s'.
Proof.
  unfold pending. rewrite elem_of_app, !list_elem_of_omap.
  intros [([ch c] & Hin%elem_of_map_to_list & Ht)
         |([id task] & Hin%elem_of_map_to_list & Ht)].
  - by eapply conn_task_step.
  - by eapply timer_task_step.
Qed.

Lemma pending_nil s : pending s = [] ↔ quiescent s.
Proof.
  unfold pending, quiescent. rewrite app_nil, !omap_nil.
  split; intros [Hc Ht]; split.
  - intros ch c Hch. apply (conn_task_None ch), (Hc (ch, c)).
    by apply elem_of_map_to_list.
  - intros id task Hid. apply (timer_task_None (now s) id), (Ht (id, task)).
    by apply elem_of_map_to_list.
  - intros [ch c] Hch%elem_of_map_to_list. apply conn_task_None; eauto.
  - intros [id task] Hid%elem_of_map_to_list. apply timer_task_None; eauto.
Qed.

(** ** Settling *)

Lemma settle_steps fuel s :
  ∃ trace, steps s trace (settle fuel s) ∧
    Forall (λ i, internal i = true) trace ∧ length trace ≤ fuel.
Proof.
  revert s. induction fuel as [|fuel IH]; intros s; simpl.
  { exists []. split_and!; [constructor|done|done]. }
  destruct (pending s) as [|i rest] eqn:Ep.
  { exists []. split_and!; [constructor|done|simpl; lia]. }
  destruct (pending_step s i) as (Hi & o & s' & Hst).
  { rewrite Ep. left. }
  rewrite (proj2 Hst). destruct (IH s') as (trace & Hsteps & Hall & Hlen).
  exists (i :: trace). split_and!; [by econstructor|by constructor|simpl; lia].
Qed.

Lemma settle_pending fuel s : work s ≤ fuel → pending (settle fuel s) = [].
Proof.
  revert s. induction fuel as [|fuel IH]; intros s Hw; simpl;
    destruct (pending s) as [|i rest] eqn:Ep; try done;
    (destruct (pending_step s i) as (Hi & o & s' & Hst); [rewrite Ep; left|]);
    pose proof (step_internal_work _ _ _ _ Hst Hi) as Hlt.
  - lia.
  - rewrite (proj2 Hst). apply IH. lia.
Qed.

(** ** What internal steps leave alone *)

Lemma accepted_internal ch trace s :
  Forall (λ i, internal i = true) trace → accepted ch trace s = [].
Proof.
  intros Hall. revert s. induction Hall as [|i trace Hi _ IH]; intros s;
    simpl; [done|].
  destruct (exec i s) as [[s' o]|]; simpl; rewrite ?IH; by destruct i.
Qed.

Lemma step_internal_ws_open s i o s' ch c :
  step s i o s' → internal i = true → conns s !! ch = Some c →
  ∃ c', conns s' !! ch = Some c' ∧ ws_open c' = ws_open c.
Proof.
  intros [_ Hx] Hi Hc. destruct i; try done; simpl in Hx; simplify_option_eq;
    unfold exec_register_insert, exec_connected, exec_disconnected in *;
    repeat case_match; simplify_eq; simpl; eauto;
    (destruct (decide (ch = ch0)) as [->|Hne];
     [rewrite lookup_insert_eq; simplify_eq
     |rewrite lookup_insert_ne by done]); eauto.
  match goal with Hp : outbound_pump _ = Some _ |- _ =>
    apply outbound_pump_fields in Hp as (_ & _ & Ho) end. eauto.
Qed.

Lemma steps_internal_ws_open s trace s' ch c :
  steps s trace s' → Forall (λ i, internal i = true) trace →
  conns s !! ch = Some c →
  ∃ c', conns s' !! ch = Some c' ∧ ws_open c' = ws_open c.
Proof.
  intros Hsteps. revert c.
  induction Hsteps as [s|s i o s1 trace s' Hst _ IH]; intros c; [eauto|].
  intros [Hi Hrest]%Forall_cons Hc.
  destruct (step_internal_ws_open _ _ _ _ _ _ Hst Hi Hc) as (c1 & Hc1 & <-).
  eauto.
Qed.

(** ** Theorems *)

(** C16: the tasks of the server terminate.  Whatever tasks the runtime
    resumes and in whatever order, every step of a task uses up one unit of
    the work that is left, so a run of tasks from a state has at most as
    many steps as that state has work: no pump, clean-up or eviction can
    keep the runtime busy without an event from outside. *)
Theorem internal_steps_bounded s trace s' :
  steps s trace s' → Forall (λ i, internal i = true) trace →
  length trace + work s' ≤ work s.
Proof. apply internal_steps_work. Qed.

(** C17: from any state, running the pending tasks one after the other comes
    to a state in which no task can run, within [work s] steps: all
    channels are empty, every accepted upgrade has started, every closed
    socket has been cleaned up, and no eviction is due. *)
Theorem settle_quiescent s :
  ∃ trace, steps s trace (settle (work s) s) ∧
    Forall (λ i, internal i = true) trace ∧ length trace ≤ work s ∧
    quiescent (settle (work s) s).
Proof.
  destruct (settle_steps (work s) s) as (trace & Hsteps & Hall & Hlen).
  exists trace. split_and!; [done..|]. by apply pending_nil, settle_pending.
Qed.

(** C20: when a run ends in a state in which no task can run, the peer of
    a socket that is still open has been sent every frame that was written
    or waiting at the start of the run, followed by one frame for each
    message the run accepted for the connection, in the order of
    acceptance, and nothing waits in the channel.  Read back as JSON, the
    frames are those messages. *)
Theorem quiescent_delivers s trace s' ch c c' :
  server_ok s → steps s trace s' → quiescent s' →
  conns s !! ch = Some c → conns s' !! ch = Some c' → ws_open c' = true →
  channel c' = [] ∧
  ws_sent c' = outbox c ++ (Message_to_json <$> accepted ch trace s) ∧
  ∀ sent, ws_sent c = Message_to_json <$> sent →
    mapM Message_of_json (ws_sent c') =
      Some (sent ++ channel c ++ accepted ch trace s).
Proof.
  intros Hok Hsteps [Hq _] Hc Hc' Ho.
  destruct (outbox_history _ _ _ _ _ Hok Hsteps Hc) as (c1 & Hc1 & Hout).
  simplify_eq. destruct (Hq _ _ Hc') as (Hch & _).
  specialize (Hout Ho). unfold outbox in Hout at 1.
  rewrite Hch, app_nil_r in Hout. split_and!; [done..|].
  intros sent Hsent. rewrite Hout. unfold outbox.
  rewrite Hsent, <- !fmap_app, <- app_assoc.
  apply mapM_fmap_Some, Message_of_json_to_json.
Qed.

(** The schedule [settle] delivers what is queued on every open socket. *)
Theorem settle_delivers s ch c :
  server_ok s → conns s !! ch = Some c → ws_open c = true →
  ∃ c', conns (settle (work s) s) !! ch = Some c' ∧ channel c' = [] ∧
        ws_open c' = true ∧ ws_sent c' = outbox c.
Proof.
  intros Hok Hc Ho.
  destruct (settle_steps (work s) s) as (trace & Hsteps & Hall & _).
  destruct (steps_internal_ws_open _ _ _ _ _ Hsteps Hall Hc) as (c' & Hc' & Ho').
  destruct (quiescent_delivers s trace _ ch c c' Hok Hsteps)
    as (Hch & Hs & _); [by apply pending_nil, settle_pending|done..| |].
  { congruence. }
  exists c'. split_and!; [done..|congruence|].
  by rewrite Hs, (accepted_internal ch trace s Hall), app_nil_r.
Qed.

(** C32: A send that is answered 200 reaches the socket: when the connection
    that the recipient stores has an open socket, the schedule [settle]
    run after the send leaves on that socket every frame that was written
    or waiting before, followed by the frame of the message, with the
    registered name of the sender as [from]. *)
Theorem send_delivered s request s1 r :
  server_ok s →
  exec (InSendMessage request) s = Some (s1, Replied (Ok r)) →
  ∃ recipient ch c k sender_client,
    clients s !! to_lowercase (req_to request) = Some recipient ∧
    tx recipient = Some ch ∧ conns s !! ch = Some c ∧
    clients s !! k = Some sender_client ∧
    token sender_client = req_token request ∧
    (ws_open c = true →
     ∃ c', conns (settle (work s1) s1) !! ch = Some c' ∧ channel c' = [] ∧
           ws_open c' = true ∧
           ws_sent c' =
             outbox c ++ [Message_to_json
               {| from := name sender_client; body := req_body request |}]).
Proof.
  intros Hok Hx.
  destruct (send_message_accepted _ _ _ _ Hok Hx)
    as (rc & ch & c & k & sc & Hrc & Htx & Hk & Ht & Hc & _ & _ & Hc1 & _).
  exists rc, ch, c, k, sc. split_and!; [done..|]. intros Ho.
  assert (step s (InSendMessage request) (Replied (Ok r)) s1) as Hst
    by (by split).
  pose proof (step_server_ok _ _ _ _ Hok Hst) as Hok1.
  destruct (settle_delivers s1 ch _ Hok1 Hc1 Ho) as (c' & Hc' & Hch & Ho' & Hs).
  exists c'. split_and!; [done..|]. by rewrite Hs, outbox_enqueue.
Qed.

End progress.

(** ** Witnesses, on the runs of file [Server] *)

Lemma internal_steps_bounded_witness :
  length [InPump 0; InPump 0] +
    work (state_after [InPump 0; InPump 0] s_connected) ≤ work s_connected.
Proof.
  apply (internal_steps_bounded s_connected [InPump 0; InPump 0]);
    [apply steps_state_after; compute_done|by repeat constructor].
Defined.

Lemma quiescent_delivers_witness :
  let trace := [InPump 0; InSendMessage hi_bob; InPump 0; InPump 0] in
  let c' := {| conn_token := "tB"; phase := Running; ws_open := true;
               channel := [];
               ws_sent := replicate 3 (Message_to_json (mkMessage "Alice" "hi")) |} in
  channel c' = [] ∧
  ws_sent c' = outbox bob_conn_two ++
    (Message_to_json <$> accepted 0 trace s_connected) ∧
  ∀ sent, ws_sent bob_conn_two = Message_to_json <$> sent →
    mapM Message_of_json (ws_sent c') =
      Some (sent ++ channel bob_conn_two ++ accepted 0 trace s_connected).
Proof.
  apply (quiescent_delivers s_connected
           [InPump 0; InSendMessage hi_bob; InPump 0; InPump 0]
           (state_after [InPump 0; InSendMessage hi_bob; InPump 0; InPump 0]
              s_connected) 0 bob_conn_two);
    [apply reachable_ok, reachable_s_connected
    |apply steps_state_after; compute_done
    |apply pending_nil; reflexivity
    |reflexivity..].
Defined.

Lemma send_delivered_witness :
  ∃ recipient ch c k sender_client,
    clients s_connected !! to_lowercase (req_to hi_bob) = Some recipient ∧
    tx recipient = Some ch ∧ conns s_connected !! ch = Some c ∧
    clients s_connected !! k = Some sender_client ∧
    token sender_client = req_token hi_bob ∧
    (ws_open c = true →
     ∃ c', conns (settle (work (state_after [InSendMessage hi_bob] s_connected))
                    (state_after [InSendMessage hi_bob] s_connected)) !! ch =
             Some c' ∧ channel c' = [] ∧ ws_open c' = true ∧
           ws_sent c' =
             outbox c ++ [Message_to_json
               {| from := name sender_client; body := req_body hi_bob |}]).
Proof.
  apply (send_delivered s_connected hi_bob
           (state_after [InSendMessage hi_bob] s_connected) reply);
    [apply reachable_ok, reachable_s_connected|by vm_compute].
Defined.
