(* ===== verification/Order.v ===== *)
(** * Order: the program order of [client_connected]

    [client_connected] (main.rs, lines 93-142) runs for one connection.  It
    can be suspended at its awaits, so one call is three kinds of atomic
    sections: the start (lines 94-118: attach, spawn the pump), one turn of
    the read loop per item of the inbound stream (line 121), and the
    clean-up (lines 125-141).  The transition function of file [Server]
    treats them as separate inputs, enabled by the [Phase] of the
    connection.  This file shows that the phases do sequence them:

    - [client_connected] is the call as the list of its sections, and
      [next_phase] the automaton that accepts the lists a call can have run
      so far;
    - [segments] projects a run of the server onto one connection;
    - [program_order]: in every run the sections of a connection occur in
      program order, each once, and the phase says how far the call has
      come; [phase_monotone]: a phase never goes back;
    - [conn_origin]: a connection exists because an upgrade was admitted
      for its token, and [reachable_finished_closed]: the clean-up runs
      only after the inbound stream has ended. *)

From S2P Require Import Prelude Strings Json Model Runtime Registry Lifecycle Router Server Invariants Delivery.

(** ** The call as a sequence of sections *)

Inductive Segment := Start | Read | CleanUp.

#[export] Instance Segment_eq_dec : EqDecision Segment.
Proof. solve_decision. Defined.

Definition client_connected (frames : nat) : list Segment :=
  Start :: replicate frames Read ++ [CleanUp].

(** The phase after a section, when the section can run in the phase. *)
Definition next_phase (seg : Segment) (p : Phase) : option Phase :=
  match seg, p with
  | Start, Upgrading => Some Running
  | Read, Running => Some Running
  | CleanUp, Running => Some Finished
  | _, _ => None
  end.

Fixpoint run_segments (l : list Segment) (p : Phase) : option Phase :=
  match l with
  | [] => Some p
  | seg :: l' => next_phase seg p ≫= run_segments l'
  end.

(** How far a call has come: the rank of its phase. *)
Definition phase_rank (p : Phase) : nat :=
  match p with
  | Upgrading => 0
  | Running => 1
  | Finished => 2
  end.

(** ** The projection of a run onto a connection *)

Definition segment_of (ch : nat) (i : Input) : option Segment :=
  match i with
  | InConnected ch' => if decide (ch' = ch) then Some Start else None
  | InInboundFrame ch' => if decide (ch' = ch) then Some Read else None
  | InDisconnected ch' => if decide (ch' = ch) then Some CleanUp else None
  | _ => None
  end.

Definition segments (ch : nat) (trace : list Input) : list Segment :=
  omap (segment_of ch) trace.

(** What the sections run so far look like in each phase. *)
Definition ran (p : Phase) (l : list Segment) : Prop :=
  match p with
  | Upgrading => l = []
  | Running => ∃ frames, l = Start :: replicate frames Read
  | Finished => ∃ frames, l = client_connected frames
  end.

(** ** The automaton *)

Lemma run_segments_app l1 l2 p :
  run_segments (l1 ++ l2) p = run_segments l1 p ≫= run_segments l2.
Proof.
  revert p. induction l1 as [|seg l1 IH]; intros p; simpl; [done|].
  destruct (next_phase seg p); simpl; eauto.
Qed.

Lemma next_phase_rank seg p p' :
  next_phase seg p = Some p' → phase_rank p ≤ phase_rank p'.
Proof. destruct seg, p; intros [= <-]; simpl; lia. Qed.

Lemma run_segments_rank l p p' :
  run_segments l p = Some p' → phase_rank p ≤ phase_rank p'.
Proof.
  revert p. induction l as [|seg l IH]; intros p; simpl; [by intros [= <-]|].
  destruct (next_phase seg p) as [p1|] eqn:E; simpl; [|done].
  intros ?%IH. apply next_phase_rank in E. lia.
Qed.

Lemma run_segments_Finished l p :
  run_segments l Finished = Some p → l = [] ∧ p = Finished.
Proof. destruct l as [|[] l]; simpl; [by intros [= <-]|done..]. Qed.

Lemma run_segments_Running l p :
  run_segments l Running = Some p →
  (p = Running ∧ ∃ frames, l = replicate frames Read) ∨
  (p = Finished ∧ ∃ frames, l = replicate frames Read ++ [CleanUp]).
Proof.
  induction l as [|[] l IH]; simpl; [|done| |].
  - intros [= <-]. left. split; [done|]. by exists 0.
  - intros [[-> [n ->]]|[-> [n ->]]]%IH; [left|right];
      (split; [done|]); by exists (S n).
  - intros [-> ->]%run_segments_Finished. right. split; [done|]. by exists 0.
Qed.

(** The words the automaton accepts from the start of a call. *)
Lemma run_segments_Upgrading l p :
  run_segments l Upgrading = Some p ↔ ran p l.
Proof.
  split.
  - destruct l as [|[] l]; simpl; [by intros [= <-]| |done..].
    intros [[-> [n ->]]|[-> [n ->]]]%run_segments_Running; by exists n.
  - unfold ran, client_connected.
    destruct p; [intros ->|intros [n ->]..]; simpl; [done|..];
      induction n as [|n IH]; simpl; eauto.
Qed.

Section order.
Context `{!Lowercase}.
Implicit Types (s : Server) (c : Connection).

(** ** One step *)

(** A send changes the channel of a connection and nothing else. *)
Lemma handle_send_message_phase request clients (cns : gmap nat Connection)
    ch c :
  cns !! ch = Some c →
  ∃ c', (handle_send_message request clients cns).1 !! ch = Some c' ∧
        conn_token c' = conn_token c ∧ phase c' = phase c ∧
        ws_open c' = ws_open c.
Proof.
  intros Hc. unfold handle_send_message.
  destruct (resolve request clients) as [[ch0 m]|e]; simpl; [|eauto].
  destruct (send_lookup_Some ch0 ch m _ _ Hc) as (c' & ? & ? & ? & ? & _).
  eauto.
Qed.

(** A step keeps every connection and its token; it moves the phase of the
    connection whose section it is as the automaton says, and leaves the
    phase of every other connection alone. *)
Lemma step_phase s i o s' ch c :
  server_ok s → step s i o s' → conns s !! ch = Some c →
  ∃ c', conns s' !! ch = Some c' ∧ conn_token c' = conn_token c ∧
        run_segments (segments ch [i]) (phase c) = Some (phase c').
Proof.
  intros Hok [_ Hx] Hc. pose proof (ok_conns _ Hok _ _ Hc) as Hlt.
  exec_inv Hx;
    unfold exec_register_check, exec_register_insert, exec_send_message,
      exec_ws_upgrade, exec_connected, exec_disconnected, segments in *;
    simpl; repeat case_match; simplify_eq; simpl;
    rewrite ?lookup_insert_eq, ?lookup_insert_ne by (done || lia);
    try (by eexists; split_and!; [done|done|simpl; congruence]);
    try (by exists c).
  - match goal with Hs : handle_send_message _ _ _ = _ |- _ =>
      pose proof (f_equal fst Hs) as Hs1; simpl in Hs1; subst end.
    destruct (handle_send_message_phase request (clients s) _ _ _ Hc)
      as (c' & -> & Ht & Hp & _). exists c'. by rewrite Hp.
  - destruct (decide (ch0 = ch)) as [->|Hne];
      rewrite ?lookup_insert_eq, ?lookup_insert_ne by done; simplify_eq;
      by eexists.
  - match goal with Hp : outbound_pump _ = Some _ |- _ =>
      apply outbound_pump_fields in Hp as (Ht & Hp & _) end.
    destruct (decide (ch0 = ch)) as [->|Hne];
      rewrite ?lookup_insert_eq, ?lookup_insert_ne by done; simplify_eq;
      eexists; (split_and!; [done|congruence|congruence]).
Qed.

(** A connection that a step creates is the one an admitted upgrade
    creates: it is named by the counter, carries the token of the upgrade
    and has not started. *)
Lemma step_conn_origin s i o s' ch c' :
  step s i o s' → conns s !! ch = None → conns s' !! ch = Some c' →
  i = InWsUpgrade (conn_token c') ∧ ch = next_id s ∧
  c' = new_connection (conn_token c') ∧ segments ch [i] = [].
Proof.
  intros [_ Hx] Hc.
  exec_cases Hx; try congruence;
    try (intros [[-> _]|[_ ?]]%lookup_insert_Some; congruence).
  - match goal with Hs : handle_send_message _ _ _ = _ |- _ =>
      pose proof (f_equal fst Hs) as Hs1; simpl in Hs1; subst end.
    intros (c0 & ? & _)%handle_send_message_fields. congruence.
  - by intros [[<- <-]|[_ ?]]%lookup_insert_Some; [|congruence].
Qed.

(** A section of a connection runs only when the connection exists. *)
Lemma step_absent s i o s' ch :
  step s i o s' → conns s !! ch = None → segments ch [i] = [].
Proof.
  intros [_ Hx] Hc. unfold segments.
  destruct i; simpl in *; try done; case_decide; by simplify_option_eq.
Qed.

(** The clean-up is the step that ends a call, and it runs on a socket
    that is closed. *)
Lemma step_finished s i o s' ch c c' :
  server_ok s → step s i o s' → conns s !! ch = Some c →
  conns s' !! ch = Some c' → phase c ≠ Finished → phase c' = Finished →
  ws_open c' = false.
Proof.
  intros Hok Hst Hc Hc' Hp Hf.
  destruct (step_phase _ _ _ _ _ _ Hok Hst Hc) as (c1 & Hc1 & _ & Hr).
  assert (c1 = c') as -> by congruence. rewrite Hf in Hr.
  destruct Hst as [_ Hx]. unfold segments in Hr.
  destruct i; simpl in *; try (by simplify_eq);
    case_decide; simplify_option_eq; try (by destruct (phase c)).
  unfold exec_disconnected in Hc'. destruct (detach _ _ _ _ _).
  simpl in Hc'. rewrite lookup_insert_eq in Hc'. by simplify_eq.
Qed.

(** ** Runs *)

Lemma segments_cons ch i trace :
  segments ch (i :: trace) = segments ch [i] ++ segments ch trace.
Proof. unfold segments. simpl. by destruct (segment_of ch i). Qed.

Lemma steps_phase s trace s' ch c :
  server_ok s → steps s trace s' → conns s !! ch = Some c →
  ∃ c', conns s' !! ch = Some c' ∧ conn_token c' = conn_token c ∧
        run_segments (segments ch trace) (phase c) = Some (phase c').
Proof.
  intros Hok Hsteps. revert c.
  induction Hsteps as [s|s i o s1 trace s' Hst _ IH]; intros c Hc;
    [by exists c|].
  destruct (step_phase _ _ _ _ _ _ Hok Hst Hc) as (c1 & Hc1 & Ht1 & Hr1).
  destruct (IH (step_server_ok _ _ _ _ Hok Hst) _ Hc1) as (c' & Hc' & Ht & Hr).
  exists c'. split_and!; [done|congruence|].
  by rewrite segments_cons, run_segments_app, Hr1.
Qed.

Lemma steps_conn_origin s trace s' ch c' :
  server_ok s → steps s trace s' → conns s !! ch = None →
  conns s' !! ch = Some c' →
  InWsUpgrade (conn_token c') ∈ trace ∧
  run_segments (segments ch trace) Upgrading = Some (phase c').
Proof.
  intros Hok Hsteps.
  induction Hsteps as [s|s i o s1 trace s' Hst Hrest IH]; intros Hc Hc';
    [congruence|].
  pose proof (step_server_ok _ _ _ _ Hok Hst) as Hok1.
  rewrite segments_cons, (step_absent _ _ _ _ _ Hst Hc). simpl.
  destruct (conns s1 !! ch) as [c1|] eqn:Hc1.
  - destruct (step_conn_origin _ _ _ _ _ _ Hst Hc Hc1) as (-> & _ & E & _).
    destruct (steps_phase _ _ _ _ _ Hok1 Hrest Hc1) as (c2 & Hc2 & Ht & Hr).
    assert (c2 = c') as -> by congruence. rewrite E in Hr. rewrite <- Ht.
    split; [left|done].
  - destruct (IH Hok1 eq_refl Hc') as [Hin Hr]. split; [by right|done].
Qed.

(** In a reachable state a call that has returned has a closed socket. *)
Lemma reachable_finished_closed s :
  reachable s →
  map_Forall (λ _ c, phase c = Finished → ws_open c = false) (conns s).
Proof.
  intros Hr. pattern s. revert s Hr. apply reachable_ind_inv; [done|].
  intros s i o s' Hr%reachable_ok IH Hst ch c' Hc' Hf.
  destruct (conns s !! ch) as [c|] eqn:Hc.
  - destruct (decide (phase c = Finished)) as [Hp|Hp];
      [|by eapply step_finished].
    destruct (step_conn _ _ _ _ _ _ Hr Hst Hc) as (c1 & Hc1 & _ & _ & Ho).
    assert (c1 = c') as -> by congruence. specialize (IH _ _ Hc Hp).
    destruct (ws_open c'); [|done]. destruct Ho; congruence.
  - destruct (step_conn_origin _ _ _ _ _ _ Hst Hc Hc') as (_ & _ & E & _).
    by rewrite E in Hf.
Qed.

(** ** Theorems *)


(** A connection is never removed, keeps its token, and its phase never
    goes back: what the sections of the run do to it is what the automaton
    [next_phase] does. *)
Theorem phase_monotone s trace s' ch c :
  reachable s → steps s trace s' → conns s !! ch = Some c →
  ∃ c', conns s' !! ch = Some c' ∧ conn_token c' = conn_token c ∧
        run_segments (segments ch trace) (phase c) = Some (phase c') ∧
        phase_rank (phase c) ≤ phase_rank (phase c').
Proof.
  intros Hr%reachable_ok Hsteps Hc.
  destruct (steps_phase _ _ _ _ _ Hr Hsteps Hc) as (c' & Hc' & Ht & Hrun).
  exists c'. split_and!; [done..|]. by eapply run_segments_rank.
Qed.

(** Every connection of a run from the initial state was created by an
    upgrade that [ws_handler] admitted for its token, and a connection
    whose call has returned has a closed socket: the clean-up runs only
    after the inbound stream has ended. *)
Theorem conn_origin trace s ch c :
  steps init trace s → conns s !! ch = Some c →
  InWsUpgrade (conn_token c) ∈ trace ∧
  (phase c = Finished → ws_open c = false).
Proof.
  intros Hsteps Hc. split.
  - by apply (steps_conn_origin init trace s ch c server_ok_init).
  - apply (reachable_finished_closed s) with ch; [|done].
    by apply (reachable_steps init trace); [constructor|].
Qed.

End order.

(** ** Witnesses *)

(** Bob registers, opens a websocket, sends two frames and closes. *)
Definition trace_session : list Input :=
  register_as "Bob" "tB" ++
  [InWsUpgrade "tB"; InConnected 0; InInboundFrame 0; InInboundFrame 0;
   InPeerClose 0; InDisconnected 0].

Definition conn_returned : Connection :=
  {| conn_token := "tB"; phase := Finished; ws_open := false;
     channel := []; ws_sent := [] |}.

Lemma run_segments_client_connected :
  run_segments (client_connected 3) Upgrading = Some Finished.
Proof. reflexivity. Qed.


Lemma phase_monotone_witness :
  ∃ c', conns s_detached !! 0 = Some c' ∧
        conn_token c' = conn_token bob_conn_two ∧
        run_segments (segments 0 [InPeerClose 0; InDisconnected 0])
          (phase bob_conn_two) = Some (phase c') ∧
        phase_rank (phase bob_conn_two) ≤ phase_rank (phase c').
Proof.
  apply (phase_monotone s_connected [InPeerClose 0; InDisconnected 0]
           s_detached 0 bob_conn_two);
    [apply reachable_s_connected|apply steps_state_after; compute_done
    |by vm_compute].
Defined.

Lemma conn_origin_witness :
  InWsUpgrade (conn_token conn_returned) ∈ trace_session ∧
  (phase conn_returned = Finished → ws_open conn_returned = false).
Proof.
  apply (conn_origin trace_session (state_after trace_session init) 0);
    [apply steps_state_after; compute_done|by vm_compute].
Defined.
