(* ===== verification/Eviction.v ===== *)
(** * Eviction: when a client leaves the registry, and when it never does

    A client is removed by the task that its clean-up spawned (main.rs,
    lines 133-140) and by nothing else but an overlapping registration.
    This file follows the tasks:

    - [handles_ok] is the invariant of the handles: a handle that a client
      stores names, while the task is pending, a task for the token of that
      client; handles are older than the counter, and the token of a task
      was issued ([reachable_handles_ok]);
    - [eviction_completes]: an eviction that is due is carried out.  When
      the tasks that are ready have run, in any order, and none is left, no
      client carries the token of a task that was due, unless an upgrade
      for that token was waiting to start; [expired_unresolvable] is the
      same for the schedule [settle], read through the handlers;
    - [never_connected_persists]: a client that never opens a websocket is
      never removed, whatever time passes: only a clean-up spawns an
      eviction, and only a connection runs a clean-up. *)

From S2P Require Import Prelude Strings Json Model Runtime Registry Lifecycle Router Server Invariants Safety Progress Order.

Section eviction.
Context `{!Lowercase}.
Implicit Types (s : Server) (t : string).

(** ** Definitions *)

Record handles_ok s : Prop := mk_handles_ok {
  ho_token : ∀ k c h task,
    clients s !! k = Some c → disconnect_timer c = Some h →
    timers s !! h = Some task → timer_token task = token c;
  ho_bound : ∀ k c h,
    clients s !! k = Some c → disconnect_timer c = Some h → h < next_id s;
  ho_issued : ∀ id task,
    timers s !! id = Some task → timer_token task ∈ issued s;
}.

(** No upgrade for token [t] waits for [client_connected] to start. *)
Definition no_upgrade t s : Prop :=
  map_Forall (λ _ c, conn_token c = t → phase c ≠ Upgrading) (conns s).

(** No eviction of token [t] is pending. *)
Definition untimed t s : Prop :=
  map_Forall (λ _ task, timer_token task ≠ t) (timers s).

(** Every connection opened with token [t] has returned. *)
Definition unconnected t s : Prop :=
  map_Forall (λ _ c, conn_token c = t → phase c = Finished) (conns s).

#[export] Instance no_upgrade_dec t s : Decision (no_upgrade t s).
Proof. unfold no_upgrade. apply _. Defined.

#[export] Instance untimed_dec t s : Decision (untimed t s).
Proof. unfold untimed. apply _. Defined.

#[export] Instance unconnected_dec t s : Decision (unconnected t s).
Proof. unfold unconnected. apply _. Defined.

(** ** The start and the clean-up on the whole state *)

Lemma exec_connected_cases ch c0 s :
  (token_fresh (conn_token c0) (clients s) ∧
   clients (exec_connected ch c0 s) = clients s ∧
   timers (exec_connected ch c0 s) = timers s) ∨
  (∃ k c, clients s !! k = Some c ∧ token c = conn_token c0 ∧
     clients (exec_connected ch c0 s) =
       <[k := mkClient (name c) (token c) None (Some ch)]> (clients s) ∧
     timers (exec_connected ch c0 s) =
       from_option (λ h, abort h (timers s)) (timers s) (disconnect_timer c)).
Proof.
  unfold exec_connected.
  destruct (attach_cases (conn_token c0) ch (clients s) (timers s))
    as [[? ->]|(k & c & ? & ? & ->)]; [by left|right; by exists k, c].
Qed.

Lemma exec_disconnected_cases ch c0 s :
  (token_fresh (conn_token c0) (clients s) ∧
   clients (exec_disconnected ch c0 s) = clients s ∧
   timers (exec_disconnected ch c0 s) = timers s) ∨
  (∃ k c, clients s !! k = Some c ∧ token c = conn_token c0 ∧
     clients (exec_disconnected ch c0 s) =
       <[k := mkClient (name c) (token c) (Some (next_id s)) (tx c)]>
         (clients s) ∧
     timers (exec_disconnected ch c0 s) =
       <[next_id s := mkTimer (conn_token c0) (now s + GRACE_PERIOD)]>
         (timers s)).
Proof.
  unfold exec_disconnected.
  destruct (detach_cases (conn_token c0) (next_id s) (now s) (clients s)
              (timers s)) as [[? ->]|(k & c & ? & ? & ->)];
    [by left|right; by exists k, c].
Qed.

Lemma exec_connected_rest ch c0 s :
  next_id (exec_connected ch c0 s) = next_id s ∧
  issued (exec_connected ch c0 s) = issued s ∧
  now (exec_connected ch c0 s) = now s.
Proof. unfold exec_connected. by destruct (attach _ _ _ _). Qed.

Lemma exec_disconnected_rest ch c0 s :
  next_id (exec_disconnected ch c0 s) = S (next_id s) ∧
  issued (exec_disconnected ch c0 s) = issued s ∧
  now (exec_disconnected ch c0 s) = now s.
Proof. unfold exec_disconnected. by destruct (detach _ _ _ _ _). Qed.

(** ** The invariant of the handles *)

Lemma handles_ok_init : handles_ok init.
Proof. by split. Qed.

(** A step that stores no new handle and spawns no task keeps the
    invariant. *)
Lemma handles_ok_shrink s s' :
  handles_ok s →
  (∀ k c' h, clients s' !! k = Some c' → disconnect_timer c' = Some h →
     ∃ c, clients s !! k = Some c ∧ token c = token c' ∧
          disconnect_timer c = Some h) →
  timers s' ⊆ timers s → next_id s ≤ next_id s' → issued s ⊆ issued s' →
  handles_ok s'.
Proof.
  intros [Ht Hb Hi] Hcl Htm Hn Hiss. split.
  - intros k c' h task Hk Hh Hid.
    destruct (Hcl _ _ _ Hk Hh) as (c & Hc & <- & Hh').
    eapply Ht; eauto. by eapply lookup_weaken.
  - intros k c' h Hk Hh. destruct (Hcl _ _ _ Hk Hh) as (c & Hc & _ & Hh').
    specialize (Hb _ _ _ Hc Hh'). lia.
  - intros id task Hid. eapply Hiss, Hi, lookup_weaken; eauto.
Qed.

(** The invariant reads the registry, the tasks, the counter and the
    tokens issued. *)
Lemma handles_ok_same s s' :
  handles_ok s → clients s' = clients s → timers s' = timers s →
  next_id s ≤ next_id s' → issued s' = issued s → handles_ok s'.
Proof.
  intros Hok Ec Et Hn Ei. apply (handles_ok_shrink s); rewrite ?Ec, ?Et, ?Ei;
    eauto.
Qed.

Lemma handles_ok_register_insert new_token request s :
  handles_ok s → handles_ok (exec_register_insert new_token request s).1.
Proof.
  intros Hok. apply (handles_ok_shrink s); simpl; [done| |done|done|set_solver].
  intros k c' h [[_ <-]|[_ Hk]]%lookup_insert_Some Hh; [done|eauto].
Qed.

Lemma handles_ok_connected ch c0 s :
  handles_ok s → handles_ok (exec_connected ch c0 s).
Proof.
  intros Hok.
  destruct (exec_connected_rest ch c0 s) as (En & Ei & _).
  apply (handles_ok_shrink s);
    rewrite ?En, ?Ei; [done| |apply exec_connected_timers|done..].
  destruct (exec_connected_cases ch c0 s)
    as [(_ & -> & _)|(k0 & c & Hk0 & _ & -> & _)]; [eauto|].
  intros k c' h [[_ <-]|[_ Hk]]%lookup_insert_Some Hh; [done|eauto].
Qed.

Lemma handles_ok_timer_fire id task s :
  handles_ok s → handles_ok (exec_timer_fire id task s).
Proof.
  intros Hok. apply (handles_ok_shrink s); simpl;
    [done| |apply delete_subseteq|done..].
  intros k c' h [Hk _]%evict_lookup Hh. eauto.
Qed.

(** The clean-up stores the handle of the task it spawns, which is a task
    for the token it looked up, a token of a client. *)
Lemma handles_ok_disconnected ch c0 s :
  server_ok s → handles_ok s → handles_ok (exec_disconnected ch c0 s).
Proof.
  intros Hok [Ht Hb Hi].
  destruct (exec_disconnected_rest ch c0 s) as (En & Ei & _).
  destruct (exec_disconnected_cases ch c0 s)
    as [(_ & Ec & Et)|(k0 & c & Hk0 & Htok & Ec & Et)];
    split; rewrite ?Ec, ?Et, ?En, ?Ei; simpl; eauto.
  - intros k c' h Hk Hh. specialize (Hb _ _ _ Hk Hh). lia.
  - intros k c' h task [[<- <-]|[Hne Hk]]%lookup_insert_Some Hh; simpl in *.
    + simplify_eq. rewrite lookup_insert_eq. by intros [= <-].
    + specialize (Hb _ _ _ Hk Hh). rewrite lookup_insert_ne by lia. eauto.
  - intros k c' h [[<- <-]|[Hne Hk]]%lookup_insert_Some Hh; simpl in *.
    + simplify_eq. lia.
    + specialize (Hb _ _ _ Hk Hh). lia.
  - intros id task [[<- <-]|[_ Hid]]%lookup_insert_Some; simpl; [|eauto].
    rewrite <- Htok. by apply (ok_issued _ Hok k0 c).
Qed.

Lemma step_handles_ok s i o s' :
  server_ok s → handles_ok s → step s i o s' → handles_ok s'.
Proof.
  intros Hok Hh [_ Hx]. exec_inv Hx;
    try done;
    try match goal with
        | Hx : _ = (?s1, ?o1) |- handles_ok ?s1 =>
          change s1 with (s1, o1).1; rewrite <- Hx
        end;
    eauto using handles_ok_register_insert, handles_ok_connected,
      handles_ok_disconnected, handles_ok_timer_fire;
    try (by apply (handles_ok_same s)).
  - unfold exec_register_check. case_match; [done|].
    by apply (handles_ok_same s).
  - unfold exec_send_message. destruct (handle_send_message _ _ _).
    by apply (handles_ok_same s).
  - unfold exec_ws_upgrade. case_match; [|done].
    apply (handles_ok_same s); simpl; eauto.
Qed.

Lemma reachable_handles_ok_aux s : reachable s → handles_ok s.
Proof.
  apply reachable_ind_inv; [apply handles_ok_init|].
  intros s0 i o s1 Hr Hh. apply step_handles_ok; [by apply reachable_ok|done].
Qed.

(** ** Tasks that run on their own *)

Lemma step_internal_now s i o s' :
  step s i o s' → internal i = true → now s' = now s.
Proof.
  intros [_ Hx] Hi. destruct i; try done; simpl in Hx; simplify_option_eq;
    unfold exec_register_insert, exec_connected, exec_disconnected in *;
    repeat case_match; by simplify_eq.
Qed.

Lemma step_issued_mono s i o s' : step s i o s' → issued s ⊆ issued s'.
Proof.
  intros [_ Hx]. exec_cases Hx; set_solver.
Qed.

(** No task admits an upgrade. *)
Lemma step_internal_no_upgrade t s i o s' :
  server_ok s → step s i o s' → internal i = true →
  no_upgrade t s → no_upgrade t s'.
Proof.
  intros Hok Hst Hi Hn ch c' Hc' Ht Hp.
  destruct (conns s !! ch) as [c|] eqn:Hc.
  - destruct (step_phase _ _ _ _ _ _ Hok Hst Hc) as (c1 & Hc1 & Ht1 & Hr).
    assert (c1 = c') as -> by congruence.
    apply run_segments_rank in Hr. rewrite Hp in Hr.
    apply (Hn ch c Hc); [congruence|]. destruct (phase c); simpl in *; (done || lia).
  - destruct (step_conn_origin _ _ _ _ _ _ Hst Hc Hc') as (-> & _). done.
Qed.

(** A task keeps a token that no client carries unused, unless the token
    is new. *)
Lemma step_internal_fresh t s i o s' :
  step s i o s' → internal i = true → t ∈ issued s →
  token_fresh t (clients s) → token_fresh t (clients s').
Proof.
  intros [He Hx] Hi Ht Hf. destruct i; try done; simpl in *;
    simplify_option_eq; try done.
  - unfold exec_register_insert in Hx. simpl in Hx. simplify_eq. simpl.
    apply token_fresh_insert; [done|]. simpl. congruence.
  - match goal with |- context [exec_connected ?ch ?c0 s] =>
      destruct (exec_connected_cases ch c0 s)
        as [(_ & -> & _)|(k & c & Hk & _ & -> & _)] end; [done|].
    by apply (token_fresh_update _ _ _ c).
  - match goal with |- context [exec_disconnected ?ch ?c0 s] =>
      destruct (exec_disconnected_cases ch c0 s)
        as [(_ & -> & _)|(k & c & Hk & _ & -> & _)] end; [done|].
    by apply (token_fresh_update _ _ _ c).
  - eapply token_fresh_subseteq; [apply evict_subseteq|done].
Qed.

(** A pending eviction stays pending across the step of a task, unless the
    step is the eviction itself, as long as no upgrade for its token waits
    to start. *)
Lemma step_internal_timer s i o s' id task :
  server_ok s → handles_ok s → step s i o s' → internal i = true →
  timers s !! id = Some task → no_upgrade (timer_token task) s →
  timers s' !! id = Some task ∨ token_fresh (timer_token task) (clients s').
Proof.
  intros Hok Hh [_ Hx] Hi Hid Hn. destruct i; try done; simpl in Hx;
    simplify_option_eq.
  - left. unfold exec_register_insert in Hx. simpl in Hx. by simplify_eq.
  - match goal with
    | Hc : conns s !! ch = Some ?c0 |- context [exec_connected ch ?c0 s] =>
      pose proof (Hn _ _ Hc) as Hno;
      destruct (exec_connected_cases ch c0 s)
        as [(_ & _ & ->)|(k & c & Hk & Htok & _ & ->)]
    end; [by left|].
    destruct (disconnect_timer c) as [h|] eqn:Eh; simpl; [|by left].
    destruct (decide (h = id)) as [->|Hne];
      [|left; by rewrite lookup_abort_ne].
    pose proof (ho_token _ Hh _ _ _ _ Hk Eh Hid). destruct Hno; congruence.
  - left. pose proof (ok_timers _ Hok _ _ Hid).
    match goal with |- context [exec_disconnected ?ch ?c0 s] =>
      destruct (exec_disconnected_cases ch c0 s)
        as [(_ & _ & ->)|(k & c & _ & _ & _ & ->)] end; [done|].
    rewrite lookup_insert_ne; [done|lia].
  - left. by simplify_eq.
  - destruct (decide (id0 = id)) as [->|Hne]; simpl.
    + right. simplify_eq. apply evict_token_fresh.
    + left. by rewrite lookup_delete_ne.
Qed.

(** What a run of tasks keeps true of an eviction that was pending. *)
Lemma steps_internal_eviction s trace s' id task :
  server_ok s → handles_ok s → steps s trace s' →
  Forall (λ i, internal i = true) trace →
  timers s !! id = Some task → no_upgrade (timer_token task) s →
  now s' = now s ∧
  (timers s' !! id = Some task ∨ token_fresh (timer_token task) (clients s')).
Proof.
  intros Hok Hh Hsteps Hall Hid Hn.
  assert (timer_token task ∈ issued s) as Hi by (by eapply ho_issued).
  assert ((timers s !! id = Some task ∧ no_upgrade (timer_token task) s) ∨
          token_fresh (timer_token task) (clients s)) as Hinv by (by left).
  clear Hid Hn. revert Hok Hh Hi Hinv.
  induction Hsteps as [s|s i o s1 trace s' Hst _ IH]; intros Hok Hh Hi Hinv;
    [split; [done|tauto]|].
  apply Forall_cons in Hall as [Hint Hall].
  destruct IH as [Hnow Hend]; [done|by eapply step_server_ok
    |by eapply step_handles_ok|by eapply step_issued_mono| |].
  - destruct Hinv as [[Hid Hn]|Hf].
    + destruct (step_internal_timer _ _ _ _ _ _ Hok Hh Hst Hint Hid Hn);
        [left|by right]. split; [done|]. by eapply step_internal_no_upgrade.
    + right. by eapply step_internal_fresh.
  - split; [|done]. rewrite Hnow. by eapply step_internal_now.
Qed.

(** ** A token that no client carries *)

Lemma handle_status_fresh t clients :
  token_fresh t clients → handle_status t clients = Err reject.
Proof.
  intros Hf%find_by_token_None. unfold handle_status. by rewrite Hf.
Qed.

Lemma ws_handler_fresh t clients :
  token_fresh t clients → ws_handler t clients = Err reject.
Proof.
  intros Hf. unfold ws_handler. rewrite (proj2 (map_any_false _ _)); [done|].
  intros k c Hk. apply bool_decide_eq_false. by apply (Hf k c).
Qed.

(** ** Where an eviction comes from *)

(** A task that a step spawns is spawned by the clean-up of a connection
    that was in its read loop, for the token of that connection. *)
Lemma step_timer_spawned s i o s' id task :
  step s i o s' → timers s' !! id = Some task →
  timers s !! id = Some task ∨
  ∃ ch c, i = InDisconnected ch ∧ conns s !! ch = Some c ∧
          phase c = Running ∧ timer_token task = conn_token c.
Proof.
  intros Hst Hid.
  destruct (step_timer_origin _ _ _ _ _ _ Hst Hid) as [?|(ch & -> & -> & _)];
    [by left|].
  destruct Hst as [_ Hx]. simpl in Hx. simplify_option_eq.
  match goal with
  | Hc : conns s !! ch = Some ?c0, Hp : phase ?c0 = Running ∧ _ |- _ =>
    destruct (exec_disconnected_cases ch c0 s)
      as [(_ & _ & Et)|(k & c & _ & _ & _ & Et)];
    rewrite Et in Hid; [by left|right; exists ch, c0]
  end.
  rewrite lookup_insert_eq in Hid. simplify_eq. tauto.
Qed.

Lemma step_untimed t s i o s' :
  step s i o s' → unconnected t s → untimed t s → untimed t s'.
Proof.
  intros Hst Hu Ht id task Hid Htok.
  destruct (step_timer_spawned _ _ _ _ _ _ Hst Hid)
    as [Hold|(ch & c & _ & Hc & Hp & E)]; [by apply (Ht id task)|].
  rewrite (Hu ch c Hc) in Hp by congruence. done.
Qed.

Lemma step_unconnected t s i o s' :
  server_ok s → step s i o s' → i ≠ InWsUpgrade t →
  unconnected t s → unconnected t s'.
Proof.
  intros Hok Hst Hi Hu ch c' Hc' Ht.
  destruct (conns s !! ch) as [c|] eqn:Hc.
  - destruct (step_phase _ _ _ _ _ _ Hok Hst Hc) as (c1 & Hc1 & Ht1 & Hr).
    assert (c1 = c') as -> by congruence.
    rewrite (Hu ch c Hc) in Hr by congruence.
    by apply run_segments_Finished in Hr as [_ ?].
  - destruct (step_conn_origin _ _ _ _ _ _ Hst Hc Hc') as (-> & _).
    congruence.
Qed.

(** ** Theorems *)

(** The handles of eviction tasks are consistent in every state the
    program can reach.  A handle stored in a client names, if the task is
    still pending, a task that evicts the token of that client; every
    stored handle is older than the counter; and the token of every pending
    task was issued to a registration. *)
Theorem reachable_handles_ok s :
  reachable s →
  (∀ k c h task,
     clients s !! k = Some c → disconnect_timer c = Some h →
     timers s !! h = Some task → timer_token task = token c) ∧
  (∀ k c h,
     clients s !! k = Some c → disconnect_timer c = Some h → h < next_id s) ∧
  (∀ id task, timers s !! id = Some task → timer_token task ∈ issued s).
Proof. by intros [? ? ?]%reachable_handles_ok_aux. Qed.

(** C35: an eviction that is due is carried out.  Take a state the program
    can reach in which an eviction task has slept its ten seconds and no
    upgrade for its token is waiting to start.  Let the tasks that are
    ready run, in any order, until none can run.  Then no client carries
    the token of the task: the client it was spawned for is gone. *)
Theorem eviction_completes s trace s' id task :
  reachable s → steps s trace s' → Forall (λ i, internal i = true) trace →
  timers s !! id = Some task → due (now s) task = true →
  no_upgrade (timer_token task) s → quiescent s' →
  token_fresh (timer_token task) (clients s').
Proof.
  intros Hr Hsteps Hall Hid Hdue%due_spec Hn [_ Hq].
  destruct (steps_internal_eviction s trace s' id task)
    as [Hnow [Hid'|Hf]]; auto using reachable_ok, reachable_handles_ok_aux.
  specialize (Hq _ _ Hid'). simpl in Hq. lia.
Qed.

(** After the grace period the token is no longer resolvable.  In the
    state that the schedule [settle] reaches from a state with a due
    eviction, a status query for the token is rejected and an upgrade with
    the token is refused. *)
Theorem expired_unresolvable s id task :
  reachable s → timers s !! id = Some task → due (now s) task = true →
  no_upgrade (timer_token task) s →
  handle_status (timer_token task) (clients (settle (work s) s)) = Err reject ∧
  ws_handler (timer_token task) (clients (settle (work s) s)) = Err reject.
Proof.
  intros Hr Hid Hdue%due_spec Hn.
  destruct (settle_steps (work s) s) as (trace & Hsteps & Hall & _).
  pose proof (proj1 (pending_nil _) (settle_pending (work s) s (le_n _)))
    as [_ Hq].
  destruct (steps_internal_eviction s trace (settle (work s) s) id task)
    as [Hnow [Hid'|Hf]]; auto using reachable_ok, reachable_handles_ok_aux.
  - specialize (Hq _ _ Hid'). simpl in Hq. lia.
  - split; [by apply handle_status_fresh|by apply ws_handler_fresh].
Qed.

(** C36: a client that never opens a websocket is never removed.  Take a
    registered client for whose token no eviction is pending and no
    connection is open or waiting, and whose name no registration in flight
    is about to take.  In every run in which no upgrade is requested with
    its token, however long and whatever time passes, the client stays
    registered with its name and token: its name is taken for as long as
    the process runs. *)
Theorem never_connected_persists s trace s' k c :
  reachable s → steps s trace s' → clients s !! k = Some c →
  untimed (token c) s → unconnected (token c) s → unchallenged k s →
  InWsUpgrade (token c) ∉ trace →
  ∃ c', clients s' !! k = Some c' ∧ same_identity c c'.
Proof.
  intros Hr%reachable_ok Hsteps. revert c Hr.
  induction Hsteps as [s|s i o s1 trace s' Hst _ IH];
    intros c Hok Hk Ht Hu Hc Hnot; [by exists c|].
  apply not_elem_of_cons in Hnot as [Hi Hn].
  destruct (step_client_fate _ _ _ _ _ _ Hst Hk)
    as [(c1 & Hk1 & Hid)|[(t & r & _ & Hr & Hkey & _)|
        (id & task & _ & Hid & Htok & _)]].
  - destruct Hid as [Hname Htoken].
    destruct (IH c1) as (c' & Hk' & Hid'); rewrite ?Htoken;
      eauto using step_server_ok, step_untimed, step_unconnected,
        step_unchallenged.
    exists c'. split; [done|]. by transitivity c1.
  - by destruct (proj1 (Forall_forall _ _) Hc _ Hr).
  - by destruct (Ht _ _ Hid).
Qed.

End eviction.

(** ** Witnesses, on the runs of file [Server] *)

Definition due_task : Timer := {| timer_token := "tB"; deadline := 10 |}.

(** The tasks that are ready once Bob's grace period has passed: the pump
    has two messages to drop, the eviction is due. *)
Definition trace_expiry : list Input := [InPump 0; InPump 0; InTimerFire 1].

(** Alice never connects while Bob comes, goes and is evicted. *)
Definition trace_idle : list Input :=
  [InTick 100; InStatus "tA"; InPeerClose 0; InDisconnected 0; InTick 50;
   InTimerFire 1; InTick 1000].

Lemma reachable_handles_ok_witness :
  (∀ k c h task,
     clients s_detached !! k = Some c → disconnect_timer c = Some h →
     timers s_detached !! h = Some task → timer_token task = token c) ∧
  (∀ k c h,
     clients s_detached !! k = Some c → disconnect_timer c = Some h →
     h < next_id s_detached) ∧
  (∀ id task,
     timers s_detached !! id = Some task → timer_token task ∈ issued s_detached).
Proof. apply reachable_handles_ok, reachable_s_detached. Defined.

Lemma eviction_completes_witness :
  token_fresh (timer_token due_task) (clients (state_after trace_expiry s_due)).
Proof.
  apply (eviction_completes s_due trace_expiry (state_after trace_expiry s_due)
           1 due_task);
    [apply reachable_s_due|apply steps_state_after; compute_done
    |by repeat constructor|by vm_compute|by vm_compute|compute_done
    |compute_done].
Defined.

Lemma expired_unresolvable_witness :
  handle_status (timer_token due_task) (clients (settle (work s_due) s_due)) =
    Err reject ∧
  ws_handler (timer_token due_task) (clients (settle (work s_due) s_due)) =
    Err reject.
Proof.
  apply (expired_unresolvable s_due 1 due_task);
    [apply reachable_s_due|by vm_compute|by vm_compute|compute_done].
Defined.

Lemma never_connected_persists_witness :
  ∃ c', clients (state_after trace_idle s_connected) !! "alice" = Some c' ∧
        same_identity (mkClient "Alice" "tA" None None) c'.
Proof.
  apply (never_connected_persists s_connected trace_idle
           (state_after trace_idle s_connected) "alice"
           (mkClient "Alice" "tA" None None));
    [apply reachable_s_connected|apply steps_state_after; compute_done
    |by vm_compute|compute_done|compute_done|compute_done|].
  unfold trace_idle. simpl. set_solver.
Defined.
