(* ===== verification/Spec.v ===== *)
(** * Spec: the connection state machine of the specification

    The specification describes a client by its name, its credential, an
    optional outbound channel and an optional eviction timer, and gives the
    operations [register], [attach], [detach], the firing of a timer and
    the routing of a message.  This file is that model, written from the
    specification: none of it is code of main.rs.  File [Refinement]
    relates the program to it.

    - [SpecClient], [SpecState]: the data; [status] reads the state of the
      connection state machine (Registered, Connected, Grace) off a client;
      Expired is absence from the registry;
    - [spec_register], [spec_attach], [spec_detach], [spec_fire],
      [spec_route]: the operations; [spec_step] performs the operation an
      event names;
    - [spec_wf]: a client that has a channel has no timer;
      [spec_step_wf] shows that every operation keeps it;
    - [transition]: the edges of the diagram of the specification;
      [spec_step_diagram] shows that every operation moves every client
      along an edge, or leaves it where it is. *)

From S2P Require Import Prelude Strings Json Model Router.

(** ** The model of the specification *)

Record SpecClient := mkSpecClient {
  sc_name : string;
  credential : string;
  outbound : option nat;
  (* the handle of the timer and the instant at which it fires *)
  evictionTimer : option (nat * nat);
}.

Record SpecState := mkSpecState {
  registry : gmap string SpecClient;
  clock : nat;
}.

#[export] Instance SpecClient_eq_dec : EqDecision SpecClient.
Proof. solve_decision. Defined.

(** The states of the connection state machine; [Expired] is absence from
    the registry. *)
Inductive Status := Registered | Connected | Grace.

Definition status (c : SpecClient) : Status :=
  match outbound c, evictionTimer c with
  | Some _, _ => Connected
  | None, Some _ => Grace
  | None, None => Registered
  end.

Inductive SpecEvent :=
| SRegister (cred name : string)
| SAttach (cred : string) (channel : nat)
| SDetach (cred : string) (handle : nat)
| SFire (cred : string) (handle : nat)
| STick (d : nat)
| STau.

Section spec.
Context `{!Lowercase}.
Implicit Types (R : gmap string SpecClient) (sp : SpecState).

Definition credential_is (cred : string) (_ : string) (c : SpecClient) : bool :=
  bool_decide (credential c = cred).

Definition findByCredential (cred : string) R : option (string * SpecClient) :=
  map_find (credential_is cred) R.

(** [register]: a conflict leaves the registry as it is. *)
Definition spec_register (cred name : string) R : gmap string SpecClient :=
  if decide (is_Some (R !! to_lowercase name)) then R
  else <[to_lowercase name :=
           {| sc_name := name; credential := cred;
              outbound := None; evictionTimer := None |}]> R.

(** [attach]: cancel the timer and install the channel, in one step. *)
Definition spec_attach (cred : string) (channel : nat) R : gmap string SpecClient :=
  match findByCredential cred R with
  | Some (k, c) =>
    <[k := {| sc_name := sc_name c; credential := credential c;
              outbound := Some channel; evictionTimer := None |}]> R
  | None => R
  end.

(** [detach]: clear the channel and start the timer; nothing happens to a
    client that is already detached. *)
Definition spec_detach (cred : string) (handle now : nat) R
    : gmap string SpecClient :=
  match findByCredential cred R with
  | Some (k, c) =>
    match outbound c with
    | Some _ =>
      <[k := {| sc_name := sc_name c; credential := credential c;
                outbound := None;
                evictionTimer := Some (handle, now + 10) |}]> R
    | None => R
    end
  | None => R
  end.

(** The firing of a timer removes the client when the timer is the one the
    client holds and its instant has come; a timer that was cancelled or
    superseded does nothing. *)
Definition spec_fire (cred : string) (handle now : nat) R : gmap string SpecClient :=
  match findByCredential cred R with
  | Some (k, c) =>
    match evictionTimer c with
    | Some (h, d) =>
      if decide (h = handle ∧ d ≤ now) then delete k R else R
    | None => R
    end
  | None => R
  end.

Definition spec_route (senderCredential recipientName : string) R : Outcome :=
  match findByCredential senderCredential R with
  | None => Unauthorized
  | Some _ =>
    match R !! to_lowercase recipientName with
    | None => RecipientNotFound
    | Some c =>
      match outbound c with
      | None => RecipientOffline
      | Some _ => Delivered
      end
    end
  end.

Definition spec_step (e : SpecEvent) sp : SpecState :=
  match e with
  | SRegister cred name =>
    {| registry := spec_register cred name (registry sp); clock := clock sp |}
  | SAttach cred channel =>
    {| registry := spec_attach cred channel (registry sp); clock := clock sp |}
  | SDetach cred handle =>
    {| registry := spec_detach cred handle (clock sp) (registry sp);
       clock := clock sp |}
  | SFire cred handle =>
    {| registry := spec_fire cred handle (clock sp) (registry sp);
       clock := clock sp |}
  | STick d => {| registry := registry sp; clock := clock sp + d |}
  | STau => sp
  end.

Definition spec_run (es : list SpecEvent) sp : SpecState :=
  foldl (λ sp e, spec_step e sp) sp es.

(** A client that has a channel has no timer. *)
Definition spec_wf R : Prop :=
  map_Forall (λ _ c, is_Some (outbound c) → evictionTimer c = None) R.

(** The state of the client registered under [k]; [None] when there is
    none: before its registration, or Expired. *)
Definition status_at (k : string) R : option Status := status <$> R !! k.

End spec.

(** The diagram of the connection state machine. *)
Inductive transition : option Status → option Status → Prop :=
| transition_stay st : transition st st
| transition_register : transition None (Some Registered)
| transition_connect : transition (Some Registered) (Some Connected)
| transition_disconnect : transition (Some Connected) (Some Grace)
| transition_reconnect : transition (Some Grace) (Some Connected)
| transition_expire : transition (Some Grace) None.

#[export] Hint Constructors transition : chat.

Section spec_lemmas.
Context `{!Lowercase}.
Implicit Types (R : gmap string SpecClient) (sp : SpecState).

(** ** Lemmas *)

Lemma findByCredential_Some cred R k c :
  findByCredential cred R = Some (k, c) → R !! k = Some c ∧ credential c = cred.
Proof.
  intros [Hk Hc]%map_find_Some. split; [done|].
  by apply bool_decide_eq_true in Hc.
Qed.

Lemma status_at_insert k k' c R :
  status_at k' (<[k := c]> R) =
  if decide (k' = k) then Some (status c) else status_at k' R.
Proof.
  unfold status_at. case_decide as Hk; [subst; by rewrite lookup_insert_eq|].
  by rewrite lookup_insert_ne.
Qed.

Lemma status_at_delete k k' R :
  status_at k' (delete k R) = if decide (k' = k) then None else status_at k' R.
Proof.
  unfold status_at. case_decide as Hk; [subst; by rewrite lookup_delete_eq|].
  by rewrite lookup_delete_ne.
Qed.

Lemma spec_wf_insert k c R :
  (is_Some (outbound c) → evictionTimer c = None) → spec_wf R →
  spec_wf (<[k := c]> R).
Proof. intros Hc HR. by apply map_Forall_insert_2. Qed.

(** ** Well-formedness *)

Lemma spec_register_wf cred name R :
  spec_wf R → spec_wf (spec_register cred name R).
Proof.
  intros HR. unfold spec_register. case_decide; [done|].
  apply spec_wf_insert; [by intros [? [=]]|done].
Qed.

Lemma spec_attach_wf cred channel R :
  spec_wf R → spec_wf (spec_attach cred channel R).
Proof.
  intros HR. unfold spec_attach.
  destruct (findByCredential cred R) as [[k c]|]; [|done].
  by apply spec_wf_insert.
Qed.

Lemma spec_detach_wf cred handle now R :
  spec_wf R → spec_wf (spec_detach cred handle now R).
Proof.
  intros HR. unfold spec_detach.
  destruct (findByCredential cred R) as [[k c]|]; [|done].
  destruct (outbound c); [|done].
  apply spec_wf_insert; [by intros [? [=]]|done].
Qed.

Lemma spec_fire_wf cred handle now R :
  spec_wf R → spec_wf (spec_fire cred handle now R).
Proof.
  intros HR. unfold spec_fire.
  destruct (findByCredential cred R) as [[k c]|]; [|done].
  destruct (evictionTimer c) as [[h d]|]; [|done].
  case_decide; [|done]. by apply map_Forall_delete.
Qed.

(** Every operation keeps the registry well formed. *)
Lemma spec_step_wf e sp :
  spec_wf (registry sp) → spec_wf (registry (spec_step e sp)).
Proof.
  destruct e; simpl; auto using spec_register_wf, spec_attach_wf,
    spec_detach_wf, spec_fire_wf.
Qed.

(** ** The diagram *)

Lemma spec_register_diagram cred name R k :
  transition (status_at k R) (status_at k (spec_register cred name R)).
Proof.
  unfold spec_register. case_decide as Hn; [constructor|].
  rewrite status_at_insert. case_decide; [subst|constructor].
  unfold status_at. apply eq_None_not_Some in Hn. rewrite Hn. constructor.
Qed.

Lemma spec_attach_diagram cred channel R k :
  transition (status_at k R) (status_at k (spec_attach cred channel R)).
Proof.
  unfold spec_attach.
  destruct (findByCredential cred R) as [[k0 c]|] eqn:E; [|constructor].
  apply findByCredential_Some in E as [Hk _].
  rewrite status_at_insert. case_decide; [subst|constructor].
  unfold status_at, status. rewrite Hk. simpl.
  destruct (outbound c), (evictionTimer c); constructor.
Qed.

Lemma spec_detach_diagram cred handle now R k :
  spec_wf R →
  transition (status_at k R) (status_at k (spec_detach cred handle now R)).
Proof.
  intros HR. unfold spec_detach.
  destruct (findByCredential cred R) as [[k0 c]|] eqn:E; [|constructor].
  apply findByCredential_Some in E as [Hk _].
  destruct (outbound c) as [ch|] eqn:Hout; [|constructor].
  rewrite status_at_insert. case_decide; [subst|constructor].
  unfold status_at, status. rewrite Hk. simpl. rewrite Hout. constructor.
Qed.

Lemma spec_fire_diagram cred handle now R k :
  spec_wf R →
  transition (status_at k R) (status_at k (spec_fire cred handle now R)).
Proof.
  intros HR. unfold spec_fire.
  destruct (findByCredential cred R) as [[k0 c]|] eqn:E; [|constructor].
  apply findByCredential_Some in E as [Hk _].
  destruct (evictionTimer c) as [[h d]|] eqn:Ht; [|constructor].
  case_decide; [|constructor].
  rewrite status_at_delete. case_decide; [subst|constructor].
  unfold status_at, status. rewrite Hk. simpl. rewrite Ht.
  destruct (outbound c) eqn:Hout; [|constructor].
  by rewrite (HR _ _ Hk) in Ht by (rewrite Hout; eauto).
Qed.

(** ** Theorems *)

(** Every operation of the specification moves every client along an edge
    of the diagram, or leaves it in its state. *)
Theorem spec_step_diagram e sp k :
  spec_wf (registry sp) →
  transition (status_at k (registry sp))
    (status_at k (registry (spec_step e sp))).
Proof.
  intros Hwf. destruct e; simpl;
    auto using spec_register_diagram, spec_attach_diagram,
      spec_detach_diagram, spec_fire_diagram with chat.
Qed.

End spec_lemmas.
