(* ===== verification/Refinement.v ===== *)
(** * Refinement: the program against the state machine of the specification

    The specification describes a client by its name, its credential, an
    optional outbound channel and an optional eviction timer, and the
    connection state machine Registered, Connected, Grace, Expired with the
    operations [register], [attach], [detach] and the firing of a timer.
    File [Spec] is that model ([SpecClient], [spec_step]), written from the
    specification, with the diagram of the state machine ([transition]).

    [abs] maps a state of the program to a state of the specification.  A
    client of the program that stores a timer handle counts as detached,
    whatever sender it still stores: the program never clears [tx].

    [refinement_step] shows that every step of the program is the step of
    the specification that [event_of] names, for the states that satisfy
    [session_ok].  [session_ok] is kept by every step that is [disciplined]:
    no second registration starts while one is between its two critical
    sections, no second connection is opened for a token while one is live,
    and no eviction runs for a token between the upgrade of a connection
    and the start of [client_connected].  File [Scenarios] shows a run that
    breaks each of the three.  [program_follows_diagram] is the state
    machine of the program: in a disciplined run every client moves along
    the edges of the diagram; [diagram_needs_discipline] shows a step that
    does not. *)

From S2P Require Import Prelude Strings Json Model Runtime Registry Lifecycle Router Server Invariants Spec.

Section abstraction.
Context `{!Lowercase}.
Implicit Types (R : gmap string SpecClient) (sp : SpecState) (s : Server).

(** ** From the program to the specification *)

Definition abs_client (timers : gmap nat Timer) (c : Client) : SpecClient :=
  {| sc_name := name c;
     credential := token c;
     outbound := match disconnect_timer c with
                 | Some _ => None
                 | None => tx c
                 end;
     evictionTimer :=
       h ← disconnect_timer c; task ← timers !! h; Some (h, deadline task) |}.

Definition abs s : SpecState :=
  {| registry := abs_client (timers s) <$> clients s; clock := now s |}.

(** The operation of the specification that an input of the program
    performs; the inputs that touch neither the registry nor the timers nor
    the clock perform none. *)
Definition event_of (i : Input) s : SpecEvent :=
  match i with
  | InRegisterInsert new_token request => SRegister new_token (reg_name request)
  | InConnected ch =>
    from_option (λ c, SAttach (conn_token c) ch) STau (conns s !! ch)
  | InDisconnected ch =>
    from_option (λ c, SDetach (conn_token c) (next_id s)) STau (conns s !! ch)
  | InTimerFire id =>
    from_option (λ task, SFire (timer_token task) id) STau (timers s !! id)
  | InTick d => STick d
  | _ => STau
  end.

(** ** The discipline of the environment *)

(** A connection is live from its upgrade to the end of its clean-up. *)
Definition live (c : Connection) : Prop := phase c ≠ Finished.

Definition disciplined (i : Input) s : Prop :=
  match i with
  | InRegisterCheck _ => registering s = []
  | InWsUpgrade t =>
    map_Forall (λ _ c, conn_token c = t → phase c = Finished) (conns s)
  | InTimerFire id =>
    match timers s !! id with
    | Some task =>
      map_Forall (λ _ c, conn_token c = timer_token task → phase c ≠ Upgrading)
        (conns s)
    | None => True
    end
  | _ => True
  end.

#[export] Instance disciplined_dec i s : Decision (disciplined i s).
Proof. destruct i; simpl; try apply _. destruct (timers s !! id); apply _. Defined.

(** A run in which every input is enabled and disciplined. *)
Fixpoint drun (trace : list Input) s : option Server :=
  match trace with
  | [] => Some s
  | i :: trace' =>
    guard (env_ok i s);;
    guard (disciplined i s);;
    '(s', _) ← exec i s;
    drun trace' s'
  end.

(** The operations of the specification that a run performs. *)
Fixpoint events_of (trace : list Input) s : list SpecEvent :=
  match trace with
  | [] => []
  | i :: trace' =>
    event_of i s :: from_option (λ r, events_of trace' r.1) [] (exec i s)
  end.

Inductive dreachable : Server → Prop :=
| dreachable_init : dreachable init
| dreachable_step s i o s' :
    dreachable s → disciplined i s → step s i o s' → dreachable s'.

(** What the invariant reads of a connection. *)
Definition conn_view (c : Connection) : string * Phase := (conn_token c, phase c).

Definition conns_same (cns cns' : gmap nat Connection) : Prop :=
  ∀ ch, conn_view <$> cns !! ch = conn_view <$> cns' !! ch.

(** ** The invariant of disciplined runs *)

Record session_ok s : Prop := mk_session_ok {
  (* a handle stored in a client names a pending task for its token *)
  so_stored : ∀ k c h, clients s !! k = Some c → disconnect_timer c = Some h →
    ∃ task, timers s !! h = Some task ∧ timer_token task = token c;
  (* a pending task is the one the client of its token stores *)
  so_owned : ∀ id task k c, timers s !! id = Some task →
    clients s !! k = Some c → token c = timer_token task →
    disconnect_timer c = Some id;
  so_timer_issued : ∀ id task,
    timers s !! id = Some task → timer_token task ∈ issued s;
  (* the client of a running connection is attached to it *)
  so_running : ∀ ch conn k c, conns s !! ch = Some conn → phase conn = Running →
    clients s !! k = Some c → token c = conn_token conn →
    tx c = Some ch ∧ disconnect_timer c = None;
  so_conn_issued : ∀ ch conn,
    conns s !! ch = Some conn → conn_token conn ∈ issued s;
  (* one live connection for a token *)
  so_single : ∀ ch1 c1 ch2 c2, conns s !! ch1 = Some c1 → conns s !! ch2 = Some c2 →
    live c1 → live c2 → conn_token c1 = conn_token c2 → ch1 = ch2;
  (* one registration in flight, for a name that is free *)
  so_registering : registering s = [] ∨
    ∃ r, registering s = [r] ∧ clients s !! to_lowercase (reg_name r) = None;
  (* a live connection belongs to a registered client *)
  so_live : ∀ ch conn, conns s !! ch = Some conn → live conn →
    ∃ k c, clients s !! k = Some c ∧ token c = conn_token conn;
  (* the sender of an attached client is a running connection *)
  so_attached : ∀ k c ch, clients s !! k = Some c → tx c = Some ch →
    disconnect_timer c = None →
    ∃ conn, conns s !! ch = Some conn ∧ phase conn = Running;
}.

End abstraction.

(** ** The abstraction and the searches *)

Section refinement.
Context `{!Lowercase}.
Implicit Types (s : Server) (T : gmap nat Timer) (cls : gmap string Client).

Lemma abs_client_agree T T' c :
  (∀ h, disconnect_timer c = Some h → T' !! h = T !! h) →
  abs_client T' c = abs_client T c.
Proof.
  intros Hh. unfold abs_client. f_equal.
  destruct (disconnect_timer c) as [h|]; simpl; [|done]. by rewrite Hh.
Qed.

Lemma findByCredential_abs T cls k c t :
  tokens_unique cls → cls !! k = Some c → token c = t →
  findByCredential t (abs_client T <$> cls) = Some (k, abs_client T c).
Proof.
  intros Hu Hk Ht. apply map_find_unique.
  - intros k1 a1 k2 a2. rewrite !lookup_fmap_Some.
    intros (c1 & <- & H1) (c2 & <- & H2). unfold credential_is.
    rewrite !bool_decide_eq_true. simpl. intros E1 E2.
    eapply Hu; eauto. congruence.
  - by rewrite lookup_fmap, Hk.
  - by apply bool_decide_eq_true.
Qed.

Lemma findByCredential_abs_None T cls t :
  token_fresh t cls → findByCredential t (abs_client T <$> cls) = None.
Proof.
  intros Hf. apply map_find_None. intros k a (c & <- & Hk)%lookup_fmap_Some.
  apply bool_decide_eq_false. simpl. by eapply Hf.
Qed.

(** The handle a client stores is stored by no client of another token. *)
Lemma stored_handle_inj s k1 c1 k2 c2 h :
  server_ok s → session_ok s →
  clients s !! k1 = Some c1 → clients s !! k2 = Some c2 →
  disconnect_timer c1 = Some h → disconnect_timer c2 = Some h → k1 = k2.
Proof.
  intros Hok Hs H1 H2 E1 E2.
  destruct (so_stored _ Hs _ _ _ H1 E1) as (t1 & Ht1 & Et1).
  destruct (so_stored _ Hs _ _ _ H2 E2) as (t2 & Ht2 & Et2).
  eapply Hok; eauto. congruence.
Qed.

(** ** The diagram, input by input *)

Lemma abs_register_insert t request s :
  clients s !! to_lowercase (reg_name request) = None →
  abs (exec_register_insert t request s).1 =
  spec_step (SRegister t (reg_name request)) (abs s).
Proof.
  intros Hn. unfold abs, spec_step, spec_register. simpl.
  rewrite fmap_insert. rewrite decide_False; [done|].
  rewrite lookup_fmap, Hn. by intros [? ?].
Qed.

Lemma abs_connected ch c s :
  server_ok s → session_ok s →
  abs (exec_connected ch c s) = spec_step (SAttach (conn_token c) ch) (abs s).
Proof.
  intros Hok Hs. unfold exec_connected, abs, spec_step, spec_attach. simpl.
  destruct (attach_cases (conn_token c) ch (clients s) (timers s))
    as [[Hf ->]|(k & c0 & Hk & Ht & ->)]; simpl.
  { by rewrite findByCredential_abs_None. }
  rewrite (findByCredential_abs _ _ k c0) by (done || apply Hok).
  rewrite fmap_insert. simpl. f_equal. apply insert_fmap_agree.
  intros k' c' Hne Hk'. apply abs_client_agree. intros h Hh.
  destruct (disconnect_timer c0) as [h0|] eqn:E0; simpl; [|done].
  apply lookup_abort_ne. intros ->.
  by destruct Hne, (stored_handle_inj s k' c' k c0 h).
Qed.

Lemma abs_disconnected ch c s :
  server_ok s → session_ok s → conns s !! ch = Some c → phase c = Running →
  abs (exec_disconnected ch c s) =
  spec_step (SDetach (conn_token c) (next_id s)) (abs s).
Proof.
  intros Hok Hs Hch Hp. unfold exec_disconnected, abs, spec_step, spec_detach.
  simpl.
  destruct (detach_cases (conn_token c) (next_id s) (now s) (clients s)
    (timers s)) as [[Hf ->]|(k & c0 & Hk & Ht & ->)]; simpl.
  { by rewrite findByCredential_abs_None. }
  destruct (so_running _ Hs _ _ _ _ Hch Hp Hk Ht) as [Hx Hd].
  rewrite (findByCredential_abs _ _ k c0) by (done || apply Hok).
  simpl. rewrite Hd, Hx, fmap_insert. unfold abs_client at 1. simpl.
  rewrite lookup_insert_eq. simpl. f_equal. apply insert_fmap_agree.
  intros k' c' Hne Hk'. apply abs_client_agree. intros h Hh.
  apply lookup_insert_ne. intros <-.
  destruct (so_stored _ Hs _ _ _ Hk' Hh) as (task & Hh' & _).
  apply (ok_timers _ Hok) in Hh'. lia.
Qed.

Lemma abs_timer_fire id task s :
  server_ok s → session_ok s → timers s !! id = Some task →
  due (now s) task = true →
  abs (exec_timer_fire id task s) =
  spec_step (SFire (timer_token task) id) (abs s).
Proof.
  intros Hok Hs Hid Hdue%due_spec. unfold exec_timer_fire, abs, spec_step, spec_fire.
  simpl.
  assert (∀ k' c', clients s !! k' = Some c' → token c' ≠ timer_token task →
    abs_client (delete id (timers s)) c' = abs_client (timers s) c') as Hagree.
  { intros k' c' Hk' Hne. apply abs_client_agree. intros h Hh.
    apply lookup_delete_ne. intros <-.
    destruct (so_stored _ Hs _ _ _ Hk' Hh) as (task' & ? & ?). congruence. }
  destruct (find_by_token (timer_token task) (clients s)) as [[k c0]|] eqn:E.
  - apply find_by_token_Some in E as [Hk Ht].
    rewrite (findByCredential_abs _ _ k c0) by (done || apply Hok). simpl.
    rewrite (so_owned _ Hs _ _ _ _ Hid Hk Ht). simpl. rewrite Hid. simpl.
    rewrite decide_True by done.
    rewrite (evict_delete _ _ k c0) by (done || apply Hok).
    rewrite fmap_delete. f_equal. apply delete_fmap_agree.
    intros k' c' Hne Hk'. apply (Hagree k'); [done|]. intros Ht'.
    apply Hne. eapply Hok; eauto. congruence.
  - apply find_by_token_None in E.
    rewrite findByCredential_abs_None, evict_unknown by done.
    f_equal. apply map_fmap_ext. intros k' c' Hk'. apply (Hagree k'); eauto.
Qed.

(** ** The refinement *)

Lemma abs_step s i o s' :
  server_ok s → session_ok s → step s i o s' →
  abs s' = spec_step (event_of i s) (abs s).
Proof.
  intros Hok Hs [He Hx]. exec_inv Hx;
    unfold exec_register_check, exec_send_message, exec_ws_upgrade in *;
    repeat case_match; simplify_eq; try done.
  - change s' with (s', o).1. rewrite <- Hx. apply abs_register_insert.
    match goal with Hr : _ ∈ registering _ |- _ =>
      destruct (so_registering _ Hs) as [E|(r & E & Hfree)]; rewrite E in Hr;
        [by apply elem_of_nil in Hr|by apply list_elem_of_singleton in Hr as ->]
    end.
  - by apply abs_connected.
  - apply abs_disconnected; [done..|]. intuition.
  - by apply abs_timer_fire.
Qed.

(** ** Preservation of the invariant *)

Lemma conns_same_Some cns cns' ch c' :
  conns_same cns cns' → cns' !! ch = Some c' →
  ∃ c, cns !! ch = Some c ∧ conn_token c = conn_token c' ∧ phase c = phase c'.
Proof.
  intros Hsame Hc'. specialize (Hsame ch). rewrite Hc' in Hsame.
  destruct (cns !! ch) as [c|]; [|done]. injection Hsame as ? ?. eauto.
Qed.

#[export] Instance conns_same_equiv : Equivalence conns_same.
Proof.
  split; [by intros cns ch|by intros cns cns' E ch|].
  intros c1 c2 c3 E1 E2 ch. by rewrite E1.
Qed.

Lemma conns_same_insert cns ch c c' :
  cns !! ch = Some c → conn_token c' = conn_token c → phase c' = phase c →
  conns_same cns (<[ch := c']> cns).
Proof.
  intros Hc Ht Hp ch'. destruct (decide (ch = ch')) as [<-|Hne].
  - rewrite lookup_insert_eq, Hc. unfold conn_view. simpl. congruence.
  - by rewrite lookup_insert_ne.
Qed.

Lemma conns_same_send cns ch m : conns_same cns (send ch m cns).
Proof.
  intros ch'. rewrite lookup_send. case_decide; [|done].
  by destruct (cns !! ch').
Qed.

Lemma session_ok_init : session_ok init.
Proof. split; simpl; try (intros ?; intros; simplify_map_eq; fail). by left. Qed.

Lemma session_ok_conns s cns' :
  session_ok s → conns_same (conns s) cns' → session_ok (set_conns cns' s).
Proof.
  intros [Hst Hown Hti Hrun Hci Hsg Hreg Hlv Hat] Hsame.
  split; simpl; try done.
  - intros ch c' k c (c0 & ? & Et & Ep)%(conns_same_Some _ _ _ _ Hsame).
    rewrite <- Et, <- Ep. eauto.
  - intros ch c' (c0 & ? & Et & Ep)%(conns_same_Some _ _ _ _ Hsame).
    rewrite <- Et. eauto.
  - intros ch1 c1 ch2 c2 (d1 & ? & Et1 & Ep1)%(conns_same_Some _ _ _ _ Hsame)
      (d2 & ? & Et2 & Ep2)%(conns_same_Some _ _ _ _ Hsame).
    unfold live. rewrite <- Et1, <- Et2, <- Ep1, <- Ep2. eauto.
  - intros ch c' (c0 & ? & Et & Ep)%(conns_same_Some _ _ _ _ Hsame).
    unfold live. rewrite <- Et, <- Ep. eauto.
  - intros k c ch Hk Hx Hd.
    destruct (Hat _ _ _ Hk Hx Hd) as (conn & Hc & Hp).
    specialize (Hsame ch). rewrite Hc in Hsame.
    destruct (cns' !! ch) as [c'|]; [|done]. injection Hsame as _ Ep.
    exists c'. split; [done|]. congruence.
Qed.

Lemma session_ok_register_check request s :
  session_ok s → registering s = [] →
  session_ok (exec_register_check request s).1.
Proof.
  intros [Hst Hown Hti Hrun Hci Hsg Hreg Hlv Hat] Hnil.
  unfold exec_register_check.
  destruct (registration_check request (clients s)) eqn:E; simpl; [done|].
  split; simpl; try done. right. exists request. rewrite Hnil.
  split; [done|]. by apply registration_check_None.
Qed.

Lemma session_ok_register_insert t request s :
  server_ok s → session_ok s → request ∈ registering s → t ∉ issued s →
  session_ok (exec_register_insert t request s).1.
Proof.
  intros Hok [Hst Hown Hti Hrun Hci Hsg Hreg Hlv Hat] Hin Hf.
  destruct Hreg as [E|(r & E & Hfree)]; rewrite E in Hin; [set_solver|].
  apply list_elem_of_singleton in Hin as ->.
  split; simpl.
  - intros k c h [[_ <-]|[_ Hk]]%lookup_insert_Some; [done|eauto].
  - intros id task k c Hid [[_ <-]|[_ Hk]]%lookup_insert_Some; [|eauto].
    simpl. intros ->. by destruct Hf; eauto.
  - intros id task Hid. apply elem_of_union_r. eauto.
  - intros ch conn k c Hch Hp [[_ <-]|[_ Hk]]%lookup_insert_Some; [|eauto].
    simpl. intros ->. by destruct Hf; eauto.
  - intros ch conn Hch. apply elem_of_union_r. eauto.
  - done.
  - left. rewrite E. simpl. by rewrite decide_True.
  - intros ch conn Hch Hl. destruct (Hlv _ _ Hch Hl) as (k & c & Hk & Ht).
    exists k, c. split; [|done]. rewrite lookup_insert_ne; [done|]. congruence.
  - intros k c ch [[_ <-]|[_ Hk]]%lookup_insert_Some; [done|eauto].
Qed.

Lemma session_ok_advance d s : session_ok s → session_ok (advance d s).
Proof. by intros []. Qed.

Lemma session_ok_ws_upgrade t s :
  server_ok s → session_ok s → disciplined (InWsUpgrade t) s →
  session_ok (exec_ws_upgrade t s).1.
Proof.
  intros Hok [Hst Hown Hti Hrun Hci Hsg Hreg Hlv Hat] Hd.
  unfold exec_ws_upgrade.
  destruct (ws_handler t (clients s)) as [r|] eqn:E; [|done].
  apply ws_handler_Ok in E as (-> & k0 & c0 & Hk0 & Ht0).
  split; simpl; try done.
  - intros ch conn k c [[_ <-]|[_ Hch]]%lookup_insert_Some; [done|eauto].
  - intros ch conn [[_ <-]|[_ Hch]]%lookup_insert_Some; [|eauto].
    simpl. rewrite <- Ht0. by eapply ok_issued.
  - intros ch1 c1 ch2 c2 [[<- <-]|[_ H1]]%lookup_insert_Some
      [[<- <-]|[_ H2]]%lookup_insert_Some L1 L2 Et; simpl in *; eauto.
    + by destruct L2, (Hd _ _ H2).
    + by destruct L1, (Hd _ _ H1).
  - intros ch conn [[_ <-]|[_ Hch]]%lookup_insert_Some Hl; simpl; eauto.
  - intros k c ch Hk Hx Hdt. destruct (Hat _ _ _ Hk Hx Hdt) as (conn & Hc & Hp).
    exists conn. split; [|done]. rewrite lookup_insert_ne; [done|].
    apply (ok_conns _ Hok) in Hc. lia.
Qed.

(** An update in place of a client that keeps its token keeps what the
    invariant says of the other keys and of the tokens in use. *)
Lemma registering_update s cls' k c0 c :
  clients s !! k = Some c0 → cls' = <[k := c]> (clients s) →
  (registering s = [] ∨
   ∃ r, registering s = [r] ∧ clients s !! to_lowercase (reg_name r) = None) →
  registering s = [] ∨
  ∃ r, registering s = [r] ∧ cls' !! to_lowercase (reg_name r) = None.
Proof.
  intros Hk -> [?|(r & ? & Hfree)]; [by left|right]. exists r.
  split; [done|]. rewrite lookup_insert_ne; [done|]. congruence.
Qed.

Lemma token_in_use_update cls k c0 c t :
  cls !! k = Some c0 → token c = token c0 →
  (∃ k' c', cls !! k' = Some c' ∧ token c' = t) →
  ∃ k' c', <[k := c]> cls !! k' = Some c' ∧ token c' = t.
Proof.
  intros Hk Et (k' & c' & Hk' & <-).
  destruct (decide (k = k')) as [<-|Hne]; simplify_eq.
  - exists k, c. by rewrite lookup_insert_eq.
  - exists k', c'. by rewrite lookup_insert_ne.
Qed.

Lemma lookup_aborted T (o : option nat) id task :
  from_option (λ h, abort h T) T o !! id = Some task ↔
  T !! id = Some task ∧ o ≠ Some id.
Proof.
  destruct o as [h|]; simpl.
  - rewrite lookup_abort_Some. split; intros [? ?]; split; congruence.
  - split; [by intros ?|by intros [? _]].
Qed.

Lemma session_ok_connected ch c s :
  server_ok s → session_ok s → conns s !! ch = Some c → phase c = Upgrading →
  session_ok (exec_connected ch c s).
Proof.
  intros Hok Hs Hch Hp. pose proof Hs as [Hst Hown Hti Hrun Hci Hsg Hreg Hlv Hat].
  assert (live c) as Hl by (unfold live; congruence).
  unfold exec_connected.
  destruct (attach_cases (conn_token c) ch (clients s) (timers s))
    as [[Hf _]|(k & c0 & Hk & Ht & ->)].
  { destruct (Hlv _ _ Hch Hl) as (k & c0 & Hk & Ht). by destruct (Hf _ _ Hk). }
  assert (∀ k' c', clients s !! k' = Some c' → token c' = conn_token c → k = k')
    as Huniq by (intros; eapply Hok; eauto; congruence).
  split; simpl.
  - intros k' c' h [[<- <-]|[Hne Hk']]%lookup_insert_Some Hh; [done|].
    destruct (Hst _ _ _ Hk' Hh) as (task & ? & ?). exists task.
    split; [|done]. apply lookup_aborted. split; [done|]. intros E.
    by destruct Hne, (stored_handle_inj s k c0 k' c' h).
  - intros id task k' c' [Hid Hne]%lookup_aborted
      [[<- <-]|[_ Hk']]%lookup_insert_Some Et; [|eauto].
    by destruct Hne; eauto.
  - intros id task [Hid _]%lookup_aborted. eauto.
  - intros ch' conn k' c' [[<- <-]|[Hne Hch']]%lookup_insert_Some Hr
      [[<- <-]|[Hnk Hk']]%lookup_insert_Some Et; simpl in *; eauto.
    + by destruct Hnk; eauto.
    + destruct Hne. eapply (Hsg ch c ch' conn); eauto; unfold live; congruence.
  - intros ch' conn [[<- <-]|[_ Hch']]%lookup_insert_Some; simpl; eauto.
  - intros ch1 c1 ch2 c2 [[<- <-]|[_ H1]]%lookup_insert_Some
      [[<- <-]|[_ H2]]%lookup_insert_Some L1 L2 Et; simpl in *; eauto.
  - by eapply registering_update.
  - intros ch' conn Hch' Hl'. eapply token_in_use_update; [done..|].
    apply lookup_insert_Some in Hch' as [[<- <-]|[_ ?]]; eauto.
  - intros k' c' ch' [[<- <-]|[_ Hk']]%lookup_insert_Some Hx Hd; simpl in *.
    + simplify_eq. eexists. by rewrite lookup_insert_eq.
    + destruct (Hat _ _ _ Hk' Hx Hd) as (conn & Hc & Hr). exists conn.
      split; [|done]. rewrite lookup_insert_ne; [done|]. congruence.
Qed.

Lemma session_ok_disconnected ch c s :
  server_ok s → session_ok s → conns s !! ch = Some c → phase c = Running →
  session_ok (exec_disconnected ch c s).
Proof.
  intros Hok Hs Hch Hp. pose proof Hs as [Hst Hown Hti Hrun Hci Hsg Hreg Hlv Hat].
  assert (live c) as Hl by (unfold live; congruence).
  unfold exec_disconnected.
  destruct (detach_cases (conn_token c) (next_id s) (now s) (clients s)
    (timers s)) as [[Hf _]|(k & c0 & Hk & Ht & ->)].
  { destruct (Hlv _ _ Hch Hl) as (k & c0 & Hk & Ht). by destruct (Hf _ _ Hk). }
  destruct (Hrun _ _ _ _ Hch Hp Hk Ht) as [Hx Hd].
  assert (∀ k' c', clients s !! k' = Some c' → token c' = conn_token c → k = k')
    as Huniq by (intros; eapply Hok; eauto; congruence).
  assert (∀ h task, timers s !! h = Some task → next_id s ≠ h) as Hfresh.
  { intros h task Hh%(ok_timers _ Hok). lia. }
  split; simpl.
  - intros k' c' h [[<- <-]|[Hne Hk']]%lookup_insert_Some Hh; simpl in *.
    + simplify_eq. eexists. by rewrite lookup_insert_eq.
    + destruct (Hst _ _ _ Hk' Hh) as (task & Hh' & ?). exists task.
      split; [|done]. rewrite lookup_insert_ne; eauto.
  - intros id task k' c' [[<- <-]|[_ Hid]]%lookup_insert_Some
      [[<- <-]|[Hnk Hk']]%lookup_insert_Some Et; simpl in *; eauto.
    + by destruct Hnk; eauto.
    + rewrite (Hown _ _ _ _ Hid Hk Et) in Hd. done.
  - intros id task [[_ <-]|[_ Hid]]%lookup_insert_Some; simpl; [|eauto].
    rewrite <- Ht. by eapply ok_issued.
  - intros ch' conn k' c' [[<- <-]|[Hne Hch']]%lookup_insert_Some Hr
      [[<- <-]|[Hnk Hk']]%lookup_insert_Some Et; simpl in *; eauto; try done.
    destruct Hne. eapply (Hsg ch c ch' conn); eauto; unfold live; congruence.
  - intros ch' conn [[<- <-]|[_ Hch']]%lookup_insert_Some; simpl; eauto.
  - intros ch1 c1 ch2 c2 [[<- <-]|[_ H1]]%lookup_insert_Some
      [[<- <-]|[_ H2]]%lookup_insert_Some L1 L2 Et; simpl in *; eauto; done.
  - by eapply registering_update.
  - intros ch' conn [[<- <-]|[_ Hch']]%lookup_insert_Some Hl'; [done|].
    eapply token_in_use_update; eauto.
  - intros k' c' ch' [[<- <-]|[Hnk Hk']]%lookup_insert_Some Hx' Hd'; [done|].
    destruct (Hat _ _ _ Hk' Hx' Hd') as (conn & Hc & Hr). exists conn.
    split; [|done]. rewrite lookup_insert_ne; [done|]. intros <-.
    destruct (ok_senders _ Hok _ _ _ Hk' Hx') as (conn' & ? & Et & _).
    destruct Hnk. apply (Huniq k' c'); [done|]. congruence.
Qed.

Lemma session_ok_timer_fire id task s :
  server_ok s → session_ok s → timers s !! id = Some task →
  disciplined (InTimerFire id) s →
  session_ok (exec_timer_fire id task s).
Proof.
  intros Hok [Hst Hown Hti Hrun Hci Hsg Hreg Hlv Hat] Hid Hdisc.
  simpl in Hdisc. rewrite Hid in Hdisc.
  unfold exec_timer_fire. split; simpl; try done.
  - intros k c h [Hk Hne]%evict_lookup Hh.
    destruct (Hst _ _ _ Hk Hh) as (task' & Hh' & Et). exists task'.
    split; [|done]. rewrite lookup_delete_ne; [done|]. congruence.
  - intros id' task' k c [_ Hid']%lookup_delete_Some [Hk _]%evict_lookup.
    eauto.
  - intros id' task' [_ Hid']%lookup_delete_Some. eauto.
  - intros ch conn k c Hch Hr [Hk _]%evict_lookup. eauto.
  - destruct Hreg as [?|(r & ? & Hfree)]; [by left|right]. exists r.
    split; [done|]. apply eq_None_not_Some. intros [c [Hc _]%evict_lookup].
    congruence.
  - intros ch conn Hch Hl. destruct (Hlv _ _ Hch Hl) as (k & c & Hk & Et).
    exists k, c. split; [|done]. apply evict_lookup. split; [done|].
    intros Etok. rewrite Et in Etok.
    destruct (phase conn) eqn:Ep; [| |done].
    + by destruct (Hdisc _ _ Hch).
    + destruct (Hrun _ _ _ _ Hch Ep Hk Et) as [_ Hd].
      rewrite (Hown _ _ _ _ Hid Hk) in Hd; [done|congruence].
  - intros k c ch [Hk _]%evict_lookup. eauto.
Qed.

(** Every disciplined step keeps the invariant. *)
Lemma step_session_ok s i o s' :
  server_ok s → session_ok s → disciplined i s → step s i o s' →
  session_ok s'.
Proof.
  intros Hok Hs Hd [He Hx]. destruct i; simpl in Hx, He; simplify_option_eq;
    try match goal with
        | Hx : _ = (?s1, ?o1) |- session_ok ?s1 =>
          change s1 with (s1, o1).1; rewrite <- Hx
        end; try done.
  - by apply session_ok_register_check.
  - by apply session_ok_register_insert.
  - unfold exec_send_message, handle_send_message.
    destruct (resolve request (clients s)) as [[ch m]|e]; simpl;
      [|by destruct s].
    apply session_ok_conns, conns_same_send. done.
  - by apply session_ok_ws_upgrade.
  - by apply session_ok_connected.
  - apply session_ok_conns; [done|]. by eapply conns_same_insert.
  - apply session_ok_disconnected; [done..|]. intuition.
  - match goal with Hp : outbound_pump _ = Some _ |- _ =>
      apply outbound_pump_fields in Hp as (? & ? & ?)
    end. apply session_ok_conns; [done|]. by eapply conns_same_insert.
  - apply session_ok_timer_fire; [done..|]. simpl. by simplify_option_eq.
  - by apply session_ok_advance.
Qed.

Lemma dreachable_reachable s : dreachable s → reachable s.
Proof. induction 1; [constructor|by econstructor]. Qed.

Lemma dreachable_ok s : dreachable s → server_ok s ∧ session_ok s.
Proof.
  induction 1 as [|s i o s' Hr [Hok Hs] Hd Hst].
  - split; [apply server_ok_init|apply session_ok_init].
  - split; [by eapply step_server_ok|by eapply step_session_ok].
Qed.

Lemma drun_step i trace s s' :
  drun (i :: trace) s = Some s' →
  ∃ s1 o, disciplined i s ∧ step s i o s1 ∧ exec i s = Some (s1, o) ∧
          drun trace s1 = Some s'.
Proof.
  simpl. intros Hr. repeat case_guard; simplify_eq/=.
  destruct (exec i s) as [[s1 o]|] eqn:Hx; simplify_eq/=.
  exists s1, o. by split_and!.
Qed.

Lemma drun_dreachable trace s s' :
  dreachable s → drun trace s = Some s' → dreachable s'.
Proof.
  revert s. induction trace as [|i trace IH]; intros s Hr; simpl.
  - by intros [= <-].
  - intros (s1 & o & Hd & Hst & _ & Hrest)%drun_step.
    apply (IH s1); [|done]. by eapply dreachable_step.
Qed.

(** ** Theorems *)

(** C12: in a disciplined run every step of the program is the operation
    of the specification that the input stands for: the registry, the
    connection state of every client and the clock after the step are
    those that [register], [attach], [detach] or the firing of a timer
    produce from the ones before it. *)
Theorem refinement_step s i o s' :
  dreachable s → step s i o s' →
  abs s' = spec_step (event_of i s) (abs s).
Proof. intros [Hok Hs]%dreachable_ok. by apply abs_step. Qed.

(** A disciplined run of the program is a run of the specification:
    the state it ends in is the one the operations of the specification
    lead to, performed in the order of the inputs. *)
Theorem refinement_run trace s s' :
  dreachable s → drun trace s = Some s' →
  abs s' = spec_run (events_of trace s) (abs s).
Proof.
  revert s. induction trace as [|i trace IH]; intros s Hr.
  - by intros [= <-].
  - intros (s1 & o & Hd & Hst & Hx & Hrest)%drun_step.
    simpl. rewrite Hx. simpl.
    destruct (dreachable_ok _ Hr) as [Hok Hs].
    rewrite <- (abs_step s i o s1) by done.
    apply IH; [by eapply dreachable_step|done].
Qed.

(** C31: in a disciplined run the connection state of a client is what
    the runtime holds for it.  A connected client stores the sender of a
    connection of its token whose task is in its read loop; a client in its
    grace period stores the handle of a pending eviction task for its token;
    a client that never connected is named by no pending task; and only a
    connected client has a connection in its read loop. *)
Theorem status_correspondence s k c :
  dreachable s → clients s !! k = Some c →
  match status (abs_client (timers s) c) with
  | Connected =>
    ∃ ch conn, tx c = Some ch ∧ disconnect_timer c = None ∧
      conns s !! ch = Some conn ∧ conn_token conn = token c ∧
      phase conn = Running
  | Grace =>
    (∃ h task, disconnect_timer c = Some h ∧ timers s !! h = Some task ∧
       timer_token task = token c) ∧
    ∀ ch conn, conns s !! ch = Some conn → conn_token conn = token c →
      phase conn ≠ Running
  | Registered =>
    tx c = None ∧ disconnect_timer c = None ∧
    (∀ id task, timers s !! id = Some task → timer_token task ≠ token c) ∧
    ∀ ch conn, conns s !! ch = Some conn → conn_token conn = token c →
      phase conn ≠ Running
  end.
Proof.
  intros [Hok [Hst Hown Hti Hrun Hci Hsg Hreg Hlv Hat]]%dreachable_ok Hk.
  assert (∀ ch conn, conns s !! ch = Some conn → conn_token conn = token c →
    phase conn = Running → tx c = Some ch ∧ disconnect_timer c = None) as Hr
    by (intros; eapply Hrun; eauto).
  unfold status, abs_client. simpl.
  destruct (disconnect_timer c) as [h|] eqn:Ed; simpl.
  - destruct (Hst _ _ _ Hk Ed) as (task & Hh & Et). rewrite Hh. simpl.
    split; [eauto 10|]. intros ch conn Hch Etok Hp.
    by destruct (Hr _ _ Hch Etok Hp).
  - destruct (tx c) as [ch|] eqn:Ex.
    + destruct (Hat _ _ _ Hk Ex Ed) as (conn & Hch & Hp).
      destruct (ok_senders _ Hok _ _ _ Hk Ex) as (conn' & ? & ? & _).
      simplify_eq. eauto 10.
    + split_and!; [done..| |].
      * intros id task Hid Et. by rewrite (Hown _ _ _ _ Hid Hk) in Ed.
      * intros ch conn Hch Etok Hp. by destruct (Hr _ _ Hch Etok Hp).
Qed.

(** In a disciplined run every live connection was opened with the
    token of a registered client, and the client whose token a connection in
    its read loop carries is connected through that very connection. *)
Theorem live_connection_attached s ch conn :
  dreachable s → conns s !! ch = Some conn → phase conn ≠ Finished →
  ∃ k c, clients s !! k = Some c ∧ token c = conn_token conn ∧
    (phase conn = Running →
     outbound (abs_client (timers s) c) = Some ch).
Proof.
  intros [Hok Hs]%dreachable_ok Hch Hl.
  destruct (so_live _ Hs _ _ Hch Hl) as (k & c & Hk & Et).
  exists k, c. split_and!; [done..|]. intros Hp.
  destruct (so_running _ Hs _ _ _ _ Hch Hp Hk Et) as [Hx Hd].
  unfold abs_client. simpl. by rewrite Hd.
Qed.

(** The routing of the specification and the routing of the program
    agree on the state the program stands for, except for a recipient in
    its grace period: the specification answers that it is offline, the
    program delivers to the sender it still stores. *)
Theorem route_refinement s request :
  tokens_unique (clients s) →
  spec_route (req_token request) (req_to request) (registry (abs s)) =
  match route_outcome request (clients s),
        clients s !! to_lowercase (req_to request) with
  | Delivered, Some c =>
    match disconnect_timer c with
    | Some _ => RecipientOffline
    | None => Delivered
    end
  | outcome, _ => outcome
  end.
Proof.
  intros Hu. unfold spec_route, route_outcome, abs. simpl.
  destruct (find_by_token (req_token request) (clients s)) as [[k sc]|] eqn:E.
  - apply find_by_token_Some in E as [Hk Ht].
    rewrite (findByCredential_abs _ _ k sc) by done.
    rewrite lookup_fmap.
    destruct (clients s !! to_lowercase (req_to request)) as [c|]; [|done].
    simpl. by destruct (disconnect_timer c), (tx c).
  - apply find_by_token_None in E. by rewrite findByCredential_abs_None.
Qed.

(** The state the program stands for is well formed: a client counts as
    connected only when it stores no timer handle. *)
Lemma abs_wf s : spec_wf (registry (abs s)).
Proof.
  intros k a. simpl. rewrite lookup_fmap_Some. intros (c & <- & _). simpl.
  by destruct (disconnect_timer c); [intros [? [=]]|].
Qed.

(** C30: In a disciplined run the program follows the connection state machine
    of the specification: a step leaves every client in the state it is
    in, or moves it along an edge of the diagram: from absent to
    Registered, from Registered or Grace to Connected, from Connected to
    Grace, from Grace to absent.  No client is removed while it is
    Connected or Registered, and none goes back to Registered. *)
Theorem program_follows_diagram s i o s' k :
  dreachable s → step s i o s' →
  transition (status_at k (registry (abs s)))
    (status_at k (registry (abs s'))).
Proof.
  intros [Hok Hs]%dreachable_ok Hst. rewrite (abs_step s i o s') by done.
  apply spec_step_diagram, abs_wf.
Qed.

End refinement.

(** ** The discipline is needed *)

(** The state in which two registrations of one name have both passed
    their check and the first has inserted. *)
Definition s_racing : Server :=
  state_after
    [InRegisterCheck {| reg_name := "Alice" |};
     InRegisterCheck {| reg_name := "ALICE" |};
     InRegisterInsert "tA" {| reg_name := "Alice" |}] init.

(** Without the discipline the program has steps that no operation of
    the specification performs: the second of two overlapping registrations
    of one name replaces the client of the first, where [register] reports a
    conflict and changes nothing. *)
Theorem refinement_needs_discipline :
  ∃ s i o s', reachable s ∧ step s i o s' ∧
    abs s' ≠ spec_step (event_of i s) (abs s).
Proof.
  exists s_racing, (InRegisterInsert "tB" {| reg_name := "ALICE" |}).
  eexists _, (state_after [InRegisterInsert "tB" {| reg_name := "ALICE" |}]
                s_racing).
  split_and!; [apply reachable_state_after|split; [|reflexivity]|].
  - vm_compute. set_solver.
  - intros E. apply (f_equal (λ sp, credential <$> registry sp !! "alice")) in E.
    vm_compute in E. discriminate.
Qed.

(** The state in which the client of the first of the two registrations
    has connected. *)
Definition s_racing_connected : Server :=
  state_after
    [InRegisterCheck {| reg_name := "Alice" |};
     InRegisterCheck {| reg_name := "ALICE" |};
     InRegisterInsert "tA" {| reg_name := "Alice" |};
     InWsUpgrade "tA"; InConnected 0] init.

(** Without the discipline the program leaves the diagram: the second of
    two overlapping registrations replaces a client that is Connected by
    one that is Registered. *)
Theorem diagram_needs_discipline :
  ∃ s i o s' k, reachable s ∧ step s i o s' ∧
    status_at k (registry (abs s)) = Some Connected ∧
    status_at k (registry (abs s')) = Some Registered ∧
    ¬ transition (Some Connected) (Some Registered).
Proof.
  exists s_racing_connected, (InRegisterInsert "tB" {| reg_name := "ALICE" |}).
  eexists _, (state_after [InRegisterInsert "tB" {| reg_name := "ALICE" |}]
                s_racing_connected), "alice".
  split_and!; [apply reachable_state_after|split; [|reflexivity]| | |].
  - vm_compute. set_solver.
  - by vm_compute.
  - by vm_compute.
  - inversion 1.
Qed.

(** ** Witnesses, on the runs of file [Server] *)

Lemma dreachable_s_connected : dreachable s_connected.
Proof.
  apply (drun_dreachable trace_connected init); [constructor|].
  vm_compute. reflexivity.
Qed.

Lemma dreachable_s_due : dreachable s_due.
Proof.
  apply (drun_dreachable [InPeerClose 0; InDisconnected 0; InTick 10]
           s_connected); [apply dreachable_s_connected|].
  vm_compute. reflexivity.
Qed.

Lemma refinement_step_witness :
  abs (state_after [InTimerFire 1] s_due) =
  spec_step (event_of (InTimerFire 1) s_due) (abs s_due).
Proof.
  apply (refinement_step s_due (InTimerFire 1) Silent);
    [apply dreachable_s_due|split; [exact I|reflexivity]].
Defined.

Lemma program_follows_diagram_witness :
  transition (status_at "bob" (registry (abs s_due)))
    (status_at "bob" (registry (abs (state_after [InTimerFire 1] s_due)))).
Proof.
  apply (program_follows_diagram s_due (InTimerFire 1) Silent);
    [apply dreachable_s_due|split; [exact I|reflexivity]].
Defined.

(** The step of the witness is the edge from Grace to absent. *)
Example s_due_expires :
  status_at "bob" (registry (abs s_due)) = Some Grace ∧
  status_at "bob" (registry (abs (state_after [InTimerFire 1] s_due))) = None.
Proof. split; by vm_compute. Qed.

Lemma refinement_run_witness :
  abs s_connected = spec_run (events_of trace_connected init) (abs init).
Proof.
  apply refinement_run; [constructor|]. vm_compute. reflexivity.
Defined.

Lemma status_correspondence_witness :
  (∃ h task, Some 1 = Some h ∧ timers s_due !! h = Some task ∧
     timer_token task = "tB") ∧
  ∀ ch conn, conns s_due !! ch = Some conn → conn_token conn = "tB" →
    phase conn ≠ Running.
Proof.
  exact (status_correspondence s_due "bob"
           {| name := "Bob"; token := "tB"; disconnect_timer := Some 1;
              tx := Some 0 |} dreachable_s_due eq_refl).
Defined.

Lemma live_connection_attached_witness :
  ∃ k c, clients s_connected !! k = Some c ∧ token c = "tB" ∧
    (Running = Running →
     outbound (abs_client (timers s_connected) c) = Some 0).
Proof.
  apply (live_connection_attached s_connected 0
           {| conn_token := "tB"; phase := Running; ws_open := true;
              channel := [mkMessage "Alice" "hi"; mkMessage "Alice" "hi"];
              ws_sent := [] |});
    [apply dreachable_s_connected|reflexivity|done].
Defined.

Lemma route_refinement_witness :
  spec_route "tA" "bob" (registry (abs s_due)) = RecipientOffline.
Proof.
  exact (route_refinement s_due hi_bob ltac:(compute_done)).
Defined.
