(* ===== verification/Routes.v ===== *)
(** * Routes: the filters of [main]

    [main] (main.rs, lines 218-254) builds one filter per endpoint and tries
    them in order with [or].  A filter looks at the path, the method, the
    body or the headers of the request and then calls its handler; when a
    filter or its handler rejects, the next filter is tried, and when all
    have rejected the rejections are combined into one response.

    A [Request] holds what the filters read.  The results of parsing the body
    at the two request types and of checking the websocket handshake are
    fields of the request: parsing and the handshake are not modelled.  The
    three headers that the CORS wrapper reads are fields as well.  The
    files under [static/] are a parameter.  [path], [param], [get], [post],
    [body_json] and [ws] are the filters of [warp] that [main] uses, with
    the rejections of the library: an unmatched path is [KNotFound], a wrong
    method [KMethodNotAllowed], a body that does not parse or a handshake
    that is not valid [KBadRequest], a content type other than JSON
    [KUnsupportedMediaType].  [prefer] is the order in which [warp] chooses
    among combined rejections.

    The CORS wrapper (lines 255-260) is applied to these routes in file
    [Cors]; the theorems of this file are about the routes without it. *)

From S2P Require Import Prelude Strings Json Model Runtime Registry Lifecycle Router Server.

(** ** Requests *)

Inductive Method := GET | POST | HEAD | PUT | DELETE | OPTIONS | PATCH.

Record Request := mkRequest {
  method : Method;
  (* the segments of the path that no filter has matched yet *)
  path_segments : list string;
  (* there is no Content-Type header, or it is application/json *)
  content_type_json : bool;
  (* the body, parsed as each of the two request types *)
  body_registration : option RegistrationRequest;
  body_message : option MessageRequest;
  (* the headers are those of a websocket handshake *)
  ws_handshake : bool;
  (* the Origin header *)
  origin : option string;
  (* the Access-Control-Request-Method header *)
  access_control_request_method : option string;
  (* the names listed in the Access-Control-Request-Headers header, split
     at the commas and trimmed *)
  access_control_request_headers : option (list string);
}.

#[export] Instance Method_eq_dec : EqDecision Method.
Proof. solve_decision. Defined.

(** ** Rejections of the filters *)

Inductive Known :=
| KNotFound
| KMethodNotAllowed
| KBadRequest
| KUnsupportedMediaType.

#[export] Instance Known_eq_dec : EqDecision Known.
Proof. solve_decision. Defined.

Definition rejection_status (r : Known) : nat :=
  match r with
  | KNotFound => 404
  | KMethodNotAllowed => 405
  | KBadRequest => 400
  | KUnsupportedMediaType => 415
  end.

(** The rejection that answers for two combined ones: not-found yields to
    anything, method-not-allowed to anything else, and otherwise the higher
    status wins, the first on a tie. *)
Definition prefer (a b : Known) : Known :=
  match a, b with
  | _, KNotFound => a
  | KNotFound, _ => b
  | _, KMethodNotAllowed => a
  | KMethodNotAllowed, _ => b
  | _, _ => if rejection_status a <? rejection_status b then b else a
  end.

(** ** Filters *)

Definition set_path (p : list string) (req : Request) : Request :=
  mkRequest (method req) p (content_type_json req) (body_registration req)
    (body_message req) (ws_handshake req) (origin req)
    (access_control_request_method req) (access_control_request_headers req).

(** [warp::path(segment)]: the next segment is [segment]. *)
Definition path (segment : string) (req : Request) : Result Request Known :=
  match path_segments req with
  | s :: rest => if decide (s = segment) then Ok (set_path rest req)
                 else Err KNotFound
  | [] => Err KNotFound
  end.

(** [warp::path::param()] at type [String]: the next segment, not empty. *)
Definition param (req : Request) : Result (string * Request) Known :=
  match path_segments req with
  | s :: rest => if decide (s = "") then Err KNotFound
                 else Ok (s, set_path rest req)
  | [] => Err KNotFound
  end.

Definition method_is (m : Method) (req : Request) : Result unit Known :=
  if decide (method req = m) then Ok tt else Err KMethodNotAllowed.

Definition get : Request → Result unit Known := method_is GET.
Definition post : Request → Result unit Known := method_is POST.

(** [warp::body::json()]: the content type, then the parse. *)
Definition body_json {A} (parsed : Request → option A) (req : Request)
    : Result A Known :=
  if content_type_json req
  then ok_or_else (parsed req) KBadRequest
  else Err KUnsupportedMediaType.

(** [warp::ws()]: a GET with the headers of a handshake. *)
Definition ws (req : Request) : Result unit Known :=
  let? _ := get req in
  if ws_handshake req then Ok tt else Err KBadRequest.

(** ** The routes of [main] *)

(** The handler a filter calls, with the arguments it extracted. *)
Inductive Call :=
| CallRegistration (request : RegistrationRequest)
| CallWs (t : string)
| CallSendMessage (request : MessageRequest)
| CallStatus (t : string)
| CallListClients
| CallStatic (file : list string).

#[export] Instance Call_eq_dec : EqDecision Call.
Proof. solve_decision. Defined.

Definition Route : Type := Request → Result Call Known.

Section routes.
(** The files that [warp::fs::dir("static/")] finds. *)
Variable static_files : list string → bool.

Definition serve_static : Route := λ req,
  let? _ := get req in
  if static_files (path_segments req) then Ok (CallStatic (path_segments req))
  else Err KNotFound.

Definition registration_handler : Route := λ req,
  let? req := path "register" req in
  let? _ := post req in
  let? request := body_json body_registration req in
  Ok (CallRegistration request).

Definition send_message_handler : Route := λ req,
  let? req := path "send_message" req in
  let? _ := post req in
  let? request := body_json body_message req in
  Ok (CallSendMessage request).

Definition status_handler : Route := λ req,
  let? req := path "status" req in
  let? _ := get req in
  let? '(t, req) := param req in
  Ok (CallStatus t).

Definition messages_handler : Route := λ req,
  let? req := path "messages" req in
  let? '(t, req) := param req in
  let? _ := ws req in
  Ok (CallWs t).

Definition list_clients_handler : Route := λ req,
  let? req := path "clients" req in
  let? _ := get req in
  Ok CallListClients.

Definition routes : list Route :=
  [registration_handler; messages_handler; send_message_handler;
   status_handler; list_clients_handler; serve_static].

(** ** Serving a request *)

(** [or], folded over the routes: the first route that matches and whose
    handler replies answers; a rejection of a filter or a handler is
    combined with those before it and the next route is tried. *)
Fixpoint serve (run : Call → Result Reply Rejection) (rs : list Route)
    (rejected : Known) (req : Request) : Result (Call * Reply) Known :=
  match rs with
  | [] => Err rejected
  | route :: rs' =>
    match route req with
    | Ok call =>
      match run call with
      | Ok r => Ok (call, r)
      | Err _ => serve run rs' (prefer rejected KNotFound) req
      end
    | Err e => serve run rs' (prefer rejected e) req
    end
  end.

(** The status of the response. *)
Definition response_status (r : Result (Call * Reply) Known) : nat :=
  match r with
  | Ok (_, reply) => status_number (status reply)
  | Err e => rejection_status e
  end.

(** The handlers that the routes call. *)
Definition calls (req : Request) : list Call :=
  omap (λ route : Route,
          match route req with Ok call => Some call | Err _ => None end)
       routes.

Definition is_static (c : Call) : bool :=
  match c with CallStatic _ => true | _ => false end.

End routes.

(** [warp::any().map(move || clients.clone())] (line 216): the filter that
    hands the registry to a handler. *)
Definition with_clients (s : Server) : Clients := clients s.

(** What a call answers in a state of the server.  A file is served as it
    is; the token of a registration is an argument. *)
Definition run_call `{!Lowercase} (new_token : string) (s : Server) (c : Call)
    : Result Reply Rejection :=
  match c with
  | CallRegistration request =>
    (handle_registration new_token request (with_clients s)).2
  | CallWs t => ws_handler t (with_clients s)
  | CallSendMessage request =>
    (handle_send_message request (with_clients s) (conns s)).2
  | CallStatus t => handle_status t (with_clients s)
  | CallListClients => handle_list_clients (with_clients s)
  | CallStatic _ => Ok reply
  end.

(** The transitions that run a call: a registration is its two critical
    sections back to back; a static file touches no state. *)
Definition exec_call `{!Lowercase} (new_token : string) (c : Call) (s : Server)
    : option (Server * Output) :=
  match c with
  | CallRegistration request => exec_registration new_token request s
  | CallWs t => exec (InWsUpgrade t) s
  | CallSendMessage request => exec (InSendMessage request) s
  | CallStatus t => exec (InStatus t) s
  | CallListClients => exec InListClients s
  | CallStatic _ => Some (s, Replied (Ok reply))
  end.

(** ** Lemmas *)

(** Tactic: evaluate the filters of every route on a request whose first
    path segment is known. *)
Ltac eval_routes :=
  unfold serve, routes, registration_handler, messages_handler,
    send_message_handler, status_handler, list_clients_handler, serve_static,
    path, param, ws, get, post, method_is, body_json;
  simpl;
  repeat (match goal with H : _ = _ |- _ => rewrite H end; simpl);
  repeat (case_decide; simplify_eq/=);
  repeat (match goal with H : _ = _ |- _ => rewrite H end; simpl).

Section routes_lemmas.
Variable static_files : list string → bool.
Implicit Types (req : Request) (run : Call → Result Reply Rejection).

(** Not-found is the unit of [prefer], and the choice among several
    rejections does not depend on how they are grouped. *)
Lemma prefer_not_found_l b : prefer KNotFound b = b.
Proof. by destruct b. Qed.

Lemma prefer_not_found_r a : prefer a KNotFound = a.
Proof. by destruct a. Qed.

Lemma prefer_assoc a b c : prefer a (prefer b c) = prefer (prefer a b) c.
Proof. by destruct a, b, c. Qed.

(** [serve] answers with the preferred rejection of all routes exactly when
    no route both matches and has its handler reply. *)
Lemma serve_Err run rs rejected req e :
  serve run rs rejected req = Err e →
  Forall (λ route : Route,
            match route req with
            | Ok call => is_ok (run call) = false
            | Err _ => True
            end) rs.
Proof.
  revert rejected. induction rs as [|route rs IH]; intros rejected; simpl.
  { by constructor. }
  destruct (route req) as [call|e'] eqn:E.
  - destruct (run call) eqn:Er; [done|]. intros Hs. constructor; [|eauto].
    by rewrite E, Er.
  - intros Hs. constructor; [|eauto]. by rewrite E.
Qed.

(** A handler is called only when the first segment of the path is the
    word of its route. *)
Lemma path_head w req req' :
  path w req = Ok req' → head (path_segments req) = Some w.
Proof.
  unfold path. destruct (path_segments req) as [|s rest]; [done|].
  by case_decide; simplify_eq.
Qed.

Lemma handlers_head req :
  (∀ c, registration_handler req = Ok c →
     head (path_segments req) = Some "register" ∧ is_static c = false) ∧
  (∀ c, messages_handler req = Ok c →
     head (path_segments req) = Some "messages" ∧ is_static c = false) ∧
  (∀ c, send_message_handler req = Ok c →
     head (path_segments req) = Some "send_message" ∧ is_static c = false) ∧
  (∀ c, status_handler req = Ok c →
     head (path_segments req) = Some "status" ∧ is_static c = false) ∧
  (∀ c, list_clients_handler req = Ok c →
     head (path_segments req) = Some "clients" ∧ is_static c = false) ∧
  (∀ c, serve_static static_files req = Ok c → is_static c = true).
Proof.
  unfold registration_handler, messages_handler, send_message_handler,
    status_handler, list_clients_handler, serve_static.
  split_and!; intros c;
    try (destruct (path _ req) as [r|] eqn:E; simpl;
         [apply path_head in E|done]);
    intros Hc; try (split; [done|]);
    repeat (case_match; simplify_eq/=); done.
Qed.

(** ** Theorems *)

(** Whatever the request, at most one of the five handlers is called
    for it: the first segments of the five routes are different words, so a
    request that one handler has rejected reaches no other handler, only the
    lookup of a static file. *)
Theorem calls_single_handler req :
  length (filter (λ c, is_static c = false) (calls static_files req)) ≤ 1.
Proof.
  destruct (handlers_head req) as (H1 & H2 & H3 & H4 & H5 & H6).
  unfold calls, routes. cbn [omap list_omap].
  destruct (registration_handler req), (messages_handler req),
    (send_message_handler req), (status_handler req),
    (list_clients_handler req), (serve_static static_files req);
    repeat match goal with
    | H : ∀ c, Ok ?x = Ok c → _ |- _ => specialize (H x eq_refl)
    | H : ∀ c, Err _ = Ok c → _ |- _ => clear H
    end; destruct_and?; try congruence;
    rewrite ?filter_cons, ?filter_nil; repeat case_decide; simpl;
    (lia || congruence).
Qed.

(** A send that the handler rejects is answered 405, not 404: after
    the rejection the remaining routes are tried, the route of the static
    files rejects the method, and that rejection is preferred to the
    not-found of the handler. *)
Theorem rejected_send_message_status run req rest request e :
  path_segments req = "send_message" :: rest → method req = POST →
  content_type_json req = true → body_message req = Some request →
  run (CallSendMessage request) = Err e →
  response_status (serve run (routes static_files) KNotFound req) = 405.
Proof. intros Hp Hm Hc Hb Hr. by eval_routes. Qed.

(** Each endpoint reaches its handler and answers with its reply: a
    POST of a registration to [/register], a POST of a message to
    [/send_message], a GET of [/status/token], a GET of [/clients], and a
    websocket handshake on [/messages/token]. *)
Theorem routes_reach_handlers run req rest r :
  (∀ request,
     path_segments req = "register" :: rest → method req = POST →
     content_type_json req = true → body_registration req = Some request →
     run (CallRegistration request) = Ok r →
     serve run (routes static_files) KNotFound req =
       Ok (CallRegistration request, r)) ∧
  (∀ request,
     path_segments req = "send_message" :: rest → method req = POST →
     content_type_json req = true → body_message req = Some request →
     run (CallSendMessage request) = Ok r →
     serve run (routes static_files) KNotFound req =
       Ok (CallSendMessage request, r)) ∧
  (∀ t rest',
     path_segments req = "status" :: rest → rest = t :: rest' → t ≠ "" →
     method req = GET → run (CallStatus t) = Ok r →
     serve run (routes static_files) KNotFound req = Ok (CallStatus t, r)) ∧
  (path_segments req = "clients" :: rest → method req = GET →
   run CallListClients = Ok r →
   serve run (routes static_files) KNotFound req = Ok (CallListClients, r)) ∧
  (∀ t rest',
     path_segments req = "messages" :: rest → rest = t :: rest' → t ≠ "" →
     method req = GET → ws_handshake req = true → run (CallWs t) = Ok r →
     serve run (routes static_files) KNotFound req = Ok (CallWs t, r)).
Proof. split_and!; intros; by eval_routes. Qed.

(** A status query or a websocket upgrade that the handler rejects goes on
    to the static files: it is answered with the file that has the path of
    the request, and 404 when there is none. *)
Theorem rejected_get_status run req rest t rest' e call :
  (path_segments req = "status" :: rest ∧ call = CallStatus t ∨
   path_segments req = "messages" :: rest ∧ call = CallWs t ∧
     ws_handshake req = true) →
  rest = t :: rest' → t ≠ "" → method req = GET →
  run call = Err e → run (CallStatic (path_segments req)) = Ok reply →
  response_status (serve run (routes static_files) KNotFound req) =
    if static_files (path_segments req) then 200 else 404.
Proof.
  intros [[Hp ->]|(Hp & -> & Hw)] -> Hne Hm Hr Hs; rewrite Hp in Hs |- *;
    destruct (static_files _) eqn:Ef; by eval_routes.
Qed.

End routes_lemmas.

(** ** Calls and transitions *)

(** The reply of a call is the output of the transitions that run it, and a
    call that is rejected leaves the state as it was. *)
Lemma exec_call_reply `{!Lowercase} new_token c s :
  ∃ s', exec_call new_token c s = Some (s', Replied (run_call new_token s c)) ∧
        (is_ok (run_call new_token s c) = false → s' = s).
Proof.
  destruct c; simpl; unfold with_clients; try (by eexists).
  - unfold exec_registration, handle_registration. simpl.
    unfold exec_register_check.
    destruct (registration_check request (clients s)); simpl; [by eexists|].
    rewrite option_guard_True by apply list_elem_of_here. by eexists.
  - unfold exec_ws_upgrade.
    destruct (ws_handler t (clients s)); by eexists.
  - unfold exec_send_message, handle_send_message.
    destruct (resolve request (clients s)) as [[ch m]|e]; simpl; [by eexists|].
    eexists. split; [done|]. by destruct s.
Qed.

(** ** Witnesses, on the runs of file [Server] *)

Definition no_files (_ : list string) : bool := false.

Definition post_send (request : MessageRequest) : Request :=
  {| method := POST; path_segments := ["send_message"];
     content_type_json := true; body_registration := None;
     body_message := Some request; ws_handshake := false; origin := None;
     access_control_request_method := None;
     access_control_request_headers := None |}.

Definition to_carol : MessageRequest :=
  {| req_token := "tA"; req_body := "hi"; req_to := "carol" |}.

Definition get_status (t : string) : Request :=
  {| method := GET; path_segments := ["status"; t];
     content_type_json := true; body_registration := None;
     body_message := None; ws_handshake := false; origin := None;
     access_control_request_method := None;
     access_control_request_headers := None |}.

Lemma rejected_send_message_status_witness :
  response_status
    (serve (run_call "tX" s_connected) (routes no_files) KNotFound
       (post_send to_carol)) = 405.
Proof.
  apply (rejected_send_message_status no_files _ _ [] to_carol NotFound);
    reflexivity.
Defined.

Lemma routes_reach_handlers_witness :
  serve (run_call "tX" s_connected) (routes no_files) KNotFound
    (post_send hi_bob) = Ok (CallSendMessage hi_bob, reply).
Proof.
  apply (routes_reach_handlers no_files (run_call "tX" s_connected)
           (post_send hi_bob) [] reply); reflexivity.
Defined.

Lemma rejected_get_status_witness :
  response_status
    (serve (run_call "tX" s_connected) (routes no_files) KNotFound
       (get_status "tZ")) =
  if no_files (path_segments (get_status "tZ")) then 200 else 404.
Proof.
  apply (rejected_get_status no_files _ _ ["tZ"] "tZ" [] NotFound
           (CallStatus "tZ")); [by left|reflexivity|done|reflexivity..].
Defined.
