(* ===== verification/Cors.v ===== *)
(** * Cors: the cross-origin wrapper of [main]

    [main] wraps its routes in [warp::cors()] configured to allow any
    origin, the header [Content-Type] and the methods GET and POST (main.rs,
    lines 255-260).  The wrapper looks at a request before the routes do:

    - without an [Origin] header the request is not cross-origin and goes
      to the routes unchanged;
    - with an [Origin] header and the method OPTIONS it is a preflight
      request: the wrapper answers it itself, 200 with the allow headers
      when the method and the headers it asks for are allowed, a rejection
      (403) otherwise; the routes are not tried;
    - with an [Origin] header and another method it goes to the routes, and
      the origin is echoed in [Access-Control-Allow-Origin] on the reply.
      A rejection of the routes is passed on as it is, without the header.

    [Builder] is the configuration, [cors_policy] the one of [main],
    [check_request] the classification above and [wrap] the wrapped filter.
    [service] is the filter that [main] serves: the routes of file [Routes]
    inside the wrapper. *)

From S2P Require Import Prelude Strings Json Model Runtime Registry Lifecycle Router Server Routes.

(** ** Configuration *)

Record Builder := mkBuilder {
  credentials : bool;
  allowed_headers : list string;
  exposed_headers : list string;
  max_age : option nat;
  methods : list Method;
  (* [None]: any origin *)
  origins : option (list string);
}.

(** [Method::as_str]. *)
Definition method_name (m : Method) : string :=
  match m with
  | GET => "GET"
  | POST => "POST"
  | HEAD => "HEAD"
  | PUT => "PUT"
  | DELETE => "DELETE"
  | OPTIONS => "OPTIONS"
  | PATCH => "PATCH"
  end.

(** [warp::http::header::CONTENT_TYPE]; header names are kept in lower
    case. *)
Definition CONTENT_TYPE : string := "content-type".

(** The configuration of [main]: what [warp::cors()] starts from, with any
    origin, one header and two methods allowed. *)
Definition cors_policy : Builder :=
  {| credentials := false;
     allowed_headers := [CONTENT_TYPE];
     exposed_headers := [];
     max_age := None;
     methods := [GET; POST];
     origins := None |}.

(** ** Checking a request *)

Inductive Forbidden :=
| OriginNotAllowed
| MethodNotAllowed
| HeaderNotAllowed.

Inductive Validated :=
| Preflight (o : string)
| Simple (o : string)
| NotCors.

#[export] Instance Forbidden_eq_dec : EqDecision Forbidden.
Proof. solve_decision. Defined.

#[export] Instance Validated_eq_dec : EqDecision Validated.
Proof. solve_decision. Defined.

Section wrapper.
Variable config : Builder.

Definition is_origin_allowed (o : string) : bool :=
  match origins config with
  | Some allowed => bool_decide (o ∈ allowed)
  | None => true
  end.

(** The value of the header is the name of an allowed method, letter for
    letter. *)
Definition is_method_allowed (header : string) : bool :=
  bool_decide (header ∈ method_name <$> methods config).

(** The name is an allowed header; names of headers compare without regard
    to case. *)
Definition is_header_allowed (header : string) : bool :=
  bool_decide (str_to_ascii_lowercase header ∈ allowed_headers config).

Definition check_request (req : Request) : Result Validated Forbidden :=
  match origin req, method req with
  | Some o, OPTIONS =>
    if negb (is_origin_allowed o) then Err OriginNotAllowed else
    match access_control_request_method req with
    | Some req_method =>
      if negb (is_method_allowed req_method) then Err MethodNotAllowed else
      match access_control_request_headers req with
      | Some req_headers =>
        if forallb is_header_allowed req_headers then Ok (Preflight o)
        else Err HeaderNotAllowed
      | None => Ok (Preflight o)
      end
    | None => Err MethodNotAllowed
    end
  | Some o, _ =>
    if is_origin_allowed o then Ok (Simple o) else Err OriginNotAllowed
  | None, _ => Ok NotCors
  end.

(** ** The wrapped filter *)

(** What the wrapped filter answers with: the reply to a preflight request,
    built by the wrapper, or the reply of the routes, with the origin to
    echo when the request carried one. *)
Inductive Wrapped :=
| Preflighted (o : string)
| Passed (o : option string) (call : Call) (r : Reply).

(** A request that is not answered: rejected by the routes, or forbidden by
    the wrapper. *)
Inductive Refusal :=
| Rejected (e : Known)
| CorsForbidden (kind : Forbidden).

Definition wrap (inner : Request → Result (Call * Reply) Known) (req : Request)
    : Result Wrapped Refusal :=
  match check_request req with
  | Ok (Preflight o) => Ok (Preflighted o)
  | Ok (Simple o) =>
    match inner req with
    | Ok (call, r) => Ok (Passed (Some o) call r)
    | Err e => Err (Rejected e)
    end
  | Ok NotCors =>
    match inner req with
    | Ok (call, r) => Ok (Passed None call r)
    | Err e => Err (Rejected e)
    end
  | Err kind => Err (CorsForbidden kind)
  end.

(** ** The response *)

Definition response_code (res : Result Wrapped Refusal) : nat :=
  match res with
  | Ok (Preflighted _) => status_number OK
  | Ok (Passed _ _ r) => status_number (status r)
  | Err (Rejected e) => rejection_status e
  | Err (CorsForbidden _) => 403
  end.

(** The value of [Access-Control-Allow-Origin], when the header is set. *)
Definition allow_origin (res : Result Wrapped Refusal) : option string :=
  match res with
  | Ok (Preflighted o) => Some o
  | Ok (Passed o _ _) => o
  | Err _ => None
  end.

(** The methods and headers that the reply to a preflight request lists. *)
Definition allow_methods (res : Result Wrapped Refusal) : list Method :=
  match res with
  | Ok (Preflighted _) => methods config
  | _ => []
  end.

Definition allow_headers (res : Result Wrapped Refusal) : list string :=
  match res with
  | Ok (Preflighted _) => allowed_headers config
  | _ => []
  end.

(** The handler that answered. *)
Definition answered_by (res : Result Wrapped Refusal) : option Call :=
  match res with
  | Ok (Passed _ call _) => Some call
  | _ => None
  end.

End wrapper.

(** ** The filter that [main] serves *)

Definition service (static_files : list string → bool)
    (run : Call → Result Reply Rejection) : Request → Result Wrapped Refusal :=
  wrap cors_policy (serve run (routes static_files) KNotFound).

(** ** What the policy of [main] allows *)

(** A preflight request is allowed when it asks for GET or POST and for no
    header other than [Content-Type], in any case. *)
Definition preflight_allowed (req : Request) : Prop :=
  access_control_request_method req ∈ [Some "GET"; Some "POST"] ∧
  Forall (λ h, str_to_ascii_lowercase h = "content-type")
    (default [] (access_control_request_headers req)).

#[export] Instance preflight_allowed_dec req : Decision (preflight_allowed req).
Proof. unfold preflight_allowed. apply _. Defined.

Lemma is_origin_allowed_policy o : is_origin_allowed cors_policy o = true.
Proof. done. Qed.

Lemma is_method_allowed_policy h :
  is_method_allowed cors_policy h = true ↔ h = "GET" ∨ h = "POST".
Proof.
  unfold is_method_allowed. rewrite bool_decide_eq_true. simpl.
  rewrite !elem_of_cons, elem_of_nil. tauto.
Qed.

Lemma is_header_allowed_policy h :
  is_header_allowed cors_policy h = true ↔
  str_to_ascii_lowercase h = "content-type".
Proof.
  unfold is_header_allowed. rewrite bool_decide_eq_true. simpl.
  rewrite list_elem_of_singleton. done.
Qed.

Lemma forallb_is_header_allowed hs :
  forallb (is_header_allowed cors_policy) hs = true ↔
  Forall (λ h, str_to_ascii_lowercase h = "content-type") hs.
Proof.
  induction hs as [|h hs IH]; simpl; [by split; [constructor|]|].
  by rewrite andb_true_iff, Forall_cons, IH, is_header_allowed_policy.
Qed.

(** The classification of a preflight request under the policy of [main]. *)
Lemma check_request_preflight req o :
  origin req = Some o → method req = OPTIONS →
  (preflight_allowed req ∧ check_request cors_policy req = Ok (Preflight o)) ∨
  (¬ preflight_allowed req ∧
   ∃ kind, check_request cors_policy req = Err kind).
Proof.
  intros Ho Hm. unfold check_request, preflight_allowed. rewrite Ho, Hm.
  rewrite is_origin_allowed_policy. simpl.
  rewrite !elem_of_cons, elem_of_nil.
  destruct (access_control_request_method req) as [m|]; [|right; naive_solver].
  destruct (is_method_allowed cors_policy m) eqn:Em; simpl.
  2: { right. split; [|eauto]. intros [Hmm _].
       apply not_true_iff_false in Em. apply Em, is_method_allowed_policy.
       naive_solver. }
  apply is_method_allowed_policy in Em.
  destruct (access_control_request_headers req) as [hs|]; simpl;
    [|left; naive_solver].
  destruct (forallb _ hs) eqn:Eh.
  - left. apply forallb_is_header_allowed in Eh. naive_solver.
  - right. split; [|eauto]. intros [_ Hh].
    apply not_true_iff_false in Eh. by apply Eh, forallb_is_header_allowed.
Qed.

Lemma check_request_simple req :
  method req ≠ OPTIONS ∨ origin req = None →
  check_request cors_policy req =
    Ok (from_option Simple NotCors (origin req)).
Proof.
  unfold check_request. intros [Hm|Ho].
  - destruct (origin req), (method req); done.
  - by rewrite Ho.
Qed.

Section service.
Variable static_files : list string → bool.
Variable run : Call → Result Reply Rejection.

(** A request that is not a preflight request goes to the routes; the
    origin it carries, if any, is echoed on the reply. *)
Lemma service_not_preflight req :
  method req ≠ OPTIONS ∨ origin req = None →
  service static_files run req =
    match serve run (routes static_files) KNotFound req with
    | Ok (call, r) => Ok (Passed (origin req) call r)
    | Err e => Err (Rejected e)
    end.
Proof.
  intros H. unfold service, wrap. rewrite (check_request_simple req H).
  by destruct (origin req).
Qed.

(** ** Theorems *)

(** C27: a preflight request (OPTIONS with an [Origin]) never reaches a
    handler, whatever its path.  When it asks for GET or POST and for no
    header but [Content-Type] it is answered 200 with the origin echoed and
    the two methods and the header listed; otherwise it is refused with
    403 and no header. *)
Theorem preflight_spec req o :
  origin req = Some o → method req = OPTIONS →
  let res := service static_files run req in
  answered_by res = None ∧
  if decide (preflight_allowed req)
  then res = Ok (Preflighted o) ∧ response_code res = 200 ∧
       allow_origin res = Some o ∧
       allow_methods cors_policy res = [GET; POST] ∧
       allow_headers cors_policy res = ["content-type"]
  else response_code res = 403 ∧ allow_origin res = None.
Proof.
  intros Ho Hm. unfold service, wrap. simpl.
  destruct (check_request_preflight req o Ho Hm)
    as [[Ha ->]|(Hn & kind & ->)]; simpl.
  - by rewrite decide_True.
  - by rewrite decide_False.
Qed.

(** C28: for every other request the wrapper is transparent: the routes
    answer as they would without it, same handler, same reply, same
    rejection.  The origin of the request is echoed on a reply and on a
    reply only: a request that the routes reject is answered without the
    header, also when it came from another origin. *)
Theorem cors_transparent req :
  method req ≠ OPTIONS ∨ origin req = None →
  let bare := serve run (routes static_files) KNotFound req in
  let res := service static_files run req in
  response_code res = response_status bare ∧
  answered_by res = match bare with Ok (call, _) => Some call | Err _ => None end ∧
  allow_origin res = (if is_ok bare then origin req else None) ∧
  allow_methods cors_policy res = [] ∧ allow_headers cors_policy res = [].
Proof.
  intros H. cbv zeta. rewrite (service_not_preflight req H).
  by destruct (serve run (routes static_files) KNotFound req) as [[call r]|e].
Qed.

End service.

(** ** Witnesses *)

Definition preflight (path : list string) (m : string) (hs : list string)
    : Request :=
  {| method := OPTIONS; path_segments := path; content_type_json := true;
     body_registration := None; body_message := None; ws_handshake := false;
     origin := Some "https://chat.example";
     access_control_request_method := Some m;
     access_control_request_headers := Some hs |}.

Definition cross_origin (req : Request) : Request :=
  mkRequest (method req) (path_segments req) (content_type_json req)
    (body_registration req) (body_message req) (ws_handshake req)
    (Some "https://chat.example") None None.

Lemma preflight_spec_witness :
  let res := service no_files (run_call "tX" s_connected)
               (preflight ["send_message"] "POST" ["Content-Type"]) in
  answered_by res = None ∧
  res = Ok (Preflighted "https://chat.example") ∧ response_code res = 200 ∧
  allow_origin res = Some "https://chat.example" ∧
  allow_methods cors_policy res = [GET; POST] ∧
  allow_headers cors_policy res = ["content-type"].
Proof.
  apply (preflight_spec no_files (run_call "tX" s_connected)
           (preflight ["send_message"] "POST" ["Content-Type"])
           "https://chat.example"); reflexivity.
Defined.

Lemma cors_transparent_witness :
  let req := cross_origin (post_send to_carol) in
  let bare := serve (run_call "tX" s_connected) (routes no_files) KNotFound req in
  let res := service no_files (run_call "tX" s_connected) req in
  response_code res = response_status bare ∧
  answered_by res = match bare with Ok (call, _) => Some call | Err _ => None end ∧
  allow_origin res = (if is_ok bare then origin req else None) ∧
  allow_methods cors_policy res = [] ∧ allow_headers cors_policy res = [].
Proof.
  apply (cors_transparent no_files (run_call "tX" s_connected)
           (cross_origin (post_send to_carol))). by left.
Defined.
