(* ===== verification/Service.v ===== *)
(** * Service: the server as [main] runs it

    [main] (main.rs, lines 213-264) starts from an empty registry and serves
    every request with the routes inside the CORS wrapper.  [respond] is
    the response to one request in a state of the server, [handle] is the
    exchange: the response and the state after the handler that answered
    has run.  [main] serves a sequence of requests one after the other,
    each with the token that [Uuid::new_v4] would hand to a registration.

    The theorems connect the three layers.  An exchange is a run of the
    transition system of file [Server], of at most two steps, and changes
    nothing when the request is refused ([handle_refines]); so what holds
    of the reachable states holds of the states [main] goes through
    ([main_reachable]).  A reply has the status and the body that its
    endpoint promises, and of a client it shows the name only
    ([reply_conforms]).  [interface_table] reads the status of the
    response off the request and the registry, endpoint by endpoint:
    [deliverable] is the condition under which a send is answered 200. *)

From S2P Require Import Prelude Strings Json Model Runtime Registry Lifecycle Router Server Invariants Routes Cors.

Section service.
Context `{!Lowercase}.
Variable static_files : list string → bool.
Implicit Types (s : Server) (req : Request) (c : Call).

(** ** One exchange *)

Definition respond (new_token : string) req s : Result Wrapped Refusal :=
  service static_files (run_call new_token s) req.

Definition handle (new_token : string) req s
    : Server * Result Wrapped Refusal :=
  let res := respond new_token req s in
  match answered_by res with
  | Some call => (from_option fst s (exec_call new_token call s), res)
  | None => (s, res)
  end.

(** The critical sections that a call runs. *)
Definition call_inputs (new_token : string) c s : list Input :=
  match c with
  | CallRegistration request =>
    match registration_check request (clients s) with
    | Some _ => [InRegisterCheck request]
    | None => [InRegisterCheck request; InRegisterInsert new_token request]
    end
  | CallWs t => [InWsUpgrade t]
  | CallSendMessage request => [InSendMessage request]
  | CallStatus t => [InStatus t]
  | CallListClients => [InListClients]
  | CallStatic _ => []
  end.

(** A send can be delivered: the recipient is registered and stores a
    sender, and the token is that of a client. *)
Definition deliverable (request : MessageRequest) s : Prop :=
  is_Some (clients s !! to_lowercase (req_to request) ≫= tx) ∧
  ¬ token_fresh (req_token request) (clients s).

#[export] Instance deliverable_dec request s : Decision (deliverable request s).
Proof. unfold deliverable. apply _. Defined.

(** ** The server *)

Fixpoint serve_all (requests : list (string * Request)) s
    : Server * list (Result Wrapped Refusal) :=
  match requests with
  | [] => (s, [])
  | (new_token, req) :: rest =>
    let '(s1, res) := handle new_token req s in
    let '(s2, ress) := serve_all rest s1 in
    (s2, res :: ress)
  end.

Definition main (requests : list (string * Request))
    : Server * list (Result Wrapped Refusal) :=
  serve_all requests init.

(** ** What a reply looks like *)

(** The replies an endpoint can give in a state of the server.  A client
    appears in a reply as the object with its name and nothing else. *)
Inductive conforms s : Call → Reply → Prop :=
| conforms_token request t :
    clients s !! to_lowercase (reg_name request) = None →
    conforms s (CallRegistration request)
      {| status := OK;
         content := serialize_struct [("token", serialize_str t)] |}
| conforms_taken request :
    is_Some (clients s !! to_lowercase (reg_name request)) →
    conforms s (CallRegistration request)
      {| status := NOT_ACCEPTABLE;
         content := serialize_struct
           [("error", serialize_str "The name is already taken")] |}
| conforms_upgrade t k client :
    clients s !! k = Some client → token client = t →
    conforms s (CallWs t) {| status := SWITCHING_PROTOCOLS; content := "" |}
| conforms_sent request :
    conforms s (CallSendMessage request) {| status := OK; content := "" |}
| conforms_status t k client :
    clients s !! k = Some client → token client = t →
    conforms s (CallStatus t)
      {| status := OK;
         content := serialize_struct [("name", serialize_str (name client))] |}
| conforms_list :
    conforms s CallListClients
      {| status := OK;
         content := serialize_seq
           ((λ kv, serialize_struct [("name", serialize_str (name kv.2))])
              <$> map_to_list (clients s)) |}
| conforms_static file :
    conforms s (CallStatic file) {| status := OK; content := "" |}.

(** ** Lemmas *)

Lemma serve_Ok run rs rejected req c r :
  serve run rs rejected req = Ok (c, r) → run c = Ok r.
Proof.
  revert rejected. induction rs as [|route rs IH]; intros rejected; simpl;
    [done|].
  destruct (route req) as [call|e]; [|by eauto].
  destruct (run call) eqn:E; [|by eauto]. by intros [= <- <-].
Qed.

(** The handler that answered replied, and its reply is the response. *)
Lemma respond_answered new_token req s c :
  answered_by (respond new_token req s) = Some c →
  ∃ o r, respond new_token req s = Ok (Passed o c r) ∧
         run_call new_token s c = Ok r.
Proof.
  unfold respond, service, wrap.
  destruct (serve (run_call new_token s) (routes static_files) KNotFound req)
    as [[c' r]|e] eqn:E;
    destruct (check_request cors_policy req) as [[o|o|]|kind];
    cbn [answered_by]; try done;
    intros [= ->]; apply serve_Ok in E; eauto.
Qed.

Lemma exec_call_steps new_token c s :
  new_token ∉ issued s →
  ∃ s', exec_call new_token c s =
          Some (s', Replied (run_call new_token s c)) ∧
        steps s (call_inputs new_token c s) s'.
Proof.
  intros Hnew.
  destruct (exec_call_reply new_token c s) as (s' & Hx & _).
  exists s'. split; [done|]. destruct c; simpl in *;
    try (by eapply steps_cons; [split; [done|eassumption]|constructor]).
  - unfold exec_registration in Hx. simpl in Hx. unfold exec_register_check in *.
    destruct (registration_check request (clients s)) as [r|] eqn:E;
      simpl in Hx; simplify_eq.
    + eapply steps_cons; [|constructor]. split; [done|]. simpl.
      unfold exec_register_check. by rewrite E.
    + eapply steps_cons; [|eapply steps_cons; [|constructor]].
      * split; [done|]. simpl. unfold exec_register_check. by rewrite E.
      * split; [done|]. exact Hx.
  - simplify_eq. constructor.
Qed.

Lemma call_inputs_length new_token c s : length (call_inputs new_token c s) ≤ 2.
Proof. destruct c; simpl; repeat case_match; simpl; lia. Qed.

Lemma steps_issued s trace s' t :
  steps s trace s' → t ∈ issued s' →
  t ∈ issued s ∨ ∃ request, InRegisterInsert t request ∈ trace.
Proof.
  induction 1 as [s|s i o s1 trace s' [_ Hx] _ IH]; [by left|].
  intros [Ht|[request Hin]]%IH; [|right; exists request; by right].
  exec_inv Hx; exec_unfold; unfold handle_send_message in *;
    repeat case_match; simplify_eq; simpl in *; try (by left).
  apply elem_of_union in Ht as [->%elem_of_singleton|Ht]; [|by left].
  right. eexists. left.
Qed.

Lemma call_inputs_insert new_token c s t request :
  InRegisterInsert t request ∈ call_inputs new_token c s → t = new_token.
Proof.
  destruct c; simpl; repeat case_match;
    rewrite ?elem_of_cons, ?elem_of_nil; naive_solver.
Qed.

Lemma handle_steps new_token req s :
  new_token ∉ issued s →
  steps s (from_option (λ c, call_inputs new_token c s) []
             (answered_by (respond new_token req s)))
    (handle new_token req s).1.
Proof.
  intros Hnew. unfold handle.
  destruct (answered_by (respond new_token req s)) as [c|]; simpl;
    [|constructor].
  destruct (exec_call_steps new_token c s Hnew) as (s' & -> & Hs). done.
Qed.

Lemma handle_issued new_token req s t :
  new_token ∉ issued s → t ∈ issued (handle new_token req s).1 →
  t ∈ issued s ∨ t = new_token.
Proof.
  intros Hnew Ht.
  destruct (steps_issued _ _ _ t (handle_steps new_token req s Hnew) Ht)
    as [?|[request Hin]]; [by left|right].
  destruct (answered_by (respond new_token req s)) as [c|]; simpl in Hin.
  - by eapply call_inputs_insert.
  - by apply elem_of_nil in Hin.
Qed.

Lemma serve_all_reachable requests s :
  reachable s → NoDup requests.*1 →
  (∀ t, t ∈ requests.*1 → t ∉ issued s) →
  reachable (serve_all requests s).1 ∧
  length (serve_all requests s).2 = length requests.
Proof.
  revert s. induction requests as [|[t req] requests IH]; intros s Hr Hnd Hf;
    simpl; [done|].
  apply NoDup_cons in Hnd as [Ht Hnd].
  assert (t ∉ issued s) as Hnew by (apply Hf; left).
  pose proof (handle_steps t req s Hnew) as Hs.
  pose proof (handle_issued t req s) as Hi.
  destruct (handle t req s) as [s1 res]. simpl in *.
  destruct (IH s1) as [Hr' Hl]; [by eapply reachable_steps|done| |].
  { intros t' Hin [?| ->]%Hi; [|done..]. eapply Hf; [right|]; done. }
  destruct (serve_all requests s1) as [s2 ress]. simpl in *.
  split; [done|]. by rewrite Hl.
Qed.

Lemma response_code_passed o (x : Result (Call * Reply) Known) :
  response_code
    match x with
    | Ok (call, r) => Ok (Passed o call r)
    | Err e => Err (Rejected e)
    end = response_status x.
Proof. by destruct x as [[call r]|e]. Qed.

Lemma respond_code new_token req s :
  method req ≠ OPTIONS ∨ origin req = None →
  response_code (respond new_token req s) =
  response_status
    (serve (run_call new_token s) (routes static_files) KNotFound req).
Proof.
  intros Hnp. unfold respond. rewrite (service_not_preflight _ _ _ Hnp).
  apply response_code_passed.
Qed.

Lemma resolve_is_ok request s :
  is_ok (resolve request (clients s)) = true ↔ deliverable request s.
Proof.
  unfold resolve, deliverable.
  destruct (clients s !! to_lowercase (req_to request)) as [client|]; simpl.
  2: { split; [done|]. by intros [[? ?] _]. }
  destruct (find_by_token (req_token request) (clients s)) as [[k c]|] eqn:E;
    simpl.
  - apply find_by_token_Some in E as [Hk Ht].
    destruct (tx client); simpl; (split; [|by intros [[? ?] _]]); try done.
    intros _. split; [by eexists|]. intros Hf. by apply (Hf k c).
  - apply find_by_token_None in E. split; [done|]. by intros [_ ?].
Qed.

Lemma run_call_registration new_token request s :
  ∃ r, run_call new_token s (CallRegistration request) = Ok r ∧
       status_number (status r) =
         if decide (clients s !! to_lowercase (reg_name request) = None)
         then 200 else 406.
Proof.
  simpl. unfold with_clients, handle_registration.
  destruct (registration_check request (clients s)) as [r0|] eqn:E; simpl.
  - apply registration_check_Some in E as [[c Hc] ->]. eexists. split; [done|].
    by rewrite decide_False by congruence.
  - apply registration_check_None in E. eexists. split; [done|].
    by rewrite decide_True.
Qed.

Lemma run_call_send new_token request s :
  if decide (deliverable request s)
  then run_call new_token s (CallSendMessage request) = Ok reply
  else ∃ e, run_call new_token s (CallSendMessage request) = Err e.
Proof.
  pose proof (resolve_is_ok request s) as Hd.
  simpl. unfold with_clients, handle_send_message.
  destruct (resolve request (clients s)) as [[ch m]|e]; simpl in *.
  - by rewrite decide_True by (by apply Hd).
  - rewrite decide_False by (by intros ?%Hd). by exists e.
Qed.

Lemma run_call_token new_token t s c :
  c = CallStatus t ∨ c = CallWs t →
  if decide (token_fresh t (clients s))
  then run_call new_token s c = Err reject
  else ∃ r, run_call new_token s c = Ok r ∧
            status_number (status r) =
              match c with CallWs _ => 101 | _ => 200 end.
Proof.
  intros Hc. case_decide as Hf.
  - destruct Hc as [-> | ->]; simpl; unfold with_clients.
    + unfold handle_status. by rewrite (proj2 (find_by_token_None _ _) Hf).
    + unfold ws_handler. rewrite (proj2 (map_any_false _ _)); [done|].
      intros k c Hk. apply bool_decide_eq_false. by apply (Hf k c).
  - destruct (find_by_token t (clients s)) as [[k c0]|] eqn:E;
      [|by apply find_by_token_None in E].
    destruct Hc as [-> | ->]; simpl; unfold with_clients.
    + unfold handle_status. rewrite E. by eexists.
    + unfold ws_handler, map_any, find_by_token in *. rewrite E. simpl.
      by eexists.
Qed.

(** ** Theorems *)


(** Serving requests one after the other from the empty registry, each
    registration with a token of its own, goes through reachable states
    only, and answers every request. *)
Theorem main_reachable requests :
  NoDup requests.*1 →
  reachable (main requests).1 ∧ length (main requests).2 = length requests.
Proof.
  intros Hnd. apply serve_all_reachable; [constructor|done|].
  intros t _. apply not_elem_of_empty.
Qed.

(** C26: a reply has the status and the body of its endpoint: a token or
    the conflict for a registration, 101 for an upgrade with the token of a
    client, an empty 200 for a send, and for a status query and the list of
    clients JSON objects that hold the name of a client and none of its
    token, its channel or its timer. *)
Theorem reply_conforms new_token s c r :
  run_call new_token s c = Ok r → conforms s c r.
Proof.
  destruct c; simpl; unfold with_clients.
  - unfold handle_registration.
    destruct (registration_check request (clients s)) as [r0|] eqn:E; simpl.
    + apply registration_check_Some in E as [Hs ->]. intros [= <-].
      by apply conforms_taken.
    + apply registration_check_None in E. intros [= <-].
      by apply (conforms_token s request new_token).
  - intros (-> & k & c & Hk & Ht)%ws_handler_Ok. by eapply conforms_upgrade.
  - unfold handle_send_message.
    destruct (resolve request (clients s)) as [[ch m]|e]; simpl; [|done].
    intros [= <-]. apply conforms_sent.
  - unfold handle_status.
    destruct (find_by_token t (clients s)) as [[k c]|] eqn:E; [|done].
    apply find_by_token_Some in E as [Hk Ht]. intros [= <-].
    by apply (conforms_status s t k c).
  - unfold handle_list_clients, json, to_string, Vec_Serialize.
    intros [= <-]. rewrite <- list_fmap_compose. apply conforms_list.
  - intros [= <-]. apply conforms_static.
Qed.

(** C15: the status of the response at each endpoint, for a request that is
    not a preflight request.  A registration is answered 200 when the
    lower-cased name is free and 406 when it is taken.  A send is answered
    200 when the recipient stores a sender and the token is known, and 405
    in every other case.  A status query is answered 200 for the token of
    a client; the list of clients always 200; an upgrade 101 for the token
    of a client.  A status query or an upgrade with an unknown token goes on
    to the static files: 404 unless a file has that path. *)
Theorem interface_table new_token req s rest :
  method req ≠ OPTIONS ∨ origin req = None →
  let code := response_code (respond new_token req s) in
  let missing := if static_files (path_segments req) then 200 else 404 in
  (∀ request,
     path_segments req = "register" :: rest → method req = POST →
     content_type_json req = true → body_registration req = Some request →
     code = if decide (clients s !! to_lowercase (reg_name request) = None)
            then 200 else 406) ∧
  (∀ request,
     path_segments req = "send_message" :: rest → method req = POST →
     content_type_json req = true → body_message req = Some request →
     code = if decide (deliverable request s) then 200 else 405) ∧
  (∀ t rest',
     path_segments req = "status" :: rest → rest = t :: rest' → t ≠ "" →
     method req = GET →
     code = if decide (token_fresh t (clients s)) then missing else 200) ∧
  (path_segments req = "clients" :: rest → method req = GET → code = 200) ∧
  (∀ t rest',
     path_segments req = "messages" :: rest → rest = t :: rest' → t ≠ "" →
     method req = GET → ws_handshake req = true →
     code = if decide (token_fresh t (clients s)) then missing else 101).
Proof.
  intros Hnp. cbv zeta. rewrite (respond_code _ _ _ Hnp).
  set (run := run_call new_token s). split_and!.
  - intros request Hp Hm Hc Hb.
    destruct (run_call_registration new_token request s) as (r & Hr & <-).
    by rewrite (proj1 (routes_reach_handlers static_files run req rest r)
                  request Hp Hm Hc Hb Hr).
  - intros request Hp Hm Hc Hb.
    pose proof (run_call_send new_token request s) as Hr. case_decide.
    + by rewrite (proj1 (proj2 (routes_reach_handlers static_files run req
                                  rest reply)) request Hp Hm Hc Hb Hr).
    + destruct Hr as [e Hr].
      by apply (rejected_send_message_status static_files run req rest
                  request e).
  - intros t rest' Hp -> Hne Hm.
    pose proof (run_call_token new_token t s (CallStatus t)) as Hr.
    case_decide.
    + apply (rejected_get_status static_files run req (t :: rest') t rest'
               reject (CallStatus t));
        [by left|done|done|done|by apply Hr; left|done].
    + destruct Hr as (r & Hr & <-); [by left|].
      by rewrite (proj1 (proj2 (proj2 (routes_reach_handlers static_files run
                    req (t :: rest') r))) t rest' Hp eq_refl Hne Hm Hr).
  - intros Hp Hm.
    by rewrite (proj1 (proj2 (proj2 (proj2 (routes_reach_handlers static_files
                  run req rest _)))) Hp Hm eq_refl).
  - intros t rest' Hp -> Hne Hm Hw.
    pose proof (run_call_token new_token t s (CallWs t)) as Hr.
    case_decide.
    + apply (rejected_get_status static_files run req (t :: rest') t rest'
               reject (CallWs t));
        [by right|done|done|done|by apply Hr; right|done].
    + destruct Hr as (r & Hr & <-); [by right|].
      by rewrite (proj2 (proj2 (proj2 (proj2 (routes_reach_handlers
                    static_files run req (t :: rest') r)))) t rest' Hp
                    eq_refl Hne Hm Hw Hr).
Qed.

End service.

(** ** Witnesses, on the runs of file [Server] *)

Definition post_register (n : string) : Request :=
  {| method := POST; path_segments := ["register"];
     content_type_json := true;
     body_registration := Some {| reg_name := n |};
     body_message := None; ws_handshake := false; origin := None;
     access_control_request_method := None;
     access_control_request_headers := None |}.


Lemma main_reachable_witness :
  let requests := [("tA", post_register "Alice"); ("tB", post_register "Bob")] in
  reachable (main no_files requests).1 ∧
  length (main no_files requests).2 = length requests.
Proof.
  apply (main_reachable no_files
           [("tA", post_register "Alice"); ("tB", post_register "Bob")]).
  simpl. repeat constructor; set_solver.
Defined.

Lemma reply_conforms_witness :
  conforms s_connected (CallStatus "tB")
    {| status := OK;
       content := serialize_struct [("name", serialize_str "Bob")] |}.
Proof. by apply (reply_conforms "tX" s_connected (CallStatus "tB")). Defined.

Lemma interface_table_witness :
  let req := post_send to_carol in
  let s := s_connected in
  let code := response_code (respond no_files "tX" req s) in
  let missing := if no_files (path_segments req) then 200 else 404 in
  (∀ request,
     path_segments req = ["register"] → method req = POST →
     content_type_json req = true → body_registration req = Some request →
     code = if decide (clients s !! to_lowercase (reg_name request) = None)
            then 200 else 406) ∧
  (∀ request,
     path_segments req = ["send_message"] → method req = POST →
     content_type_json req = true → body_message req = Some request →
     code = if decide (deliverable request s) then 200 else 405) ∧
  (∀ t rest',
     path_segments req = ["status"] → [] = t :: rest' → t ≠ "" →
     method req = GET →
     code = if decide (token_fresh t (clients s)) then missing else 200) ∧
  (path_segments req = ["clients"] → method req = GET → code = 200) ∧
  (∀ t rest',
     path_segments req = ["messages"] → [] = t :: rest' → t ≠ "" →
     method req = GET → ws_handshake req = true →
     code = if decide (token_fresh t (clients s)) then missing else 101).
Proof.
  apply (interface_table no_files "tX" (post_send to_carol) s_connected []).
  by left.
Defined.
