(* ===== verification/Locking.v ===== *)
(** * Locking: the lock of the registry and the awaits of the tasks

    Every access to the registry goes through [clients.lock().await]
    (main.rs, line 24: [Arc<Mutex<HashMap<..>>>]).  The transition system
    of file [Server] has no lock: it runs a critical section as one step.
    This file is the reason why it may.

    A task is a sequence of operations [Op]: it takes the lock, accesses
    the registry, drops the guard, or awaits something else.  The scripts
    below are the handlers and tasks of main.rs, read off the source: where
    the guard is a temporary it is dropped at the end of the statement (or
    of the condition of an [if]); where it is bound by [if let], [match] or
    [let] it is dropped at the end of that block.  [Sys] is a
    single-threaded runtime that runs such tasks: the running task goes on
    until it awaits, and it may be suspended at any await, the one of
    [lock()] included.  The tasks of a run are there from its start, each
    with the number of turns of its loops; a task that is spawned later is
    one that is not scheduled before.  The start of [client_connected]
    aborts the eviction task of its client (line 104): an [Event] says
    which task runs, what it does and which task it aborts, and an aborted
    task is dropped where it stands ([cancel]).

    - [program_bracketed]: in every handler and task of main.rs the lock is
      taken, used and dropped with no await in between, whatever the number
      of turns of the loops;
    - [program_atomic]: so every run of any number of them is a sequence
      of critical sections, each the steps of one task, with awaits
      between them ([critical_section_atomic] is one step of it);
    - [lock_never_contended]: a task that reaches [lock().await] and is
      scheduled gets the guard at once;
    - [program_completes]: runs are finite once the turns of the loops are
      fixed, and a state in which no task can take a step is one in which
      all have ended: the lock causes no deadlock;
    - [abort_cancels]: a task is aborted under the lock, while it stands
      at an await without the guard, and takes no step afterwards: an
      aborted eviction never removes a client, and needs no check of its
      own for that;
    - [call_inputs_script], [registry_changes_in_sections]: the inputs of
      [Server.exec] that read or write the registry are the critical
      sections of the scripts, call by call. *)

From S2P Require Import Prelude Strings Json Model Runtime Registry Lifecycle Router Server Routes Service.

(** ** Operations and scripts *)

(** The critical sections of main.rs, by the lines that hold the guard. *)
Inductive Critical :=
| CRegisterCheck    (* lines 57-60 *)
| CRegisterInsert   (* lines 79-82 *)
| CWsUpgrade        (* lines 149-153 *)
| CAttach           (* lines 97-108 *)
| CDetach           (* lines 125-141 *)
| CEvict            (* lines 136-139 *)
| CSendMessage      (* lines 165-185 *)
| CStatus           (* lines 192-203 *)
| CListClients.     (* lines 207-210 *)

Inductive Op :=
| Lock                    (* [clients.lock().await] returns the guard *)
| Access (c : Critical)   (* the registry is read or written through it *)
| Unlock                  (* the guard is dropped *)
| Await.                  (* an await on anything but the lock *)

#[export] Instance Critical_eq_dec : EqDecision Critical.
Proof. solve_decision. Defined.

#[export] Instance Op_eq_dec : EqDecision Op.
Proof. solve_decision. Defined.

(** A script is a sequence of blocks: run once, run or skipped (the code
    after an early return), or run any number of times (a loop). *)
Inductive Block :=
| Once (ops : list Op)
| Maybe (ops : list Op)
| Many (ops : list Op).

#[export] Instance Block_eq_dec : EqDecision Block.
Proof. solve_decision. Defined.

Definition Script : Type := list Block.

Definition section (c : Critical) : list Op := [Lock; Access c; Unlock].

Definition handle_registration_ops : Script :=
  [Once (section CRegisterCheck); Maybe (section CRegisterInsert)].

Definition ws_handler_ops : Script := [Once (section CWsUpgrade)].

(** The start, the turns of the read loop ([ws_rx.next().await] gives a
    frame), its exit (it gives nothing) and the clean-up. *)
Definition client_connected_ops : Script :=
  [Once (section CAttach); Many [Await]; Once (Await :: section CDetach)].

(** The spawned pump: a turn is [client_rx.recv().await], then
    [ws_tx.send(..).await]; the loop ends, if it does, at a [recv] that
    gives nothing. *)
Definition outbound_pump_ops : Script := [Many [Await; Await]; Maybe [Await]].

(** The eviction task: [sleep(..).await], then [retain] under the lock. *)
Definition eviction_ops : Script := [Once (Await :: section CEvict)].

Definition handle_send_message_ops : Script := [Once (section CSendMessage)].

Definition handle_status_ops : Script := [Once (section CStatus)].

Definition handle_list_clients_ops : Script := [Once (section CListClients)].

Definition program : list Script :=
  [handle_registration_ops; ws_handler_ops; client_connected_ops;
   outbound_pump_ops; eviction_ops; handle_send_message_ops;
   handle_status_ops; handle_list_clients_ops].

(** The operations of one run of a script: [counts] gives, block by block,
    how often a [Maybe] or [Many] block runs. *)
Fixpoint unroll (counts : list nat) (sc : Script) : list Op :=
  match sc with
  | [] => []
  | Once ops :: sc' => ops ++ unroll counts sc'
  | Maybe ops :: sc' =>
    (if decide (hd 0 counts = 0) then [] else ops) ++ unroll (tl counts) sc'
  | Many ops :: sc' =>
    concat (replicate (hd 0 counts) ops) ++ unroll (tl counts) sc'
  end.

(** ** The discipline *)

(** [bracketed held ops]: starting with the guard held or not, [ops] takes
    the lock only when it does not hold it, accesses the registry and drops
    the guard only when it holds it, awaits only when it does not, and ends
    without it. *)
Fixpoint bracketed (held : bool) (ops : list Op) : bool :=
  match ops with
  | [] => negb held
  | Lock :: rest => negb held && bracketed true rest
  | Access _ :: rest => held && bracketed true rest
  | Unlock :: rest => held && bracketed false rest
  | Await :: rest => negb held && bracketed false rest
  end.

Definition block_ops (b : Block) : list Op :=
  match b with Once ops | Maybe ops | Many ops => ops end.

Definition script_ok (sc : Script) : bool :=
  forallb (λ b, bracketed false (block_ops b)) sc.

(** ** A single-threaded runtime with one lock *)

Record Sys := mkSys {
  holder : option nat;          (* the task that holds the guard *)
  current : option nat;         (* the task that ran last *)
  tasks : gmap nat (list Op);   (* what each task has still to do *)
}.

Definition sys_init (ts : gmap nat (list Op)) : Sys :=
  {| holder := None; current := None; tasks := ts |}.

(** A task can be suspended where it awaits or has finished. *)
Definition at_yield (ops : list Op) : bool :=
  match ops with
  | [] | Lock :: _ | Await :: _ => true
  | _ => false
  end.

(** Task [id] may take the next step: it is the running task, or the
    running task is at a point where it can be suspended. *)
Definition may_run (id : nat) (s : Sys) : Prop :=
  current s = Some id ∨
  from_option (λ c, from_option at_yield true (tasks s !! c)) true (current s)
    = true.

Definition enabled (id : nat) (op : Op) (s : Sys) : Prop :=
  match op with
  | Lock => holder s = None
  | Access _ | Unlock => holder s = Some id
  | Await => True
  end.

#[export] Instance may_run_dec id s : Decision (may_run id s).
Proof. unfold may_run. apply _. Defined.

#[export] Instance enabled_dec id op s : Decision (enabled id op s).
Proof. destruct op; simpl; apply _. Defined.

(** One step of a run: task [ev_task] does [ev_op].  The start of
    [client_connected] aborts, under the lock, the eviction task whose
    handle the client stores (line 104): [ev_abort] names that task. *)
Record Event := Ev { ev_task : nat; ev_op : Op; ev_abort : option nat }.

Definition may_abort (e : Event) : Prop :=
  match ev_abort e with
  | None => True
  | Some v => ev_op e = Access CAttach ∧ v ≠ ev_task e
  end.

#[export] Instance may_abort_dec e : Decision (may_abort e).
Proof. unfold may_abort. destruct (ev_abort e); apply _. Defined.

(** An aborted task is dropped where it awaits: nothing of it is left to
    run.  To abort a task that has ended does nothing. *)
Definition cancel (victim : option nat) (ts : gmap nat (list Op))
    : gmap nat (list Op) :=
  match victim with
  | Some v => if ts !! v is Some _ then <[v := []]> ts else ts
  | None => ts
  end.

Definition sys_after (e : Event) (rest : list Op) (s : Sys) : Sys :=
  {| holder := match ev_op e with
               | Lock => Some (ev_task e)
               | Unlock => None
               | _ => holder s
               end;
     current := Some (ev_task e);
     tasks := cancel (ev_abort e) (<[ev_task e := rest]> (tasks s)) |}.

Definition sys_exec (e : Event) (s : Sys) : option Sys :=
  ops ← tasks s !! ev_task e;
  match ops with
  | [] => None
  | op :: rest =>
    guard (op = ev_op e);;
    guard (may_run (ev_task e) s);;
    guard (enabled (ev_task e) op s);;
    guard (may_abort e);;
    Some (sys_after e rest s)
  end.

#[global] Arguments sys_exec : simpl never.

Inductive sys_steps : Sys → list Event → Sys → Prop :=
| sys_steps_nil s : sys_steps s [] s
| sys_steps_cons s e s' tr s'' :
    sys_exec e s = Some s' → sys_steps s' tr s'' → sys_steps s (e :: tr) s''.

(** [sys_run tr s] replays a run. *)
Fixpoint sys_run (tr : list Event) (s : Sys) : option Sys :=
  match tr with
  | [] => Some s
  | e :: tr' => sys_exec e s ≫= sys_run tr'
  end.

(** The invariant: every task is bracketed from where it stands, and the
    task that holds the guard is the one that is running. *)
Record sys_ok (s : Sys) : Prop := mk_sys_ok {
  sk_tasks : ∀ id ops, tasks s !! id = Some ops →
    bracketed (bool_decide (holder s = Some id)) ops = true;
  sk_holder : ∀ id, holder s = Some id →
    current s = Some id ∧ is_Some (tasks s !! id);
}.

(** What a run looks like: sections [Lock; Access ..; Unlock] of one task
    each, and awaits between them.  [h] is the task inside a section. *)
Fixpoint atomic_run (h : option nat) (tr : list Event) : bool :=
  match tr with
  | [] => true
  | e :: tr' =>
    match h, ev_op e with
    | None, Lock => atomic_run (Some (ev_task e)) tr'
    | None, Await => atomic_run None tr'
    | Some h', Access _ => bool_decide (ev_task e = h') && atomic_run h tr'
    | Some h', Unlock => bool_decide (ev_task e = h') && atomic_run None tr'
    | _, _ => false
    end
  end.

(** The runtime at the start: the tasks that will run, each a script with
    the number of turns of its loops. *)
Definition sys_start (spawned : gmap nat (Script * list nat)) : Sys :=
  sys_init ((λ p, unroll p.2 p.1) <$> spawned).

(** What is left to do, the tasks of which nothing is left, and the states
    in which nothing is. *)
Definition remaining (s : Sys) : nat := map_sum length (tasks s).

Definition ended (id : nat) (s : Sys) : Prop :=
  default [] (tasks s !! id) = [].

Definition finished (s : Sys) : Prop :=
  map_Forall (λ _ ops, ops = []) (tasks s).

#[export] Instance finished_dec s : Decision (finished s).
Proof. unfold finished. apply _. Defined.

(** ** The critical sections of the transition system *)

Definition critical_of (i : Input) : option Critical :=
  match i with
  | InRegisterCheck _ => Some CRegisterCheck
  | InRegisterInsert _ _ => Some CRegisterInsert
  | InWsUpgrade _ => Some CWsUpgrade
  | InConnected _ => Some CAttach
  | InDisconnected _ => Some CDetach
  | InTimerFire _ => Some CEvict
  | InSendMessage _ => Some CSendMessage
  | InStatus _ => Some CStatus
  | InListClients => Some CListClients
  | InInboundFrame _ | InPeerClose _ | InPump _ | InTick _ => None
  end.

Definition accesses (ops : list Op) : list Critical :=
  omap (λ op, match op with Access c => Some c | _ => None end) ops.

(** The script of the handler that a route calls. *)
Definition call_script (c : Call) : Script :=
  match c with
  | CallRegistration _ => handle_registration_ops
  | CallWs _ => ws_handler_ops
  | CallSendMessage _ => handle_send_message_ops
  | CallStatus _ => handle_status_ops
  | CallListClients => handle_list_clients_ops
  | CallStatic _ => []
  end.

(** ** A session *)

Definition ran (id : nat) (op : Op) : Event := Ev id op None.

(** Two registrations; a connection with its pump and the eviction task of
    its clean-up; a second connection of the same client. *)
Definition spawned_session : gmap nat (Script * list nat) :=
  {[ 0 := (handle_registration_ops, [1]);
     1 := (handle_registration_ops, [1]);
     2 := (client_connected_ops, [1]);
     3 := (outbound_pump_ops, [1; 0]);
     4 := (eviction_ops, []);
     5 := (client_connected_ops, [0]) ]}.

(** The two registrations interleave between the check and the insert.
    The first connection starts, a message goes through the pump, a frame
    arrives, the peer closes and the clean-up runs.  The eviction task
    sleeps its ten seconds and stands before the lock when the second
    connection starts and aborts it; that connection is closed at once. *)
Definition run_session : list Event :=
  (ran 0 <$> section CRegisterCheck) ++ (ran 1 <$> section CRegisterCheck) ++
  (ran 0 <$> section CRegisterInsert) ++ (ran 1 <$> section CRegisterInsert) ++
  (ran 2 <$> section CAttach) ++
  [ran 3 Await; ran 2 Await; ran 3 Await; ran 2 Await] ++
  (ran 2 <$> section CDetach) ++
  [ran 4 Await; ran 5 Lock; Ev 5 (Access CAttach) (Some 4); ran 5 Unlock;
   ran 5 Await] ++
  (ran 5 <$> section CDetach).

Definition sys_session : Sys :=
  default (sys_start spawned_session)
    (sys_run run_session (sys_start spawned_session)).

(** The state after the check of the first registration. *)
Definition sys_checked : Sys :=
  default (sys_start spawned_session)
    (sys_run (take 3 run_session) (sys_start spawned_session)).

(** The state in which the second connection aborts the eviction task. *)
Definition sys_aborting : Sys :=
  default (sys_start spawned_session)
    (sys_run (take 24 run_session) (sys_start spawned_session)).

(** ** Lemmas on scripts *)

Lemma bracketed_app held ops1 ops2 :
  bracketed false ops2 = true →
  bracketed held (ops1 ++ ops2) = bracketed held ops1.
Proof.
  intros H2. revert held. induction ops1 as [|[] ops1 IH]; intros held; simpl;
    rewrite ?IH; try done.
  destruct held; simpl; [|done]. by destruct ops2 as [|[] ?].
Qed.

(** What holds of every block of a script, of nothing and of two
    sequences put together, holds of every run of the script. *)
Lemma unroll_closed (P : list Op → Prop) counts sc :
  P [] → (∀ ops1 ops2, P ops1 → P ops2 → P (ops1 ++ ops2)) →
  Forall (λ b, P (block_ops b)) sc → P (unroll counts sc).
Proof.
  intros Hnil Happ Hsc. revert counts.
  induction Hsc as [|[ops|ops|ops] sc Hb _ IH]; intros counts; simpl;
    [done|apply Happ; auto..].
  - case_decide; auto.
  - induction (hd 0 counts); simpl; auto.
Qed.

Lemma unroll_bracketed counts sc :
  script_ok sc = true → bracketed false (unroll counts sc) = true.
Proof.
  intros Hsc. apply (unroll_closed (λ ops, bracketed false ops = true));
    [done|by intros; rewrite bracketed_app|].
  apply Is_true_true_2, forallb_True in Hsc.
  eapply Forall_impl; [done|]. intros b. apply Is_true_true_1.
Qed.

Lemma program_ok : Forall (λ sc, script_ok sc = true) program.
Proof. compute_done. Qed.

(** A task that holds the guard stands before an access or the drop; one
    that does not stands at an await or at its end. *)
Lemma bracketed_held ops :
  bracketed true ops = true → at_yield ops = false.
Proof. by destruct ops as [|[] ?]. Qed.

Lemma bracketed_free ops :
  bracketed false ops = true → at_yield ops = true.
Proof. by destruct ops as [|[] ?]. Qed.

Lemma accesses_app ops1 ops2 :
  accesses (ops1 ++ ops2) = accesses ops1 ++ accesses ops2.
Proof. apply omap_app. Qed.

Lemma accesses_awaits n : accesses (concat (replicate n [Await])) = [].
Proof. by induction n. Qed.

(** ** Lemmas on steps *)

Lemma lookup_cancel_ne victim ts id :
  victim ≠ Some id → cancel victim ts !! id = ts !! id.
Proof.
  destruct victim as [v|]; simpl; [|done]. intros Hv.
  destruct (ts !! v); [|done]. apply lookup_insert_ne. congruence.
Qed.

Lemma lookup_cancel_eq ts v :
  cancel (Some v) ts !! v = (λ _, []) <$> ts !! v.
Proof.
  simpl. destruct (ts !! v) eqn:Hv; [by rewrite lookup_insert_eq|].
  by rewrite Hv.
Qed.

Lemma map_sum_cancel victim ts :
  map_sum length (cancel victim ts) ≤ map_sum length ts.
Proof.
  destruct victim as [v|]; simpl; [|done].
  destruct (ts !! v) as [ops|] eqn:Hv; [|done].
  pose proof (map_sum_insert_Some length ts v ops [] Hv). simpl in *. lia.
Qed.

Lemma sys_exec_Some e s s' :
  sys_exec e s = Some s' ↔
  ∃ rest, tasks s !! ev_task e = Some (ev_op e :: rest) ∧
    may_run (ev_task e) s ∧ enabled (ev_task e) (ev_op e) s ∧ may_abort e ∧
    s' = sys_after e rest s.
Proof.
  unfold sys_exec. destruct (tasks s !! ev_task e) as [[|op rest]|]; simpl;
    [naive_solver..| |naive_solver].
  repeat case_guard; simpl; naive_solver.
Qed.

Lemma may_abort_Some e v :
  may_abort e → ev_abort e = Some v → ev_op e = Access CAttach ∧ v ≠ ev_task e.
Proof. unfold may_abort. intros Hab Hv. by rewrite Hv in Hab. Qed.

Lemma sys_run_steps tr s s' : sys_run tr s = Some s' ↔ sys_steps s tr s'.
Proof.
  revert s. induction tr as [|e tr IH]; intros s; simpl.
  - split; [intros [= <-]; constructor|by inversion 1].
  - split.
    + intros (s1 & Hx & Hr%IH)%bind_Some. by econstructor.
    + inversion 1 as [|? ? s1 ? ? Hx Hst]; simplify_eq.
      apply bind_Some. exists s1. by rewrite IH.
Qed.

Lemma sys_steps_app s tr1 tr2 s' :
  sys_steps s (tr1 ++ tr2) s' ↔
  ∃ s1, sys_steps s tr1 s1 ∧ sys_steps s1 tr2 s'.
Proof.
  setoid_rewrite <- sys_run_steps. revert s.
  induction tr1 as [|e tr1 IH]; intros s; simpl; [naive_solver|].
  destruct (sys_exec e s) as [s1|]; simpl; [apply IH|naive_solver].
Qed.

(** While the guard is held, only its holder may run. *)
Lemma holder_runs s id h :
  sys_ok s → holder s = Some h → may_run id s → id = h.
Proof.
  intros Hok Hh Hrun. destruct (sk_holder s Hok h Hh) as [Hc [ops Hops]].
  pose proof (sk_tasks s Hok h ops Hops) as Hb.
  rewrite Hh, bool_decide_eq_true_2 in Hb by done.
  apply bracketed_held in Hb.
  destruct Hrun as [Hrun|Hrun]; [congruence|].
  rewrite Hc in Hrun. simpl in Hrun. rewrite Hops in Hrun. simpl in Hrun.
  congruence.
Qed.

Lemma lock_free s id rest :
  sys_ok s → tasks s !! id = Some (Lock :: rest) → may_run id s →
  holder s = None.
Proof.
  intros Hok Hops Hrun. destruct (holder s) as [h|] eqn:Hh; [|done].
  assert (id = h) as -> by by eapply holder_runs.
  pose proof (sk_tasks s Hok h _ Hops) as Hb.
  by rewrite Hh, bool_decide_eq_true_2 in Hb.
Qed.

Lemma task_enabled s id op rest :
  sys_ok s → tasks s !! id = Some (op :: rest) → may_run id s →
  enabled id op s.
Proof.
  intros Hok Hops Hrun. pose proof (sk_tasks s Hok id _ Hops) as Hb.
  destruct op; simpl in *; [by eapply lock_free| | |done];
    by case_bool_decide.
Qed.

(** A task that can run and has something left takes a step. *)
Lemma task_runs s id op rest :
  sys_ok s → tasks s !! id = Some (op :: rest) → may_run id s →
  sys_exec (ran id op) s = Some (sys_after (ran id op) rest s).
Proof.
  intros Hok Hops Hrun. apply sys_exec_Some. exists rest.
  split_and!; [done|done|by eapply task_enabled|done|done].
Qed.

Lemma sys_init_ok ts :
  map_Forall (λ _ ops, bracketed false ops = true) ts → sys_ok (sys_init ts).
Proof. intros Hts. split; [|done]. intros id ops Hops. by eapply Hts. Qed.

(** The holder after a step, seen from task [id']. *)
Lemma holder_after s e id' rest :
  sys_ok s → tasks s !! ev_task e = Some (ev_op e :: rest) →
  enabled (ev_task e) (ev_op e) s →
  bool_decide (holder (sys_after e rest s) = Some id') =
  if decide (id' = ev_task e)
  then match ev_op e with Lock | Access _ => true | _ => false end
  else bool_decide (holder s = Some id').
Proof.
  intros Hok Hops Hen. pose proof (sk_tasks s Hok _ _ Hops) as Hb.
  destruct e as [id [] v]; simpl in *;
    repeat (case_bool_decide || case_decide); simplify_eq; try done;
    congruence.
Qed.

Lemma sys_after_tasks_ok s e rest id' ops' :
  sys_ok s → tasks s !! ev_task e = Some (ev_op e :: rest) →
  enabled (ev_task e) (ev_op e) s → may_abort e →
  tasks (sys_after e rest s) !! id' = Some ops' →
  bracketed (bool_decide (holder (sys_after e rest s) = Some id')) ops' = true.
Proof.
  intros Hok Hops Hen Hab. rewrite (holder_after s e id' rest) by done.
  pose proof (sk_tasks s Hok _ _ Hops) as Hb. simpl.
  destruct (decide (ev_abort e = Some id')) as [Hv|Hv].
  - destruct (may_abort_Some _ _ Hab Hv) as [Hop Hne].
    rewrite Hv, lookup_cancel_eq, decide_False by done.
    intros (? & _ & ->)%fmap_Some. rewrite Hop in Hen. simpl in Hen.
    rewrite bool_decide_eq_false_2; [done|congruence].
  - rewrite lookup_cancel_ne by done.
    intros [[<- <-]|[? Hops']]%lookup_insert_Some.
    + rewrite decide_True by done.
      destruct (ev_op e); simpl in Hb; by destruct (bool_decide _).
    + rewrite decide_False by done. by apply (sk_tasks s Hok).
Qed.

Lemma sys_exec_ok s e s' : sys_ok s → sys_exec e s = Some s' → sys_ok s'.
Proof.
  intros Hok (rest & Hops & Hrun & Hen & Hab & ->)%sys_exec_Some. split.
  - intros id' ops'. by apply sys_after_tasks_ok.
  - intros h Hh. assert (h = ev_task e) as ->.
    { simpl in Hh. destruct (ev_op e); simplify_eq; try done; symmetry;
        by eapply holder_runs. }
    split; [done|]. simpl. rewrite lookup_cancel_ne, lookup_insert_eq; [done|].
    intros Hv. by destruct (may_abort_Some _ _ Hab Hv).
Qed.

Lemma sys_steps_ok s tr s' : sys_ok s → sys_steps s tr s' → sys_ok s'.
Proof. intros Hok Hst. induction Hst; eauto using sys_exec_ok. Qed.

Lemma sys_exec_atomic s e s' :
  sys_ok s → sys_exec e s = Some s' →
  match holder s, ev_op e with
  | None, Lock => holder s' = Some (ev_task e)
  | None, Await => holder s' = None
  | Some h, Access _ => ev_task e = h ∧ holder s' = Some h
  | Some h, Unlock => ev_task e = h ∧ holder s' = None
  | _, _ => False
  end.
Proof.
  intros Hok (rest & Hops & Hrun & Hen & _ & ->)%sys_exec_Some.
  pose proof (sk_tasks s Hok _ _ Hops) as Hb. simpl.
  destruct (holder s) as [h|] eqn:Hh.
  - assert (ev_task e = h) as Hid by by eapply holder_runs.
    rewrite Hid, bool_decide_eq_true_2 in Hb by done. by destruct (ev_op e).
  - by destruct (ev_op e).
Qed.

Lemma sys_steps_atomic s tr s' :
  sys_ok s → sys_steps s tr s' → atomic_run (holder s) tr = true.
Proof.
  intros Hok Hst. induction Hst as [|s e s' tr s'' Hx Hst IH]; [done|].
  pose proof (sys_exec_atomic s e s' Hok Hx) as Ha.
  specialize (IH (sys_exec_ok _ _ _ Hok Hx)). simpl.
  destruct (holder s) as [h|], (ev_op e); try done; destruct_and?;
    simplify_eq; rewrite ?bool_decide_eq_true_2 by done; simpl; congruence.
Qed.

(** As long as some task has something left to do, some task can take a
    step. *)
Lemma sys_progress s id op rest :
  sys_ok s → tasks s !! id = Some (op :: rest) →
  ∃ e s', sys_exec e s = Some s'.
Proof.
  intros Hok Hops.
  assert (∃ id' op' rest', tasks s !! id' = Some (op' :: rest') ∧
            may_run id' s) as (id' & op' & rest' & Hops' & Hrun).
  { destruct (current s) as [c|] eqn:Hc;
      [|exists id, op, rest; split; [done|right; by rewrite Hc]].
    destruct (tasks s !! c) as [[|op' rest']|] eqn:Hcops;
      [exists id, op, rest|exists c, op', rest'|exists id, op, rest];
      (split; [done|]); [right|by left|right];
      by rewrite Hc; simpl; rewrite Hcops. }
  eexists _, _. by eapply task_runs.
Qed.

(** A state in which no task can take a step has no task left. *)
Lemma stuck_finished s :
  sys_ok s → (∀ e, sys_exec e s = None) → finished s.
Proof.
  intros Hok Hstuck id [|op rest] Hops; [done|].
  destruct (sys_progress s id op rest Hok Hops) as (e & s' & Hx).
  by rewrite Hstuck in Hx.
Qed.

Lemma sys_exec_remaining s e s' :
  sys_exec e s = Some s' → S (remaining s') ≤ remaining s.
Proof.
  intros (rest & Hops & _ & _ & _ & ->)%sys_exec_Some. unfold remaining. simpl.
  pose proof (map_sum_cancel (ev_abort e) (<[ev_task e := rest]> (tasks s))).
  pose proof (map_sum_insert_Some length (tasks s) _ _ rest Hops).
  simpl in *. lia.
Qed.

Lemma sys_steps_remaining s tr s' :
  sys_steps s tr s' → length tr + remaining s' ≤ remaining s.
Proof.
  induction 1 as [|s e s' tr s'' Hx _ IH]; simpl; [done|].
  pose proof (sys_exec_remaining _ _ _ Hx). lia.
Qed.

(** A task of which nothing is left takes no step and stays so. *)
Lemma sys_exec_ended v e s s' :
  ended v s → sys_exec e s = Some s' → ev_task e ≠ v ∧ ended v s'.
Proof.
  unfold ended. intros Hv (rest & Hops & _ & _ & _ & ->)%sys_exec_Some.
  assert (ev_task e ≠ v) as Hne by (intros <-; by rewrite Hops in Hv).
  split; [done|]. simpl. destruct (decide (ev_abort e = Some v)) as [->|].
  - rewrite lookup_cancel_eq. by destruct (<[_:=_]> _ !! v).
  - by rewrite lookup_cancel_ne, lookup_insert_ne.
Qed.

Lemma sys_steps_ended v s tr s' :
  ended v s → sys_steps s tr s' → Forall (λ e, ev_task e ≠ v) tr.
Proof.
  intros Hv Hst. induction Hst as [|s e s' tr s'' Hx _ IH]; [done|].
  destruct (sys_exec_ended v e s s' Hv Hx). constructor; auto.
Qed.

Lemma sys_exec_aborted e s s' v :
  sys_exec e s = Some s' → ev_abort e = Some v → ended v s'.
Proof.
  intros (rest & _ & _ & _ & _ & ->)%sys_exec_Some Hv. unfold ended. simpl.
  rewrite Hv, lookup_cancel_eq. by destruct (<[_:=_]> _ !! v).
Qed.

(** ** The discipline of the program and what follows from it *)

(** In every handler and task of main.rs, whatever the number of turns of
    its loops, the lock is taken only when it is not held, the registry is
    accessed and the guard dropped only under the lock, nothing is awaited
    under the lock, and the task ends without the guard. *)
Theorem program_bracketed sc counts :
  sc ∈ program → bracketed false (unroll counts sc) = true.
Proof.
  intros Hsc. apply unroll_bracketed.
  by apply (proj1 (Forall_forall _ _) program_ok).
Qed.

(** While a guard is held, the only task that takes a step is its holder,
    and the step is an access or the drop of the guard. *)
Theorem critical_section_atomic s h e s' :
  sys_ok s → holder s = Some h → sys_exec e s = Some s' →
  ev_task e = h ∧ (ev_op e = Unlock ∨ ∃ c, ev_op e = Access c).
Proof.
  intros Hok Hh Hx. pose proof (sys_exec_atomic s e s' Hok Hx) as Ha.
  rewrite Hh in Ha. destruct (ev_op e); naive_solver.
Qed.

(** A call of [client_connected] enters two critical sections, the start
    and the clean-up, whatever the number of frames it reads. *)
Theorem client_connected_sections frames :
  accesses (unroll [frames] client_connected_ops) = [CAttach; CDetach].
Proof.
  simpl. change (accesses (Await :: ?l)) with (accesses l).
  by rewrite accesses_app, accesses_awaits.
Qed.

(** The inputs of the transition system that are not a critical section
    leave the registry as it is. *)
Theorem registry_changes_in_sections s i o s' :
  step s i o s' → critical_of i = None → clients s' = clients s.
Proof.
  intros [_ Hx] Hi. destruct i; simplify_eq/=; simplify_option_eq; done.
Qed.

(** The critical sections that a call runs in the transition system are the
    accesses of a run of the script of its handler. *)
Theorem call_inputs_script new_token c s :
  ∃ counts,
    omap critical_of (call_inputs new_token c s) =
    accesses (unroll counts (call_script c)).
Proof.
  destruct c; simpl; try by exists [].
  destruct (registration_check _ _); [by exists [0]|by exists [1]].
Qed.

(** ** The runs of the program *)

Section program.
Context (spawned : gmap nat (Script * list nat)).
Context (Hprogram : map_Forall (λ _ p, p.1 ∈ program) spawned).

Lemma sys_start_ok : sys_ok (sys_start spawned).
Proof using Hprogram.
  apply sys_init_ok. intros id ops.
  rewrite lookup_fmap_Some. intros ([sc counts] & <- & Hsc).
  apply program_bracketed, (Hprogram id _ Hsc).
Qed.

Lemma sys_reach_ok tr s : sys_steps (sys_start spawned) tr s → sys_ok s.
Proof using Hprogram. apply sys_steps_ok, sys_start_ok. Qed.

(** C11: Every run of handlers and tasks of main.rs is a sequence of sections
    [Lock; Access ..; Unlock], each the steps of one task with no step
    of another task in between, and of awaits outside the sections:
    what a handler does under the lock is one step of the server. *)
Theorem program_atomic tr s :
  sys_steps (sys_start spawned) tr s → atomic_run None tr = true.
Proof using Hprogram. apply (sys_steps_atomic _ _ _ sys_start_ok). Qed.

(** A task that reaches [clients.lock().await] and is scheduled finds
    the lock free: the lock never makes a task wait. *)
Theorem lock_never_contended tr s id rest :
  sys_steps (sys_start spawned) tr s →
  tasks s !! id = Some (Lock :: rest) → may_run id s →
  ∃ s', sys_exec (ran id Lock) s = Some s' ∧ holder s' = Some id.
Proof using Hprogram.
  intros Hst Hops Hrun. exists (sys_after (ran id Lock) rest s).
  split; [|done]. apply task_runs; [by eapply sys_reach_ok|done..].
Qed.

(** C18: No deadlock and no endless run once the turns of the loops are
    fixed: a run is no longer than the operations of the tasks, and a
    run that cannot go on has run every task to its end. *)
Theorem program_completes tr s :
  sys_steps (sys_start spawned) tr s →
  length tr ≤ remaining (sys_start spawned) ∧
  ((∀ e, sys_exec e s = None) → finished s).
Proof using Hprogram.
  intros Hst. split.
  - pose proof (sys_steps_remaining _ _ _ Hst). lia.
  - by apply stuck_finished, (sys_reach_ok tr).
Qed.

(** C29: An abort is final and needs no check by the aborted task: the task
    that the start of [client_connected] aborts stands at an await (the
    sleep or the lock) and does not hold the guard, so it is dropped there
    and takes no step afterwards; an eviction that was aborted never
    removes a client. *)
Theorem abort_cancels tr1 s1 e tr2 s v ops :
  sys_steps (sys_start spawned) tr1 s1 → sys_steps s1 (e :: tr2) s →
  ev_abort e = Some v → tasks s1 !! v = Some ops →
  at_yield ops = true ∧ holder s1 ≠ Some v ∧
  Forall (λ e', ev_task e' ≠ v) tr2.
Proof using Hprogram.
  intros Hst1 Hst Hv Hops. pose proof (sys_reach_ok _ _ Hst1) as Hok.
  inversion Hst as [|? ? s2 ? ? Hx Hst2]; simplify_eq.
  pose proof Hx as (rest & _ & _ & Hen & Hab & _)%sys_exec_Some.
  destruct (may_abort_Some _ _ Hab Hv) as [Hop Hne].
  rewrite Hop in Hen. simpl in Hen.
  assert (holder s1 ≠ Some v) as Hh by congruence.
  pose proof (sk_tasks s1 Hok v ops Hops) as Hb.
  rewrite bool_decide_eq_false_2 in Hb by done.
  split_and!; [by apply bracketed_free|done|].
  eapply sys_steps_ended; [|done]. by eapply sys_exec_aborted.
Qed.
End program.

(** ** Witnesses *)

Lemma spawned_session_program :
  map_Forall (λ _ p, p.1 ∈ program) spawned_session.
Proof. compute_done. Qed.

Lemma run_session_steps :
  sys_steps (sys_start spawned_session) run_session sys_session.
Proof. apply sys_run_steps. by vm_compute. Qed.

Lemma run_checked_steps :
  sys_steps (sys_start spawned_session) (take 3 run_session) sys_checked.
Proof. apply sys_run_steps. by vm_compute. Qed.

Lemma run_aborting_steps :
  sys_steps (sys_start spawned_session) (take 24 run_session) sys_aborting.
Proof. apply sys_run_steps. by vm_compute. Qed.

Lemma run_aborted_steps :
  sys_steps sys_aborting (drop 24 run_session) sys_session.
Proof. apply sys_run_steps. by vm_compute. Qed.

Lemma program_bracketed_witness :
  bracketed false (unroll [3] client_connected_ops) = true.
Proof. apply program_bracketed. compute_done. Defined.

Lemma program_atomic_witness : atomic_run None run_session = true.
Proof.
  exact (program_atomic spawned_session spawned_session_program
           run_session sys_session run_session_steps).
Defined.

(** The second registration gets the lock between the check and the insert
    of the first. *)
Lemma lock_never_contended_witness :
  ∃ s', sys_exec (ran 1 Lock) sys_checked = Some s' ∧ holder s' = Some 1.
Proof.
  apply (lock_never_contended spawned_session spawned_session_program
           (take 3 run_session) sys_checked 1
           (Access CRegisterCheck :: Unlock :: section CRegisterInsert)).
  - exact run_checked_steps.
  - by vm_compute.
  - right. by vm_compute.
Defined.

Lemma program_completes_witness :
  length run_session ≤ remaining (sys_start spawned_session) ∧
  ((∀ e, sys_exec e sys_session = None) → finished sys_session).
Proof.
  exact (program_completes spawned_session spawned_session_program
           run_session sys_session run_session_steps).
Defined.

(** The session runs every task to its end; the eviction task is the one
    that was aborted, with its critical section still to run. *)
Example sys_session_finished :
  finished sys_session ∧
  tasks sys_aborting !! 4 = Some (section CEvict) ∧
  remaining (sys_start spawned_session) = length run_session + 3.
Proof. split_and!; [compute_done|by vm_compute..]. Qed.

(** The eviction task has slept and stands before the lock when the second
    connection aborts it: it takes no step afterwards. *)
Lemma abort_cancels_witness :
  at_yield (section CEvict) = true ∧ holder sys_aborting ≠ Some 4 ∧
  Forall (λ e', ev_task e' ≠ 4) (drop 25 run_session).
Proof.
  apply (abort_cancels spawned_session spawned_session_program
           (take 24 run_session) sys_aborting
           (Ev 5 (Access CAttach) (Some 4)) (drop 25 run_session)
           sys_session 4 (section CEvict)).
  - exact run_aborting_steps.
  - exact run_aborted_steps.
  - done.
  - by vm_compute.
Defined.

Lemma critical_section_atomic_witness :
  ev_task (Ev 5 (Access CAttach) (Some 4)) = 5 ∧
  (ev_op (Ev 5 (Access CAttach) (Some 4)) = Unlock ∨
   ∃ c, ev_op (Ev 5 (Access CAttach) (Some 4)) = Access c).
Proof.
  destruct (sys_exec (Ev 5 (Access CAttach) (Some 4)) sys_aborting)
    as [s'|] eqn:Hx; [|by vm_compute in Hx].
  apply (critical_section_atomic sys_aborting 5 _ s'); [|by vm_compute|done].
  exact (sys_steps_ok _ _ _ (sys_start_ok _ spawned_session_program)
           run_aborting_steps).
Defined.

Lemma registry_changes_in_sections_witness :
  clients (state_after [InTick 3] s_connected) = clients s_connected.
Proof.
  apply (registry_changes_in_sections s_connected (InTick 3) Silent);
    [by split|done].
Defined.
