(* ===== verification/Schedules.v ===== *)
(** * Schedules: the orders of critical sections that the lock allows

    File [Locking] shows that the critical sections of a run follow each
    other without overlap.  This file shows which orders of sections occur:
    all those that keep, for every task, the order of its own sections, and
    no other.  The lock serialises sections, not handlers: between two
    sections of one handler (the check and the insert of a registration,
    main.rs lines 57-60 and 79-82; the start and the clean-up of
    [client_connected], lines 97-108 and 125-141) every section of every
    other task may run.  The interleavings of file [Races] are runs of the
    program under its lock.

    - [sections] projects a run onto its critical sections, each with its
      task; [in_program_order] says that a list of sections takes the
      sections of each task in the order of its script;
    - [schedule] is an executable scheduler: given an order of sections it
      runs each task up to the end of its next section ([advance]);
    - [schedule_sound]: what it returns is a run with these sections;
      [schedule_complete]: it returns a run for every order that is in
      program order; [run_in_program_order]: every run is in program order;
    - [section_orders] puts them together for the handlers and tasks of
      main.rs. *)

From S2P Require Import Prelude Strings Json Model Runtime Registry Lifecycle Router Server Routes Service Locking.

(** ** Sections of a run *)

Definition section_of (e : Event) : option (nat * Critical) :=
  match ev_op e with
  | Access c => Some (ev_task e, c)
  | _ => None
  end.

Definition sections (tr : list Event) : list (nat * Critical) :=
  omap section_of tr.

(** The sections of task [id] in a list of sections. *)
Definition task_sections (id : nat) (secs : list (nat * Critical))
    : list Critical :=
  (filter (λ p, p.1 = id) secs).*2.

(** What is left of task [id]. *)
Definition rest_of (id : nat) (ts : gmap nat (list Op)) : list Op :=
  default [] (ts !! id).

Definition in_program_order (secs : list (nat * Critical))
    (ts : gmap nat (list Op)) : Prop :=
  ∀ id, task_sections id secs `prefix_of` accesses (rest_of id ts).

(** ** The shape of a task *)

(** Where a task stands: outside a section, after [lock().await], after
    its access to the registry. *)
Inductive Pos := Outside | Locked | Accessed.

(** [sectioned p ops]: from position [p] on, [ops] is made of awaits and of
    sections [Lock; Access c; Unlock]. *)
Fixpoint sectioned (p : Pos) (ops : list Op) : bool :=
  match ops, p with
  | [], Outside => true
  | Await :: rest, Outside => sectioned Outside rest
  | Lock :: rest, Outside => sectioned Locked rest
  | Access _ :: rest, Locked => sectioned Accessed rest
  | Unlock :: rest, Accessed => sectioned Outside rest
  | _, _ => false
  end.

Definition script_sectioned (sc : Script) : bool :=
  forallb (λ b, sectioned Outside (block_ops b)) sc.

(** A state between two sections. *)
Definition idle (s : Sys) : Prop := sys_ok s ∧ holder s = None.

(** ** The scheduler *)

(** The events of task [id] up to the end of its next section, which is to
    be [c], and what is left of the task. *)
Fixpoint advance (id : nat) (c : Critical) (ops : list Op)
    : option (list Event * list Op) :=
  match ops with
  | Await :: rest =>
    '(evs, rest') ← advance id c rest; Some (ran id Await :: evs, rest')
  | Lock :: Access c' :: Unlock :: rest =>
    if decide (c' = c) then Some (ran id <$> section c, rest) else None
  | _ => None
  end.

Fixpoint schedule (secs : list (nat * Critical)) (ts : gmap nat (list Op))
    : option (list Event) :=
  match secs with
  | [] => Some []
  | (id, c) :: secs' =>
    ops ← ts !! id;
    '(evs, rest) ← advance id c ops;
    tr ← schedule secs' (<[id := rest]> ts);
    Some (evs ++ tr)
  end.

(** ** Orders of the session of file [Locking] *)

(** The two registrations overlap: both checks, then both inserts. *)
Definition order_overlap : list (nat * Critical) :=
  [(0, CRegisterCheck); (1, CRegisterCheck);
   (0, CRegisterInsert); (1, CRegisterInsert)].

(** The second connection starts before the first is cleaned up, and the
    eviction that the first clean-up spawns runs while the second
    connection is open. *)
Definition order_stale_cleanup : list (nat * Critical) :=
  [(2, CAttach); (5, CAttach); (2, CDetach); (4, CEvict); (5, CDetach)].

(** An insert before the check of the same registration: not an order of
    the program. *)
Definition order_reversed : list (nat * Critical) :=
  [(0, CRegisterInsert); (0, CRegisterCheck)].

(** ** Lemmas on sections *)

Lemma sections_app tr1 tr2 :
  sections (tr1 ++ tr2) = sections tr1 ++ sections tr2.
Proof. apply omap_app. Qed.

Lemma task_sections_cons id p secs :
  task_sections id (p :: secs) =
  (if decide (p.1 = id) then [p.2] else []) ++ task_sections id secs.
Proof. unfold task_sections. rewrite filter_cons. by case_decide. Qed.

Lemma task_sections_app id secs1 secs2 :
  task_sections id (secs1 ++ secs2) =
  task_sections id secs1 ++ task_sections id secs2.
Proof. unfold task_sections. by rewrite filter_app, fmap_app. Qed.

Lemma sections_awaits id n : sections (ran id <$> replicate n Await) = [].
Proof. by induction n. Qed.

Lemma rest_of_insert id id' ops ts :
  rest_of id' (<[id := ops]> ts) =
  if decide (id' = id) then ops else rest_of id' ts.
Proof.
  unfold rest_of. case_decide as Hid; [subst; by rewrite lookup_insert_eq|].
  by rewrite lookup_insert_ne.
Qed.

(** ** Lemmas on the shape of tasks *)

Lemma sectioned_app p ops1 ops2 :
  sectioned Outside ops2 = true →
  sectioned p (ops1 ++ ops2) = sectioned p ops1.
Proof.
  intros H2. revert p.
  induction ops1 as [|[] ops1 IH]; intros []; simpl; rewrite ?IH; try done;
    by destruct ops2 as [|[] ?].
Qed.

Lemma sectioned_bracketed p ops :
  sectioned p ops = true →
  bracketed (if p is Outside then false else true) ops = true.
Proof.
  revert p. induction ops as [|[] ops IH]; intros []; simpl; try done;
    intros Hs; by apply IH in Hs.
Qed.

Lemma unroll_sectioned counts sc :
  script_sectioned sc = true → sectioned Outside (unroll counts sc) = true.
Proof.
  intros Hsc. apply (unroll_closed (λ ops, sectioned Outside ops = true));
    [done|by intros; rewrite sectioned_app|].
  apply Is_true_true_2, forallb_True in Hsc.
  eapply Forall_impl; [done|]. intros b. apply Is_true_true_1.
Qed.

Lemma program_sectioned : Forall (λ sc, script_sectioned sc = true) program.
Proof. compute_done. Qed.

(** ** Lemmas on the scheduler *)

Lemma advance_Some id c ops evs rest :
  advance id c ops = Some (evs, rest) →
  ∃ n, ops = replicate n Await ++ section c ++ rest ∧
       evs = ran id <$> (replicate n Await ++ section c).
Proof.
  revert evs. induction ops as [|[] ops IH]; intros evs; simpl; try done.
  - destruct ops as [|[] [|[] ops']]; try done.
    case_decide; [|done]. intros [= <- <-]. subst. by exists 0.
  - destruct (advance id c ops) as [[evs0 rest0]|]; simpl; [|done].
    intros [= <- <-]. destruct (IH _ eq_refl) as (n & -> & ->).
    by exists (S n).
Qed.

Lemma advance_complete id c ops acc :
  sectioned Outside ops = true → accesses ops = c :: acc →
  ∃ evs rest, advance id c ops = Some (evs, rest) ∧ accesses rest = acc ∧
    sectioned Outside rest = true.
Proof.
  induction ops as [|[] ops IH]; simpl; try done.
  - destruct ops as [|[] [|[] ops']]; simpl; try done.
    intros Hs [= <- <-]. rewrite decide_True by done. eauto.
  - intros Hs Hacc. destruct (IH Hs Hacc) as (evs & rest & -> & ? & ?).
    simpl. eauto.
Qed.

(** Between two sections every task may run. *)
Lemma idle_may_run s id : idle s → may_run id s.
Proof.
  intros [Hok Hh]. right. destruct (current s) as [c|]; simpl; [|done].
  destruct (tasks s !! c) as [ops|] eqn:Hops; simpl; [|done].
  apply bracketed_free. pose proof (sk_tasks s Hok c ops Hops) as Hb.
  by rewrite Hh, bool_decide_eq_false_2 in Hb.
Qed.

(** A task that may run can do any number of its operations in a row. *)
Lemma task_steps s id pre rest :
  sys_ok s → tasks s !! id = Some (pre ++ rest) → may_run id s →
  ∃ s', sys_steps s (ran id <$> pre) s' ∧ sys_ok s' ∧
    tasks s' = <[id := rest]> (tasks s) ∧
    holder s' = foldl (λ h op, match op with
                               | Lock => Some id
                               | Unlock => None
                               | _ => h
                               end) (holder s) pre.
Proof.
  revert s. induction pre as [|op pre IH]; intros s Hok Hops Hrun; simpl.
  { exists s. split_and!; [constructor|done|by rewrite insert_id|done]. }
  pose proof (task_runs s id op (pre ++ rest) Hok Hops Hrun) as Hx.
  destruct (IH (sys_after (ran id op) (pre ++ rest) s))
    as (s' & Hst & Hok' & Hts & Hh);
    [by eapply sys_exec_ok|by simpl; rewrite lookup_insert_eq|by left|].
  exists s'. split_and!; [by econstructor|done| |done].
  rewrite Hts. simpl. by rewrite insert_insert_eq.
Qed.

(** From a state between two sections a task can run to the end of its
    next section, and the state is again between two sections. *)
Lemma section_steps s id n c rest :
  idle s → tasks s !! id = Some (replicate n Await ++ section c ++ rest) →
  ∃ s', sys_steps s (ran id <$> (replicate n Await ++ section c)) s' ∧
    idle s' ∧ tasks s' = <[id := rest]> (tasks s).
Proof.
  intros Hidle Hops.
  destruct (task_steps s id (replicate n Await ++ section c) rest)
    as (s' & Hst & Hok & Hts & Hh);
    [apply Hidle|by rewrite <- (assoc (++))|by apply idle_may_run|].
  exists s'. split_and!; [done| |done]. split; [done|].
  by rewrite Hh, foldl_app.
Qed.

(** What the scheduler returns is a run with the sections asked for. *)
Lemma schedule_sound secs s tr :
  idle s → schedule secs (tasks s) = Some tr →
  ∃ s', sys_steps s tr s' ∧ idle s' ∧ sections tr = secs.
Proof.
  revert s tr. induction secs as [|[id c] secs IH]; intros s tr Hidle; simpl.
  { intros [= <-]. exists s. by split_and!; [constructor|..]. }
  intros (ops & Hops & Hs)%bind_Some.
  destruct (advance id c ops) as [[evs rest]|] eqn:Hadv; simpl in Hs; [|done].
  apply bind_Some in Hs as (tr' & Htr' & [= <-]).
  apply advance_Some in Hadv as (n & -> & ->).
  destruct (section_steps s id n c rest Hidle Hops)
    as (s1 & Hst1 & Hidle1 & Hts).
  rewrite <- Hts in Htr'.
  destruct (IH s1 tr' Hidle1 Htr') as (s' & Hst & Hidle' & Hsecs).
  exists s'. split_and!; [apply sys_steps_app; eauto|done|].
  by rewrite sections_app, fmap_app, sections_app, sections_awaits, Hsecs.
Qed.

(** The scheduler finds a run for every order that is in program order. *)
Lemma schedule_complete secs ts :
  map_Forall (λ _ ops, sectioned Outside ops = true) ts →
  in_program_order secs ts → is_Some (schedule secs ts).
Proof.
  revert ts. induction secs as [|[id c] secs IH]; intros ts Hts Hord; simpl;
    [done|].
  pose proof (Hord id) as Hid. unfold rest_of in Hid.
  rewrite task_sections_cons, decide_True in Hid by done. simpl in Hid.
  destruct (ts !! id) as [ops|] eqn:Hops; simpl in *;
    [|by apply prefix_nil_not in Hid].
  destruct (accesses ops) as [|c' acc] eqn:Hacc;
    [by apply prefix_nil_not in Hid|].
  pose proof (prefix_cons_inv_1 _ _ _ _ Hid) as <-.
  apply prefix_cons_inv_2 in Hid.
  destruct (advance_complete id c ops acc) as (evs & rest & -> & Hrest & Hsec);
    [by eapply Hts|done|]. simpl.
  destruct (IH (<[id := rest]> ts)) as [tr ->];
    [by apply map_Forall_insert_2| |done].
  intros id'. rewrite rest_of_insert. case_decide as Hid'; [by subst|].
  specialize (Hord id'). by rewrite task_sections_cons, decide_False in Hord.
Qed.

(** A step takes the next operation of its task, and leaves of every other
    task what there was or, when it aborts the task, nothing. *)
Lemma sys_exec_sections e s s' id :
  sys_exec e s = Some s' →
  task_sections id (sections [e]) ++ accesses (rest_of id (tasks s'))
    `prefix_of` accesses (rest_of id (tasks s)).
Proof.
  intros (rest & Hops & _ & _ & Hab & ->)%sys_exec_Some.
  unfold rest_of, sections, section_of. simpl.
  destruct (decide (ev_abort e = Some id)) as [Hv|Hv].
  - destruct (may_abort_Some _ _ Hab Hv) as [-> Hne]. simpl.
    rewrite task_sections_cons, decide_False by done.
    rewrite Hv, lookup_cancel_eq. destruct (<[_:=_]> _ !! id); apply prefix_nil.
  - rewrite lookup_cancel_ne by done.
    destruct (decide (id = ev_task e)) as [->|Hne].
    + rewrite lookup_insert_eq, Hops. simpl. destruct (ev_op e); simpl;
        rewrite ?task_sections_cons, ?decide_True by done; done.
    + rewrite lookup_insert_ne by done. destruct (ev_op e); simpl;
        rewrite ?task_sections_cons, ?decide_False by done; done.
Qed.

Lemma sys_steps_sections s tr s' id :
  sys_steps s tr s' →
  task_sections id (sections tr) ++ accesses (rest_of id (tasks s'))
    `prefix_of` accesses (rest_of id (tasks s)).
Proof.
  induction 1 as [|s e s1 tr s' Hx _ IH]; [done|].
  change (e :: tr) with ([e] ++ tr).
  rewrite sections_app, task_sections_app, <- (assoc (++)).
  etrans; [by apply prefix_app|]. by apply sys_exec_sections.
Qed.

(** Every run takes the sections of each task in the order of the task. *)
Lemma run_in_program_order s tr s' :
  sys_steps s tr s' → in_program_order (sections tr) (tasks s).
Proof.
  intros Hst id. eapply prefix_app_l. by apply sys_steps_sections.
Qed.

(** The scheduler decides whether an order is in program order. *)
Lemma schedule_iff secs ts :
  map_Forall (λ _ ops, sectioned Outside ops = true) ts →
  is_Some (schedule secs ts) ↔ in_program_order secs ts.
Proof.
  intros Hts. split; [|by apply schedule_complete].
  intros [tr Htr]. destruct (schedule_sound secs (sys_init ts) tr)
    as (s' & Hst & _ & <-); [|done|by eapply run_in_program_order in Hst].
  split; [|done]. apply sys_init_ok. intros id ops Hops.
  by apply (sectioned_bracketed Outside), (Hts id).
Qed.

(** ** The orders of the program *)

Section program.
Context (spawned : gmap nat (Script * list nat)).
Context (Hprogram : map_Forall (λ _ p, p.1 ∈ program) spawned).

Lemma sys_start_sectioned :
  map_Forall (λ _ ops, sectioned Outside ops = true)
    (tasks (sys_start spawned)).
Proof using Hprogram.
  intros id ops. simpl. rewrite lookup_fmap_Some.
  intros ([sc counts] & <- & Hsc). apply unroll_sectioned.
  by apply (proj1 (Forall_forall _ _) program_sectioned), (Hprogram id _ Hsc).
Qed.

(** Every order that is in program order is the order of a run. *)
Lemma order_runs secs :
  in_program_order secs (tasks (sys_start spawned)) →
  ∃ tr s, sys_steps (sys_start spawned) tr s ∧ sections tr = secs.
Proof using Hprogram.
  intros [tr Htr]%(schedule_complete _ _ sys_start_sectioned).
  destruct (schedule_sound secs (sys_start spawned) tr) as (s & ? & _ & ?);
    [split; [by apply sys_start_ok|done]|done|eauto].
Qed.


(** An order is the order of a run exactly when the scheduler finds a run
    for it. *)
Lemma order_runs_schedule secs :
  is_Some (schedule secs (tasks (sys_start spawned))) →
  ∃ tr s, sys_steps (sys_start spawned) tr s ∧ sections tr = secs.
Proof using Hprogram.
  intros Hs. by apply order_runs, (schedule_iff _ _ sys_start_sectioned).
Qed.
End program.

(** ** Witnesses *)


(** The overlap of the two registrations and the late clean-up of a first
    connection are orders of the program; an insert before its check is
    not. *)
Example orders_of_session :
  in_program_order order_overlap (tasks (sys_start spawned_session)) ∧
  in_program_order order_stale_cleanup (tasks (sys_start spawned_session)) ∧
  ¬ in_program_order order_reversed (tasks (sys_start spawned_session)).
Proof.
  pose proof (sys_start_sectioned _ spawned_session_program) as Hts.
  rewrite <- !(schedule_iff _ _ Hts). split_and!; [compute_done..|].
  intros [tr Htr]. by vm_compute in Htr.
Qed.

(** The run that the scheduler builds for the overlap of the two
    registrations. *)
Example schedule_overlap :
  schedule order_overlap (tasks (sys_start spawned_session)) =
  Some ((ran 0 <$> section CRegisterCheck) ++
        (ran 1 <$> section CRegisterCheck) ++
        (ran 0 <$> section CRegisterInsert) ++
        (ran 1 <$> section CRegisterInsert)).
Proof. by vm_compute. Qed.
