(* ===== verification/Races.v ===== *)
(** * Races: interleavings in which the program departs from the specification

    The handlers of main.rs give up the lock between their critical
    sections, and [client_connected] identifies its client by token, not by
    connection.  Three interleavings follow that the specification rules
    out.  Each theorem starts from any state that satisfies its hypotheses,
    names the run, and states what the run ends in:

    - [registration_overlap]: two registrations of one name that both pass
      the check (lines 57-61) before either inserts (lines 79-82) are both
      answered with a token; the second insert replaces the first client;
    - [stale_cleanup_evicts_connected]: the clean-up of a connection (lines
      125-141) starts an eviction although the client has attached a newer
      connection, and the eviction removes the client while that connection
      is open;
    - [upgrade_then_evicted]: an upgrade admitted by [ws_handler] (line 156)
      is overtaken by the eviction of its client; [client_connected] then
      attaches to nobody and keeps the socket open.

    The lock of the registry excludes none of them: [races_scheduled] shows
    that the critical sections of each run, in the order of the run, are
    the sections of a run of the handlers and tasks under the lock (file
    [Schedules]).  File [Scenarios] runs one instance of each from the
    initial state. *)

From S2P Require Import Prelude Strings Json Model Runtime Registry Lifecycle Router Server Invariants Safety Progress Order Eviction Locking Schedules.

(** The reply to a registration that was given a token. *)
Definition token_reply (t : string) : Output :=
  Replied (Ok (json {| resp_token := Some t; resp_error := None |})).

Section races.
Context `{!Lowercase}.
Implicit Types (s : Server) (t : string).

(** ** Runs *)

Definition overlap (t1 t2 : string) (r1 r2 : RegistrationRequest) : list Input :=
  [InRegisterCheck r1; InRegisterCheck r2;
   InRegisterInsert t1 r1; InRegisterInsert t2 r2].

Definition stale_cleanup (ch_old : nat) s : list Input :=
  [InDisconnected ch_old; InTick GRACE_PERIOD; InTimerFire (next_id s)].

Definition overtaken_upgrade t (id : nat) s : list Input :=
  [InWsUpgrade t; InTimerFire id; InConnected (next_id s)].

(** The tasks of the three runs: two registrations; an old and a new
    connection of one client and the eviction task that the clean-up of
    the old one spawns; an upgrade, the connection it leads to and the
    eviction task that overtakes it. *)
Definition race_tasks : gmap nat (Script * list nat) :=
  {[ 0 := (handle_registration_ops, [1]);
     1 := (handle_registration_ops, [1]);
     2 := (client_connected_ops, [0]);
     3 := (client_connected_ops, [0]);
     4 := (eviction_ops, []);
     5 := (ws_handler_ops, []);
     6 := (client_connected_ops, [0]);
     7 := (eviction_ops, []) ]}.

(** The critical sections of a run of the transition system, each with
    the task that runs it. *)
Definition order_of (who : list nat) (trace : list Input)
    : list (nat * Critical) :=
  zip who (omap critical_of trace).

(** ** Lemmas *)

Lemma tokens_issued_fresh s t : tokens_issued s → t ∉ issued s → token_fresh t (clients s).
Proof. intros Hi Ht k c Hk <-. by apply Ht, (Hi k c). Qed.

(** ** Theorems *)

(** C22: registrations of one name are not atomic.  In any state in which
    the name is free, two registrations of it, in any case, whose checks
    both run before the first insert are both answered 200 with a token;
    the registry ends with the second client under the name, and the token
    given to the first is one no client carries: its owner is answered
    404 from then on. *)
Theorem registration_overlap s t1 t2 r1 r2 :
  tokens_issued s →
  to_lowercase (reg_name r1) = to_lowercase (reg_name r2) →
  clients s !! to_lowercase (reg_name r1) = None →
  t1 ∉ issued s → t2 ∉ issued s → t1 ≠ t2 →
  ∃ s',
    run (overlap t1 t2 r1 r2) s =
      Some (s', [Silent; Silent; token_reply t1; token_reply t2]) ∧
    clients s' =
      <[to_lowercase (reg_name r2) :=
          {| name := reg_name r2; token := t2;
             disconnect_timer := None; tx := None |}]> (clients s) ∧
    handle_status t1 (clients s') = Err reject.
Proof.
  intros Hi Hci Hfree H1 H2 Hne.
  pose proof (proj2 (registration_check_None r1 (clients s)) Hfree) as Hc1.
  rewrite Hci in Hfree.
  pose proof (proj2 (registration_check_None r2 (clients s)) Hfree) as Hc2.
  eexists. split_and!.
  - unfold overlap. cbn [run]. simpl.
    unfold exec_register_check. rewrite Hc1. simpl. rewrite Hc2. simpl.
    rewrite (option_guard_True (t1 ∉ issued s)) by done. simpl.
    rewrite option_guard_True by (right; left). simpl.
    rewrite option_guard_True by set_solver. simpl.
    rewrite option_guard_True by (case_decide; subst; left).
    simpl. reflexivity.
  - simpl. by rewrite Hci, insert_insert_eq.
  - apply handle_status_fresh. simpl. rewrite Hci, insert_insert_eq.
    intros k c [[_ <-]|[_ Hk]]%lookup_insert_Some; simpl; [done|].
    by apply (tokens_issued_fresh s t1 Hi H1 k c).
Qed.

(** C23: a client can be evicted while it is connected.  When a client has
    attached a connection and an older connection opened with the same
    token is closed, the clean-up of the older one starts an eviction; once
    the grace period has passed the eviction removes the client, although
    the newer socket is open and its task in its read loop.  No client
    carries the token afterwards. *)
Theorem stale_cleanup_evicts_connected s t k c ch_old c_old ch_new c_new :
  clients s !! k = Some c → token c = t → tx c = Some ch_new →
  conns s !! ch_old = Some c_old → conn_token c_old = t →
  phase c_old = Running → ws_open c_old = false →
  conns s !! ch_new = Some c_new → ch_new ≠ ch_old →
  phase c_new = Running → ws_open c_new = true →
  ∃ s',
    run (stale_cleanup ch_old s) s = Some (s', [Silent; Silent; Silent]) ∧
    clients s' !! k = None ∧ token_fresh t (clients s') ∧
    conns s' !! ch_new = Some c_new.
Proof.
  intros Hk Ht Htx Hold Hto Hpo Hoo Hnew Hne Hpn Hon.
  unfold stale_cleanup. cbn [run]. simpl. rewrite Hold. simpl.
  rewrite option_guard_True by done. simpl.
  unfold exec_disconnected. rewrite Hto.
  destruct (detach_lookup t (next_id s) (now s) (clients s) (timers s) k c Hk)
    as (c' & Hk' & _ & Ht').
  destruct (detach_cases t (next_id s) (now s) (clients s) (timers s))
    as [[Hf _]|(k0 & c0 & _ & _ & E)]; [by destruct (Hf k c Hk)|].
  rewrite E in Hk' |- *. simpl in *. rewrite lookup_insert_eq. simpl.
  rewrite option_guard_True by (apply due_spec; simpl; lia). simpl.
  eexists. split_and!; [done|..]; simpl.
  - apply eq_None_not_Some. intros [c1 [Hc1 Hn]%evict_lookup].
    simplify_eq; congruence.
  - apply evict_token_fresh.
  - by rewrite lookup_insert_ne.
Qed.

(** C24: an upgrade can be overtaken by the eviction of its client.  When
    the token of a client is admitted by [ws_handler] and the eviction of
    that client, already due, runs before [client_connected] starts, the
    attach finds no client; the connection is kept all the same, open and
    in its read loop, for a token that nobody carries. *)
Theorem upgrade_then_evicted s t k c id task :
  clients s !! k = Some c → token c = t →
  timers s !! id = Some task → timer_token task = t →
  due (now s) task = true →
  ∃ s',
    run (overtaken_upgrade t id s) s =
      Some (s', [Replied (Ok on_upgrade); Silent; Silent]) ∧
    token_fresh t (clients s') ∧
    conns s' !! next_id s =
      Some {| conn_token := t; phase := Running; ws_open := true;
              channel := []; ws_sent := [] |}.
Proof.
  intros Hk Ht Hid Htt Hdue.
  unfold overtaken_upgrade. cbn [run]. simpl. unfold exec_ws_upgrade.
  assert (ws_handler t (clients s) = Ok on_upgrade) as ->.
  { unfold ws_handler. rewrite (proj2 (map_any_true _ _)); [done|].
    exists k, c. split; [done|]. by apply bool_decide_eq_true. }
  simpl. rewrite Hid. simpl. rewrite option_guard_True by done. simpl.
  rewrite lookup_insert_eq. simpl. unfold exec_connected. simpl.
  rewrite Htt, attach_unknown by apply evict_token_fresh. simpl.
  eexists. split_and!; [done|apply evict_token_fresh|].
  simpl. by rewrite lookup_insert_eq.
Qed.

End races.

(** The three runs are runs under the lock: the critical sections of each,
    in its order and each with its task, are the sections of a run of the
    handlers and tasks of main.rs.  The second run starts after the old
    and the new connection have started. *)
Theorem races_scheduled t1 t2 r1 r2 ch_old t id s :
  Forall (λ secs, ∃ tr s', sys_steps (sys_start race_tasks) tr s' ∧
                           sections tr = secs)
    [order_of [0; 1; 0; 1] (overlap t1 t2 r1 r2);
     [(2, CAttach); (3, CAttach)] ++ order_of [2; 4] (stale_cleanup ch_old s);
     order_of [5; 7; 6] (overtaken_upgrade t id s)].
Proof.
  repeat constructor; apply order_runs_schedule; compute_done.
Qed.

(** ** Witnesses *)

Definition s_two_sockets : Server :=
  state_after
    (register_as "Bob" "tB" ++
     [InWsUpgrade "tB"; InConnected 0; InWsUpgrade "tB"; InConnected 1;
      InPeerClose 0]) init.

Lemma registration_overlap_witness :
  ∃ s',
    run (overlap "tA" "tB" {| reg_name := "Alice" |} {| reg_name := "ALICE" |})
      init = Some (s', [Silent; Silent; token_reply "tA"; token_reply "tB"]) ∧
    clients s' =
      <[to_lowercase "ALICE" :=
          {| name := "ALICE"; token := "tB";
             disconnect_timer := None; tx := None |}]> (clients init) ∧
    handle_status "tA" (clients s') = Err reject.
Proof.
  apply (registration_overlap init "tA" "tB" {| reg_name := "Alice" |}
           {| reg_name := "ALICE" |});
    [by intros k c ?|reflexivity|reflexivity|set_solver|set_solver|done].
Defined.

Lemma stale_cleanup_evicts_connected_witness :
  ∃ s',
    run (stale_cleanup 0 s_two_sockets) s_two_sockets =
      Some (s', [Silent; Silent; Silent]) ∧
    clients s' !! "bob" = None ∧ token_fresh "tB" (clients s') ∧
    conns s' !! 1 =
      Some {| conn_token := "tB"; phase := Running; ws_open := true;
              channel := []; ws_sent := [] |}.
Proof.
  apply (stale_cleanup_evicts_connected s_two_sockets "tB" "bob"
           {| name := "Bob"; token := "tB"; disconnect_timer := None;
              tx := Some 1 |}
           0 {| conn_token := "tB"; phase := Running; ws_open := false;
                channel := []; ws_sent := [] |} 1);
    (reflexivity || done).
Defined.

Lemma upgrade_then_evicted_witness :
  ∃ s',
    run (overtaken_upgrade "tB" 1 s_due) s_due =
      Some (s', [Replied (Ok on_upgrade); Silent; Silent]) ∧
    token_fresh "tB" (clients s') ∧
    conns s' !! next_id s_due =
      Some {| conn_token := "tB"; phase := Running; ws_open := true;
              channel := []; ws_sent := [] |}.
Proof.
  apply (upgrade_then_evicted s_due "tB" "bob"
           {| name := "Bob"; token := "tB"; disconnect_timer := Some 1;
              tx := Some 0 |}
           1 {| timer_token := "tB"; deadline := 10 |});
    reflexivity.
Defined.
