(* ===== verification/Scenarios.v ===== *)
(** * Scenarios: runs of the program

    Concrete runs of the transition function from the initial state, with
    the ASCII instance of the case folding.  The first three are the
    behaviours the specification lists as testable; the others exhibit
    reachable states in which the program departs from it (file [Races] has
    the general statements).  Every statement is checked by evaluating
    [run]. *)

From S2P Require Import Prelude Strings Json Model Runtime Registry Lifecycle Router Server Invariants Races.

(** ** Requests used in the runs *)

Definition register (n : string) : RegistrationRequest := {| reg_name := n |}.

(** The observation of a run: the outputs, and a view of the final state. *)
Definition observe {A} (view : Server → A) (trace : list Input)
    : option (A * list Output) :=
  '(s, os) ← run trace init; Some (view s, os).

(** ** The behaviours the specification lists *)

Definition trace_end_to_end : list Input :=
  register_as "Alice" "tA" ++ register_as "Bob" "tB" ++
  [InWsUpgrade "tB"; InConnected 0; InSendMessage hi_bob; InPump 0].

(** Alice and Bob register, Bob connects, Alice sends "hi" to "bob":
    the send is answered 200 and Bob's socket has received exactly one
    frame, the JSON object with [from] "Alice" and [body] "hi". *)
Theorem end_to_end :
  observe (λ s, ws_sent <$> conns s !! 0) trace_end_to_end =
  Some (Some [Message_to_json {| from := "Alice"; body := "hi" |}],
        [Silent; token_reply "tA"; Silent; token_reply "tB";
         Replied (Ok on_upgrade); Silent; Replied (Ok reply); Silent]).
Proof. vm_compute. reflexivity. Qed.

Definition trace_reconnect : list Input :=
  register_as "Bob" "tB" ++
  [InWsUpgrade "tB"; InConnected 0; InPeerClose 0; InDisconnected 0;
   InTick 9; InWsUpgrade "tB"; InConnected 2; InTick 2; InTimerFire 1].

(** Bob's socket closes and Bob reconnects nine seconds later: the
    task that would have evicted him is cancelled (the wake-up of task 1 is
    not enabled two seconds later), and he is registered with the name and
    token he had and the sender of the new channel. *)
Theorem reconnect_within_grace :
  run trace_reconnect init = None ∧
  observe (λ s, (clients s !! "bob", timers s))
    (take 10 trace_reconnect) =
  Some ((Some {| name := "Bob"; token := "tB";
                 disconnect_timer := None; tx := Some 2 |}, ∅),
        [Silent; token_reply "tB"; Replied (Ok on_upgrade); Silent; Silent;
         Silent; Silent; Replied (Ok on_upgrade); Silent; Silent]).
Proof. split; vm_compute; reflexivity. Qed.

Definition trace_expiry : list Input :=
  register_as "Bob" "tB" ++
  [InWsUpgrade "tB"; InConnected 0; InPeerClose 0; InDisconnected 0;
   InTick 9; InStatus "tB"; InTick 1; InTimerFire 1; InStatus "tB";
   InRegisterCheck (register "bob")].

(** Bob's socket closes and he does not reconnect: nine seconds later
    his status still resolves; once ten seconds have passed the eviction
    runs, his token is rejected and his name is free again. *)
Theorem expiry_after_grace :
  observe (λ s, (clients s, registering s)) trace_expiry =
  Some ((∅, [register "bob"]),
        [Silent; token_reply "tB"; Replied (Ok on_upgrade); Silent; Silent;
         Silent; Silent;
         Replied (Ok (json (mkClient "Bob" "" None None)));
         Silent; Silent; Replied (Err reject); Silent]).
Proof. vm_compute. reflexivity. Qed.

(** ** Departures from the specification *)

Definition trace_evicted_while_connected : list Input :=
  register_as "Bob" "tB" ++
  [InWsUpgrade "tB"; InConnected 0; InWsUpgrade "tB"; InConnected 1;
   InPeerClose 0; InDisconnected 0; InTick 10; InTimerFire 2;
   InStatus "tB"].

(** Bob opens a second connection before the server has noticed that
    the first is gone.  When the first is cleaned up an eviction task
    starts although the second is attached; ten seconds later Bob is
    removed from the registry while his second socket is open and its task
    is in its read loop. *)
Theorem evicted_while_connected :
  observe (λ s, (clients s, conns s !! 1)) trace_evicted_while_connected =
  Some ((∅, Some {| conn_token := "tB"; phase := Running; ws_open := true;
                    channel := []; ws_sent := [] |}),
        [Silent; token_reply "tB"; Replied (Ok on_upgrade); Silent;
         Replied (Ok on_upgrade); Silent; Silent; Silent; Silent; Silent;
         Replied (Err reject)]).
Proof. vm_compute. reflexivity. Qed.

Definition trace_registration_race : list Input :=
  [InRegisterCheck (register "Alice"); InRegisterCheck (register "ALICE");
   InRegisterInsert "tA" (register "Alice");
   InRegisterInsert "tB" (register "ALICE");
   InStatus "tA"; InStatus "tB"].

(** Two registrations of the same name, up to case, that both pass
    the check before either inserts are both answered 200 with a token; the
    second insert replaces the first client, whose token is then rejected. *)
Theorem registration_race :
  observe (λ s, map_to_list (clients s)) trace_registration_race =
  Some ([("alice", {| name := "ALICE"; token := "tB";
                      disconnect_timer := None; tx := None |})],
        [Silent; Silent; token_reply "tA"; token_reply "tB";
         Replied (Err reject);
         Replied (Ok (json (mkClient "ALICE" "" None None)))]).
Proof. vm_compute. reflexivity. Qed.

Definition trace_upgrade_race : list Input :=
  register_as "Bob" "tB" ++
  [InWsUpgrade "tB"; InConnected 0; InPeerClose 0; InDisconnected 0;
   InTick 10; InWsUpgrade "tB"; InTimerFire 1; InConnected 2;
   InStatus "tB"].

(** An upgrade is admitted while Bob is registered, the eviction runs
    before [client_connected] starts, and the attach finds nobody: the
    connection stays open and in its read loop for a token that no client
    carries. *)
Theorem upgrade_race :
  observe (λ s, (clients s, conns s !! 2)) trace_upgrade_race =
  Some ((∅, Some {| conn_token := "tB"; phase := Running; ws_open := true;
                    channel := []; ws_sent := [] |}),
        [Silent; token_reply "tB"; Replied (Ok on_upgrade); Silent; Silent;
         Silent; Silent; Replied (Ok on_upgrade); Silent; Silent;
         Replied (Err reject)]).
Proof. vm_compute. reflexivity. Qed.

Definition trace_lost_in_grace : list Input :=
  register_as "Alice" "tA" ++ register_as "Bob" "tB" ++
  [InWsUpgrade "tB"; InConnected 0; InPeerClose 0; InDisconnected 0;
   InSendMessage hi_bob; InPump 0].

(** A message sent to Bob after his socket has closed is answered 200
    like a delivered one; the pump then takes it from the channel and
    drops it, and no frame is written. *)
Theorem lost_in_grace :
  observe (λ s, conns s !! 0) trace_lost_in_grace =
  Some (Some {| conn_token := "tB"; phase := Finished; ws_open := false;
                channel := []; ws_sent := [] |},
        [Silent; token_reply "tA"; Silent; token_reply "tB";
         Replied (Ok on_upgrade); Silent; Silent; Silent;
         Replied (Ok reply); Silent]).
Proof. vm_compute. reflexivity. Qed.

Definition trace_two_timers : list Input :=
  register_as "Bob" "tB" ++
  [InWsUpgrade "tB"; InConnected 0; InWsUpgrade "tB"; InConnected 1;
   InPeerClose 0; InDisconnected 0; InTick 3; InPeerClose 1;
   InDisconnected 1].

(** Two disconnections of the same token in a row leave two eviction tasks
    pending; the client stores the handle of the second only. *)
Theorem two_timers_pending :
  observe (λ s, (map_to_list (timers s),
                 disconnect_timer <$> clients s !! "bob")) trace_two_timers =
  Some (([(2, {| timer_token := "tB"; deadline := 10 |});
          (3, {| timer_token := "tB"; deadline := 13 |})], Some (Some 3)),
        [Silent; token_reply "tB"; Replied (Ok on_upgrade); Silent;
         Replied (Ok on_upgrade); Silent; Silent; Silent; Silent; Silent;
         Silent]).
Proof. vm_compute. reflexivity. Qed.
